(** * Vectrix SDK: the deterministic physics-and-collision core

    A shallow embedding of the simulation engine of [vectrix-lab/sdk]
    (TypeScript): the vector kernel, the integrators, the seeded random
    generator, the fixed-step clock, the broadphase backends, the ray casts,
    contact resolution, snapshot serialization and the simulation loop.

    JavaScript's [number] is kept abstract behind the class [Number] so that
    every source function is written once.  Two interpretations are given:
    - [float], IEEE 754 binary64 with round-to-nearest-even, which is what a
      JavaScript engine computes; it is used to run the code on concrete
      inputs, special values ([NaN], [Infinity]) included;
    - [Q], exact rational arithmetic, used where a property is an algebraic
      or order-theoretic fact about the formulas of the code.
    Properties that only depend on the control flow are proved for every
    interpretation at once. *)

From Stdlib Require Import ZArith QArith Qround Qminmax Lia Lqa Bool List.
From Stdlib Require Import Ascii String Floats.
From Stdlib Require Import Sorting.Permutation Sorting.Sorted.
From Stdlib Require DecimalString HexadecimalString.
Import ListNotations.

Set Warnings "-inexact-float".

(* ================================================================== *)
(** * Numbers *)
(* ================================================================== *)

(** The arithmetic and the comparisons the engine uses on [number].
    [a > b] is [nltb b a], [a >= b] is [nleb b a] and [a === b] is
    [neqb a b]; on binary64 every comparison with [NaN] is [false].  [nmin] and [nmax] are
    [Math.min] and [Math.max] of two arguments. *)
Class Number (num : Type) : Type := {
  nadd : num -> num -> num;
  nsub : num -> num -> num;
  nmul : num -> num -> num;
  ndiv : num -> num -> num;
  nopp : num -> num;
  nltb : num -> num -> bool;
  nleb : num -> num -> bool;
  neqb : num -> num -> bool;
  nmin : num -> num -> num;
  nmax : num -> num -> num;
  nofZ : Z -> num
}.

Declare Scope js_scope.
Delimit Scope js_scope with js.
Infix "+" := nadd : js_scope.
Infix "-" := nsub : js_scope.
Infix "*" := nmul : js_scope.
Infix "/" := ndiv : js_scope.
Notation "- a" := (nopp a) : js_scope.
Infix "<?" := nltb : js_scope.
Infix "<=?" := nleb : js_scope.
Infix "=?" := neqb : js_scope.
Notation "a >? b" := (nltb b a) (at level 70) : js_scope.
Notation "a >=? b" := (nleb b a) (at level 70) : js_scope.

(** A decimal literal [n/d] of the source, such as [0.99 = 99/100].  On
    binary64 the correctly rounded quotient of two small integers is the
    double nearest to the decimal, which is how the literal is read. *)
Definition dec {num} `{Number num} (n d : Z) : num := (nofZ n / nofZ d)%js.

(** What only binary64 offers: [Math.sqrt], [Math.abs], [Math.min],
    [Math.max], [Number.isNaN], [Number.isFinite] and [Infinity]. *)
Module JsMath.

Definition sqrt (a : float) : float := PrimFloat.sqrt a.

Definition abs (a : float) : float := PrimFloat.abs a.

Definition isNaN (a : float) : bool := PrimFloat.is_nan a.

Definition isFinite (a : float) : bool :=
  negb (PrimFloat.is_nan a) && negb (PrimFloat.is_infinity a).

Definition Infinity : float := PrimFloat.infinity.

(** [true] on [-0] and on the negative numbers. *)
Definition signbit (a : float) : bool :=
  PrimFloat.ltb (PrimFloat.div 1%float a) 0%float || PrimFloat.ltb a 0%float.

(** [Math.min(a, b)]: [NaN] if either is [NaN], and [-0 < +0]. *)
Definition min2 (a b : float) : float :=
  if PrimFloat.is_nan a || PrimFloat.is_nan b then PrimFloat.nan
  else if PrimFloat.ltb a b then a
  else if PrimFloat.ltb b a then b
  else if signbit a then a else b.

(** [Math.max(a, b)]: [NaN] if either is [NaN], and [+0 > -0]. *)
Definition max2 (a b : float) : float :=
  if PrimFloat.is_nan a || PrimFloat.is_nan b then PrimFloat.nan
  else if PrimFloat.ltb a b then b
  else if PrimFloat.ltb b a then a
  else if signbit a then b else a.

(** The variadic calls of the source fold from [+Infinity] and [-Infinity];
    with three arguments that is two binary steps. *)
Definition min3 (a b c : float) : float := min2 (min2 a b) c.

Definition max3 (a b c : float) : float := max2 (max2 a b) c.

End JsMath.

(** Exact rationals. *)
#[export] Instance Number_Q : Number Q := {
  nadd := Qplus;
  nsub := Qminus;
  nmul := Qmult;
  ndiv := Qdiv;
  nopp := Qopp;
  nltb := fun a b => negb (Qle_bool b a);
  nleb := Qle_bool;
  neqb := Qeq_bool;
  nmin := Qmin;
  nmax := Qmax;
  nofZ := inject_Z
}.

(** The integer [z] as a double ([|z| < 2^63]; rounded to nearest above
    [2^53], as a numeric literal is). *)
Definition float_of_Z (z : Z) : float :=
  if (z <? 0)%Z
  then PrimFloat.opp (PrimFloat.of_uint63 (Uint63.of_Z (- z)))
  else PrimFloat.of_uint63 (Uint63.of_Z z).

(** IEEE 754 binary64. *)
#[export] Instance Number_float : Number float := {
  nadd := PrimFloat.add;
  nsub := PrimFloat.sub;
  nmul := PrimFloat.mul;
  ndiv := PrimFloat.div;
  nopp := PrimFloat.opp;
  nltb := PrimFloat.ltb;
  nleb := PrimFloat.leb;
  neqb := PrimFloat.eqb;
  nmin := JsMath.min2;
  nmax := JsMath.max2;
  nofZ := float_of_Z
}.


(* ================================================================== *)
(** * world/transform: vectors and boxes *)
(* ================================================================== *)

Module Vector3.
Record t (num : Type) : Type := mk { x : num; y : num; z : num }.
Arguments mk {num} _ _ _.
Arguments x {num} _.
Arguments y {num} _.
Arguments z {num} _.
End Vector3.

Abbreviation Vector3 := Vector3.t.

Module Vec3.
Import Vector3.

Section Generic.
Context {num : Type} `{Number num}.
Local Open Scope js_scope.

Definition zero : Vector3 num := mk (nofZ 0) (nofZ 0) (nofZ 0).

Definition clone (v : Vector3 num) : Vector3 num := mk (x v) (y v) (z v).

Definition add (a b : Vector3 num) : Vector3 num :=
  mk (x a + x b) (y a + y b) (z a + z b).

Definition sub (a b : Vector3 num) : Vector3 num :=
  mk (x a - x b) (y a - y b) (z a - z b).

Definition mul (v : Vector3 num) (scalar : num) : Vector3 num :=
  mk (x v * scalar) (y v * scalar) (z v * scalar).

Definition div (v : Vector3 num) (scalar : num) : Vector3 num :=
  mk (x v / scalar) (y v / scalar) (z v / scalar).

Definition dot (a b : Vector3 num) : num :=
  x a * x b + y a * y b + z a * z b.

Definition lengthSq (v : Vector3 num) : num :=
  x v * x v + y v * y v + z v * z v.

Definition one : Vector3 num := mk (nofZ 1) (nofZ 1) (nofZ 1).

Definition up : Vector3 num := mk (nofZ 0) (nofZ 1) (nofZ 0).

Definition forward : Vector3 num := mk (nofZ 0) (nofZ 0) (nofZ 1).

Definition right : Vector3 num := mk (nofZ 1) (nofZ 0) (nofZ 0).

Definition create (x y z : num) : Vector3 num := mk x y z.

Definition cross (a b : Vector3 num) : Vector3 num :=
  mk (y a * z b - z a * y b) (z a * x b - x a * z b) (x a * y b - y a * x b).

Definition distanceSq (a b : Vector3 num) : num := lengthSq (sub b a).

Definition lerp (a b : Vector3 num) (t : num) : Vector3 num :=
  mk (x a + (x b - x a) * t) (y a + (y b - y a) * t) (z a + (z b - z a) * t).

Definition clamp (v lo hi : Vector3 num) : Vector3 num :=
  mk (nmax (x lo) (nmin (x hi) (x v)))
     (nmax (y lo) (nmin (y hi) (y v)))
     (nmax (z lo) (nmin (z hi) (z v))).

Definition min (a b : Vector3 num) : Vector3 num :=
  mk (nmin (x a) (x b)) (nmin (y a) (y b)) (nmin (z a) (z b)).

Definition max (a b : Vector3 num) : Vector3 num :=
  mk (nmax (x a) (x b)) (nmax (y a) (y b)) (nmax (z a) (z b)).

Definition negate (v : Vector3 num) : Vector3 num := mk (- x v) (- y v) (- z v).

Definition reflect (v normal : Vector3 num) : Vector3 num :=
  let d := nofZ 2 * dot v normal in
  sub v (mul normal d).

End Generic.

(** The operations that need [Math.sqrt] or the special values. *)
Definition length (v : Vector3 float) : float :=
  JsMath.sqrt (x v * x v + y v * y v + z v * z v)%js.

Definition normalize (v : Vector3 float) : Vector3 float :=
  let len := length v in
  if (len =? 0)%float then zero else div v len.

Definition isNaN (v : Vector3 float) : bool :=
  JsMath.isNaN (x v) || JsMath.isNaN (y v) || JsMath.isNaN (z v).

Definition isFinite (v : Vector3 float) : bool :=
  JsMath.isFinite (x v) && JsMath.isFinite (y v) && JsMath.isFinite (z v).

End Vec3.

Module AABB.
Record t (num : Type) : Type := mk { min : Vector3 num; max : Vector3 num }.
Arguments mk {num} _ _.
Arguments min {num} _.
Arguments max {num} _.
End AABB.

Abbreviation AABB := AABB.t.

Module AABBOps.
Import Vector3.

Section Generic.
Context {num : Type} `{Number num}.
Local Open Scope js_scope.

Definition intersects (a b : AABB num) : bool :=
  (x (AABB.min a) <=? x (AABB.max b)) && (x (AABB.max a) >=? x (AABB.min b)) &&
  (y (AABB.min a) <=? y (AABB.max b)) && (y (AABB.max a) >=? y (AABB.min b)) &&
  (z (AABB.min a) <=? z (AABB.max b)) && (z (AABB.max a) >=? z (AABB.min b)).

Definition create (lo hi : Vector3 num) : AABB num :=
  AABB.mk (Vec3.clone lo) (Vec3.clone hi).

Definition fromCenterExtents (center extents : Vector3 num) : AABB num :=
  AABB.mk (Vec3.sub center extents) (Vec3.add center extents).

Definition center (aabb : AABB num) : Vector3 num :=
  Vec3.mul (Vec3.add (AABB.min aabb) (AABB.max aabb)) (dec 5 10).

Definition extents (aabb : AABB num) : Vector3 num :=
  Vec3.mul (Vec3.sub (AABB.max aabb) (AABB.min aabb)) (dec 5 10).

Definition size (aabb : AABB num) : Vector3 num :=
  Vec3.sub (AABB.max aabb) (AABB.min aabb).

Definition contains (aabb : AABB num) (point : Vector3 num) : bool :=
  (x point >=? x (AABB.min aabb)) && (x point <=? x (AABB.max aabb)) &&
  (y point >=? y (AABB.min aabb)) && (y point <=? y (AABB.max aabb)) &&
  (z point >=? z (AABB.min aabb)) && (z point <=? z (AABB.max aabb)).

Definition merge (a b : AABB num) : AABB num :=
  AABB.mk (Vec3.min (AABB.min a) (AABB.min b)) (Vec3.max (AABB.max a) (AABB.max b)).

Definition expand (aabb : AABB num) (amount : num) : AABB num :=
  let offset := mk amount amount amount in
  AABB.mk (Vec3.sub (AABB.min aabb) offset) (Vec3.add (AABB.max aabb) offset).

End Generic.
End AABBOps.

(* ================================================================== *)
(** * simulation/integrators *)
(* ================================================================== *)

Record IntegratorState (num : Type) : Type := {
  is_position : Vector3 num;
  is_velocity : Vector3 num;
  is_acceleration : Vector3 num
}.
Arguments Build_IntegratorState {num} _ _ _.
Arguments is_position {num} _.
Arguments is_velocity {num} _.
Arguments is_acceleration {num} _.

Record IntegratorResult (num : Type) : Type := {
  ir_position : Vector3 num;
  ir_velocity : Vector3 num
}.
Arguments Build_IntegratorResult {num} _ _.
Arguments ir_position {num} _.
Arguments ir_velocity {num} _.

Module EulerIntegrator.
Section Generic.
Context {num : Type} `{Number num}.

Definition integrate (state : IntegratorState num) (dt : num) : IntegratorResult num :=
  let newVelocity := Vec3.add (is_velocity state) (Vec3.mul (is_acceleration state) dt) in
  let newPosition := Vec3.add (is_position state) (Vec3.mul (is_velocity state) dt) in
  {| ir_position := newPosition; ir_velocity := newVelocity |}.

End Generic.
End EulerIntegrator.

Module SemiImplicitEulerIntegrator.
Section Generic.
Context {num : Type} `{Number num}.

Definition integrate (state : IntegratorState num) (dt : num) : IntegratorResult num :=
  let newVelocity := Vec3.add (is_velocity state) (Vec3.mul (is_acceleration state) dt) in
  let newPosition := Vec3.add (is_position state) (Vec3.mul newVelocity dt) in
  {| ir_position := newPosition; ir_velocity := newVelocity |}.

End Generic.
End SemiImplicitEulerIntegrator.

(** The Verlet integrator owns one mutable field, [prevAcceleration]; the
    method takes it and returns its new value with the result. *)
Module VerletIntegrator.
Section Generic.
Context {num : Type} `{Number num}.
Local Open Scope js_scope.

Definition initial : Vector3 num := Vec3.zero.

Definition integrate (prevAcceleration : Vector3 num)
  (state : IntegratorState num) (dt : num) : IntegratorResult num * Vector3 num :=
  let dt2 := dt * dt in
  let halfDt := dt * dec 5 10 in
  let velTerm := Vec3.mul (is_velocity state) dt in
  let accTerm := Vec3.mul (is_acceleration state) (dt2 * dec 5 10) in
  let newPosition := Vec3.add (Vec3.add (is_position state) velTerm) accTerm in
  let avgAcc := Vec3.mul (Vec3.add prevAcceleration (is_acceleration state)) halfDt in
  let newVelocity := Vec3.add (is_velocity state) avgAcc in
  ({| ir_position := newPosition; ir_velocity := newVelocity |},
   Vec3.clone (is_acceleration state)).

End Generic.
End VerletIntegrator.

Module RK4Integrator.
Section Generic.
Context {num : Type} `{Number num}.
Local Open Scope js_scope.

Definition integrate (state : IntegratorState num) (dt : num) : IntegratorResult num :=
  let k1v := Vec3.mul (is_acceleration state) dt in
  let k1p := Vec3.mul (is_velocity state) dt in
  let k2v := Vec3.mul (is_acceleration state) dt in
  let k2p := Vec3.mul (Vec3.add (is_velocity state) (Vec3.mul k1v (dec 5 10))) dt in
  let k3v := Vec3.mul (is_acceleration state) dt in
  let k3p := Vec3.mul (Vec3.add (is_velocity state) (Vec3.mul k2v (dec 5 10))) dt in
  let k4v := Vec3.mul (is_acceleration state) dt in
  let k4p := Vec3.mul (Vec3.add (is_velocity state) k3v) dt in
  let dv := Vec3.mul (Vec3.add (Vec3.add k1v (Vec3.mul k2v (nofZ 2)))
                               (Vec3.add (Vec3.mul k3v (nofZ 2)) k4v))
                     (nofZ 1 / nofZ 6) in
  let dp := Vec3.mul (Vec3.add (Vec3.add k1p (Vec3.mul k2p (nofZ 2)))
                               (Vec3.add (Vec3.mul k3p (nofZ 2)) k4p))
                     (nofZ 1 / nofZ 6) in
  {| ir_position := Vec3.add (is_position state) dp;
     ir_velocity := Vec3.add (is_velocity state) dv |}.

End Generic.
End RK4Integrator.

Inductive IntegratorType : Type :=
| euler
| semi_implicit_euler
| verlet
| rk4.

(** [createIntegrator] picks the class; the object it returns is modelled
    by its type and, for Verlet, the field it owns. *)
Record Integrator (num : Type) : Type := {
  integ_type : IntegratorType;
  prevAcceleration : Vector3 num
}.
Arguments Build_Integrator {num} _ _.
Arguments integ_type {num} _.
Arguments prevAcceleration {num} _.

Definition createIntegrator {num} `{Number num} (type : IntegratorType) : Integrator num :=
  {| integ_type := type; prevAcceleration := Vec3.zero |}.

(** [integrator.integrate(state, dt)] through the interface: the result and
    the integrator after the call. *)
Definition Integrator_integrate {num} `{Number num} (self : Integrator num)
  (state : IntegratorState num) (dt : num) : IntegratorResult num * Integrator num :=
  match integ_type self with
  | euler => (EulerIntegrator.integrate state dt, self)
  | semi_implicit_euler => (SemiImplicitEulerIntegrator.integrate state dt, self)
  | verlet =>
      let '(r, prev) := VerletIntegrator.integrate (prevAcceleration self) state dt in
      (r, {| integ_type := verlet; prevAcceleration := prev |})
  | rk4 => (RK4Integrator.integrate state dt, self)
  end.

(* ================================================================== *)
(** * collision/response: contact resolution *)
(* ================================================================== *)

Abbreviation EntityId := string.

Record ContactPoint (num : Type) : Type := {
  cp_position : Vector3 num;
  cp_normal : Vector3 num;
  cp_penetration : num;
  cp_impulse : num;
  cp_tangentImpulse : Vector3 num
}.
Arguments Build_ContactPoint {num} _ _ _ _ _.
Arguments cp_position {num} _.
Arguments cp_normal {num} _.
Arguments cp_penetration {num} _.
Arguments cp_impulse {num} _.
Arguments cp_tangentImpulse {num} _.

Record PhysicsBody (num : Type) : Type := {
  pb_id : EntityId;
  pb_position : Vector3 num;
  pb_velocity : Vector3 num;
  pb_angularVelocity : Vector3 num;
  pb_mass : num;
  pb_inverseMass : num;
  pb_friction : num;
  pb_restitution : num;
  pb_isStatic : bool
}.
Arguments Build_PhysicsBody {num} _ _ _ _ _ _ _ _ _.
Arguments pb_id {num} _.
Arguments pb_position {num} _.
Arguments pb_velocity {num} _.
Arguments pb_angularVelocity {num} _.
Arguments pb_mass {num} _.
Arguments pb_inverseMass {num} _.
Arguments pb_friction {num} _.
Arguments pb_restitution {num} _.
Arguments pb_isStatic {num} _.

(** The [{ velocity, position }] halves of a resolution result. *)
Record BodyUpdate (num : Type) : Type := {
  bu_velocity : Vector3 num;
  bu_position : Vector3 num
}.
Arguments Build_BodyUpdate {num} _ _.
Arguments bu_velocity {num} _.
Arguments bu_position {num} _.

Record ContactResolutionResult (num : Type) : Type := {
  crr_bodyA : BodyUpdate num;
  crr_bodyB : BodyUpdate num;
  crr_impulse : num
}.
Arguments Build_ContactResolutionResult {num} _ _ _.
Arguments crr_bodyA {num} _.
Arguments crr_bodyB {num} _.
Arguments crr_impulse {num} _.

Section ContactResolution.
Context {num : Type} `{Number num}.
Local Open Scope js_scope.

(** The result all three early returns build. *)
Definition unchanged (bodyA bodyB : PhysicsBody num) : ContactResolutionResult num :=
  {| crr_bodyA := {| bu_velocity := pb_velocity bodyA; bu_position := pb_position bodyA |};
     crr_bodyB := {| bu_velocity := pb_velocity bodyB; bu_position := pb_position bodyB |};
     crr_impulse := nofZ 0 |}.

Definition resolveContact (bodyA bodyB : PhysicsBody num) (contact : ContactPoint num)
  : ContactResolutionResult num :=
  if pb_isStatic bodyA && pb_isStatic bodyB then unchanged bodyA bodyB
  else
    let normal := cp_normal contact in
    let relativeVelocity := Vec3.sub (pb_velocity bodyB) (pb_velocity bodyA) in
    let velocityAlongNormal := Vec3.dot relativeVelocity normal in
    if velocityAlongNormal >? nofZ 0 then unchanged bodyA bodyB
    else
      let e := nmin (pb_restitution bodyA) (pb_restitution bodyB) in
      let inverseMassSum := pb_inverseMass bodyA + pb_inverseMass bodyB in
      if inverseMassSum =? nofZ 0 then unchanged bodyA bodyB
      else
        let j := - (nofZ 1 + e) * velocityAlongNormal in
        let j := j / inverseMassSum in
        let impulse := Vec3.mul normal j in
        let newVelA := Vec3.sub (pb_velocity bodyA) (Vec3.mul impulse (pb_inverseMass bodyA)) in
        let newVelB := Vec3.add (pb_velocity bodyB) (Vec3.mul impulse (pb_inverseMass bodyB)) in
        let percent := dec 8 10 in
        let slop := dec 1 100 in
        let correction :=
          Vec3.mul normal
            ((nmax (cp_penetration contact - slop) (nofZ 0) / inverseMassSum) * percent) in
        let newPosA :=
          if pb_isStatic bodyA then pb_position bodyA
          else Vec3.sub (pb_position bodyA) (Vec3.mul correction (pb_inverseMass bodyA)) in
        let newPosB :=
          if pb_isStatic bodyB then pb_position bodyB
          else Vec3.add (pb_position bodyB) (Vec3.mul correction (pb_inverseMass bodyB)) in
        {| crr_bodyA := {| bu_velocity := newVelA; bu_position := newPosA |};
           crr_bodyB := {| bu_velocity := newVelB; bu_position := newPosB |};
           crr_impulse := j |}.

End ContactResolution.

(* ================================================================== *)
(** * 32-bit integer operations of JavaScript *)
(* ================================================================== *)

(** The bitwise operators convert their operands with [ToInt32] or
    [ToUint32]; integers are kept in [Z] and the wrap-around is explicit. *)
Module Int32.
Local Open Scope Z_scope.

Definition ToUint32 (a : Z) : Z := a mod 2 ^ 32.

Definition ToInt32 (a : Z) : Z := (a + 2 ^ 31) mod 2 ^ 32 - 2 ^ 31.

(** [a ^ b] *)
Definition xor (a b : Z) : Z := ToInt32 (Z.lxor (ToInt32 a) (ToInt32 b)).

(** [a | b] *)
Definition or (a b : Z) : Z := ToInt32 (Z.lor (ToInt32 a) (ToInt32 b)).

(** [a & b] *)
Definition and (a b : Z) : Z := ToInt32 (Z.land (ToInt32 a) (ToInt32 b)).

(** [a << n] *)
Definition shl (a n : Z) : Z := ToInt32 (Z.shiftl (ToInt32 a) (n mod 32)).

(** [a >>> n] *)
Definition ushr (a n : Z) : Z := Z.shiftr (ToUint32 a) (n mod 32).

(** [Math.imul(a, b)] *)
Definition imul (a b : Z) : Z := ToInt32 (ToInt32 a * ToInt32 b).

End Int32.

(** Strings of the source are sequences of UTF-16 code units; the model has
    the strings of 8-bit characters, whose codes are the same up to 255. *)
Definition charCodes (s : string) : list Z :=
  List.map (fun c => Z.of_N (N_of_ascii c)) (list_ascii_of_string s).

(** The sign and decimal digits of an integer, as [String(n)] prints it. *)
Definition string_of_Z (n : Z) : string :=
  match n with
  | Z0 => "0"
  | Zpos p => DecimalString.NilEmpty.string_of_uint (Pos.to_uint p)
  | Zneg p => String "-" (DecimalString.NilEmpty.string_of_uint (Pos.to_uint p))
  end.

(** The 31-multiplier string hash that [SeededRandom.hashString],
    [SeedStreamManager.deriveSeed], [StateBuilder.computeHash] and the two
    hash folds share: [h = ((h << 5) - h) + c; h = h | 0]. *)
Definition hashStep (h c : Z) : Z :=
  Int32.or (Int32.shl h 5 - h + c)%Z 0.

(* ================================================================== *)
(** * Maps with string keys *)
(* ================================================================== *)

(** A JavaScript [Map] iterates in insertion order, and [set] on a key that
    is present keeps the key's place: an association list with one entry
    per key. *)
Module JsMap.

Definition t (V : Type) : Type := list (string * V).

Definition empty {V : Type} : t V := [].

Fixpoint get {V : Type} (m : t V) (k : string) : option V :=
  match m with
  | [] => None
  | (k', v) :: rest => if String.eqb k' k then Some v else get rest k
  end.

Definition has {V : Type} (m : t V) (k : string) : bool :=
  match get m k with Some _ => true | None => false end.

Fixpoint set {V : Type} (m : t V) (k : string) (v : V) : t V :=
  match m with
  | [] => [(k, v)]
  | (k', v') :: rest =>
      if String.eqb k' k then (k', v) :: rest else (k', v') :: set rest k v
  end.

Fixpoint delete {V : Type} (m : t V) (k : string) : t V :=
  match m with
  | [] => []
  | (k', v') :: rest => if String.eqb k' k then rest else (k', v') :: delete rest k
  end.

Definition keys {V : Type} (m : t V) : list string := List.map fst m.

Definition values {V : Type} (m : t V) : list V := List.map snd m.

Definition entries {V : Type} (m : t V) : list (string * V) := m.

Definition size {V : Type} (m : t V) : Z := Z.of_nat (List.length m).

(** [new Map(entries)] *)
Definition of_entries {V : Type} (es : list (string * V)) : t V :=
  List.fold_left (fun m e => set m (fst e) (snd e)) es empty.

End JsMap.

(** [array[n] = v] on an index in range, and [array.splice(n, 1)]. *)
Fixpoint setNth {A : Type} (n : nat) (v : A) (l : list A) : list A :=
  match n, l with
  | _, [] => []
  | O, _ :: l' => v :: l'
  | S n', x :: l' => x :: setNth n' v l'
  end.

Fixpoint removeNth {A : Type} (n : nat) (l : list A) : list A :=
  match n, l with
  | _, [] => []
  | O, _ :: l' => l'
  | S n', x :: l' => x :: removeNth n' l'
  end.

(* ================================================================== *)
(** * simulation/deterministic: the seeded generator *)
(* ================================================================== *)

(** The seed and the state are integers here.  The source keeps them in a
    [number] and never wraps the state ([this.state += 0x6d2b79f5]), so the
    model agrees with it while the state stays below [2^53]. *)
Record SeededRandom : Type := {
  sr_state : Z;
  sr_initialSeed : Z;
  sr_subsystem : string
}.

Module SeededRandomM.
Local Open Scope Z_scope.

(** [new SeededRandom(seed, subsystem)] *)
Definition new (seed : Z) (subsystem : string) : SeededRandom :=
  {| sr_state := seed; sr_initialSeed := seed; sr_subsystem := subsystem |}.

(** The 32 bits [(t ^ (t >>> 14)) >>> 0] that [next] divides by [2^32]. *)
Definition next_bits (state : Z) : Z :=
  let t := state in
  let t := Int32.imul (Int32.xor t (Int32.ushr t 15)) (Int32.or t 1) in
  let t := Int32.xor t (t + Int32.imul (Int32.xor t (Int32.ushr t 7)) (Int32.or t 61)) in
  Int32.ushr (Int32.xor t (Int32.ushr t 14)) 0.

(** [next()]: the value in [[0, 1)] (a dyadic rational, exact in binary64)
    and the generator after the call. *)
Definition next (self : SeededRandom) : Q * SeededRandom :=
  let state' := sr_state self + 0x6d2b79f5 in
  (next_bits state' # 4294967296,
   {| sr_state := state';
      sr_initialSeed := sr_initialSeed self;
      sr_subsystem := sr_subsystem self |}).

Definition hashString (str : string) : Z :=
  Z.abs (List.fold_left hashStep (charCodes str) 0).

(** [fork(subsystem)]: the new generator and the parent after the call.
    The body reads [initialSeed] and [subsystem] and assigns nothing. *)
Definition fork (self : SeededRandom) (subsystem : string) : SeededRandom * SeededRandom :=
  let derivedSeed :=
    hashString (string_of_Z (sr_initialSeed self) ++ ":" ++ sr_subsystem self
                ++ ":" ++ subsystem)%string in
  (new derivedSeed subsystem, self).

Definition getState (self : SeededRandom) : Z := sr_state self.

Definition reset (self : SeededRandom) : SeededRandom :=
  {| sr_state := sr_initialSeed self;
     sr_initialSeed := sr_initialSeed self;
     sr_subsystem := sr_subsystem self |}.

(** [n] calls of [next()] in a row: the values, first call first, and the
    generator after them. *)
Fixpoint nextN (n : nat) (self : SeededRandom) : list Q * SeededRandom :=
  match n with
  | O => ([], self)
  | S k =>
      let '(v, self1) := next self in
      let '(vs, self2) := nextN k self1 in
      (v :: vs, self2)
  end.

(** [seed(value)] *)
Definition seed (self : SeededRandom) (value : Z) : SeededRandom :=
  {| sr_state := value;
     sr_initialSeed := sr_initialSeed self;
     sr_subsystem := sr_subsystem self |}.

(** [nextInt(min, max)] for integer bounds that binary64 holds (up to
    [2^53] in size).  The product [next() * (max - min + 1)] is exact in
    binary64 while [max - min + 1 <= 2^21], the value of [next()] having 32
    bits: up to there the rational product below is the one the source
    computes. *)
Definition nextInt (self : SeededRandom) (min max : Z) : Z * SeededRandom :=
  let '(v, self') := next self in
  ((Qfloor (v * inject_Z (max - min + 1)) + min)%Z, self').

(** [nextBool(probability)] *)
Definition nextBool (self : SeededRandom) (probability : Q) : bool * SeededRandom :=
  let '(v, self') := next self in
  (negb (Qle_bool probability v), self').

(** The exchange of [result[i]] and [result[j]] in [shuffle], both indices
    being in range there. *)
Definition swap {T : Type} (i j : nat) (result : list T) : list T :=
  match List.nth_error result i, List.nth_error result j with
  | Some temp, Some other => setNth j temp (setNth i other result)
  | _, _ => result
  end.

(** The loop [for (i = length - 1; i > 0; i--)] of [shuffle], entered with
    [i = k]. *)
Fixpoint shuffle_loop {T : Type} (k : nat) (result : list T) (self : SeededRandom)
  : list T * SeededRandom :=
  match k with
  | O => (result, self)
  | S k' =>
      let '(j, self') := nextInt self 0 (Z.of_nat k) in
      shuffle_loop k' (swap k (Z.to_nat j) result) self'
  end.

Definition shuffle {T : Type} (self : SeededRandom) (array : list T)
  : list T * SeededRandom :=
  shuffle_loop (List.length array - 1) array self.

(** [pick(array)]: [None] is [undefined]. *)
Definition pick {T : Type} (self : SeededRandom) (array : list T)
  : option T * SeededRandom :=
  match array with
  | [] => (None, self)
  | _ :: _ =>
      let '(j, self') := nextInt self 0 (Z.of_nat (List.length array) - 1) in
      (List.nth_error array (Z.to_nat j), self')
  end.

End SeededRandomM.

(** The seeds of a repro pack. *)
Record SeedStream : Type := {
  master : Z;
  physics : Z;
  collision : Z;
  pathfinding : Z;
  sensors : Z;
  randomization : Z
}.

(** [SeedStreamManager]: the streams created so far, in creation order, and
    the master seed. *)
Record SeedStreamManager : Type := {
  ssm_streams : list (string * SeededRandom);
  ssm_masterSeed : Z
}.

Module SeedStreamManagerM.

(** [new SeedStreamManager(masterSeed)]; [now] stands for [Date.now()]. *)
Definition new (masterSeed : option Z) (now : Z) : SeedStreamManager :=
  {| ssm_streams := [];
     ssm_masterSeed := match masterSeed with Some s => s | None => now end |}.

Definition deriveSeed (self : SeedStreamManager) (subsystem : string) : Z :=
  Z.abs (List.fold_left hashStep (charCodes subsystem) (ssm_masterSeed self)).

Definition reset (self : SeedStreamManager) : SeedStreamManager :=
  {| ssm_streams := List.map (fun p => (fst p, SeededRandomM.reset (snd p))) (ssm_streams self);
     ssm_masterSeed := ssm_masterSeed self |}.

(** [getStream(subsystem)]: the stream, created and stored on the first
    request, and the manager after the call. *)
Definition getStream (self : SeedStreamManager) (subsystem : string)
  : SeededRandom * SeedStreamManager :=
  match JsMap.get (ssm_streams self) subsystem with
  | Some stream => (stream, self)
  | None =>
      let stream := SeededRandomM.new (deriveSeed self subsystem) subsystem in
      (stream,
       {| ssm_streams := JsMap.set (ssm_streams self) subsystem stream;
          ssm_masterSeed := ssm_masterSeed self |})
  end.

Definition getSeedStream (self : SeedStreamManager) : SeedStream :=
  {| master := ssm_masterSeed self;
     physics := deriveSeed self "physics";
     collision := deriveSeed self "collision";
     pathfinding := deriveSeed self "pathfinding";
     sensors := deriveSeed self "sensors";
     randomization := deriveSeed self "randomization" |}.

Definition restoreFromStream (self : SeedStreamManager) (stream : SeedStream)
  : SeedStreamManager :=
  let streams := JsMap.empty in
  let streams := JsMap.set streams "physics" (SeededRandomM.new (physics stream) "physics") in
  let streams :=
    JsMap.set streams "collision" (SeededRandomM.new (collision stream) "collision") in
  let streams :=
    JsMap.set streams "pathfinding" (SeededRandomM.new (pathfinding stream) "pathfinding") in
  let streams := JsMap.set streams "sensors" (SeededRandomM.new (sensors stream) "sensors") in
  let streams :=
    JsMap.set streams "randomization"
              (SeededRandomM.new (randomization stream) "randomization") in
  {| ssm_streams := streams; ssm_masterSeed := ssm_masterSeed self |}.

End SeedStreamManagerM.

(* ================================================================== *)
(** * simulation/deterministic: the fixed-step clock *)
(* ================================================================== *)

Record DeterministicConfig (num : Type) : Type := {
  fixedTimestep : num;
  maxSubsteps : num;
  deterministicOrder : bool;
  validateDeterminism : bool;
  seed : option Z
}.
Arguments Build_DeterministicConfig {num} _ _ _ _ _.
Arguments fixedTimestep {num} _.
Arguments maxSubsteps {num} _.
Arguments deterministicOrder {num} _.
Arguments validateDeterminism {num} _.
Arguments seed {num} _.

(** [Partial<DeterministicConfig>]: every field may be missing. *)
Record PartialDeterministicConfig (num : Type) : Type := {
  p_fixedTimestep : option num;
  p_maxSubsteps : option num;
  p_deterministicOrder : option bool;
  p_validateDeterminism : option bool;
  p_seed : option Z
}.
Arguments Build_PartialDeterministicConfig {num} _ _ _ _ _.
Arguments p_fixedTimestep {num} _.
Arguments p_maxSubsteps {num} _.
Arguments p_deterministicOrder {num} _.
Arguments p_validateDeterminism {num} _.
Arguments p_seed {num} _.

Record DeterministicRuntime (num : Type) : Type := {
  dr_config : DeterministicConfig num;
  dr_seedManager : SeedStreamManager;
  dr_accumulator : num;
  dr_currentStep : Z;
  dr_stepHashes : list Z
}.
Arguments Build_DeterministicRuntime {num} _ _ _ _ _.
Arguments dr_config {num} _.
Arguments dr_seedManager {num} _.
Arguments dr_accumulator {num} _.
Arguments dr_currentStep {num} _.
Arguments dr_stepHashes {num} _.

(** [a ?? b] *)
Definition orElse {A : Type} (a : option A) (b : A) : A :=
  match a with Some v => v | None => b end.

(** [n.toString(16).padStart(16, '0')] for a natural number [n]. *)
Definition padStart16 (s : string) : string :=
  (string_of_list_ascii (List.repeat "0"%char (16 - String.length s)) ++ s)%string.

Definition toHex16 (n : Z) : string :=
  padStart16 (HexadecimalString.NilZero.string_of_uint (N.to_hex_uint (Z.to_N n))).

Module DeterministicRuntimeM.

Section Generic.
Context {num : Type} `{Number num}.
Local Open Scope js_scope.

(** The constructor; [now] stands for [Date.now()], read when no seed is
    given. *)
Definition new (config : PartialDeterministicConfig num) (now : Z) : DeterministicRuntime num :=
  let cfg :=
    {| fixedTimestep := orElse (p_fixedTimestep config) (dec 16 1000);
       maxSubsteps := orElse (p_maxSubsteps config) (nofZ 10);
       deterministicOrder := orElse (p_deterministicOrder config) true;
       validateDeterminism := orElse (p_validateDeterminism config) false;
       seed := p_seed config |} in
  {| dr_config := cfg;
     dr_seedManager := SeedStreamManagerM.new (seed cfg) now;
     dr_accumulator := nofZ 0;
     dr_currentStep := 0%Z;
     dr_stepHashes := [] |}.

Definition set_accumulator (self : DeterministicRuntime num) (a : num) : DeterministicRuntime num :=
  {| dr_config := dr_config self;
     dr_seedManager := dr_seedManager self;
     dr_accumulator := a;
     dr_currentStep := dr_currentStep self;
     dr_stepHashes := dr_stepHashes self |}.

Section Advance.
(** The state the step callback works on, and the callback. *)
Context {W : Type} (stepCallback : num -> Z -> W -> W).

(** The [while] loop of [advance].  A JavaScript loop need not end (with
    [fixedTimestep = 0] this one does not), so the model counts iterations
    down from [fuel] and answers [None] when they run out. *)
Fixpoint advance_loop (fuel : nat) (self : DeterministicRuntime num) (w : W) (stepsTaken : Z)
  : option (Z * DeterministicRuntime num * W) :=
  match fuel with
  | O => None
  | S fuel' =>
      if dr_accumulator self >=? fixedTimestep (dr_config self) then
        let w' := stepCallback (fixedTimestep (dr_config self)) (dr_currentStep self) w in
        let self' :=
          {| dr_config := dr_config self;
             dr_seedManager := dr_seedManager self;
             dr_accumulator := dr_accumulator self - fixedTimestep (dr_config self);
             dr_currentStep := (dr_currentStep self + 1)%Z;
             dr_stepHashes := dr_stepHashes self |} in
        advance_loop fuel' self' w' (stepsTaken + 1)%Z
      else Some (stepsTaken, self, w)
  end.

(** [advance(deltaTime, stepCallback)]: the number of steps taken, the
    runtime and the callback's state after the call. *)
Definition advance (fuel : nat) (self : DeterministicRuntime num) (deltaTime : num) (w : W)
  : option (Z * DeterministicRuntime num * W) :=
  let self := set_accumulator self (dr_accumulator self + deltaTime) in
  let stepsTaken := 0%Z in
  let maxTime := fixedTimestep (dr_config self) * maxSubsteps (dr_config self) in
  let self :=
    if dr_accumulator self >? maxTime then set_accumulator self maxTime else self in
  advance_loop fuel self w stepsTaken.

(** [advance] called once per delta of a list, in order: the total number of
    steps and the final runtime and callback state. *)
Fixpoint advance_all (fuel : nat) (self : DeterministicRuntime num) (deltas : list num) (w : W)
  : option (Z * DeterministicRuntime num * W) :=
  match deltas with
  | [] => Some (0%Z, self, w)
  | d :: rest =>
      match advance fuel self d w with
      | None => None
      | Some (n, self1, w1) =>
          match advance_all fuel self1 rest w1 with
          | None => None
          | Some (m, self2, w2) => Some ((n + m)%Z, self2, w2)
          end
      end
  end.

End Advance.

Definition recordStepHash (self : DeterministicRuntime num) (hash : Z) : DeterministicRuntime num :=
  if validateDeterminism (dr_config self) then
    {| dr_config := dr_config self;
       dr_seedManager := dr_seedManager self;
       dr_accumulator := dr_accumulator self;
       dr_currentStep := dr_currentStep self;
       dr_stepHashes := dr_stepHashes self ++ [hash] |}
  else self.

Definition getStepHashes (self : DeterministicRuntime num) : list Z := dr_stepHashes self.

Definition computeFinalHash (self : DeterministicRuntime num) : string :=
  let hash := List.fold_left hashStep (dr_stepHashes self) 0%Z in
  toHex16 (Z.abs hash).

Definition reset (self : DeterministicRuntime num) : DeterministicRuntime num :=
  {| dr_config := dr_config self;
     dr_seedManager := SeedStreamManagerM.reset (dr_seedManager self);
     dr_accumulator := nofZ 0;
     dr_currentStep := 0%Z;
     dr_stepHashes := [] |}.

End Generic.
End DeterministicRuntimeM.

(** The callback that records its calls: one entry [(dt, step)] per
    invocation, latest first. *)
Definition traceCallback {num : Type} (dt : num) (step : Z) (log : list (num * Z))
  : list (num * Z) := (dt, step) :: log.

(* ================================================================== *)
(** * collision/contact: the contact manager *)
(* ================================================================== *)

Record ContactManifold (num : Type) : Type := {
  cm_entityA : EntityId;
  cm_entityB : EntityId;
  cm_contacts : list (ContactPoint num);
  cm_friction : num;
  cm_restitution : num
}.
Arguments Build_ContactManifold {num} _ _ _ _ _.
Arguments cm_entityA {num} _.
Arguments cm_entityB {num} _.
Arguments cm_contacts {num} _.
Arguments cm_friction {num} _.
Arguments cm_restitution {num} _.

Record CollisionEvent (num : Type) : Type := {
  ce_timestamp : num;
  ce_step : Z;
  ce_entityA : EntityId;
  ce_entityB : EntityId;
  ce_contactPoint : Vector3 num;
  ce_contactNormal : Vector3 num;
  ce_penetrationDepth : num;
  ce_impulse : num;
  ce_type : string
}.
Arguments Build_CollisionEvent {num} _ _ _ _ _ _ _ _ _.
Arguments ce_timestamp {num} _.
Arguments ce_step {num} _.
Arguments ce_entityA {num} _.
Arguments ce_entityB {num} _.
Arguments ce_contactPoint {num} _.
Arguments ce_contactNormal {num} _.
Arguments ce_penetrationDepth {num} _.
Arguments ce_impulse {num} _.
Arguments ce_type {num} _.

Record ContactManager (num : Type) : Type := {
  manifolds : JsMap.t (ContactManifold num);
  events : list (CollisionEvent num)
}.
Arguments Build_ContactManager {num} _ _.
Arguments manifolds {num} _.
Arguments events {num} _.

Module ContactManagerM.
Section Generic.
Context {num : Type}.

Definition new : ContactManager num := {| manifolds := JsMap.empty; events := [] |}.

Definition getManifoldKey (a b : EntityId) : string :=
  if String.ltb a b then (a ++ ":" ++ b)%string else (b ++ ":" ++ a)%string.

(** [addContact]: the manifold of the pair is created on its first contact
    and the contact is pushed on it; the manifold object stays where it is
    in the map. *)
Definition addContact (self : ContactManager num) (entityA entityB : EntityId)
  (contact : ContactPoint num) (friction restitution : num) : ContactManager num :=
  let key := getManifoldKey entityA entityB in
  let manifold :=
    match JsMap.get (manifolds self) key with
    | Some manifold => manifold
    | None =>
        {| cm_entityA := if String.ltb entityA entityB then entityA else entityB;
           cm_entityB := if String.ltb entityA entityB then entityB else entityA;
           cm_contacts := [];
           cm_friction := friction;
           cm_restitution := restitution |}
    end in
  {| manifolds :=
       JsMap.set (manifolds self) key
         {| cm_entityA := cm_entityA manifold;
            cm_entityB := cm_entityB manifold;
            cm_contacts := cm_contacts manifold ++ [contact];
            cm_friction := cm_friction manifold;
            cm_restitution := cm_restitution manifold |};
     events := events self |}.

Definition getManifolds (self : ContactManager num) : list (ContactManifold num) :=
  JsMap.values (manifolds self).

Definition getEvents (self : ContactManager num) : list (CollisionEvent num) := events self.

Definition recordEvent (self : ContactManager num) (event : CollisionEvent num)
  : ContactManager num :=
  {| manifolds := manifolds self; events := events self ++ [event] |}.

Definition clear (self : ContactManager num) : ContactManager num :=
  {| manifolds := JsMap.empty; events := events self |}.

Definition clearEvents (self : ContactManager num) : ContactManager num :=
  {| manifolds := manifolds self; events := [] |}.

End Generic.
End ContactManagerM.

(* ================================================================== *)
(** * world/state: snapshots and their compact form *)
(* ================================================================== *)

Module Quaternion.
Record t (num : Type) : Type := mk { x : num; y : num; z : num; w : num }.
Arguments mk {num} _ _ _ _.
Arguments x {num} _.
Arguments y {num} _.
Arguments z {num} _.
Arguments w {num} _.
End Quaternion.

Abbreviation Quaternion := Quaternion.t.

Record Transform (num : Type) : Type := {
  position : Vector3 num;
  rotation : Quaternion num;
  scale : Vector3 num
}.
Arguments Build_Transform {num} _ _ _.
Arguments position {num} _.
Arguments rotation {num} _.
Arguments scale {num} _.

(** The quaternion operations that need no trigonometry. *)
Module Quat.
Import Quaternion.

Section Generic.
Context {num : Type} `{Number num}.
Local Open Scope js_scope.

Definition identity : Quaternion num := mk (nofZ 0) (nofZ 0) (nofZ 0) (nofZ 1).

Definition create (x y z w : num) : Quaternion num := mk x y z w.

Definition clone (q : Quaternion num) : Quaternion num := mk (x q) (y q) (z q) (w q).

Definition multiply (a b : Quaternion num) : Quaternion num :=
  mk (w a * x b + x a * w b + y a * z b - z a * y b)
     (w a * y b - x a * z b + y a * w b + z a * x b)
     (w a * z b + x a * y b - y a * x b + z a * w b)
     (w a * w b - x a * x b - y a * y b - z a * z b).

Definition conjugate (q : Quaternion num) : Quaternion num :=
  mk (- x q) (- y q) (- z q) (w q).

Definition inverse (q : Quaternion num) : Quaternion num :=
  let lenSq := x q * x q + y q * y q + z q * z q + w q * w q in
  let inv := nofZ 1 / lenSq in
  mk (- x q * inv) (- y q * inv) (- z q * inv) (w q * inv).

Definition rotateVector (q : Quaternion num) (v : Vector3 num) : Vector3 num :=
  let qv := mk (Vector3.x v) (Vector3.y v) (Vector3.z v) (nofZ 0) in
  let result := multiply (multiply q qv) (conjugate q) in
  Vector3.mk (x result) (y result) (z result).

End Generic.
End Quat.

Module TransformOps.
Section Generic.
Context {num : Type} `{Number num}.
Local Open Scope js_scope.

Definition identity : Transform num :=
  {| position := Vec3.zero; rotation := Quat.identity; scale := Vec3.one |}.

Definition create (p : Vector3 num) (r : option (Quaternion num)) (s : option (Vector3 num))
  : Transform num :=
  {| position := Vec3.clone p;
     rotation := match r with Some r => Quat.clone r | None => Quat.identity end;
     scale := match s with Some s => Vec3.clone s | None => Vec3.one end |}.

Definition clone (t : Transform num) : Transform num :=
  {| position := Vec3.clone (position t);
     rotation := Quat.clone (rotation t);
     scale := Vec3.clone (scale t) |}.

Definition transformPoint (transform : Transform num) (point : Vector3 num) : Vector3 num :=
  let scaled :=
    Vector3.mk (Vector3.x point * Vector3.x (scale transform))
               (Vector3.y point * Vector3.y (scale transform))
               (Vector3.z point * Vector3.z (scale transform)) in
  let rotated := Quat.rotateVector (rotation transform) scaled in
  Vec3.add rotated (position transform).

Definition transformDirection (transform : Transform num) (direction : Vector3 num)
  : Vector3 num :=
  Quat.rotateVector (rotation transform) direction.

Definition inverseTransformPoint (transform : Transform num) (point : Vector3 num)
  : Vector3 num :=
  let translated := Vec3.sub point (position transform) in
  let rotated := Quat.rotateVector (Quat.inverse (rotation transform)) translated in
  Vector3.mk (Vector3.x rotated / Vector3.x (scale transform))
             (Vector3.y rotated / Vector3.y (scale transform))
             (Vector3.z rotated / Vector3.z (scale transform)).

End Generic.
End TransformOps.

(** ['active' | 'idle' | 'moving' | 'collision' | 'disabled'], a string at
    run time. *)
Abbreviation EntityStatus := string.

(** The values the engine stores under [Record<string, unknown>]. *)
Inductive JsValue (num : Type) : Type :=
| JsNumber (n : num)
| JsString (s : string)
| JsVector (v : Vector3 num).
Arguments JsNumber {num} _.
Arguments JsString {num} _.
Arguments JsVector {num} _.

Record EntityState (num : Type) : Type := {
  es_id : EntityId;
  es_transform : Transform num;
  es_velocity : Vector3 num;
  es_angularVelocity : Vector3 num;
  es_acceleration : Vector3 num;
  es_status : EntityStatus;
  es_customState : option (list (string * JsValue num))
}.
Arguments Build_EntityState {num} _ _ _ _ _ _ _.
Arguments es_id {num} _.
Arguments es_transform {num} _.
Arguments es_velocity {num} _.
Arguments es_angularVelocity {num} _.
Arguments es_acceleration {num} _.
Arguments es_status {num} _.
Arguments es_customState {num} _.

Record WorldState (num : Type) : Type := {
  ws_time : num;
  ws_gravity : Vector3 num;
  ws_bounds : AABB num;
  ws_activeEntityCount : Z;
  ws_totalCollisions : Z
}.
Arguments Build_WorldState {num} _ _ _ _ _.
Arguments ws_time {num} _.
Arguments ws_gravity {num} _.
Arguments ws_bounds {num} _.
Arguments ws_activeEntityCount {num} _.
Arguments ws_totalCollisions {num} _.

Record StateSnapshot (num : Type) : Type := {
  ss_version : Z;
  ss_timestamp : num;
  ss_step : Z;
  ss_entities : JsMap.t (EntityState num);
  ss_worldState : WorldState num;
  ss_hash : string
}.
Arguments Build_StateSnapshot {num} _ _ _ _ _ _.
Arguments ss_version {num} _.
Arguments ss_timestamp {num} _.
Arguments ss_step {num} _.
Arguments ss_entities {num} _.
Arguments ss_worldState {num} _.
Arguments ss_hash {num} _.

Record SerializedEntity (num : Type) : Type := {
  se_id : string;
  se_pos : num * num * num;
  se_rot : num * num * num * num;
  se_vel : num * num * num;
  se_status : string
}.
Arguments Build_SerializedEntity {num} _ _ _ _ _.
Arguments se_id {num} _.
Arguments se_pos {num} _.
Arguments se_rot {num} _.
Arguments se_vel {num} _.
Arguments se_status {num} _.

Record SerializedWorld (num : Type) : Type := {
  sw_time : num;
  sw_gravity : num * num * num;
  sw_collisions : Z
}.
Arguments Build_SerializedWorld {num} _ _ _.
Arguments sw_time {num} _.
Arguments sw_gravity {num} _.
Arguments sw_collisions {num} _.

Record SerializedState (num : Type) : Type := {
  sd_v : Z;
  sd_ts : num;
  sd_step : Z;
  sd_entities : list (SerializedEntity num);
  sd_world : SerializedWorld num;
  sd_hash : string
}.
Arguments Build_SerializedState {num} _ _ _ _ _ _.
Arguments sd_v {num} _.
Arguments sd_ts {num} _.
Arguments sd_step {num} _.
Arguments sd_entities {num} _.
Arguments sd_world {num} _.
Arguments sd_hash {num} _.

Section StateSerialization.
Context {num : Type} `{Number num}.

Definition serializeEntity (e : EntityState num) : SerializedEntity num :=
  {| se_id := es_id e;
     se_pos := (Vector3.x (position (es_transform e)),
                Vector3.y (position (es_transform e)),
                Vector3.z (position (es_transform e)));
     se_rot := (Quaternion.x (rotation (es_transform e)),
                Quaternion.y (rotation (es_transform e)),
                Quaternion.z (rotation (es_transform e)),
                Quaternion.w (rotation (es_transform e)));
     se_vel := (Vector3.x (es_velocity e), Vector3.y (es_velocity e), Vector3.z (es_velocity e));
     se_status := es_status e |}.

Definition serializeState (state : StateSnapshot num) : SerializedState num :=
  {| sd_v := ss_version state;
     sd_ts := ss_timestamp state;
     sd_step := ss_step state;
     sd_entities := List.map serializeEntity (JsMap.values (ss_entities state));
     sd_world :=
       {| sw_time := ws_time (ss_worldState state);
          sw_gravity := (Vector3.x (ws_gravity (ss_worldState state)),
                         Vector3.y (ws_gravity (ss_worldState state)),
                         Vector3.z (ws_gravity (ss_worldState state)));
          sw_collisions := ws_totalCollisions (ss_worldState state) |};
     sd_hash := ss_hash state |}.

Definition deserializeEntity (e : SerializedEntity num) : EntityState num :=
  let '(p0, p1, p2) := se_pos e in
  let '(r0, r1, r2, r3) := se_rot e in
  let '(v0, v1, v2) := se_vel e in
  {| es_id := se_id e;
     es_transform :=
       {| position := Vector3.mk p0 p1 p2;
          rotation := Quaternion.mk r0 r1 r2 r3;
          scale := Vector3.mk (nofZ 1) (nofZ 1) (nofZ 1) |};
     es_velocity := Vector3.mk v0 v1 v2;
     es_angularVelocity := Vector3.mk (nofZ 0) (nofZ 0) (nofZ 0);
     es_acceleration := Vector3.mk (nofZ 0) (nofZ 0) (nofZ 0);
     es_status := se_status e;
     es_customState := None |}.

(** The bounds [deserializeState] writes, whatever the snapshot had. *)
Definition defaultBounds : AABB num :=
  AABB.mk (Vector3.mk (nofZ (-1000)) (nofZ (-100)) (nofZ (-1000)))
          (Vector3.mk (nofZ 1000) (nofZ 1000) (nofZ 1000)).

Definition deserializeState (data : SerializedState num) : StateSnapshot num :=
  let entities :=
    List.fold_left (fun m e => JsMap.set m (se_id e) (deserializeEntity e))
                   (sd_entities data) JsMap.empty in
  let '(g0, g1, g2) := sw_gravity (sd_world data) in
  {| ss_version := sd_v data;
     ss_timestamp := sd_ts data;
     ss_step := sd_step data;
     ss_entities := entities;
     ss_worldState :=
       {| ws_time := sw_time (sd_world data);
          ws_gravity := Vector3.mk g0 g1 g2;
          ws_bounds := defaultBounds;
          ws_activeEntityCount := JsMap.size entities;
          ws_totalCollisions := sw_collisions (sd_world data) |};
     ss_hash := sd_hash data |}.

End StateSerialization.

(* ================================================================== *)
(** * world/state: the builder, copies and differences *)
(* ================================================================== *)

(** [Partial<WorldState>]: every field may be missing. *)
Record PartialWorldState (num : Type) : Type := {
  pw_time : option num;
  pw_gravity : option (Vector3 num);
  pw_bounds : option (AABB num);
  pw_activeEntityCount : option Z;
  pw_totalCollisions : option Z
}.
Arguments Build_PartialWorldState {num} _ _ _ _ _.
Arguments pw_time {num} _.
Arguments pw_gravity {num} _.
Arguments pw_bounds {num} _.
Arguments pw_activeEntityCount {num} _.
Arguments pw_totalCollisions {num} _.

Record StateBuilder (num : Type) : Type := {
  sb_version : Z;
  sb_timestamp : num;
  sb_step : Z;
  sb_entities : JsMap.t (EntityState num);
  sb_worldState : WorldState num
}.
Arguments Build_StateBuilder {num} _ _ _ _ _.
Arguments sb_version {num} _.
Arguments sb_timestamp {num} _.
Arguments sb_step {num} _.
Arguments sb_entities {num} _.
Arguments sb_worldState {num} _.

Record StateDiff (num : Type) : Type := {
  stepDelta : Z;
  timeDelta : num;
  added : list EntityId;
  removed : list EntityId;
  modified : list EntityId;
  collisionDelta : Z
}.
Arguments Build_StateDiff {num} _ _ _ _ _ _.
Arguments stepDelta {num} _.
Arguments timeDelta {num} _.
Arguments added {num} _.
Arguments removed {num} _.
Arguments modified {num} _.
Arguments collisionDelta {num} _.

(** The double quote character (code 34), and a quoted property name
    followed by a colon, as [JSON.stringify] writes them. *)
Definition doubleQuote : string := String (Ascii.ascii_of_nat 34) EmptyString.

Definition jsonKey (name : string) : string :=
  (doubleQuote ++ name ++ doubleQuote ++ ":")%string.

Module StateBuilderM.
Section Generic.
Context {num : Type} `{Number num}.
Local Open Scope js_scope.

(** [JSON.stringify] of a number that need not be an integer (the shortest
    decimal that reads back as the same double): taken as given. *)
Context (numberToString : num -> string).

(** The constructor; [now] stands for [Date.now()]. *)
Definition new (now : num) : StateBuilder num :=
  {| sb_version := 1;
     sb_timestamp := now;
     sb_step := 0;
     sb_entities := JsMap.empty;
     sb_worldState :=
       {| ws_time := nofZ 0;
          ws_gravity := Vector3.mk (nofZ 0) (- dec 981 100) (nofZ 0);
          ws_bounds := AABB.mk (Vector3.mk (- nofZ 1000) (- nofZ 100) (- nofZ 1000))
                               (Vector3.mk (nofZ 1000) (nofZ 1000) (nofZ 1000));
          ws_activeEntityCount := 0;
          ws_totalCollisions := 0 |} |}.

Definition setVersion (self : StateBuilder num) (version : Z) : StateBuilder num :=
  {| sb_version := version; sb_timestamp := sb_timestamp self; sb_step := sb_step self;
     sb_entities := sb_entities self; sb_worldState := sb_worldState self |}.

Definition setTimestamp (self : StateBuilder num) (timestamp : num) : StateBuilder num :=
  {| sb_version := sb_version self; sb_timestamp := timestamp; sb_step := sb_step self;
     sb_entities := sb_entities self; sb_worldState := sb_worldState self |}.

Definition setStep (self : StateBuilder num) (step : Z) : StateBuilder num :=
  {| sb_version := sb_version self; sb_timestamp := sb_timestamp self; sb_step := step;
     sb_entities := sb_entities self; sb_worldState := sb_worldState self |}.

Definition addEntity (self : StateBuilder num) (state : EntityState num) : StateBuilder num :=
  {| sb_version := sb_version self; sb_timestamp := sb_timestamp self; sb_step := sb_step self;
     sb_entities := JsMap.set (sb_entities self) (es_id state) state;
     sb_worldState := sb_worldState self |}.

Definition removeEntity (self : StateBuilder num) (id : EntityId) : StateBuilder num :=
  {| sb_version := sb_version self; sb_timestamp := sb_timestamp self; sb_step := sb_step self;
     sb_entities := JsMap.delete (sb_entities self) id;
     sb_worldState := sb_worldState self |}.

(** [{ ...this.worldState, ...state }]: the fields [state] has win. *)
Definition setWorldState (self : StateBuilder num) (state : PartialWorldState num)
  : StateBuilder num :=
  {| sb_version := sb_version self; sb_timestamp := sb_timestamp self; sb_step := sb_step self;
     sb_entities := sb_entities self;
     sb_worldState :=
       {| ws_time := orElse (pw_time state) (ws_time (sb_worldState self));
          ws_gravity := orElse (pw_gravity state) (ws_gravity (sb_worldState self));
          ws_bounds := orElse (pw_bounds state) (ws_bounds (sb_worldState self));
          ws_activeEntityCount :=
            orElse (pw_activeEntityCount state) (ws_activeEntityCount (sb_worldState self));
          ws_totalCollisions :=
            orElse (pw_totalCollisions state) (ws_totalCollisions (sb_worldState self)) |} |}.

Definition setGravity (self : StateBuilder num) (gravity : Vector3 num) : StateBuilder num :=
  {| sb_version := sb_version self; sb_timestamp := sb_timestamp self; sb_step := sb_step self;
     sb_entities := sb_entities self;
     sb_worldState :=
       {| ws_time := ws_time (sb_worldState self);
          ws_gravity := gravity;
          ws_bounds := ws_bounds (sb_worldState self);
          ws_activeEntityCount := ws_activeEntityCount (sb_worldState self);
          ws_totalCollisions := ws_totalCollisions (sb_worldState self) |} |}.

(** The text [computeHash] hashes:
    [JSON.stringify({ step, entityCount, gravity })]. *)
Definition hashInput (self : StateBuilder num) : string :=
  let gravity := ws_gravity (sb_worldState self) in
  ("{" ++ jsonKey "step" ++ string_of_Z (sb_step self) ++ ","
       ++ jsonKey "entityCount" ++ string_of_Z (JsMap.size (sb_entities self)) ++ ","
       ++ jsonKey "gravity" ++ "{"
       ++ jsonKey "x" ++ numberToString (Vector3.x gravity) ++ ","
       ++ jsonKey "y" ++ numberToString (Vector3.y gravity) ++ ","
       ++ jsonKey "z" ++ numberToString (Vector3.z gravity) ++ "}}")%string.

Definition computeHash (self : StateBuilder num) : string :=
  let str := hashInput self in
  let hash := List.fold_left hashStep (charCodes str) 0%Z in
  toHex16 (Z.abs hash).

Definition build (self : StateBuilder num) : StateSnapshot num :=
  let hash := computeHash self in
  {| ss_version := sb_version self;
     ss_timestamp := sb_timestamp self;
     ss_step := sb_step self;
     ss_entities := JsMap.of_entries (JsMap.entries (sb_entities self));
     ss_worldState :=
       {| ws_time := ws_time (sb_worldState self);
          ws_gravity := ws_gravity (sb_worldState self);
          ws_bounds := ws_bounds (sb_worldState self);
          ws_activeEntityCount := JsMap.size (sb_entities self);
          ws_totalCollisions := ws_totalCollisions (sb_worldState self) |};
     ss_hash := hash |}.

End Generic.
End StateBuilderM.

Section StateUtilities.
Context {num : Type} `{Number num}.
Local Open Scope js_scope.

(** [{ ...entity }] *)
Definition copyEntityState (entity : EntityState num) : EntityState num :=
  {| es_id := es_id entity;
     es_transform := es_transform entity;
     es_velocity := es_velocity entity;
     es_angularVelocity := es_angularVelocity entity;
     es_acceleration := es_acceleration entity;
     es_status := es_status entity;
     es_customState := es_customState entity |}.

Definition cloneState (state : StateSnapshot num) : StateSnapshot num :=
  {| ss_version := ss_version state;
     ss_timestamp := ss_timestamp state;
     ss_step := ss_step state;
     ss_entities :=
       JsMap.of_entries
         (List.map (fun e => (fst e, copyEntityState (snd e)))
                   (JsMap.entries (ss_entities state)));
     ss_worldState :=
       {| ws_time := ws_time (ss_worldState state);
          ws_gravity := ws_gravity (ss_worldState state);
          ws_bounds := ws_bounds (ss_worldState state);
          ws_activeEntityCount := ws_activeEntityCount (ss_worldState state);
          ws_totalCollisions := ws_totalCollisions (ss_worldState state) |};
     ss_hash := ss_hash state |}.

Definition entityStatesEqual (a b : EntityState num) : bool :=
  if negb (String.eqb (es_status a) (es_status b)) then false
  else
    let posEqual :=
      (Vector3.x (position (es_transform a)) =? Vector3.x (position (es_transform b)))
      && (Vector3.y (position (es_transform a)) =? Vector3.y (position (es_transform b)))
      && (Vector3.z (position (es_transform a)) =? Vector3.z (position (es_transform b))) in
    if negb posEqual then false
    else
      let velEqual :=
        (Vector3.x (es_velocity a) =? Vector3.x (es_velocity b))
        && (Vector3.y (es_velocity a) =? Vector3.y (es_velocity b))
        && (Vector3.z (es_velocity a) =? Vector3.z (es_velocity b)) in
      velEqual.

(** The first loop of [diffStates]: the ids added and the ids modified so
    far. *)
Definition diffStates_visit (before : StateSnapshot num)
  (acc : list EntityId * list EntityId) (entry : EntityId * EntityState num)
  : list EntityId * list EntityId :=
  let '(added, modified) := acc in
  let '(id, afterEntity) := entry in
  match JsMap.get (ss_entities before) id with
  | None => (added ++ [id], modified)
  | Some beforeEntity =>
      if negb (entityStatesEqual beforeEntity afterEntity) then (added, modified ++ [id])
      else (added, modified)
  end.

Definition diffStates (before after : StateSnapshot num) : StateDiff num :=
  let '(added, modified) :=
    List.fold_left (diffStates_visit before) (JsMap.entries (ss_entities after)) ([], []) in
  let removed :=
    List.fold_left
      (fun removed id =>
         if negb (JsMap.has (ss_entities after) id) then removed ++ [id] else removed)
      (JsMap.keys (ss_entities before)) [] in
  {| stepDelta := (ss_step after - ss_step before)%Z;
     timeDelta := ss_timestamp after - ss_timestamp before;
     added := added;
     removed := removed;
     modified := modified;
     collisionDelta :=
       (ws_totalCollisions (ss_worldState after)
        - ws_totalCollisions (ss_worldState before))%Z |}.

End StateUtilities.

(* ================================================================== *)
(** * collision/broadphase *)
(* ================================================================== *)

Record CollisionPair : Type := {
  entityA : EntityId;
  entityB : EntityId
}.

Record BroadphaseResult : Type := {
  pairs : list CollisionPair;
  checksPerformed : Z
}.

(** [pairs.push(p)] when [hit], and one more check either way. *)
Definition checked (acc : BroadphaseResult) (hit : bool) (p : CollisionPair) : BroadphaseResult :=
  {| pairs := if hit then pairs acc ++ [p] else pairs acc;
     checksPerformed := (checksPerformed acc + 1)%Z |}.

(** [Math.floor] as an integer, which the grid needs for its cell
    coordinates.  The exact interpretation has it for every number. *)
Class Floor (num : Type) : Type := {
  nfloor : num -> Z
}.

#[export] Instance Floor_Q : Floor Q := {
  nfloor := Qfloor
}.

(** The integers [lo, lo + 1, ..., hi] of a [for (i = lo; i <= hi; i++)]. *)
Definition zrange (lo hi : Z) : list Z :=
  List.map (fun i => (lo + Z.of_nat i)%Z) (List.seq 0 (Z.to_nat (hi - lo + 1))).

(** [set.add(id)] on a [Set] kept in insertion order. *)
Definition set_add (s : list EntityId) (id : EntityId) : list EntityId :=
  if List.existsb (String.eqb id) s then s else s ++ [id].

(** [set.delete(id)] and [set.has(id)] on such a set. *)
Definition set_delete (s : list EntityId) (id : EntityId) : list EntityId :=
  List.filter (fun i => negb (String.eqb id i)) s.

Definition set_has (s : list EntityId) (id : EntityId) : bool :=
  List.existsb (String.eqb id) s.

Module SimpleBroadphase.
Section Generic.
Context {num : Type} `{Number num}.

Record t : Type := { entities : JsMap.t (AABB num) }.

Definition new : t := {| entities := JsMap.empty |}.

Definition insert (self : t) (id : EntityId) (bounds : AABB num) : t :=
  {| entities := JsMap.set (entities self) id bounds |}.

(** The inner loop over [j > i]. *)
Fixpoint queryPairs_inner (a : EntityId * AABB num) (rest : list (EntityId * AABB num))
  (acc : BroadphaseResult) : BroadphaseResult :=
  match rest with
  | [] => acc
  | b :: rest' =>
      queryPairs_inner a rest'
        (checked acc (AABBOps.intersects (snd a) (snd b))
                 {| entityA := fst a; entityB := fst b |})
  end.

(** The outer loop over [i]. *)
Fixpoint queryPairs_outer (entries : list (EntityId * AABB num)) (acc : BroadphaseResult)
  : BroadphaseResult :=
  match entries with
  | [] => acc
  | a :: rest => queryPairs_outer rest (queryPairs_inner a rest acc)
  end.

Definition queryPairs (self : t) : BroadphaseResult :=
  queryPairs_outer (JsMap.entries (entities self)) {| pairs := []; checksPerformed := 0 |}.

Definition update (self : t) (id : EntityId) (bounds : AABB num) : t :=
  {| entities := JsMap.set (entities self) id bounds |}.

Definition remove (self : t) (id : EntityId) : t :=
  {| entities := JsMap.delete (entities self) id |}.

(** The two [for ... of] loops push the ids that pass the test, in the
    order of the map. *)
Definition queryPoint (self : t) (point : Vector3 num) : list EntityId :=
  List.fold_left
    (fun result e => if AABBOps.contains (snd e) point then result ++ [fst e] else result)
    (JsMap.entries (entities self)) [].

Definition queryAABB (self : t) (bounds : AABB num) : list EntityId :=
  List.fold_left
    (fun result e => if AABBOps.intersects bounds (snd e) then result ++ [fst e] else result)
    (JsMap.entries (entities self)) [].

Definition clear (self : t) : t := {| entities := JsMap.empty |}.

End Generic.
Arguments t num : clear implicits.
End SimpleBroadphase.

Module SpatialHashBroadphase.
Section Generic.
Context {num : Type} `{Number num} `{Floor num}.
Local Open Scope js_scope.

Record t : Type := {
  cellSize : num;
  cells : JsMap.t (list EntityId);
  entityBounds : JsMap.t (AABB num);
  entityCells : JsMap.t (list string)
}.

(** [new SpatialHashBroadphase(cellSize)], the default being 10. *)
Definition new (cellSize : option num) : t :=
  {| cellSize := orElse cellSize (nofZ 10);
     cells := JsMap.empty;
     entityBounds := JsMap.empty;
     entityCells := JsMap.empty |}.

(** The key [x,y,z] of a cell. *)
Definition cellKey (cx cy cz : Z) : string :=
  (string_of_Z cx ++ "," ++ string_of_Z cy ++ "," ++ string_of_Z cz)%string.

Definition getCellKey (self : t) (point : Vector3 num) : string :=
  cellKey (nfloor (Vector3.x point / cellSize self))
          (nfloor (Vector3.y point / cellSize self))
          (nfloor (Vector3.z point / cellSize self)).

Definition getCellsForBounds (self : t) (bounds : AABB num) : list string :=
  let minX := nfloor (Vector3.x (AABB.min bounds) / cellSize self) in
  let maxX := nfloor (Vector3.x (AABB.max bounds) / cellSize self) in
  let minY := nfloor (Vector3.y (AABB.min bounds) / cellSize self) in
  let maxY := nfloor (Vector3.y (AABB.max bounds) / cellSize self) in
  let minZ := nfloor (Vector3.z (AABB.min bounds) / cellSize self) in
  let maxZ := nfloor (Vector3.z (AABB.max bounds) / cellSize self) in
  List.flat_map (fun cx =>
    List.flat_map (fun cy =>
      List.map (fun cz => cellKey cx cy cz) (zrange minZ maxZ))
      (zrange minY maxY))
    (zrange minX maxX).

(** The loop of [insert] that adds [id] to the set of every cell. *)
Definition addToCells (cs : JsMap.t (list EntityId)) (cellKeys : list string) (id : EntityId)
  : JsMap.t (list EntityId) :=
  List.fold_left
    (fun m cell => JsMap.set m cell (set_add (orElse (JsMap.get m cell) []) id))
    cellKeys cs.

Definition insert (self : t) (id : EntityId) (bounds : AABB num) : t :=
  let cellKeys := getCellsForBounds self bounds in
  {| cellSize := cellSize self;
     cells := addToCells (cells self) cellKeys id;
     entityBounds := JsMap.set (entityBounds self) id bounds;
     entityCells := JsMap.set (entityCells self) id cellKeys |}.

(** The key of a pair, smaller id first. *)
Definition pairKey (idA idB : EntityId) : string :=
  if String.ltb idA idB then (idA ++ ":" ++ idB)%string else (idB ++ ":" ++ idA)%string.

(** The pairs found so far, keyed, and the checks counter. *)
Definition Found : Type := (JsMap.t CollisionPair * Z)%type.

(** The body of the two inner loops for one [(idA, idB)]. *)
Definition checkPair (self : t) (idA idB : EntityId) (acc : Found) : Found :=
  let '(found, checks) := acc in
  let key := pairKey idA idB in
  if JsMap.has found key then acc
  else
    let checks := (checks + 1)%Z in
    match JsMap.get (entityBounds self) idA, JsMap.get (entityBounds self) idB with
    | Some boundsA, Some boundsB =>
        if AABBOps.intersects boundsA boundsB then
          (JsMap.set found key
             {| entityA := if String.ltb idA idB then idA else idB;
                entityB := if String.ltb idA idB then idB else idA |},
           checks)
        else (found, checks)
    | _, _ => (found, checks)
    end.

Fixpoint queryPairs_inner (self : t) (idA : EntityId) (rest : list EntityId) (acc : Found)
  : Found :=
  match rest with
  | [] => acc
  | idB :: rest' => queryPairs_inner self idA rest' (checkPair self idA idB acc)
  end.

Fixpoint queryPairs_cell (self : t) (ids : list EntityId) (acc : Found) : Found :=
  match ids with
  | [] => acc
  | idA :: rest => queryPairs_cell self rest (queryPairs_inner self idA rest acc)
  end.

Definition queryPairs (self : t) : BroadphaseResult :=
  let '(found, checks) :=
    List.fold_left (fun acc cell => queryPairs_cell self (snd cell) acc)
                   (JsMap.entries (cells self)) (JsMap.empty, 0%Z) in
  {| pairs := JsMap.values found; checksPerformed := checks |}.

(** The loop [this.cells.get(cell)?.delete(id)] over the cells of an
    entity. *)
Definition removeFromCells (cs : JsMap.t (list EntityId)) (cellKeys : list string)
  (id : EntityId) : JsMap.t (list EntityId) :=
  List.fold_left
    (fun m cell =>
       match JsMap.get m cell with
       | Some ids => JsMap.set m cell (set_delete ids id)
       | None => m
       end)
    cellKeys cs.

Definition update (self : t) (id : EntityId) (bounds : AABB num) : t :=
  let oldCells := orElse (JsMap.get (entityCells self) id) [] in
  let cells1 := removeFromCells (cells self) oldCells id in
  let newCells := getCellsForBounds self bounds in
  {| cellSize := cellSize self;
     cells := addToCells cells1 newCells id;
     entityBounds := JsMap.set (entityBounds self) id bounds;
     entityCells := JsMap.set (entityCells self) id newCells |}.

Definition remove (self : t) (id : EntityId) : t :=
  let cellKeys := orElse (JsMap.get (entityCells self) id) [] in
  {| cellSize := cellSize self;
     cells := removeFromCells (cells self) cellKeys id;
     entityBounds := JsMap.delete (entityBounds self) id;
     entityCells := JsMap.delete (entityCells self) id |}.

Definition queryPoint (self : t) (point : Vector3 num) : list EntityId :=
  let cell := getCellKey self point in
  match JsMap.get (cells self) cell with
  | None => []
  | Some entityIds =>
      List.fold_left
        (fun result id =>
           match JsMap.get (entityBounds self) id with
           | Some bounds => if AABBOps.contains bounds point then result ++ [id] else result
           | None => result
           end)
        entityIds []
  end.

(** The ids seen so far and the result so far, through the two loops of
    [queryAABB]. *)
Definition queryAABB_id (self : t) (bounds : AABB num)
  (acc : list EntityId * list EntityId) (id : EntityId) : list EntityId * list EntityId :=
  let '(checked, result) := acc in
  if set_has checked id then acc
  else
    let checked := set_add checked id in
    match JsMap.get (entityBounds self) id with
    | Some entityBounds =>
        if AABBOps.intersects bounds entityBounds then (checked, result ++ [id])
        else (checked, result)
    | None => (checked, result)
    end.

Definition queryAABB (self : t) (bounds : AABB num) : list EntityId :=
  let cellKeys := getCellsForBounds self bounds in
  snd (List.fold_left
         (fun acc cell =>
            match JsMap.get (cells self) cell with
            | None => acc
            | Some entityIds => List.fold_left (queryAABB_id self bounds) entityIds acc
            end)
         cellKeys ([], [])).

Definition clear (self : t) : t :=
  {| cellSize := cellSize self;
     cells := JsMap.empty;
     entityBounds := JsMap.empty;
     entityCells := JsMap.empty |}.

End Generic.
Arguments t num : clear implicits.
End SpatialHashBroadphase.

(** [Array.prototype.sort(compare)]: the sort is stable, and for a
    comparator that is a total preorder its result is the one of the stable
    insertion sort below, where [x] goes before the first [y] with
    [compare(x, y) < 0]. *)
Section JsSort.
Context {num : Type} `{Number num} {A : Type} (compare : A -> A -> num).
Local Open Scope js_scope.

Fixpoint sort_insert (x : A) (l : list A) : list A :=
  match l with
  | [] => [x]
  | y :: l' => if compare x y <? nofZ 0 then x :: y :: l' else y :: sort_insert x l'
  end.

Definition js_sort (l : list A) : list A :=
  List.fold_left (fun sorted x => sort_insert x sorted) l [].

End JsSort.

Module SweepAndPruneBroadphase.
Section Generic.
Context {num : Type} `{Number num}.
Local Open Scope js_scope.

Record SAPEntry : Type := {
  id : EntityId;
  bounds : AABB num;
  minX : num;
  maxX : num
}.

Record t : Type := {
  entries : list SAPEntry;
  entityMap : JsMap.t Z
}.

Definition new : t := {| entries := []; entityMap := JsMap.empty |}.

Definition insert (self : t) (i : EntityId) (b : AABB num) : t :=
  let entry :=
    {| id := i; bounds := b;
       minX := Vector3.x (AABB.min b); maxX := Vector3.x (AABB.max b) |} in
  {| entries := entries self ++ [entry];
     entityMap := JsMap.set (entityMap self) i (Z.of_nat (List.length (entries self))) |}.

(** The inner loop over [j > i], with its [break]. *)
Fixpoint queryPairs_inner (entryA : SAPEntry) (rest : list SAPEntry) (acc : BroadphaseResult)
  : BroadphaseResult :=
  match rest with
  | [] => acc
  | entryB :: rest' =>
      if minX entryB >? maxX entryA then acc
      else
        queryPairs_inner entryA rest'
          (checked acc (AABBOps.intersects (bounds entryA) (bounds entryB))
             {| entityA := if String.ltb (id entryA) (id entryB) then id entryA else id entryB;
                entityB := if String.ltb (id entryA) (id entryB) then id entryB else id entryA |})
  end.

Fixpoint queryPairs_outer (es : list SAPEntry) (acc : BroadphaseResult) : BroadphaseResult :=
  match es with
  | [] => acc
  | entryA :: rest => queryPairs_outer rest (queryPairs_inner entryA rest acc)
  end.

(** [queryPairs()] sorts [this.entries] in place: the result and the
    backend after the call. *)
Definition queryPairs (self : t) : BroadphaseResult * t :=
  let sorted := js_sort (fun a b => minX a - minX b) (entries self) in
  (queryPairs_outer sorted {| pairs := []; checksPerformed := 0 |},
   {| entries := sorted; entityMap := entityMap self |}).

(** [update]: the entry at the recorded index gets the new bounds; its id
    is not written. *)
Definition update (self : t) (i : EntityId) (b : AABB num) : t :=
  match JsMap.get (entityMap self) i with
  | Some index =>
      match List.nth_error (entries self) (Z.to_nat index) with
      | Some entry =>
          {| entries :=
               setNth (Z.to_nat index)
                 {| id := id entry; bounds := b;
                    minX := Vector3.x (AABB.min b); maxX := Vector3.x (AABB.max b) |}
                 (entries self);
             entityMap := entityMap self |}
      | None => self
      end
  | None => self
  end.

(** [remove]: the entry at the recorded index is spliced out and the
    entries after it are indexed again. *)
Definition remove (self : t) (i : EntityId) : t :=
  match JsMap.get (entityMap self) i with
  | Some index =>
      let es := removeNth (Z.to_nat index) (entries self) in
      let m := JsMap.delete (entityMap self) i in
      {| entries := es;
         entityMap :=
           List.fold_left
             (fun m j =>
                match List.nth_error es j with
                | Some e => JsMap.set m (id e) (Z.of_nat j)
                | None => m
                end)
             (List.seq (Z.to_nat index) (List.length es - Z.to_nat index)) m |}
  | None => self
  end.

Definition queryPoint (self : t) (point : Vector3 num) : list EntityId :=
  List.map id (List.filter (fun e => AABBOps.contains (bounds e) point) (entries self)).

Definition queryAABB (self : t) (b : AABB num) : list EntityId :=
  List.map id (List.filter (fun e => AABBOps.intersects b (bounds e)) (entries self)).

Definition clear (self : t) : t := {| entries := []; entityMap := JsMap.empty |}.

End Generic.
Arguments t num : clear implicits.
Arguments SAPEntry num : clear implicits.
End SweepAndPruneBroadphase.

(** The same insertions, in the same order, into each backend. *)
Section InsertAll.
Context {num : Type} `{Number num} `{Floor num}.

Definition insertAll_simple (es : list (EntityId * AABB num)) : SimpleBroadphase.t num :=
  List.fold_left (fun b e => SimpleBroadphase.insert b (fst e) (snd e)) es SimpleBroadphase.new.

Definition insertAll_spatialHash (cellSize : option num) (es : list (EntityId * AABB num))
  : SpatialHashBroadphase.t num :=
  List.fold_left (fun b e => SpatialHashBroadphase.insert b (fst e) (snd e)) es
                 (SpatialHashBroadphase.new cellSize).

Definition insertAll_sweepAndPrune (es : list (EntityId * AABB num))
  : SweepAndPruneBroadphase.t num :=
  List.fold_left (fun b e => SweepAndPruneBroadphase.insert b (fst e) (snd e)) es
                 SweepAndPruneBroadphase.new.

End InsertAll.

(** A pair with its smaller id first, and the test that a list of pairs
    holds a given unordered pair: how two results are compared as sets of
    canonical pairs. *)
Definition canonical (p : CollisionPair) : CollisionPair :=
  if String.ltb (entityA p) (entityB p) then p
  else {| entityA := entityB p; entityB := entityA p |}.

Definition pair_eqb (p q : CollisionPair) : bool :=
  String.eqb (entityA p) (entityA q) && String.eqb (entityB p) (entityB q).

Definition has_pair (ps : list CollisionPair) (p : CollisionPair) : bool :=
  List.existsb (pair_eqb (canonical p)) (List.map canonical ps).

Definition same_pair_set (ps qs : list CollisionPair) : bool :=
  List.forallb (has_pair qs) ps && List.forallb (has_pair ps) qs.

(* ================================================================== *)
(** * collision/narrowphase: overlap tests *)
(* ================================================================== *)

Record NarrowphaseResult (num : Type) : Type := {
  colliding : bool;
  contactPoint : option (Vector3 num);
  contactNormal : option (Vector3 num);
  penetrationDepth : option num
}.
Arguments Build_NarrowphaseResult {num} _ _ _ _.
Arguments colliding {num} _.
Arguments contactPoint {num} _.
Arguments contactNormal {num} _.
Arguments penetrationDepth {num} _.

Section Narrowphase.
Context {num : Type} `{Number num}.
Local Open Scope js_scope.
Import Vector3.

(** [{ colliding: false }] *)
Definition notColliding : NarrowphaseResult num :=
  {| colliding := false; contactPoint := None; contactNormal := None;
     penetrationDepth := None |}.

Definition aabbVsAabb (boundsA boundsB : AABB num) : NarrowphaseResult num :=
  if (x (AABB.max boundsA) <? x (AABB.min boundsB))
     || (x (AABB.min boundsA) >? x (AABB.max boundsB))
     || (y (AABB.max boundsA) <? y (AABB.min boundsB))
     || (y (AABB.min boundsA) >? y (AABB.max boundsB))
     || (z (AABB.max boundsA) <? z (AABB.min boundsB))
     || (z (AABB.min boundsA) >? z (AABB.max boundsB))
  then notColliding
  else
    let overlapX :=
      nmin (x (AABB.max boundsA) - x (AABB.min boundsB))
           (x (AABB.max boundsB) - x (AABB.min boundsA)) in
    let overlapY :=
      nmin (y (AABB.max boundsA) - y (AABB.min boundsB))
           (y (AABB.max boundsB) - y (AABB.min boundsA)) in
    let overlapZ :=
      nmin (z (AABB.max boundsA) - z (AABB.min boundsB))
           (z (AABB.max boundsB) - z (AABB.min boundsA)) in
    let '(normal, penetration) :=
      if (overlapX <=? overlapY) && (overlapX <=? overlapZ) then
        let centerA := (x (AABB.min boundsA) + x (AABB.max boundsA)) / nofZ 2 in
        let centerB := (x (AABB.min boundsB) + x (AABB.max boundsB)) / nofZ 2 in
        (mk (if centerA <? centerB then nofZ (-1) else nofZ 1) (nofZ 0) (nofZ 0), overlapX)
      else if overlapY <=? overlapZ then
        let centerA := (y (AABB.min boundsA) + y (AABB.max boundsA)) / nofZ 2 in
        let centerB := (y (AABB.min boundsB) + y (AABB.max boundsB)) / nofZ 2 in
        (mk (nofZ 0) (if centerA <? centerB then nofZ (-1) else nofZ 1) (nofZ 0), overlapY)
      else
        let centerA := (z (AABB.min boundsA) + z (AABB.max boundsA)) / nofZ 2 in
        let centerB := (z (AABB.min boundsB) + z (AABB.max boundsB)) / nofZ 2 in
        (mk (nofZ 0) (nofZ 0) (if centerA <? centerB then nofZ (-1) else nofZ 1), overlapZ) in
    let contactPoint :=
      mk ((nmax (x (AABB.min boundsA)) (x (AABB.min boundsB))
           + nmin (x (AABB.max boundsA)) (x (AABB.max boundsB))) / nofZ 2)
         ((nmax (y (AABB.min boundsA)) (y (AABB.min boundsB))
           + nmin (y (AABB.max boundsA)) (y (AABB.max boundsB))) / nofZ 2)
         ((nmax (z (AABB.min boundsA)) (z (AABB.min boundsB))
           + nmin (z (AABB.max boundsA)) (z (AABB.max boundsB))) / nofZ 2) in
    {| colliding := true;
       contactPoint := Some contactPoint;
       contactNormal := Some normal;
       penetrationDepth := Some penetration |}.

Definition pointInSphere (point center : Vector3 num) (radius : num) : bool :=
  Vec3.distanceSq point center <=? radius * radius.

Definition pointInAabb (point : Vector3 num) (bounds : AABB num) : bool :=
  (x point >=? x (AABB.min bounds)) && (x point <=? x (AABB.max bounds)) &&
  (y point >=? y (AABB.min bounds)) && (y point <=? y (AABB.max bounds)) &&
  (z point >=? z (AABB.min bounds)) && (z point <=? z (AABB.max bounds)).

End Narrowphase.

(* ================================================================== *)
(** * collision/narrowphase: ray casts *)
(* ================================================================== *)

(** The ray casts are about [NaN] and [Infinity], so they are written on
    binary64 only. *)
Record RaycastResult : Type := {
  hit : bool;
  distance : option float;
  point : option (Vector3 float);
  normal : option (Vector3 float)
}.

Definition miss : RaycastResult :=
  {| hit := false; distance := None; point := None; normal := None |}.

Section Raycast.
Local Open Scope js_scope.
Import Vector3.

Definition raycastSphere (origin direction center : Vector3 float) (radius maxDistance : float)
  : RaycastResult :=
  let oc := Vec3.sub origin center in
  let a := Vec3.dot direction direction in
  let b := 2%float * Vec3.dot oc direction in
  let c := Vec3.dot oc oc - radius * radius in
  let discriminant := b * b - 4%float * a * c in
  if discriminant <? 0%float then miss
  else
    let sqrtD := JsMath.sqrt discriminant in
    let t := (- b - sqrtD) / (2%float * a) in
    let t := if t <? 0%float then (- b + sqrtD) / (2%float * a) else t in
    if (t <? 0%float) || (t >? maxDistance) then miss
    else
      let point := Vec3.add origin (Vec3.mul direction t) in
      let normal := Vec3.normalize (Vec3.sub point center) in
      {| hit := true; distance := Some t; point := Some point; normal := Some normal |}.

Definition raycastAabb (origin direction : Vector3 float) (bounds : AABB float)
  (maxDistance : float) : RaycastResult :=
  let invDir :=
    mk (if negb (x direction =? 0%float) then 1%float / x direction else JsMath.Infinity)
       (if negb (y direction =? 0%float) then 1%float / y direction else JsMath.Infinity)
       (if negb (z direction =? 0%float) then 1%float / z direction else JsMath.Infinity) in
  let t1 := (x (AABB.min bounds) - x origin) * x invDir in
  let t2 := (x (AABB.max bounds) - x origin) * x invDir in
  let t3 := (y (AABB.min bounds) - y origin) * y invDir in
  let t4 := (y (AABB.max bounds) - y origin) * y invDir in
  let t5 := (z (AABB.min bounds) - z origin) * z invDir in
  let t6 := (z (AABB.max bounds) - z origin) * z invDir in
  let tmin := JsMath.max3 (JsMath.min2 t1 t2) (JsMath.min2 t3 t4) (JsMath.min2 t5 t6) in
  let tmax := JsMath.min3 (JsMath.max2 t1 t2) (JsMath.max2 t3 t4) (JsMath.max2 t5 t6) in
  if (tmax <? 0%float) || (tmin >? tmax) || (tmin >? maxDistance) then miss
  else
    let t := if tmin >=? 0%float then tmin else tmax in
    let point := Vec3.add origin (Vec3.mul direction t) in
    let epsilon : float := dec 1 10000 in
    let normal :=
      if JsMath.abs (x point - x (AABB.min bounds)) <? epsilon then mk (-1)%float 0%float 0%float
      else if JsMath.abs (x point - x (AABB.max bounds)) <? epsilon then mk 1%float 0%float 0%float
      else if JsMath.abs (y point - y (AABB.min bounds)) <? epsilon then mk 0%float (-1)%float 0%float
      else if JsMath.abs (y point - y (AABB.max bounds)) <? epsilon then mk 0%float 1%float 0%float
      else if JsMath.abs (z point - z (AABB.min bounds)) <? epsilon then mk 0%float 0%float (-1)%float
      else mk 0%float 0%float 1%float in
    {| hit := true; distance := Some t; point := Some point; normal := Some normal |}.

End Raycast.

(** A result holds a [NaN] when its distance or a coordinate of its point
    or normal is one. *)
Definition result_has_NaN (r : RaycastResult) : bool :=
  match distance r with Some t => JsMath.isNaN t | None => false end
  || match point r with Some p => Vec3.isNaN p | None => false end
  || match normal r with Some n => Vec3.isNaN n | None => false end.

(* ================================================================== *)
(** * simulation/deterministic: hash utilities *)
(* ================================================================== *)

(** The 64 bits of a double, as [Float64Array] stores them ([NaN] is the
    canonical quiet one). *)
Definition float_bits (f : float) : Z :=
  let sign (s : bool) : Z := if s then (2 ^ 63)%Z else 0%Z in
  match Prim2SF f with
  | S754_zero s => sign s
  | S754_infinity s => (sign s + 0x7ff * 2 ^ 52)%Z
  | S754_nan => (0x7ff8 * 2 ^ 48)%Z
  | S754_finite s m e =>
      if (Zpos m <? 2 ^ 52)%Z then (sign s + Zpos m)%Z
      else (sign s + (e + 1075) * 2 ^ 52 + (Zpos m - 2 ^ 52))%Z
  end.

(** [intView[0] ^ intView[1]]: the low word and the high word. *)
Definition hashNumber (value : float) : Z :=
  let bits := float_bits value in
  Int32.xor (Int32.ToInt32 (bits mod 2 ^ 32)) (Int32.ToInt32 (bits / 2 ^ 32)).

Definition hashVector3 (v : Vector3 float) : Z :=
  let hx := hashNumber (Vector3.x v) in
  let hy := hashNumber (Vector3.y v) in
  let hz := hashNumber (Vector3.z v) in
  Int32.or (Int32.xor (Int32.xor (hx * 31) (hy * 17)) hz) 0.

Definition combineHashes (hashes : list Z) : Z :=
  List.fold_left hashStep hashes 0%Z.

(* ================================================================== *)
(** * simulation/integrators: the stability check *)
(* ================================================================== *)

Record StabilityResult : Type := {
  stable : bool;
  sr_maxVelocity : float;
  sr_maxAcceleration : float;
  hasNaN : bool;
  hasInfinity : bool;
  divergenceDetected : bool
}.

(** The four variables the loop of [checkStability] updates. *)
Record StabilityScan : Type := {
  highestVel : float;
  highestAcc : float;
  scanNaN : bool;
  scanInfinity : bool
}.

Definition checkStability_step (acc : StabilityScan) (state : IntegratorState float)
  : StabilityScan :=
  let nan' :=
    if Vec3.isNaN (is_position state) || Vec3.isNaN (is_velocity state)
       || Vec3.isNaN (is_acceleration state)
    then true else scanNaN acc in
  let inf' :=
    if negb (Vec3.isFinite (is_position state)) || negb (Vec3.isFinite (is_velocity state))
       || negb (Vec3.isFinite (is_acceleration state))
    then true else scanInfinity acc in
  let velMag := Vec3.length (is_velocity state) in
  let accMag := Vec3.length (is_acceleration state) in
  {| highestVel := if (velMag >? highestVel acc)%js then velMag else highestVel acc;
     highestAcc := if (accMag >? highestAcc acc)%js then accMag else highestAcc acc;
     scanNaN := nan';
     scanInfinity := inf' |}.

(** [checkStability(states, thresholds)] with the optional thresholds. *)
Definition checkStability (states : list (IntegratorState float))
  (maxVelocity maxAcceleration : option float) : StabilityResult :=
  let maxVel := orElse maxVelocity 1000%float in
  let maxAcc := orElse maxAcceleration 10000%float in
  let scan :=
    List.fold_left checkStability_step states
      {| highestVel := 0%float; highestAcc := 0%float;
         scanNaN := false; scanInfinity := false |} in
  let velocityOk := (highestVel scan <=? maxVel)%js in
  let accelerationOk := (highestAcc scan <=? maxAcc)%js in
  let stable := velocityOk && accelerationOk && negb (scanNaN scan) && negb (scanInfinity scan) in
  {| stable := stable;
     sr_maxVelocity := highestVel scan;
     sr_maxAcceleration := highestAcc scan;
     hasNaN := scanNaN scan;
     hasInfinity := scanInfinity scan;
     divergenceDetected := negb stable |}.

(* ================================================================== *)
(** * world/entity *)
(* ================================================================== *)

Record EntityProperties : Type := {
  mass : option float;
  friction : option float;
  restitution : option float;
  collisionRadius : option float;
  maxVelocity : option float;
  maxAcceleration : option float
}.

Record EntityDescriptor : Type := {
  ed_id : EntityId;
  ed_type : string;
  ed_transform : Transform float;
  ed_properties : EntityProperties;
  ed_metadata : option (list (string * JsValue float))
}.

(** An entity object.  The subclasses add constants of their own
    ([maxAltitude], [wheelBase], ...) that the runtime never reads; the
    fields of the base class are the ones below. *)
Module Entity.

Record t : Type := {
  id : EntityId;
  type : string;
  _transform : Transform float;
  _properties : EntityProperties;
  _status : EntityStatus;
  _velocity : Vector3 float;
  _angularVelocity : Vector3 float;
  _metadata : list (string * JsValue float)
}.

Definition setPosition (e : t) (p : Vector3 float) : t :=
  {| id := id e; type := type e;
     _transform := {| position := Vec3.clone p;
                      rotation := rotation (_transform e);
                      scale := scale (_transform e) |};
     _properties := _properties e; _status := _status e; _velocity := _velocity e;
     _angularVelocity := _angularVelocity e; _metadata := _metadata e |}.

Definition setVelocity (e : t) (v : Vector3 float) : t :=
  {| id := id e; type := type e; _transform := _transform e;
     _properties := _properties e; _status := _status e; _velocity := Vec3.clone v;
     _angularVelocity := _angularVelocity e; _metadata := _metadata e |}.

Definition setStatus (e : t) (s : EntityStatus) : t :=
  {| id := id e; type := type e; _transform := _transform e;
     _properties := _properties e; _status := s; _velocity := _velocity e;
     _angularVelocity := _angularVelocity e; _metadata := _metadata e |}.

Definition setMetadata (e : t) (key : string) (value : JsValue float) : t :=
  {| id := id e; type := type e; _transform := _transform e;
     _properties := _properties e; _status := _status e; _velocity := _velocity e;
     _angularVelocity := _angularVelocity e;
     _metadata := JsMap.set (_metadata e) key value |}.

Definition setRotation (e : t) (r : Quaternion float) : t :=
  {| id := id e; type := type e;
     _transform := {| position := position (_transform e);
                      rotation := Quat.clone r;
                      scale := scale (_transform e) |};
     _properties := _properties e; _status := _status e; _velocity := _velocity e;
     _angularVelocity := _angularVelocity e; _metadata := _metadata e |}.

Definition setAngularVelocity (e : t) (w : Vector3 float) : t :=
  {| id := id e; type := type e; _transform := _transform e;
     _properties := _properties e; _status := _status e; _velocity := _velocity e;
     _angularVelocity := Vec3.clone w; _metadata := _metadata e |}.

(** [{ ...this._transform }] *)
Definition copyTransform (e : t) : Transform float :=
  {| position := position (_transform e);
     rotation := rotation (_transform e);
     scale := scale (_transform e) |}.

Definition getState (e : t) : EntityState float :=
  {| es_id := id e;
     es_transform := copyTransform e;
     es_velocity := Vec3.clone (_velocity e);
     es_angularVelocity := Vec3.clone (_angularVelocity e);
     es_acceleration := Vector3.mk 0%float 0%float 0%float;
     es_status := _status e;
     es_customState := Some (_metadata e) |}.

Definition getDescriptor (e : t) : EntityDescriptor :=
  {| ed_id := id e;
     ed_type := type e;
     ed_transform := copyTransform e;
     ed_properties := _properties e;
     ed_metadata := Some (_metadata e) |}.

Definition getBounds (e : t) : AABB float :=
  let radius := orElse (collisionRadius (_properties e)) 1%float in
  let pos := position (_transform e) in
  (AABB.mk (Vector3.mk (Vector3.x pos - radius) (Vector3.y pos - radius)
                       (Vector3.z pos - radius))
           (Vector3.mk (Vector3.x pos + radius) (Vector3.y pos + radius)
                       (Vector3.z pos + radius)))%float.

(** The getter [entity.position]. *)
Definition position (e : t) : Vector3 float := position (_transform e).

End Entity.

(** [createEntity(descriptor)]: every class runs the base constructor. *)
Definition createEntity (descriptor : EntityDescriptor) : Entity.t :=
  {| Entity.id := ed_id descriptor;
     Entity.type := ed_type descriptor;
     Entity._transform := ed_transform descriptor;
     Entity._properties := ed_properties descriptor;
     Entity._status := "idle";
     Entity._velocity := Vec3.zero;
     Entity._angularVelocity := Vec3.zero;
     Entity._metadata := orElse (ed_metadata descriptor) [] |}.

(** [entity.clone()]: every class hands [getDescriptor()] and its own
    constants to its constructor. *)
Definition cloneEntity (entity : Entity.t) : Entity.t :=
  createEntity (Entity.getDescriptor entity).

(* ================================================================== *)
(** * simulation/runtime: the simulation loop *)
(* ================================================================== *)

Record ActionParameters : Type := {
  ap_target : option (Vector3 float);
  ap_velocity : option (Vector3 float)
}.

Record Action : Type := {
  a_entityId : EntityId;
  a_type : string;
  a_parameters : ActionParameters;
  a_timestamp : float
}.

Record WorldConfig : Type := {
  wc_size : Vector3 float;
  wc_gravity : Vector3 float;
  wc_bounds : AABB float
}.

Record RuntimeConfig : Type := {
  rc_timestep : float;
  rc_integrator : option IntegratorType;
  rc_seed : option Z;
  rc_strictMode : option bool;
  rc_worldConfig : WorldConfig
}.

(** What [validateStability] throws. *)
Inductive DivergenceError : Type :=
| NaNDetected (step : Z)
| InfinityDetected (step : Z)
| LimitsExceeded (vel acc : float) (step : Z).

(** [a.localeCompare(b)] is the host's: the code passes no locale, and the
    collation of the host (ICU in Node and in the browsers) decides the
    number.  The model takes the collation as given. *)
Class Collation : Type := { localeCompare : string -> string -> float }.

(** What a sort reads of the collation: whether [a.localeCompare(b)] is
    negative. *)
Definition sortsBefore `{Collation} (a b : string) : bool :=
  (localeCompare a b <? nofZ 0)%js.

Module SimulationRuntime.
Local Open Scope js_scope.

Record t : Type := {
  config : RuntimeConfig;
  entities : JsMap.t Entity.t;
  integrator : Integrator float;
  deterministicRuntime : DeterministicRuntime float;
  initialized : bool;
  currentStep : Z;
  simulationTime : float;
  totalCollisions : Z
}.

(** The constructor; [now] stands for [Date.now()]. *)
Definition new (config : RuntimeConfig) (now : Z) : t :=
  {| config := config;
     entities := JsMap.empty;
     integrator := createIntegrator (orElse (rc_integrator config) semi_implicit_euler);
     deterministicRuntime :=
       DeterministicRuntimeM.new
         {| p_fixedTimestep := Some (rc_timestep config);
            p_maxSubsteps := None;
            p_deterministicOrder := None;
            p_validateDeterminism := rc_strictMode config;
            p_seed := rc_seed config |} now;
     initialized := false;
     currentStep := 0%Z;
     simulationTime := 0%float;
     totalCollisions := 0%Z |}.

Definition with_entities (self : t) (es : JsMap.t Entity.t) : t :=
  {| config := config self; entities := es; integrator := integrator self;
     deterministicRuntime := deterministicRuntime self; initialized := initialized self;
     currentStep := currentStep self; simulationTime := simulationTime self;
     totalCollisions := totalCollisions self |}.

Definition addEntity (self : t) (descriptor : EntityDescriptor) : t :=
  let entity := createEntity descriptor in
  with_entities self (JsMap.set (entities self) (Entity.id entity) entity).

Definition addEntities (self : t) (descriptors : list EntityDescriptor) : t :=
  List.fold_left addEntity descriptors self.

(** The body of the loop of [physicsStep] for one entity: the entity and
    the shared integrator after it. *)
Definition physicsEntity (gravity : Vector3 float) (dt : float)
  (integ : Integrator float) (entity : Entity.t) : Entity.t * Integrator float :=
  if String.eqb (Entity._status entity) "disabled" then (entity, integ)
  else if String.eqb (Entity.type entity) "obstacle" then (entity, integ)
  else
    let acceleration :=
      Vector3.mk (Vector3.x gravity)
                 (if String.eqb (Entity.type entity) "drone" then 0%float
                  else Vector3.y gravity)
                 (Vector3.z gravity) in
    let '(result, integ') :=
      Integrator_integrate integ
        {| is_position := Entity.position entity;
           is_velocity := Entity._velocity entity;
           is_acceleration := acceleration |} dt in
    let damping : float := dec 99 100 in
    let dampedVelocity := Vec3.mul (ir_velocity result) damping in
    let maxVel := orElse (maxVelocity (Entity._properties entity)) 100%float in
    let speed := Vec3.length dampedVelocity in
    let clampedVelocity :=
      if speed >? maxVel then Vec3.mul (Vec3.normalize dampedVelocity) maxVel
      else dampedVelocity in
    let entity := Entity.setPosition entity (ir_position result) in
    let entity := Entity.setVelocity entity clampedVelocity in
    let entity :=
      if Vec3.lengthSq clampedVelocity >? dec 1 100
      then Entity.setStatus entity "moving"
      else Entity.setStatus entity "idle" in
    (entity, integ').

(** The loop of [physicsStep] over [entities.values()], in the order the
    map iterates. *)
Fixpoint physicsLoop (gravity : Vector3 float) (dt : float) (integ : Integrator float)
  (es : list (string * Entity.t)) : list (string * Entity.t) * Integrator float :=
  match es with
  | [] => ([], integ)
  | (k, entity) :: rest =>
      let '(entity', integ1) := physicsEntity gravity dt integ entity in
      let '(rest', integ2) := physicsLoop gravity dt integ1 rest in
      ((k, entity') :: rest', integ2)
  end.

Definition physicsStep (self : t) (dt : float) : t :=
  let gravity := wc_gravity (rc_worldConfig (config self)) in
  let '(es, integ) := physicsLoop gravity dt (integrator self) (entities self) in
  {| config := config self; entities := es; integrator := integ;
     deterministicRuntime := deterministicRuntime self; initialized := initialized self;
     currentStep := currentStep self; simulationTime := simulationTime self;
     totalCollisions := totalCollisions self |}.

Definition handleMoveTo (entity : Entity.t) (target : option (Vector3 float)) : Entity.t :=
  match target with
  | None => entity
  | Some target =>
      let position := Entity.position entity in
      let direction := Vec3.normalize (Vec3.sub target position) in
      let speed := orElse (maxVelocity (Entity._properties entity)) 10%float in
      let velocity := Vec3.mul direction speed in
      let entity := Entity.setVelocity entity velocity in
      let entity := Entity.setStatus entity "moving" in
      Entity.setMetadata entity "target" (JsVector target)
  end.

(** The [switch] of [processActions] on one entity. *)
Definition applyAction (entity : Entity.t) (action : Action) : Entity.t :=
  if String.eqb (a_type action) "move_to" then
    handleMoveTo entity (ap_target (a_parameters action))
  else if String.eqb (a_type action) "set_velocity" then
    match ap_velocity (a_parameters action) with
    | Some v => Entity.setStatus (Entity.setVelocity entity v) "moving"
    | None => entity
    end
  else if String.eqb (a_type action) "stop" then
    Entity.setStatus (Entity.setVelocity entity Vec3.zero) "idle"
  else entity.

Definition processActions (self : t) (actions : list Action) : t :=
  List.fold_left
    (fun self action =>
       match JsMap.get (entities self) (a_entityId action) with
       | None => self
       | Some entity =>
           with_entities self
             (JsMap.set (entities self) (a_entityId action) (applyAction entity action))
       end)
    actions self.

(** [validateStability()]: the error it throws, if any. *)
Definition validateStability (self : t) : option DivergenceError :=
  let states :=
    List.map
      (fun e => {| is_position := Entity.position e;
                   is_velocity := Entity._velocity e;
                   is_acceleration := Vector3.mk 0%float 0%float 0%float |})
      (List.filter (fun e => negb (String.eqb (Entity._status e) "disabled"))
                   (JsMap.values (entities self))) in
  let result := checkStability states None None in
  if negb (stable result) then
    if hasNaN result then Some (NaNDetected (currentStep self))
    else if hasInfinity result then Some (InfinityDetected (currentStep self))
    else if divergenceDetected result then
      Some (LimitsExceeded (sr_maxVelocity result) (sr_maxAcceleration result)
                           (currentStep self))
    else None
  else None.

Section Host.
Context `{Collation}.

Definition computeStepHash (self : t) : Z :=
  let sortedEntities :=
    js_sort (fun a b => localeCompare (fst a) (fst b)) (JsMap.entries (entities self)) in
  let hashes :=
    currentStep self ::
    List.flat_map
      (fun e => [hashVector3 (Entity.position (snd e)); hashVector3 (Entity._velocity (snd e))])
      sortedEntities in
  combineHashes hashes.

(** [step(actions)]: the runtime after the tick, or the error thrown by the
    stability check.  The snapshot the method returns is [getState()] of
    that runtime, which reads the state and changes nothing. *)
Definition step (self : t) (actions : list Action) : t + DivergenceError :=
  let self :=
    {| config := config self; entities := entities self; integrator := integrator self;
       deterministicRuntime := deterministicRuntime self; initialized := true;
       currentStep := currentStep self; simulationTime := simulationTime self;
       totalCollisions := totalCollisions self |} in
  let self := processActions self actions in
  let self := physicsStep self (rc_timestep (config self)) in
  match (if orElse (rc_strictMode (config self)) false then validateStability self else None) with
  | Some err => inr err
  | None =>
      let self :=
        {| config := config self; entities := entities self; integrator := integrator self;
           deterministicRuntime := deterministicRuntime self; initialized := initialized self;
           currentStep := (currentStep self + 1)%Z;
           simulationTime := simulationTime self + rc_timestep (config self);
           totalCollisions := totalCollisions self |} in
      let stepHash := computeStepHash self in
      inl {| config := config self; entities := entities self; integrator := integrator self;
             deterministicRuntime :=
               DeterministicRuntimeM.recordStepHash (deterministicRuntime self) stepHash;
             initialized := initialized self;
             currentStep := currentStep self;
             simulationTime := simulationTime self;
             totalCollisions := totalCollisions self |}
  end.

(** One [step] per list of actions, in order, stopping at the first error. *)
Fixpoint run (self : t) (ticks : list (list Action)) : t + DivergenceError :=
  match ticks with
  | [] => inl self
  | actions :: rest =>
      match step self actions with
      | inl self' => run self' rest
      | inr err => inr err
      end
  end.

End Host.

(** [removeEntity(id)]: whether the id was there, and the runtime after. *)
Definition removeEntity (self : t) (id : EntityId) : bool * t :=
  (JsMap.has (entities self) id, with_entities self (JsMap.delete (entities self) id)).

Definition getEntity (self : t) (id : EntityId) : option Entity.t :=
  JsMap.get (entities self) id.

Definition getEntityState (self : t) (id : EntityId) : option (EntityState float) :=
  option_map Entity.getState (JsMap.get (entities self) id).

Definition getEntityCount (self : t) : Z := JsMap.size (entities self).

(** [getState()]; [now] stands for [Date.now()] and [numberToString] for
    the way [JSON.stringify] writes a number. *)
Definition getState (numberToString : float -> string) (now : float) (self : t)
  : StateSnapshot float :=
  let builder := StateBuilderM.new now in
  let builder := StateBuilderM.setVersion builder 3 in
  let builder := StateBuilderM.setTimestamp builder now in
  let builder := StateBuilderM.setStep builder (currentStep self) in
  let builder :=
    StateBuilderM.setWorldState builder
      {| pw_time := Some (simulationTime self);
         pw_gravity := Some (wc_gravity (rc_worldConfig (config self)));
         pw_bounds := Some (wc_bounds (rc_worldConfig (config self)));
         pw_activeEntityCount := Some (JsMap.size (entities self));
         pw_totalCollisions := Some (totalCollisions self) |} in
  let builder :=
    List.fold_left (fun builder entity => StateBuilderM.addEntity builder (Entity.getState entity))
                   (JsMap.values (entities self)) builder in
  StateBuilderM.build numberToString builder.

Definition reset (self : t) : t :=
  {| config := config self; entities := JsMap.empty; integrator := integrator self;
     deterministicRuntime := DeterministicRuntimeM.reset (deterministicRuntime self);
     initialized := initialized self;
     currentStep := 0%Z;
     simulationTime := 0%float;
     totalCollisions := 0%Z |}.

Definition dispose (self : t) : t :=
  {| config := config self; entities := JsMap.empty; integrator := integrator self;
     deterministicRuntime := deterministicRuntime self;
     initialized := false;
     currentStep := currentStep self;
     simulationTime := simulationTime self;
     totalCollisions := totalCollisions self |}.

Definition getCurrentStep (self : t) : Z := currentStep self.

Definition getSimulationTime (self : t) : float := simulationTime self.

Definition getDeterministicHash (self : t) : string :=
  DeterministicRuntimeM.computeFinalHash (deterministicRuntime self).

End SimulationRuntime.

(* ================================================================== *)
(** * simulation/deterministic: operation ordering *)
(* ================================================================== *)

(** The order of [Array.prototype.sort()] without a comparator on strings:
    by code units. *)
Definition defaultCompare (a b : string) : float :=
  match String.compare a b with
  | Lt => (-1)%float
  | Eq => 0%float
  | Gt => 1%float
  end.

(** [deterministicMapIterate(map, callback)], the callback working on a
    state [W].  The keys are strings and no value is [undefined]: the test
    [value !== undefined] fails for a missing key only. *)
Definition deterministicMapIterate {V W : Type} (map : JsMap.t V)
  (callback : string -> V -> W -> W) (w : W) : W :=
  let keys := js_sort defaultCompare (JsMap.keys map) in
  List.fold_left
    (fun w key =>
       match JsMap.get map key with
       | Some value => callback key value w
       | None => w
       end)
    keys w.

(** [sortByEntityId(items)], [id] being the field [item.id]. *)
Definition sortByEntityId `{Collation} {T : Type} (id : T -> string) (items : list T)
  : list T :=
  js_sort (fun a b => localeCompare (id a) (id b)) items.

(** A collation for the sample runs: by code units.  The ids of the samples
    differ in their first character, a lower-case letter, and on those it
    orders as the collations of the hosts do. *)
Definition codeUnitCollation : Collation := {| localeCompare := defaultCompare |}.

(* ================================================================== *)
(** * Statements about exact vectors *)
(* ================================================================== *)

(** Two rational vectors denote the same point. *)
Definition V3eq (a b : Vector3 Q) : Prop :=
  Vector3.x a == Vector3.x b /\ Vector3.y a == Vector3.y b /\ Vector3.z a == Vector3.z b.

(* ================================================================== *)
(** * Sample inputs *)
(* ================================================================== *)

(** Two bodies moving apart along the normal, on binary64: body B leaves
    to the right of body A. *)
Definition bodyAt (i : string) (px vx : float) (static : bool) : PhysicsBody float :=
  {| pb_id := i;
     pb_position := Vector3.mk px 0%float 0%float;
     pb_velocity := Vector3.mk vx 0%float 0%float;
     pb_angularVelocity := Vector3.mk 0%float 0%float 0%float;
     pb_mass := 1%float; pb_inverseMass := 1%float;
     pb_friction := 0.5%float; pb_restitution := 0.5%float;
     pb_isStatic := static |}.

Definition contactAlongX : ContactPoint float :=
  {| cp_position := Vector3.mk 0.5%float 0%float 0%float;
     cp_normal := Vector3.mk 1%float 0%float 0%float;
     cp_penetration := 0.25%float;
     cp_impulse := 0%float;
     cp_tangentImpulse := Vector3.mk 0%float 0%float 0%float |}.

Definition leftBody : PhysicsBody float := bodyAt "a" 0%float (-1)%float false.

Definition rightBody : PhysicsBody float := bodyAt "b" 1%float 2%float false.

(** A runtime of the exact interpretation with the given timestep and
    substep cap, and the sum of a list of deltas. *)
Definition clockQ (timestep substeps : Q) : DeterministicRuntime Q :=
  DeterministicRuntimeM.new
    {| p_fixedTimestep := Some timestep;
       p_maxSubsteps := Some substeps;
       p_deterministicOrder := None;
       p_validateDeterminism := None;
       p_seed := Some 42%Z |} 0.

Definition Qsum (l : list Q) : Q := List.fold_right Qplus 0 l.

(** The same clock on binary64, with the default cap of 10 substeps. *)
Definition clockF (timestep : float) : DeterministicRuntime float :=
  DeterministicRuntimeM.new
    {| p_fixedTimestep := Some timestep;
       p_maxSubsteps := None;
       p_deterministicOrder := None;
       p_validateDeterminism := None;
       p_seed := Some 42%Z |} 0.

(** The accumulator of [advance] once the delta is added and the clamp to
    [fixedTimestep * maxSubsteps] is applied, on exact numbers. *)
Definition clampedAccumulator (self : DeterministicRuntime Q) (deltaTime : Q) : Q :=
  if negb (Qle_bool (dr_accumulator self + deltaTime)
                    (fixedTimestep (dr_config self) * maxSubsteps (dr_config self)))
  then fixedTimestep (dr_config self) * maxSubsteps (dr_config self)
  else dr_accumulator self + deltaTime.

(** A delta that cannot bring the accumulator of [self] to the clamp: it is
    not negative, and a whole timestep on top of it still fits under
    [fixedTimestep * maxSubsteps]. *)
Definition noClamp (self : DeterministicRuntime Q) (d : Q) : Prop :=
  0 <= d /\
  d + fixedTimestep (dr_config self)
    <= fixedTimestep (dr_config self) * maxSubsteps (dr_config self).

(** What a run of the clock returned: the step count, and the accumulator
    it left. *)
Definition stepsOf {num W : Type} (r : option (Z * DeterministicRuntime num * W)) : option Z :=
  option_map (fun t => fst (fst t)) r.

Definition leftoverOf {num W : Type} (r : option (Z * DeterministicRuntime num * W))
  : option num :=
  option_map (fun t => dr_accumulator (snd (fst t))) r.

Definition invocationsOf {num W : Type} (r : option (Z * DeterministicRuntime num * list W))
  : option nat :=
  option_map (fun t => List.length (snd t)) r.

(** The clock of the specification's examples: a timestep of 0.016 and at
    most 10 substeps; its deltas; and one delta of twenty timesteps. *)
Definition specClockQ : DeterministicRuntime Q := clockQ (16 # 1000) 10.

Definition specDeltasQ : list Q := [5 # 1000; 11 # 1000; 16 # 1000; 16 # 1000].

Definition specClockF : DeterministicRuntime float := clockF 0.016%float.

Definition specDeltasF : list float := [0.005; 0.011; 0.016; 0.016]%float.

Definition twentySteps : list Q := [20 * (16 # 1000)].

(** A snapshot as [StateBuilder] and [cloneState] build it: every entity is
    stored under its own id, and a [Map] holds a key once. *)
Definition keyedById {num : Type} (s : StateSnapshot num) : Prop :=
  List.Forall (fun kv => fst kv = es_id (snd kv)) (ss_entities s) /\
  List.NoDup (JsMap.keys (ss_entities s)).

(** A snapshot of two entities on binary64, with bounds of its own. *)
Definition sampleEntity (i : string) (px vy : float) (status : string) : EntityState float :=
  {| es_id := i;
     es_transform :=
       {| position := Vector3.mk px 50%float 0%float;
          rotation := Quaternion.mk 0%float 0%float 0%float 1%float;
          scale := Vector3.mk 2%float 2%float 2%float |};
     es_velocity := Vector3.mk 0%float vy 0.25%float;
     es_angularVelocity := Vector3.mk 0%float 0%float 1%float;
     es_acceleration := Vector3.mk 0%float (-9.81)%float 0%float;
     es_status := status;
     es_customState := None |}.

Definition sampleSnapshot : StateSnapshot float :=
  {| ss_version := 3;
     ss_timestamp := 1700000000000%float;
     ss_step := 7;
     ss_entities :=
       [("drone-1"%string, sampleEntity "drone-1" 0%float 0%float "idle");
        ("robot-1"%string, sampleEntity "robot-1" 3%float (-1.5)%float "moving")];
     ss_worldState :=
       {| ws_time := 0.112%float;
          ws_gravity := Vector3.mk 0%float (-9.81)%float 0%float;
          ws_bounds := AABB.mk (Vector3.mk (-5)%float (-5)%float (-5)%float)
                               (Vector3.mk 5%float 5%float 5%float);
          ws_activeEntityCount := 2;
          ws_totalCollisions := 1 |};
     ss_hash := "000000000badc0de" |}.

(** Four entities in the same unit box, two of them with a colon in their
    id; and two entities inserted larger id first. *)
Definition unitBox : AABB Q := AABB.mk (Vector3.mk 0 0 0) (Vector3.mk 1 1 1).

Definition colonEntities : list (EntityId * AABB Q) :=
  [("a"%string, unitBox); ("b:c"%string, unitBox); ("a:b"%string, unitBox);
   ("c"%string, unitBox)].

Definition reversedEntities : list (EntityId * AABB Q) :=
  [("b"%string, unitBox); ("a"%string, unitBox)].

Definition simplePairs (es : list (EntityId * AABB Q)) : list CollisionPair :=
  pairs (SimpleBroadphase.queryPairs (insertAll_simple es)).

Definition spatialHashPairs (es : list (EntityId * AABB Q)) : list CollisionPair :=
  pairs (SpatialHashBroadphase.queryPairs (insertAll_spatialHash None es)).

Definition sweepAndPrunePairs (es : list (EntityId * AABB Q)) : list CollisionPair :=
  pairs (fst (SweepAndPruneBroadphase.queryPairs (insertAll_sweepAndPrune es))).

(** A pair is canonical when its first id is the smaller one. *)
Definition isCanonical (p : CollisionPair) : bool := String.ltb (entityA p) (entityB p).

(** The unit box on binary64, a ray that runs along its face [x = 0], and a
    ray that starts inside a box of half-width 10. *)
Definition unitBoxF : AABB float :=
  AABB.mk (Vector3.mk 0%float 0%float 0%float) (Vector3.mk 1%float 1%float 1%float).

Definition grazingRay : RaycastResult :=
  raycastAabb (Vector3.mk 0%float (-1)%float 0.5%float) (Vector3.mk 0%float 1%float 0%float)
              unitBoxF 100%float.

Definition bigBoxF : AABB float :=
  AABB.mk (Vector3.mk (-10)%float (-10)%float (-10)%float)
          (Vector3.mk 10%float 10%float 10%float).

Definition insideRay : RaycastResult :=
  raycastAabb (Vector3.mk 0%float 0%float 0%float) (Vector3.mk 1%float 0%float 0%float)
              bigBoxF 5%float.

(** A state at rest with the acceleration [(0.3, 0, 0)], on binary64. *)
Definition restState : IntegratorState float :=
  {| is_position := Vector3.mk 0%float 0%float 0%float;
     is_velocity := Vector3.mk 0%float 0%float 0%float;
     is_acceleration := Vector3.mk 0.3%float 0%float 0%float |}.

(** Two sessions with the same configuration and the same two entities, a
    drone and a robot, added in opposite orders. *)
Definition quickProperties : EntityProperties :=
  {| mass := Some 1%float; friction := Some 0.5%float; restitution := Some 0.3%float;
     collisionRadius := Some 1%float; maxVelocity := Some 20%float;
     maxAcceleration := Some 50%float |}.

Definition descriptorAt (i type : string) (px py pz : float) : EntityDescriptor :=
  {| ed_id := i; ed_type := type;
     ed_transform :=
       {| position := Vector3.mk px py pz;
          rotation := Quaternion.mk 0%float 0%float 0%float 1%float;
          scale := Vector3.mk 1%float 1%float 1%float |};
     ed_properties := quickProperties;
     ed_metadata := None |}.

Definition drone1 : EntityDescriptor := descriptorAt "drone-1" "drone" 0%float 50%float 0%float.

Definition robot1 : EntityDescriptor := descriptorAt "robot-1" "robot" 10%float 0%float 0%float.

Definition strictConfig (integrator : IntegratorType) : RuntimeConfig :=
  {| rc_timestep := 0.016%float;
     rc_integrator := Some integrator;
     rc_seed := Some 42%Z;
     rc_strictMode := Some true;
     rc_worldConfig :=
       {| wc_size := Vector3.mk 100%float 100%float 100%float;
          wc_gravity := Vector3.mk 0%float (-9.81)%float 0%float;
          wc_bounds := AABB.mk (Vector3.mk (-100)%float (-100)%float (-100)%float)
                               (Vector3.mk 100%float 100%float 100%float) |} |}.

Definition session (integrator : IntegratorType) (descriptors : list EntityDescriptor)
  : SimulationRuntime.t :=
  SimulationRuntime.addEntities (SimulationRuntime.new (strictConfig integrator) 0) descriptors.

(** The recorded step hashes and the final hash of a run of empty ticks. *)
Definition recorded (r : SimulationRuntime.t + DivergenceError) : option (list Z * string) :=
  match r with
  | inl s =>
      Some (DeterministicRuntimeM.getStepHashes (SimulationRuntime.deterministicRuntime s),
            SimulationRuntime.getDeterministicHash s)
  | inr _ => None
  end.

Definition emptyTicks (n : nat) : list (list Action) := List.repeat [] n.

(* ================================================================== *)
(** * Statements about the broadphase backends *)
(* ================================================================== *)

(** The pairs [(a, b)] of a list with [a] before [b], in the order in which
    the double loop [for i; for j > i] visits them. *)
Fixpoint orderedPairs {A : Type} (l : list A) : list (A * A) :=
  match l with
  | [] => []
  | a :: rest => List.map (pair a) rest ++ orderedPairs rest
  end.

(** The pair the brute force pushes for two entries, and its test. *)
Definition pairOf {num : Type} (ab : (EntityId * AABB num) * (EntityId * AABB num))
  : CollisionPair :=
  {| entityA := fst (fst ab); entityB := fst (snd ab) |}.

Definition overlaps {num : Type} `{Number num}
  (ab : (EntityId * AABB num) * (EntityId * AABB num)) : bool :=
  AABBOps.intersects (snd (fst ab)) (snd (snd ab)).

(** The pair the other two backends build from two ids. *)
Definition canonicalPair (idA idB : EntityId) : CollisionPair :=
  {| entityA := if String.ltb idA idB then idA else idB;
     entityB := if String.ltb idA idB then idB else idA |}.

(** The entry [SweepAndPruneBroadphase.insert] pushes. *)
Definition sapEntry {num : Type} (e : EntityId * AABB num) : SweepAndPruneBroadphase.SAPEntry num :=
  {| SweepAndPruneBroadphase.id := fst e;
     SweepAndPruneBroadphase.bounds := snd e;
     SweepAndPruneBroadphase.minX := Vector3.x (AABB.min (snd e));
     SweepAndPruneBroadphase.maxX := Vector3.x (AABB.max (snd e)) |}.

(** The entries the sweep's inner loop reaches before its [break]. *)
Fixpoint beforeBreak {num : Type} `{Number num}
  (entryA : SweepAndPruneBroadphase.SAPEntry num)
  (rest : list (SweepAndPruneBroadphase.SAPEntry num))
  : list (SweepAndPruneBroadphase.SAPEntry num) :=
  match rest with
  | [] => []
  | entryB :: rest' =>
      if nltb (SweepAndPruneBroadphase.maxX entryA) (SweepAndPruneBroadphase.minX entryB)
      then []
      else entryB :: beforeBreak entryA rest'
  end.

(** A box with [min <= max] on every axis. *)
Definition validBox (b : AABB Q) : Prop :=
  Vector3.x (AABB.min b) <= Vector3.x (AABB.max b) /\
  Vector3.y (AABB.min b) <= Vector3.y (AABB.max b) /\
  Vector3.z (AABB.min b) <= Vector3.z (AABB.max b).

(** The dedup keys of the spatial hash tell the unordered pairs of these
    ids apart. *)
Definition keysSeparate (ids : list EntityId) : Prop :=
  forall a b a' b' : EntityId,
    List.In a ids -> List.In b ids -> List.In a' ids -> List.In b' ids ->
    SpatialHashBroadphase.pairKey a b = SpatialHashBroadphase.pairKey a' b' ->
    canonicalPair a b = canonicalPair a' b'.

(** No colon in a string. *)
Definition colonFree (s : string) : Prop :=
  ~ List.In ":"%char (list_ascii_of_string s).

(** The pairs of entries the sweep tests: each entry with the ones after it
    up to the [break]. *)
Fixpoint sweptPairs {num : Type} `{Number num}
  (es : list (SweepAndPruneBroadphase.SAPEntry num))
  : list (SweepAndPruneBroadphase.SAPEntry num * SweepAndPruneBroadphase.SAPEntry num) :=
  match es with
  | [] => []
  | entryA :: rest => List.map (pair entryA) (beforeBreak entryA rest) ++ sweptPairs rest
  end.

(** The pair the sweep pushes for two entries, and its test. *)
Definition sapPairOf {num : Type}
  (ab : SweepAndPruneBroadphase.SAPEntry num * SweepAndPruneBroadphase.SAPEntry num)
  : CollisionPair :=
  canonicalPair (SweepAndPruneBroadphase.id (fst ab)) (SweepAndPruneBroadphase.id (snd ab)).

Definition sapOverlaps {num : Type} `{Number num}
  (ab : SweepAndPruneBroadphase.SAPEntry num * SweepAndPruneBroadphase.SAPEntry num) : bool :=
  AABBOps.intersects (SweepAndPruneBroadphase.bounds (fst ab))
                     (SweepAndPruneBroadphase.bounds (snd ab)).

(** The comparator of the sweep's sort, and the order it sorts by. *)
Definition compareMinX {num : Type} `{Number num}
  (a b : SweepAndPruneBroadphase.SAPEntry num) : num :=
  nsub (SweepAndPruneBroadphase.minX a) (SweepAndPruneBroadphase.minX b).

Definition leMinX (a b : SweepAndPruneBroadphase.SAPEntry Q) : Prop :=
  SweepAndPruneBroadphase.minX a <= SweepAndPruneBroadphase.minX b.

(** The grid cells of a box for a given cell size, and the spatial hash
    with any cell size. *)
Definition cellsOf (cellSize : Q) (box : AABB Q) : list string :=
  SpatialHashBroadphase.getCellsForBounds
    {| SpatialHashBroadphase.cellSize := cellSize;
       SpatialHashBroadphase.cells := JsMap.empty;
       SpatialHashBroadphase.entityBounds := JsMap.empty;
       SpatialHashBroadphase.entityCells := JsMap.empty |} box.

Definition spatialHashPairsWith (cellSize : option Q) (es : list (EntityId * AABB Q))
  : list CollisionPair :=
  pairs (SpatialHashBroadphase.queryPairs (insertAll_spatialHash cellSize es)).

(** The canonical pairs of the entries that intersect: what every backend
    is to report. *)
Definition expected (es : list (EntityId * AABB Q)) (p : CollisionPair) : Prop :=
  exists a b : EntityId * AABB Q,
    List.In a es /\ List.In b es /\ fst a <> fst b /\
    AABBOps.intersects (snd a) (snd b) = true /\
    p = canonicalPair (fst a) (fst b).

(** An entry as [SweepAndPruneBroadphase.insert] builds it: [minX] and
    [maxX] are those of its box. *)
Definition inserted (e : SweepAndPruneBroadphase.SAPEntry Q) : Prop :=
  SweepAndPruneBroadphase.minX e = Vector3.x (AABB.min (SweepAndPruneBroadphase.bounds e)) /\
  SweepAndPruneBroadphase.maxX e = Vector3.x (AABB.max (SweepAndPruneBroadphase.bounds e)).

(** One turn of the loop of [insert]: [id] joins the set of [cell]. *)
Definition addToCell (cs : JsMap.t (list EntityId)) (cell : string) (id : EntityId)
  : JsMap.t (list EntityId) :=
  JsMap.set cs cell (set_add (orElse (JsMap.get cs cell) []) id).

(** What the grid holds once the entities [done] are inserted: every cell
    of an entity's box lists the entity, and the sets list only inserted
    ids, once each. *)
Definition cellsCover (cellSize : Q) (done : list (EntityId * AABB Q))
  (cs : JsMap.t (list EntityId)) : Prop :=
  forall (e : EntityId * AABB Q) (k : string),
    List.In e done -> List.In k (cellsOf cellSize (snd e)) ->
    exists ids, JsMap.get cs k = Some ids /\ List.In (fst e) ids.

Definition cellsKnown (done : list (EntityId * AABB Q)) (cs : JsMap.t (list EntityId)) : Prop :=
  forall (k : string) (ids : list EntityId),
    List.In (k, ids) cs ->
    List.NoDup ids /\ forall i, List.In i ids -> List.In i (List.map fst done).

(** The pairs found so far are right: each is the canonical pair of two
    entities that intersect, stored under their key. *)
Definition foundOk (es : list (EntityId * AABB Q)) (found : JsMap.t CollisionPair) : Prop :=
  forall (k : string) (p : CollisionPair),
    List.In (k, p) found ->
    exists a b : EntityId * AABB Q,
      List.In a es /\ List.In b es /\ fst a <> fst b /\
      AABBOps.intersects (snd a) (snd b) = true /\
      p = canonicalPair (fst a) (fst b) /\
      k = SpatialHashBroadphase.pairKey (fst a) (fst b).

(** Two inserted ids whose boxes intersect. *)
Definition hitting (es : list (EntityId * AABB Q)) (a b : EntityId) : Prop :=
  exists boxA boxB : AABB Q,
    List.In (a, boxA) es /\ List.In (b, boxB) es /\ AABBOps.intersects boxA boxB = true.

(** ** Statements about the step hash *)

(** Two registries hold the same entries under distinct keys, in orders
    that may differ. *)
Definition sameRegistry (m1 m2 : JsMap.t Entity.t) : Prop :=
  Permutation m1 m2 /\ List.NoDup (JsMap.keys m1).

(** The comparator that [computeStepHash] hands to the sort, the order it
    reads off the collation, and what it takes for the sort to have one
    result: on the ids at hand the collation is a strict total order (of two
    distinct ids exactly one sorts before the other, and transitively so). *)
Definition compareIds `{Collation} {V : Type} (a b : string * V) : float :=
  localeCompare (fst a) (fst b).

Definition idBefore `{Collation} {V : Type} (a b : string * V) : Prop :=
  sortsBefore (fst a) (fst b) = true.

Definition ordersStrictly `{Collation} (ids : list string) : Prop :=
  (forall a b : string,
     List.In a ids -> List.In b ids -> a <> b -> sortsBefore a b = negb (sortsBefore b a)) /\
  (forall a b c : string,
     List.In a ids -> List.In b ids -> List.In c ids ->
     sortsBefore a b = true -> sortsBefore b c = true -> sortsBefore a c = true).

(** Two collations that order the ids at hand in the same way. *)
Definition agreeOn (host1 host2 : Collation) (ids : list string) : Prop :=
  forall a b : string,
    List.In a ids -> List.In b ids -> a <> b ->
    @sortsBefore host1 a b = @sortsBefore host2 a b.

(** The comparator of a sort by code units on keyed entries, and its
    order. *)
Definition compareKeys {V : Type} (a b : string * V) : float :=
  defaultCompare (fst a) (fst b).

Definition keyBefore {V : Type} (a b : string * V) : Prop :=
  String.ltb (fst a) (fst b) = true.

(** ** Statements about transforms and boxes *)

(** The squared norm of a quaternion, the [lenSq] of [Quat.inverse]. *)
Definition quatLenSq (q : Quaternion Q) : Q :=
  Quaternion.x q * Quaternion.x q + Quaternion.y q * Quaternion.y q
  + Quaternion.z q * Quaternion.z q + Quaternion.w q * Quaternion.w q.

(** A point lies between two corners on every axis. *)
Definition withinCorners (lo hi p : Vector3 Q) : Prop :=
  (Vector3.x lo <= Vector3.x p <= Vector3.x hi) /\
  (Vector3.y lo <= Vector3.y p <= Vector3.y hi) /\
  (Vector3.z lo <= Vector3.z p <= Vector3.z hi).

(** ** Statements about contacts *)

(** One call of [addContact], as data, and the manager after a list of
    calls made in order on a new manager. *)
Record ContactCall : Type := {
  call_entityA : EntityId;
  call_entityB : EntityId;
  call_contact : ContactPoint Q;
  call_friction : Q;
  call_restitution : Q
}.

Definition addContacts (calls : list ContactCall) : ContactManager Q :=
  List.fold_left
    (fun self c =>
       ContactManagerM.addContact self (call_entityA c) (call_entityB c) (call_contact c)
                                  (call_friction c) (call_restitution c))
    calls ContactManagerM.new.

(** The number of contact points over all manifolds. *)
Definition contactCount (ms : list (ContactManifold Q)) : nat :=
  List.fold_right (fun m n => (List.length (cm_contacts m) + n)%nat) 0%nat ms.

(** The relative velocity of B with respect to A along the contact normal,
    before and after [resolveContact]. *)
Definition approachBefore (bodyA bodyB : PhysicsBody Q) (contact : ContactPoint Q) : Q :=
  Vec3.dot (Vec3.sub (pb_velocity bodyB) (pb_velocity bodyA)) (cp_normal contact).

Definition approachAfter (bodyA bodyB : PhysicsBody Q) (contact : ContactPoint Q) : Q :=
  let r := resolveContact bodyA bodyB contact in
  Vec3.dot (Vec3.sub (bu_velocity (crr_bodyB r)) (bu_velocity (crr_bodyA r)))
           (cp_normal contact).

(** The total momentum [mA vA + mB vB] of two velocities. *)
Definition momentum (bodyA bodyB : PhysicsBody Q) (vA vB : Vector3 Q) : Vector3 Q :=
  Vec3.add (Vec3.mul vA (pb_mass bodyA)) (Vec3.mul vB (pb_mass bodyB)).

(** ** More sample inputs *)

(** A transform with a rotation that is not of unit length and a scale
    that differs per axis, and a point. *)
Definition tiltedTransform : Transform Q :=
  {| position := Vector3.mk 1 2 3;
     rotation := Quaternion.mk 1 2 3 4;
     scale := Vector3.mk 2 3 (1 # 2) |}.

Definition probePoint : Vector3 Q := Vector3.mk 5 (-7) 11.

(** A unit normal that is not along an axis. *)
Definition slantedNormal : Vector3 Q := Vector3.mk (3 # 5) (4 # 5) 0.

(** A box that overlaps [unitBox] in a corner. *)
Definition cornerBox : AABB Q :=
  AABB.mk (Vector3.mk (1 # 2) (3 # 4) (1 # 4)) (Vector3.mk 2 2 2).

(** Two bodies on the x axis that approach each other, and their contact. *)
Definition bodyQ (i : string) (px vx m e : Q) : PhysicsBody Q :=
  {| pb_id := i;
     pb_position := Vector3.mk px 0 0;
     pb_velocity := Vector3.mk vx 0 0;
     pb_angularVelocity := Vector3.mk 0 0 0;
     pb_mass := m; pb_inverseMass := 1 / m;
     pb_friction := 1 # 2; pb_restitution := e;
     pb_isStatic := false |}.

Definition heavyBody : PhysicsBody Q := bodyQ "a" 0 1 4 (1 # 2).

Definition lightBody : PhysicsBody Q := bodyQ "b" 1 (-2) 1 (3 # 4).

Definition headOn : ContactPoint Q :=
  {| cp_position := Vector3.mk (1 # 2) 0 0;
     cp_normal := Vector3.mk 1 0 0;
     cp_penetration := 1 # 10;
     cp_impulse := 0;
     cp_tangentImpulse := Vector3.mk 0 0 0 |}.

(** ** Statements about point and box queries *)

(** An id with stored bounds that pass a test. *)
Definition boundsPass (bs : JsMap.t (AABB Q)) (test : AABB Q -> bool) (i : EntityId) : Prop :=
  exists b : AABB Q, JsMap.get bs i = Some b /\ test b = true.

(** The ids that the cells named by [cellKeys] list. *)
Definition listedIn (cs : JsMap.t (list EntityId)) (cellKeys : list string) (i : EntityId)
  : Prop :=
  exists (k : string) (ids : list EntityId),
    List.In k cellKeys /\ JsMap.get cs k = Some ids /\ List.In i ids.
(** Both ids of every pair found so far have stored bounds. *)
Definition pairsBounded (bs : JsMap.t (AABB Q)) (found : JsMap.t CollisionPair) : Prop :=
  forall (k : string) (p : CollisionPair),
    List.In (k, p) found ->
    JsMap.has bs (entityA p) = true /\ JsMap.has bs (entityB p) = true.
(** The index map of the sweep for ids stored from position [start] on. *)
Definition indexFrom (start : nat) (ids : list EntityId) : JsMap.t Z :=
  List.combine ids (List.map Z.of_nat (List.seq start (List.length ids))).
(** Three entities: two boxes that overlap and one far from both. *)
Definition farBox : AABB Q := AABB.mk (Vector3.mk 40 40 40) (Vector3.mk 41 41 41).

Definition threeBoxes : list (EntityId * AABB Q) :=
  [("b"%string, cornerBox); ("a"%string, unitBox); ("c"%string, farBox)].

Definition insidePoint : Vector3 Q := Vector3.mk (3 # 4) (4 # 5) (1 # 2).

(** ** Statements about the generator and the clock *)

(** The callback that records the keys it is called with, latest last. *)
Definition visitKey {V : Type} (key : string) (value : V) (visited : list string)
  : list string := (visited ++ [key])%list.

(** A list of strings in strictly ascending order of code units. *)
Definition ascending (keys : list string) : Prop :=
  StronglySorted (fun a b => String.ltb a b = true) keys.


(** ** Statements about the simulation loop *)

(** An entity [physicsStep] passes over: disabled, or an obstacle. *)
Definition skipped (entity : Entity.t) : bool :=
  String.eqb (Entity._status entity) "disabled" || String.eqb (Entity.type entity) "obstacle".

(** The last descriptor of a list that carries the id [i]. *)
Definition lastWithId (descriptors : list EntityDescriptor) (i : EntityId)
  : option EntityDescriptor :=
  List.find (fun d => String.eqb (ed_id d) i) (List.rev descriptors).

(** An entity the stability check reads (it is not disabled) whose position
    or velocity holds a [NaN], or a component that is not finite. *)
Definition readsNaN (entity : Entity.t) : bool :=
  negb (String.eqb (Entity._status entity) "disabled")
  && (Vec3.isNaN (Entity.position entity) || Vec3.isNaN (Entity._velocity entity)).

Definition readsNonFinite (entity : Entity.t) : bool :=
  negb (String.eqb (Entity._status entity) "disabled")
  && (negb (Vec3.isFinite (Entity.position entity))
      || negb (Vec3.isFinite (Entity._velocity entity))).

(** The registry as [addEntity] fills it: every entity under its own id,
    every id once. *)
Definition registryKeyed (self : SimulationRuntime.t) : Prop :=
  List.Forall (fun kv => fst kv = Entity.id (snd kv)) (SimulationRuntime.entities self) /\
  List.NoDup (JsMap.keys (SimulationRuntime.entities self)).

(** Two runtimes that agree on all that a tick reads and on the log of
    step hashes; they may differ in the started flag and in the seeds, the
    accumulator and the step counter of the clock. *)
Definition replays (s1 s2 : SimulationRuntime.t) : Prop :=
  SimulationRuntime.config s1 = SimulationRuntime.config s2 /\
  SimulationRuntime.entities s1 = SimulationRuntime.entities s2 /\
  SimulationRuntime.integrator s1 = SimulationRuntime.integrator s2 /\
  SimulationRuntime.currentStep s1 = SimulationRuntime.currentStep s2 /\
  SimulationRuntime.simulationTime s1 = SimulationRuntime.simulationTime s2 /\
  SimulationRuntime.totalCollisions s1 = SimulationRuntime.totalCollisions s2 /\
  dr_config (SimulationRuntime.deterministicRuntime s1)
  = dr_config (SimulationRuntime.deterministicRuntime s2) /\
  dr_stepHashes (SimulationRuntime.deterministicRuntime s1)
  = dr_stepHashes (SimulationRuntime.deterministicRuntime s2).

(** The runtime two empty ticks after a session with one drone began. *)
Definition afterTwoTicks : SimulationRuntime.t :=
  match @SimulationRuntime.run codeUnitCollation (session euler [drone1]) (emptyTicks 2) with
  | inl s => s
  | inr _ => session euler [drone1]
  end.

(** A wall, and the action that stops the first drone. *)
Definition wall1 : EntityDescriptor := descriptorAt "wall-1" "obstacle" 5%float 0%float 5%float.

Definition stopDrone1 : Action :=
  {| a_entityId := "drone-1";
     a_type := "stop";
     a_parameters := {| ap_target := None; ap_velocity := None |};
     a_timestamp := 0%float |}.

(** A stand-in for the way [JSON.stringify] writes a number. *)
Definition constantDigits (x : float) : string := "0".

(** ** Statements about snapshots *)

(** An entity state whose position or velocity holds a [NaN]. *)
Definition holdsNaN (e : EntityState float) : bool :=
  Vec3.isNaN (position (es_transform e)) || Vec3.isNaN (es_velocity e).

(** ** Statements about the integrators *)

(** [n] calls of [integrate] on one integrator under a constant
    acceleration, each fed with the position and the velocity the call
    before returned. *)
Fixpoint integrateN {num : Type} `{Number num} (n : nat) (integ : Integrator num)
  (position velocity acceleration : Vector3 num) (dt : num)
  : IntegratorResult num * Integrator num :=
  match n with
  | O => ({| ir_position := position; ir_velocity := velocity |}, integ)
  | S n' =>
      let '(r, integ') :=
        Integrator_integrate integ
          {| is_position := position; is_velocity := velocity;
             is_acceleration := acceleration |} dt in
      integrateN n' integ' (ir_position r) (ir_velocity r) acceleration dt
  end.

(** [p + v t + a c]: where a body that starts at [p] with velocity [v] is
    after the time [t] when the acceleration [a] has contributed [c]. *)
Definition displaced (p v a : Vector3 Q) (t c : Q) : Vector3 Q :=
  Vec3.add (Vec3.add p (Vec3.mul v t)) (Vec3.mul a c).

(** The number of steps as a rational. *)
Definition steps (n : nat) : Q := inject_Z (Z.of_nat n).

(** The result of [n] calls on a fresh integrator of the given type. *)
Definition trajectory (type : IntegratorType) (n : nat) (p v a : Vector3 Q) (dt : Q)
  : IntegratorResult Q :=
  fst (integrateN n (createIntegrator type) p v a dt).


(** ** Statements about the collation of the host *)

(** A collation given by two answers: whether ["drone-1"] sorts before
    another id, and whether another id sorts before any. *)
Definition tabledCollation (droneFirst otherFirst : bool) : Collation :=
  {| localeCompare a b :=
       if String.eqb a "drone-1"
       then (if droneFirst then (-1)%float else 1%float)
       else (if otherFirst then (-1)%float else 1%float) |}.


(** ** Clocks outside the range of the examples *)

(** A binary64 clock with a substep cap of its own. *)
Definition clockFWith (timestep substeps : float) : DeterministicRuntime float :=
  DeterministicRuntimeM.new
    {| p_fixedTimestep := Some timestep;
       p_maxSubsteps := Some substeps;
       p_deterministicOrder := None;
       p_validateDeterminism := None;
       p_seed := Some 42%Z |} 0.

(** The clock [self] once it has been fed [deltas], one call of [advance]
    each. *)
Definition clockAfter (self : DeterministicRuntime Q) (deltas : list Q)
  : DeterministicRuntime Q :=
  match DeterministicRuntimeM.advance_all traceCallback 100 self deltas [] with
  | Some (_, self', _) => self'
  | None => self
  end.

(** The rational number a finite double stands for. *)
Definition exactValue (x : float) : option Q :=
  match Prim2SF x with
  | S754_zero _ => Some 0
  | S754_finite negative m e =>
      Some (Qred ((if negative then - inject_Z (Zpos m) else inject_Z (Zpos m))
                  * Qpower 2 e))
  | _ => None
  end.

(** [2^54], from which binary64 cannot take 1 away: [2^54 - 1] rounds back
    to [2^54]. *)
Definition twoPow54 : float := 18014398509481984%float.

(** A clock of timestep 1, and deltas that sum to exactly one timestep:
    the double below 1, then four times [2^-55], a quarter of the gap
    between that double and 1. *)
Definition unitClockQ : DeterministicRuntime Q := clockQ 1 10.

Definition unitClockF : DeterministicRuntime float := clockFWith 1%float 10%float.

Definition creepingDeltasF : list float :=
  [0x1.fffffffffffffp-1; 0x1p-55; 0x1p-55; 0x1p-55; 0x1p-55]%float.

Definition creepingDeltasQ : list Q :=
  [(9007199254740991 # 9007199254740992); (1 # 36028797018963968);
   (1 # 36028797018963968); (1 # 36028797018963968); (1 # 36028797018963968)].

(** The configuration of the specification's clock, and deltas for it: one
    that leaves 0.005 in the accumulator, and three more that sum to three
    timesteps. *)
Definition specConfigQ : PartialDeterministicConfig Q :=
  {| p_fixedTimestep := Some (16 # 1000);
     p_maxSubsteps := Some 10;
     p_deterministicOrder := None;
     p_validateDeterminism := None;
     p_seed := Some 42%Z |}.

Definition firstDeltaQ : list Q := [5 # 1000].

Definition laterDeltasQ : list Q := [11 # 1000; 16 # 1000; 21 # 1000].


(** The entities of a snapshot have ids of their own: no two entries of the
    [Map] hold the same [id]. *)
Definition distinctIds {num : Type} (s : StateSnapshot num) : Prop :=
  List.NoDup (List.map es_id (JsMap.values (ss_entities s))).

(** A snapshot whose [Map] holds two entities with the same [id], under
    keys of their own. *)
Definition twinSnapshot : StateSnapshot float :=
  {| ss_version := 3;
     ss_timestamp := 1700000000000%float;
     ss_step := 7;
     ss_entities :=
       [("left"%string, sampleEntity "twin" 0%float 0%float "idle");
        ("right"%string, sampleEntity "twin" 3%float (-1.5)%float "moving")];
     ss_worldState :=
       {| ws_time := 0.112%float;
          ws_gravity := Vector3.mk 0%float (-9.81)%float 0%float;
          ws_bounds := AABB.mk (Vector3.mk (-5)%float (-5)%float (-5)%float)
                               (Vector3.mk 5%float 5%float 5%float);
          ws_activeEntityCount := 2;
          ws_totalCollisions := 1 |};
     ss_hash := "000000000badc0de" |}.

(* ================================================================== *)
(** * Properties *)
(* ================================================================== *)

(** ** Integrators *)

Lemma V3eq_refl (a : Vector3 Q) : V3eq a a.
Proof. repeat split; reflexivity. Qed.

Lemma V3eq_zero_sub (a b : Vector3 Q) :
  V3eq a b -> V3eq (Vec3.sub a b) Vec3.zero.
Proof.
  intros (Hx & Hy & Hz). unfold V3eq, Vec3.sub, Vec3.zero. cbn.
  rewrite Hx, Hy, Hz. repeat split; ring.
Qed.

(** C10. In exact arithmetic [RK4Integrator.integrate] returns the velocity
    [v + a dt] and the position [p + v dt + (1/2) a dt^2]: its four stages
    sample the same acceleration and collapse to the closed form.  The
    semi-implicit Euler position is [p + v dt + a dt^2], so the two
    positions differ by exactly [(1/2) a dt^2], and they are different
    points whenever [a dt^2] is not zero. *)
Theorem rk4_closed_form (s : IntegratorState Q) (dt : Q) :
  let p := is_position s in
  let v := is_velocity s in
  let a := is_acceleration s in
  let rk := RK4Integrator.integrate s dt in
  let se := SemiImplicitEulerIntegrator.integrate s dt in
  V3eq (ir_velocity rk) (Vec3.add v (Vec3.mul a dt)) /\
  V3eq (ir_position rk)
       (Vec3.add (Vec3.add p (Vec3.mul v dt)) (Vec3.mul a ((1 # 2) * (dt * dt)))) /\
  V3eq (ir_position se)
       (Vec3.add (Vec3.add p (Vec3.mul v dt)) (Vec3.mul a (dt * dt))) /\
  V3eq (Vec3.sub (ir_position se) (ir_position rk)) (Vec3.mul a ((1 # 2) * (dt * dt))) /\
  (~ V3eq (Vec3.mul a (dt * dt)) Vec3.zero -> ~ V3eq (ir_position se) (ir_position rk)).
Proof.
  destruct s as [[px py pz] [vx vy vz] [ax ay az]].
  cbv zeta.
  assert (Hdiff :
    V3eq (Vec3.sub
            (ir_position (SemiImplicitEulerIntegrator.integrate
               {| is_position := Vector3.mk px py pz;
                  is_velocity := Vector3.mk vx vy vz;
                  is_acceleration := Vector3.mk ax ay az |} dt))
            (ir_position (RK4Integrator.integrate
               {| is_position := Vector3.mk px py pz;
                  is_velocity := Vector3.mk vx vy vz;
                  is_acceleration := Vector3.mk ax ay az |} dt)))
         (Vec3.mul (Vector3.mk ax ay az) ((1 # 2) * (dt * dt)))).
  { unfold V3eq; cbn; unfold dec; cbn; repeat split; field. }
  split; [| split; [| split; [| split]]].
  - unfold V3eq; cbn; unfold dec; cbn; repeat split; field.
  - unfold V3eq; cbn; unfold dec; cbn; repeat split; field.
  - unfold V3eq; cbn; repeat split; ring.
  - exact Hdiff.
  - intros Hnz Heq. apply Hnz.
    apply V3eq_zero_sub in Heq.
    destruct Hdiff as (Dx & Dy & Dz). destruct Heq as (Ex & Ey & Ez).
    rewrite Ex in Dx. rewrite Ey in Dy. rewrite Ez in Dz.
    cbn in Dx, Dy, Dz. unfold V3eq. cbn. unfold inject_Z in *.
    repeat split; lra.
Qed.

(** ** Contact resolution *)

Section ContactFacts.
Context {num : Type} `{Number num}.

Lemma unchanged_spec (bodyA bodyB : PhysicsBody num) :
  crr_impulse (unchanged bodyA bodyB) = nofZ 0 /\
  bu_velocity (crr_bodyA (unchanged bodyA bodyB)) = pb_velocity bodyA /\
  bu_velocity (crr_bodyB (unchanged bodyA bodyB)) = pb_velocity bodyB.
Proof. repeat split. Qed.

(** C5. When both bodies are static, or when the relative velocity along
    the contact normal is separating ([dot(vB - vA, normal) > 0]),
    [resolveContact] returns the impulse [0] and the two input velocities.
    This holds for every interpretation of [number], binary64 included. *)
Theorem resolveContact_no_impulse
  (bodyA bodyB : PhysicsBody num) (contact : ContactPoint num) :
  (pb_isStatic bodyA = true /\ pb_isStatic bodyB = true) \/
  nltb (nofZ 0)
       (Vec3.dot (Vec3.sub (pb_velocity bodyB) (pb_velocity bodyA)) (cp_normal contact)) = true ->
  crr_impulse (resolveContact bodyA bodyB contact) = nofZ 0 /\
  bu_velocity (crr_bodyA (resolveContact bodyA bodyB contact)) = pb_velocity bodyA /\
  bu_velocity (crr_bodyB (resolveContact bodyA bodyB contact)) = pb_velocity bodyB.
Proof.
  intros Hcase. unfold resolveContact.
  destruct (pb_isStatic bodyA && pb_isStatic bodyB) eqn:Hstatic.
  - apply unchanged_spec.
  - destruct Hcase as [[Ha Hb] | Hsep].
    + rewrite Ha, Hb in Hstatic. discriminate.
    + cbv zeta. rewrite Hsep. apply unchanged_spec.
Qed.

End ContactFacts.

Lemma resolveContact_no_impulse_witness :
  (nltb (nofZ 0)
        (Vec3.dot (Vec3.sub (pb_velocity rightBody) (pb_velocity leftBody))
                  (cp_normal contactAlongX)) = true) /\
  (crr_impulse (resolveContact leftBody rightBody contactAlongX) = nofZ 0) /\
  (bu_velocity (crr_bodyA (resolveContact leftBody rightBody contactAlongX))
   = pb_velocity leftBody) /\
  (bu_velocity (crr_bodyB (resolveContact leftBody rightBody contactAlongX))
   = pb_velocity rightBody).
Proof.
  split.
  - vm_compute. reflexivity.
  - apply (resolveContact_no_impulse leftBody rightBody contactAlongX).
    right. vm_compute. reflexivity.
Defined.

(** ** The fixed-step clock *)

Section ClockFacts.
Import DeterministicRuntimeM.

Lemma Qleb_true (a b : Q) : Qle_bool a b = true <-> a <= b.
Proof. apply Qle_bool_iff. Qed.

Lemma Qleb_false (a b : Q) : Qle_bool a b = false <-> b < a.
Proof.
  split; intros Hf.
  - apply Qnot_le_lt. intros Hle. apply Qleb_true in Hle. congruence.
  - destruct (Qle_bool a b) eqn:E; [| reflexivity].
    apply Qleb_true in E. lra.
Qed.

(** The loop on exact numbers: when the accumulator is below [k + 1]
    timesteps, any fuel above [k] lets the loop finish, after [m <= k]
    iterations that each call the callback once and take one timestep off
    the accumulator. *)
Lemma advance_loop_exact (k : nat) :
  forall (self : DeterministicRuntime Q) (log : list (Q * Z)) (n : Z),
  0 < fixedTimestep (dr_config self) ->
  dr_accumulator self < fixedTimestep (dr_config self) * (inject_Z (Z.of_nat k) + 1) ->
  exists (m : Z) (self' : DeterministicRuntime Q) (log' : list (Q * Z)),
    (forall fuel, (k < fuel)%nat ->
       advance_loop traceCallback fuel self log n = Some ((n + m)%Z, self', log')) /\
    (0 <= m <= Z.of_nat k)%Z /\
    dr_config self' = dr_config self /\
    dr_accumulator self' == dr_accumulator self - inject_Z m * fixedTimestep (dr_config self) /\
    dr_accumulator self' < fixedTimestep (dr_config self) /\
    ((0 < m)%Z -> 0 <= dr_accumulator self') /\
    List.length log' = (List.length log + Z.to_nat m)%nat.
Proof.
  assert (Hstop : forall (self : DeterministicRuntime Q) (log : list (Q * Z)) (n : Z) (j : nat),
    dr_accumulator self < fixedTimestep (dr_config self) ->
    exists (m : Z) (self' : DeterministicRuntime Q) (log' : list (Q * Z)),
      (forall fuel, (j < fuel)%nat ->
         advance_loop traceCallback fuel self log n = Some ((n + m)%Z, self', log')) /\
      (0 <= m <= Z.of_nat j)%Z /\
      dr_config self' = dr_config self /\
      dr_accumulator self' == dr_accumulator self - inject_Z m * fixedTimestep (dr_config self) /\
      dr_accumulator self' < fixedTimestep (dr_config self) /\
      ((0 < m)%Z -> 0 <= dr_accumulator self') /\
      List.length log' = (List.length log + Z.to_nat m)%nat).
  { intros self log n j Hlt. exists 0%Z, self, log.
    split; [| split; [| split; [| split; [| split; [| split]]]]].
    - intros fuel Hfuel. destruct fuel as [| fuel]; [lia |].
      cbn. rewrite (proj2 (Qleb_false _ _) Hlt). now rewrite Z.add_0_r.
    - lia.
    - reflexivity.
    - change (inject_Z 0) with 0. lra.
    - exact Hlt.
    - lia.
    - cbn. lia. }
  induction k as [| k IH]; intros self log n Hts Hacc.
  - apply Hstop. change (inject_Z (Z.of_nat 0)) with 0 in Hacc. lra.
  - destruct (Qle_bool (fixedTimestep (dr_config self)) (dr_accumulator self)) eqn:Hge.
    + apply Qleb_true in Hge.
      set (self1 :=
             {| dr_config := dr_config self;
                dr_seedManager := dr_seedManager self;
                dr_accumulator := dr_accumulator self - fixedTimestep (dr_config self);
                dr_currentStep := (dr_currentStep self + 1)%Z;
                dr_stepHashes := dr_stepHashes self |}).
      destruct (IH self1
                   (traceCallback (fixedTimestep (dr_config self)) (dr_currentStep self) log)
                   (n + 1)%Z)
        as (m & self' & log' & Hrun & Hm & Hcfg & Heq & Hlt & Hpos & Hlen).
      * exact Hts.
      * unfold self1. cbn [dr_accumulator dr_config].
        rewrite Nat2Z.inj_succ, <- Z.add_1_r, inject_Z_plus in Hacc.
        change (inject_Z 1) with 1 in Hacc. lra.
      * exists (1 + m)%Z, self', log'.
        split; [| split; [| split; [| split; [| split; [| split]]]]].
        -- intros fuel Hfuel. destruct fuel as [| fuel]; [lia |].
           replace (n + (1 + m))%Z with (n + 1 + m)%Z by lia.
           cbn. rewrite (proj2 (Qleb_true _ _) Hge).
           apply Hrun. lia.
        -- lia.
        -- exact Hcfg.
        -- rewrite Heq. unfold self1. cbn [dr_accumulator dr_config].
           rewrite inject_Z_plus. change (inject_Z 1) with 1. ring.
        -- exact Hlt.
        -- intros _. destruct (Z.eq_dec m 0) as [-> | Hne].
           ++ rewrite Heq. unfold self1. cbn [dr_accumulator dr_config].
              change (inject_Z 0) with 0. lra.
           ++ apply Hpos. lia.
        -- rewrite Hlen. unfold traceCallback. cbn [List.length].
           rewrite Z2Nat.inj_add by lia. change (Z.to_nat 1) with 1%nat. lia.
    + apply Qleb_false in Hge. apply Hstop. exact Hge.
Qed.

(** Every rational is below [k + 1] timesteps for some [k]. *)
Lemma steps_bound_exists (a ts : Q) :
  0 < ts -> exists k : nat, a < ts * (inject_Z (Z.of_nat k) + 1).
Proof.
  intros Hts. exists (Z.to_nat (Qfloor (a / ts))).
  assert (Hfl : a / ts < inject_Z (Qfloor (a / ts) + 1)) by apply Qlt_floor.
  assert (Hk : inject_Z (Qfloor (a / ts) + 1)
               <= inject_Z (Z.of_nat (Z.to_nat (Qfloor (a / ts)))) + 1).
  { rewrite inject_Z_plus. change (inject_Z 1) with 1.
    assert (Hz : (Qfloor (a / ts) <= Z.of_nat (Z.to_nat (Qfloor (a / ts))))%Z) by lia.
    rewrite Zle_Qle in Hz. lra. }
  assert (Hdiv : a == (a / ts) * ts) by (field; lra).
  rewrite Hdiv at 1. rewrite (Qmult_comm ts).
  apply Qmult_lt_r; [exact Hts | lra].
Qed.

(** The accumulator after [advance] has added the delta and clamped. *)
Lemma advance_unfold (fuel : nat) (self : DeterministicRuntime Q) (deltaTime : Q)
  (log : list (Q * Z)) :
  advance traceCallback fuel self deltaTime log =
  advance_loop traceCallback fuel
    (set_accumulator self (clampedAccumulator self deltaTime)) log 0.
Proof.
  unfold advance, clampedAccumulator.
  cbn [set_accumulator dr_config dr_accumulator nltb nadd nmul Number_Q].
  destruct (negb (Qle_bool (dr_accumulator self + deltaTime)
                           (fixedTimestep (dr_config self) * maxSubsteps (dr_config self))));
    reflexivity.
Qed.

Lemma clampedAccumulator_le (self : DeterministicRuntime Q) (deltaTime : Q) :
  clampedAccumulator self deltaTime
  <= fixedTimestep (dr_config self) * maxSubsteps (dr_config self).
Proof.
  unfold clampedAccumulator.
  destruct (Qle_bool (dr_accumulator self + deltaTime)
                     (fixedTimestep (dr_config self) * maxSubsteps (dr_config self))) eqn:E;
    cbn [negb].
  - apply Qleb_true in E. exact E.
  - lra.
Qed.

Lemma clampedAccumulator_id (self : DeterministicRuntime Q) (deltaTime : Q) :
  dr_accumulator self + deltaTime
  <= fixedTimestep (dr_config self) * maxSubsteps (dr_config self) ->
  clampedAccumulator self deltaTime = dr_accumulator self + deltaTime.
Proof.
  intros Hle. unfold clampedAccumulator.
  rewrite (proj2 (Qleb_true _ _) Hle). reflexivity.
Qed.

(** One call of [advance] on exact numbers with a positive timestep: it
    returns for every fuel from some point on, after [m] steps that leave
    less than one timestep in the accumulator. *)
Lemma advance_exact (self : DeterministicRuntime Q) (deltaTime : Q) (log : list (Q * Z)) :
  0 < fixedTimestep (dr_config self) ->
  exists (fuel0 : nat) (m : Z) (self' : DeterministicRuntime Q) (log' : list (Q * Z)),
    (forall fuel, (fuel0 <= fuel)%nat ->
       advance traceCallback fuel self deltaTime log = Some (m, self', log')) /\
    (0 <= m)%Z /\
    dr_config self' = dr_config self /\
    dr_accumulator self'
      == clampedAccumulator self deltaTime - inject_Z m * fixedTimestep (dr_config self) /\
    dr_accumulator self' < fixedTimestep (dr_config self) /\
    ((0 < m)%Z -> 0 <= dr_accumulator self') /\
    List.length log' = (List.length log + Z.to_nat m)%nat.
Proof.
  intros Hts.
  destruct (steps_bound_exists (clampedAccumulator self deltaTime)
              (fixedTimestep (dr_config self)) Hts) as (k & Hk).
  destruct (advance_loop_exact k
              (set_accumulator self (clampedAccumulator self deltaTime)) log 0 Hts Hk)
    as (m & self' & log' & Hrun & Hm & Hcfg & Heq & Hlt & Hpos & Hlen).
  exists (S k), m, self', log'.
  split; [| split; [| split; [| split; [| split; [| split]]]]].
  - intros fuel Hfuel. rewrite advance_unfold. apply Hrun. lia.
  - lia.
  - exact Hcfg.
  - exact Heq.
  - exact Hlt.
  - exact Hpos.
  - exact Hlen.
Qed.


(** A run of calls none of which reaches the clamp: every delta is
    non-negative and leaves room for the timestep the accumulator may still
    hold. *)
Lemma advance_all_exact (deltas : list Q) :
  forall (self : DeterministicRuntime Q) (log : list (Q * Z)),
  0 < fixedTimestep (dr_config self) ->
  0 <= dr_accumulator self < fixedTimestep (dr_config self) ->
  List.Forall (noClamp self) deltas ->
  exists (fuel0 : nat) (n : Z) (self' : DeterministicRuntime Q) (log' : list (Q * Z)),
    (forall fuel, (fuel0 <= fuel)%nat ->
       advance_all traceCallback fuel self deltas log = Some (n, self', log')) /\
    (0 <= n)%Z /\
    dr_accumulator self'
      == dr_accumulator self + Qsum deltas - inject_Z n * fixedTimestep (dr_config self) /\
    0 <= dr_accumulator self' < fixedTimestep (dr_config self) /\
    List.length log' = (List.length log + Z.to_nat n)%nat.
Proof.
  induction deltas as [| d rest IH]; intros self log Hts Hacc Hall.
  - exists 0%nat, 0%Z, self, log.
    split; [| split; [| split; [| split]]].
    + intros fuel _. reflexivity.
    + lia.
    + cbn. change (inject_Z 0) with 0. lra.
    + exact Hacc.
    + cbn. lia.
  - inversion Hall as [| d' rest' [Hd0 Hd1] Hrest]; subst.
    destruct (advance_exact self d log Hts)
      as (fuel1 & m & self1 & log1 & Hrun1 & Hm & Hcfg & Heq1 & Hlt1 & Hpos1 & Hlen1).
    rewrite clampedAccumulator_id in Heq1 by lra.
    assert (Hacc1 : 0 <= dr_accumulator self1).
    { destruct (Z.eq_dec m 0) as [-> | Hne].
      - rewrite Heq1. change (inject_Z 0) with 0. lra.
      - apply Hpos1. lia. }
    destruct (IH self1 log1) as (fuel2 & n & self2 & log2 & Hrun2 & Hn & Heq2 & Hacc2 & Hlen2).
    + rewrite Hcfg. exact Hts.
    + rewrite Hcfg. split; [exact Hacc1 | exact Hlt1].
    + unfold noClamp in *. rewrite Hcfg. exact Hrest.
    + rewrite Hcfg in Heq2, Hacc2.
      exists (Nat.max fuel1 fuel2), (m + n)%Z, self2, log2.
      split; [| split; [| split; [| split]]].
      * intros fuel Hfuel. cbn [advance_all].
        rewrite Hrun1 by lia. rewrite Hrun2 by lia. reflexivity.
      * lia.
      * rewrite Heq2, Heq1. cbn [Qsum List.fold_right]. fold (Qsum rest).
        rewrite inject_Z_plus. ring.
      * exact Hacc2.
      * rewrite Hlen2, Hlen1. rewrite Z2Nat.inj_add by lia. lia.
Qed.

Lemma clampedAccumulator_nonneg (self : DeterministicRuntime Q) (deltaTime : Q) :
  0 < fixedTimestep (dr_config self) -> 0 <= maxSubsteps (dr_config self) ->
  0 <= dr_accumulator self -> 0 <= deltaTime ->
  0 <= clampedAccumulator self deltaTime.
Proof.
  intros Hts Hmax Hacc Hd. unfold clampedAccumulator.
  destruct (negb (Qle_bool (dr_accumulator self + deltaTime)
                           (fixedTimestep (dr_config self) * maxSubsteps (dr_config self)))).
  - apply Qmult_le_0_compat; lra.
  - lra.
Qed.

(** With a positive timestep every run of calls returns, and it keeps the
    configuration.  Fed deltas that are not negative, under a substep cap
    that is not negative, it keeps the accumulator between 0 and one
    timestep. *)
Lemma advance_all_returns (deltas : list Q) :
  forall (self : DeterministicRuntime Q) (log : list (Q * Z)),
  0 < fixedTimestep (dr_config self) ->
  exists (fuel0 : nat) (n : Z) (self' : DeterministicRuntime Q) (log' : list (Q * Z)),
    (forall fuel, (fuel0 <= fuel)%nat ->
       advance_all traceCallback fuel self deltas log = Some (n, self', log')) /\
    dr_config self' = dr_config self /\
    (0 <= maxSubsteps (dr_config self) -> List.Forall (Qle 0) deltas ->
     0 <= dr_accumulator self < fixedTimestep (dr_config self) ->
     0 <= dr_accumulator self' < fixedTimestep (dr_config self)).
Proof.
  induction deltas as [| d rest IH]; intros self log Hts.
  - exists 0%nat, 0%Z, self, log.
    split; [intros fuel _; reflexivity | split; [reflexivity | tauto]].
  - destruct (advance_exact self d log Hts)
      as (fuel1 & m & self1 & log1 & Hrun1 & Hm & Hcfg & Heq1 & Hlt1 & Hpos1 & _).
    destruct (IH self1 log1) as (fuel2 & n & self2 & log2 & Hrun2 & Hcfg2 & Hkeep);
      [rewrite Hcfg; exact Hts |].
    exists (Nat.max fuel1 fuel2), (m + n)%Z, self2, log2.
    split; [| split].
    + intros fuel Hfuel. cbn [advance_all].
      rewrite Hrun1 by lia. rewrite Hrun2 by lia. reflexivity.
    + rewrite Hcfg2. exact Hcfg.
    + intros Hmax Hall [Hge Hlt].
      inversion Hall as [| d' rest' Hd Hrest]; subst.
      rewrite Hcfg in Hkeep. apply Hkeep; [exact Hmax | exact Hrest |].
      split; [| exact Hlt1].
      destruct (Z.eq_dec m 0) as [-> | Hne].
      * rewrite Heq1. change (inject_Z 0) with 0.
        pose proof (clampedAccumulator_nonneg self d Hts Hmax Hge Hd). lra.
      * apply Hpos1. lia.
Qed.

(** From an accumulator that holds less than one timestep and is not
    negative, deltas that never reach the clamp and sum to [k] timesteps
    give [k] steps and leave the accumulator as it was. *)
Lemma advance_all_exact_count
  (self : DeterministicRuntime Q) (deltas : list Q) (k : nat) (log : list (Q * Z)) :
  0 < fixedTimestep (dr_config self) ->
  0 <= dr_accumulator self < fixedTimestep (dr_config self) ->
  List.Forall (noClamp self) deltas ->
  Qsum deltas == inject_Z (Z.of_nat k) * fixedTimestep (dr_config self) ->
  exists (fuel0 : nat) (self' : DeterministicRuntime Q) (log' : list (Q * Z)),
    (forall fuel, (fuel0 <= fuel)%nat ->
       advance_all traceCallback fuel self deltas log = Some (Z.of_nat k, self', log')) /\
    dr_accumulator self' == dr_accumulator self /\
    List.length log' = (List.length log + k)%nat.
Proof.
  intros Hts Hacc Hall Hsum.
  destruct (advance_all_exact deltas self log Hts Hacc Hall) as
    (fuel0 & n & self' & log' & Hrun & Hn & Heq & [Hge Hlt] & Hlen).
  rewrite Hsum in Heq.
  assert (Hnk : n = Z.of_nat k).
  { rewrite Heq in Hge, Hlt. destruct Hacc as [Hacc0 Hacc1].
    assert (H1 : inject_Z n < inject_Z (Z.of_nat k + 1)).
    { rewrite inject_Z_plus. change (inject_Z 1) with 1.
      apply (Qmult_lt_l _ _ (fixedTimestep (dr_config self)) Hts). lra. }
    assert (H2 : inject_Z (Z.of_nat k) < inject_Z (n + 1)).
    { rewrite inject_Z_plus. change (inject_Z 1) with 1.
      apply (Qmult_lt_l _ _ (fixedTimestep (dr_config self)) Hts). lra. }
    rewrite <- Zlt_Qlt in H1, H2. lia. }
  subst n. exists fuel0, self', log'.
  split; [exact Hrun | split].
  - rewrite Heq. ring.
  - rewrite Hlen. rewrite Nat2Z.id. reflexivity.
Qed.

(** C4, as the code has it.  Take a runtime as its constructor builds it,
    with a positive timestep, and feed it any deltas that are not negative.
    Deltas that follow, none of them negative or able to reach the clamp,
    and that sum to exactly [k] timesteps make [advance] take exactly [k]
    steps in total, with one call of the callback each, and leave in the
    accumulator what it held before them (exact arithmetic). *)
Theorem advance_all_exact_steps
  (config : PartialDeterministicConfig Q) (now : Z) (earlier deltas : list Q) (k : nat) :
  0 < fixedTimestep (dr_config (DeterministicRuntimeM.new config now)) ->
  List.Forall (Qle 0) earlier ->
  List.Forall (noClamp (DeterministicRuntimeM.new config now)) deltas ->
  Qsum deltas
    == inject_Z (Z.of_nat k) * fixedTimestep (dr_config (DeterministicRuntimeM.new config now)) ->
  exists (fuel0 : nat) (n0 : Z) (self1 self2 : DeterministicRuntime Q)
         (log1 log2 : list (Q * Z)),
    (forall fuel, (fuel0 <= fuel)%nat ->
       advance_all traceCallback fuel (DeterministicRuntimeM.new config now) earlier []
         = Some (n0, self1, log1) /\
       advance_all traceCallback fuel self1 deltas log1 = Some (Z.of_nat k, self2, log2)) /\
    dr_accumulator self2 == dr_accumulator self1 /\
    List.length log2 = (List.length log1 + k)%nat.
Proof.
  intros Hts Hearlier Hall Hsum.
  set (self0 := DeterministicRuntimeM.new config now) in *.
  destruct (advance_all_returns earlier self0 [] Hts)
    as (fuel1 & n0 & self1 & log1 & Hrun1 & Hcfg & Hkeep).
  destruct deltas as [| d rest].
  - assert (Hk : k = 0%nat).
    { cbn [Qsum List.fold_right] in Hsum.
      destruct k as [| k]; [reflexivity | exfalso].
      assert (Hpos : 0 < inject_Z (Z.of_nat (S k)))
        by (change 0 with (inject_Z 0); rewrite <- Zlt_Qlt; lia).
      pose proof (Qmult_lt_0_compat _ _ Hpos Hts) as Hprod. lra. }
    subst k. exists fuel1, n0, self1, self1, log1, log1.
    split; [| split].
    + intros fuel Hfuel. split; [now apply Hrun1 | reflexivity].
    + reflexivity.
    + lia.
  - assert (Hmax : 0 <= maxSubsteps (dr_config self0)).
    { inversion Hall as [| d' rest' [Hd0 Hd1] _]; subst.
      destruct (Qlt_le_dec (maxSubsteps (dr_config self0)) 0) as [Hneg | Hge];
        [exfalso | exact Hge].
      assert (Hprod : fixedTimestep (dr_config self0) * maxSubsteps (dr_config self0) <= 0).
      { setoid_replace (fixedTimestep (dr_config self0) * maxSubsteps (dr_config self0))
          with (- (fixedTimestep (dr_config self0) * (- maxSubsteps (dr_config self0))))
          by ring.
        assert (0 <= fixedTimestep (dr_config self0) * (- maxSubsteps (dr_config self0)))
          by (apply Qmult_le_0_compat; lra).
        lra. }
      lra. }
    assert (Hacc1 : 0 <= dr_accumulator self1 < fixedTimestep (dr_config self0)).
    { apply Hkeep; [exact Hmax | exact Hearlier |].
      subst self0. cbn [DeterministicRuntimeM.new dr_accumulator].
      change (nofZ 0) with (inject_Z 0). change (inject_Z 0) with 0.
      split; [lra | exact Hts]. }
    destruct (advance_all_exact_count self1 (d :: rest) k log1)
      as (fuel2 & self2 & log2 & Hrun2 & Heq & Hlen).
    + rewrite Hcfg. exact Hts.
    + rewrite Hcfg. exact Hacc1.
    + unfold noClamp in *. rewrite Hcfg. exact Hall.
    + rewrite Hcfg. exact Hsum.
    + exists (Nat.max fuel1 fuel2), n0, self1, self2, log1, log2.
      split; [| split; [exact Heq | exact Hlen]].
      intros fuel Hfuel. split; [apply Hrun1 | apply Hrun2]; lia.
Qed.

(** With a timestep of zero the loop of [advance] takes nothing off the
    accumulator: from an accumulator and a delta that are not negative the
    call never returns. *)
Lemma advance_loop_zero_timestep (fuel : nat) :
  forall (self : DeterministicRuntime Q) (log : list (Q * Z)) (n : Z),
  fixedTimestep (dr_config self) == 0 -> 0 <= dr_accumulator self ->
  advance_loop traceCallback fuel self log n = None.
Proof.
  induction fuel as [| fuel IH]; intros self log n Hts Hacc; cbn [advance_loop];
    [reflexivity |].
  cbn [nleb Number_Q].
  rewrite (proj2 (Qleb_true _ _)) by lra.
  apply IH; cbn [dr_config dr_accumulator nsub Number_Q]; [exact Hts | lra].
Qed.

Lemma advance_zero_timestep_Q (self : DeterministicRuntime Q) (deltaTime : Q)
  (log : list (Q * Z)) (fuel : nat) :
  fixedTimestep (dr_config self) == 0 -> 0 <= dr_accumulator self -> 0 <= deltaTime ->
  advance traceCallback fuel self deltaTime log = None.
Proof.
  intros Hts Hacc Hd. rewrite advance_unfold.
  apply advance_loop_zero_timestep; cbn [set_accumulator dr_config dr_accumulator];
    [exact Hts |].
  unfold clampedAccumulator.
  destruct (negb (Qle_bool (dr_accumulator self + deltaTime)
                           (fixedTimestep (dr_config self) * maxSubsteps (dr_config self)))).
  - rewrite Hts. lra.
  - lra.
Qed.

(** On binary64 a timestep that the accumulator absorbs: the difference
    rounds back to the accumulator, and the loop never ends. *)
Lemma advance_loop_absorbed (timestep held : float) (fuel : nat) :
  PrimFloat.leb timestep held = true -> PrimFloat.sub held timestep = held ->
  forall (self : DeterministicRuntime float) (log : list (float * Z)) (n : Z),
  fixedTimestep (dr_config self) = timestep -> dr_accumulator self = held ->
  advance_loop traceCallback fuel self log n = None.
Proof.
  intros Hle Hsub.
  induction fuel as [| fuel IH]; intros self log n Hts Hacc; cbn [advance_loop];
    [reflexivity |].
  rewrite Hts, Hacc. cbn [nleb nsub Number_float]. rewrite Hle.
  apply IH; cbn [dr_config dr_accumulator]; [exact Hts | exact Hsub].
Qed.

End ClockFacts.


(** The example of the specification, run on binary64 and on exact
    numbers: a delta of 10 seconds with a timestep of 0.016 and 10 substeps
    gives 10 steps and 10 calls of the callback. *)
Lemma advance_ten_seconds :
  stepsOf (DeterministicRuntimeM.advance traceCallback 100 specClockF 10%float [])
    = Some 10%Z /\
  invocationsOf (DeterministicRuntimeM.advance traceCallback 100 specClockF 10%float [])
    = Some 10%nat /\
  stepsOf (DeterministicRuntimeM.advance traceCallback 100 specClockQ 10 []) = Some 10%Z.
Proof. repeat split; vm_compute; reflexivity. Qed.


(** C4, the counterexample.  The deltas of the specification's example sum
    to three timesteps, not two: on binary64 as on exact numbers the code
    takes 3 steps and leaves 0 in the accumulator.  A single delta of
    twenty timesteps gives 10 steps, because of the clamp.  Two timesteps
    followed by minus one sum to one timestep and give 2 steps.  After a
    delta of minus half a timestep, one timestep gives no step.  With a
    timestep of zero the call never returns.  And on binary64 deltas that
    are not negative, far from the clamp and worth exactly one timestep in
    sum give no step, where exact arithmetic gives one: the accumulator
    rounds back to the double below 1 at each addition. *)
Lemma advance_spec_example_counterexample :
  (stepsOf (DeterministicRuntimeM.advance_all traceCallback 100 specClockF specDeltasF [])
     = Some 3%Z /\
   leftoverOf (DeterministicRuntimeM.advance_all traceCallback 100 specClockF specDeltasF [])
     = Some 0%float) /\
  (Qsum specDeltasQ == 3 * fixedTimestep (dr_config specClockQ) /\
   stepsOf (DeterministicRuntimeM.advance_all traceCallback 100 specClockQ specDeltasQ [])
     = Some 3%Z) /\
  (Qsum twentySteps == 20 * fixedTimestep (dr_config specClockQ) /\
   stepsOf (DeterministicRuntimeM.advance_all traceCallback 100 specClockQ twentySteps [])
     = Some 10%Z) /\
  (Qsum [32 # 1000; - (16 # 1000)] == 1 * fixedTimestep (dr_config specClockQ) /\
   stepsOf (DeterministicRuntimeM.advance_all traceCallback 100 specClockQ
              [32 # 1000; - (16 # 1000)] []) = Some 2%Z) /\
  (dr_accumulator (clockAfter specClockQ [- (8 # 1000)]) == - (8 # 1000) /\
   Qsum [16 # 1000] == 1 * fixedTimestep (dr_config specClockQ) /\
   stepsOf (DeterministicRuntimeM.advance_all traceCallback 100
              (clockAfter specClockQ [- (8 # 1000)]) [16 # 1000] []) = Some 0%Z) /\
  (Qsum [0] == 5 * fixedTimestep (dr_config (clockQ 0 10)) /\
   forall fuel : nat,
     DeterministicRuntimeM.advance_all traceCallback fuel (clockQ 0 10) [0] [] = None) /\
  (List.map exactValue creepingDeltasF = List.map Some creepingDeltasQ /\
   exactValue (fixedTimestep (dr_config unitClockF))
     = Some (fixedTimestep (dr_config unitClockQ)) /\
   exactValue (maxSubsteps (dr_config unitClockF))
     = Some (maxSubsteps (dr_config unitClockQ)) /\
   List.Forall (noClamp unitClockQ) creepingDeltasQ /\
   Qsum creepingDeltasQ == 1 * fixedTimestep (dr_config unitClockQ) /\
   stepsOf (DeterministicRuntimeM.advance_all traceCallback 100 unitClockQ creepingDeltasQ [])
     = Some 1%Z /\
   stepsOf (DeterministicRuntimeM.advance_all traceCallback 100 unitClockF creepingDeltasF [])
     = Some 0%Z).
Proof.
  split; [split; vm_compute; reflexivity |].
  split; [split; vm_compute; reflexivity |].
  split; [split; vm_compute; reflexivity |].
  split; [split; vm_compute; reflexivity |].
  split; [repeat split; vm_compute; reflexivity |].
  split.
  - split; [vm_compute; reflexivity |].
    intros fuel. cbn [DeterministicRuntimeM.advance_all].
    rewrite advance_zero_timestep_Q; [reflexivity | reflexivity | exact (Qle_refl 0) |
                                      exact (Qle_refl 0)].
  - split; [vm_compute; reflexivity |].
    split; [vm_compute; reflexivity |].
    split; [vm_compute; reflexivity |].
    split; [repeat constructor; unfold Qle; cbn; lia |].
    repeat split; vm_compute; reflexivity.
Qed.

Lemma advance_all_exact_steps_witness :
  0 < fixedTimestep (dr_config (DeterministicRuntimeM.new specConfigQ 0)) /\
  List.Forall (Qle 0) firstDeltaQ /\
  List.Forall (noClamp (DeterministicRuntimeM.new specConfigQ 0)) laterDeltasQ /\
  Qsum laterDeltasQ
    == inject_Z (Z.of_nat 3)
       * fixedTimestep (dr_config (DeterministicRuntimeM.new specConfigQ 0)) /\
  exists (fuel0 : nat) (n0 : Z) (self1 self2 : DeterministicRuntime Q)
         (log1 log2 : list (Q * Z)),
    (forall fuel, (fuel0 <= fuel)%nat ->
       DeterministicRuntimeM.advance_all traceCallback fuel
         (DeterministicRuntimeM.new specConfigQ 0) firstDeltaQ []
         = Some (n0, self1, log1) /\
       DeterministicRuntimeM.advance_all traceCallback fuel self1 laterDeltasQ log1
         = Some (Z.of_nat 3, self2, log2)) /\
    dr_accumulator self2 == dr_accumulator self1 /\
    List.length log2 = (List.length log1 + 3)%nat.
Proof.
  assert (Hts : 0 < fixedTimestep (dr_config (DeterministicRuntimeM.new specConfigQ 0)))
    by reflexivity.
  assert (Hfirst : List.Forall (Qle 0) firstDeltaQ)
    by (repeat constructor; unfold Qle; cbn; lia).
  assert (Hall : List.Forall (noClamp (DeterministicRuntimeM.new specConfigQ 0)) laterDeltasQ)
    by (repeat constructor; unfold Qle; cbn; lia).
  assert (Hsum : Qsum laterDeltasQ
                 == inject_Z (Z.of_nat 3)
                    * fixedTimestep (dr_config (DeterministicRuntimeM.new specConfigQ 0)))
    by (vm_compute; reflexivity).
  split; [exact Hts |]. split; [exact Hfirst |]. split; [exact Hall |].
  split; [exact Hsum |].
  exact (advance_all_exact_steps specConfigQ 0 firstDeltaQ laterDeltasQ 3
           Hts Hfirst Hall Hsum).
Defined.

(** ** The seeded generator *)

(** C7. [fork] leaves the parent as it was: the generator after the call is
    the generator before it, state included, so the values its later
    [next()] calls return are those it would have returned without the
    fork. *)
Theorem fork_preserves_parent (self : SeededRandom) (subsystem : string) (n : nat) :
  snd (SeededRandomM.fork self subsystem) = self /\
  SeededRandomM.getState (snd (SeededRandomM.fork self subsystem))
    = SeededRandomM.getState self /\
  fst (SeededRandomM.nextN n (snd (SeededRandomM.fork self subsystem)))
    = fst (SeededRandomM.nextN n self).
Proof. repeat split. Qed.

(** The child is a generator of its own: it starts from the derived seed,
    under the new name. *)
Lemma fork_child (self : SeededRandom) (subsystem : string) :
  sr_subsystem (fst (SeededRandomM.fork self subsystem)) = subsystem /\
  sr_state (fst (SeededRandomM.fork self subsystem))
    = sr_initialSeed (fst (SeededRandomM.fork self subsystem)).
Proof. split; reflexivity. Qed.

(** ** Snapshots *)

Section MapFacts.
Context {V : Type}.

Lemma JsMap_set_fresh (m : JsMap.t V) (k : string) (v : V) :
  ~ List.In k (JsMap.keys m) -> JsMap.set m k v = m ++ [(k, v)].
Proof.
  induction m as [| [k' v'] m IH]; intros Hfresh; cbn.
  - reflexivity.
  - destruct (String.eqb k' k) eqn:E.
    + apply String.eqb_eq in E. subst. exfalso. apply Hfresh. now left.
    + rewrite IH; [reflexivity |]. intros Hin. apply Hfresh. now right.
Qed.

(** Setting fresh keys one after the other appends the entries in order. *)
Lemma JsMap_fold_set_fresh {A : Type} (key : A -> string) (value : A -> V) (l : list A) :
  forall acc : JsMap.t V,
  List.NoDup (JsMap.keys acc ++ List.map key l) ->
  List.fold_left (fun m e => JsMap.set m (key e) (value e)) l acc
  = acc ++ List.map (fun e => (key e, value e)) l.
Proof.
  induction l as [| a l IH]; intros acc Hnd; cbn.
  - now rewrite app_nil_r.
  - rewrite JsMap_set_fresh.
    + rewrite IH.
      * now rewrite <- app_assoc.
      * unfold JsMap.keys in *. rewrite map_app, <- app_assoc. exact Hnd.
    + cbn in Hnd. apply NoDup_remove_2 in Hnd.
      intros Hin. apply Hnd. apply in_or_app. now left.
Qed.

Lemma JsMap_get_map {W : Type} (h : V -> W) (m : JsMap.t V) (k : string) :
  JsMap.get (List.map (fun kv => (fst kv, h (snd kv))) m) k = option_map h (JsMap.get m k).
Proof.
  induction m as [| [k' v'] m IH]; cbn; [reflexivity |].
  destruct (String.eqb k' k); [reflexivity | exact IH].
Qed.

End MapFacts.

Section SnapshotFacts.
Context {num : Type} `{Number num}.

(** What an entity keeps through the compact form. *)
Lemma roundtrip_entity (e : EntityState num) :
  es_id (deserializeEntity (serializeEntity e)) = es_id e /\
  position (es_transform (deserializeEntity (serializeEntity e))) = position (es_transform e) /\
  rotation (es_transform (deserializeEntity (serializeEntity e))) = rotation (es_transform e) /\
  es_velocity (deserializeEntity (serializeEntity e)) = es_velocity e /\
  es_status (deserializeEntity (serializeEntity e)) = es_status e.
Proof.
  destruct e as [i [[px py pz] [rx ry rz rw] sc] [vx vy vz] av ac st cs].
  repeat split.
Qed.

Lemma roundtrip_entities (s : StateSnapshot num) :
  keyedById s ->
  ss_entities (deserializeState (serializeState s))
  = List.map (fun kv => (fst kv, deserializeEntity (serializeEntity (snd kv)))) (ss_entities s).
Proof.
  intros [Hkey Hnd].
  unfold deserializeState, serializeState. cbn [sd_entities sd_world].
  destruct (sw_gravity _) as [[g0 g1] g2]. cbn [ss_entities].
  unfold JsMap.values.
  rewrite (JsMap_fold_set_fresh se_id deserializeEntity).
  - cbn [JsMap.empty app]. rewrite !List.map_map.
    apply List.map_ext_in. intros kv Hin.
    rewrite List.Forall_forall in Hkey. rewrite (Hkey kv Hin). reflexivity.
  - cbn [JsMap.empty JsMap.keys List.map app]. rewrite !List.map_map.
    replace (List.map (fun kv => se_id (serializeEntity (snd kv))) (ss_entities s))
      with (JsMap.keys (ss_entities s)); [exact Hnd |].
    unfold JsMap.keys. apply List.map_ext_in. intros kv Hin.
    rewrite List.Forall_forall in Hkey. exact (Hkey kv Hin).
Qed.

(** The entities that come back, when their ids are distinct: one entry
    per entity, under its id, in the order of the [Map]. *)
Lemma roundtrip_entities_by_id (s : StateSnapshot num) :
  distinctIds s ->
  ss_entities (deserializeState (serializeState s))
  = List.map (fun e => (es_id e, deserializeEntity (serializeEntity e)))
             (JsMap.values (ss_entities s)).
Proof.
  intros Hnd.
  unfold deserializeState, serializeState. cbn [sd_entities sd_world].
  destruct (sw_gravity _) as [[g0 g1] g2]. cbn [ss_entities].
  rewrite (JsMap_fold_set_fresh se_id deserializeEntity).
  - cbn [JsMap.empty app]. rewrite !List.map_map. reflexivity.
  - cbn [JsMap.empty JsMap.keys List.map app]. rewrite !List.map_map. exact Hnd.
Qed.

Lemma get_by_id {A W : Type} (key : A -> string) (value : A -> W) (l : list A) (a : A) :
  List.NoDup (List.map key l) -> List.In a l ->
  JsMap.get (List.map (fun e => (key e, value e)) l) (key a) = Some (value a).
Proof.
  induction l as [| b l IH]; cbn [List.map]; intros Hnd Hin; [destruct Hin |].
  apply NoDup_cons_iff in Hnd. destruct Hnd as [Hfresh Hnd].
  cbn [JsMap.get]. destruct Hin as [-> | Hin].
  - now rewrite String.eqb_refl.
  - destruct (String.eqb_spec (key b) (key a)) as [Heq | Hne].
    + exfalso. apply Hfresh. rewrite Heq. now apply List.in_map.
    + now apply IH.
Qed.

Lemma get_by_id_inv {A W : Type} (key : A -> string) (value : A -> W) (l : list A)
  (i : string) (w : W) :
  JsMap.get (List.map (fun e => (key e, value e)) l) i = Some w ->
  exists a : A, List.In a l /\ key a = i /\ value a = w.
Proof.
  induction l as [| b l IH]; cbn [List.map JsMap.get]; intros Hget; [discriminate |].
  destruct (String.eqb_spec (key b) i) as [Heq | Hne].
  - exists b. injection Hget as Hw. split; [now left | now split].
  - destruct (IH Hget) as (a & Hin & Hk & Hv). exists a. split; [now right | now split].
Qed.

(** C9. Through [serializeState] and [deserializeState] a snapshot whose
    entities have distinct ids keeps its hash string and its entities, in
    their order, each under its id and with its position, its velocity and
    its status, and it gains none; the world bounds are not carried and
    come back as the box from (-1000, -100, -1000) to (1000, 1000, 1000),
    whatever they were. *)
Theorem serialize_roundtrip (s : StateSnapshot num) :
  distinctIds s ->
  ss_hash (deserializeState (serializeState s)) = ss_hash s /\
  ws_bounds (ss_worldState (deserializeState (serializeState s)))
  = AABB.mk (Vector3.mk (nofZ (-1000)) (nofZ (-100)) (nofZ (-1000)))
            (Vector3.mk (nofZ 1000) (nofZ 1000) (nofZ 1000)) /\
  JsMap.keys (ss_entities (deserializeState (serializeState s)))
  = List.map es_id (JsMap.values (ss_entities s)) /\
  (forall e : EntityState num,
     List.In e (JsMap.values (ss_entities s)) ->
     exists e' : EntityState num,
       JsMap.get (ss_entities (deserializeState (serializeState s))) (es_id e) = Some e' /\
       es_id e' = es_id e /\
       position (es_transform e') = position (es_transform e) /\
       es_velocity e' = es_velocity e /\
       es_status e' = es_status e) /\
  (forall (i : EntityId) (e' : EntityState num),
     JsMap.get (ss_entities (deserializeState (serializeState s))) i = Some e' ->
     exists e : EntityState num,
       List.In e (JsMap.values (ss_entities s)) /\
       es_id e = i /\
       position (es_transform e') = position (es_transform e) /\
       es_velocity e' = es_velocity e /\
       es_status e' = es_status e).
Proof.
  intros Hs. pose proof (roundtrip_entities_by_id s Hs) as Hents.
  split; [| split; [| split; [| split]]].
  - unfold deserializeState. destruct (sw_gravity _) as [[g0 g1] g2]. reflexivity.
  - unfold deserializeState. destruct (sw_gravity _) as [[g0 g1] g2]. reflexivity.
  - rewrite Hents. unfold JsMap.keys. rewrite List.map_map. reflexivity.
  - intros e Hin. rewrite Hents.
    exists (deserializeEntity (serializeEntity e)).
    destruct (roundtrip_entity e) as (Hid & Hp & _ & Hv & Hst).
    split; [| repeat split; assumption].
    exact (get_by_id es_id (fun e => deserializeEntity (serializeEntity e)) _ e Hs Hin).
  - intros i e' Hget. rewrite Hents in Hget.
    destruct (get_by_id_inv es_id (fun e => deserializeEntity (serializeEntity e)) _ i e' Hget)
      as (e & Hin & Hid & <-).
    exists e. destruct (roundtrip_entity e) as (_ & Hp & _ & Hv & Hst).
    repeat split; assumption.
Qed.

(** When the [Map] stores each entity under its own id, as the maps of
    [StateBuilder] and [cloneState] do, the keys come back as they were. *)
Lemma roundtrip_keys (s : StateSnapshot num) :
  keyedById s ->
  distinctIds s /\
  JsMap.keys (ss_entities (deserializeState (serializeState s))) = JsMap.keys (ss_entities s).
Proof.
  intros Hs. pose proof (roundtrip_entities s Hs) as Hents. destruct Hs as [Hkey Hnd].
  split.
  - unfold distinctIds, JsMap.values. rewrite List.map_map.
    replace (List.map (fun kv => es_id (snd kv)) (ss_entities s))
      with (JsMap.keys (ss_entities s)); [exact Hnd |].
    unfold JsMap.keys. apply List.map_ext_in. intros kv Hin.
    rewrite List.Forall_forall in Hkey. exact (Hkey kv Hin).
  - rewrite Hents. unfold JsMap.keys. rewrite List.map_map. reflexivity.
Qed.

End SnapshotFacts.

Lemma serialize_roundtrip_witness :
  distinctIds sampleSnapshot /\
  ss_hash (deserializeState (serializeState sampleSnapshot)) = ss_hash sampleSnapshot /\
  ws_bounds (ss_worldState (deserializeState (serializeState sampleSnapshot)))
  = AABB.mk (Vector3.mk (-1000)%float (-100)%float (-1000)%float)
            (Vector3.mk 1000%float 1000%float 1000%float) /\
  JsMap.keys (ss_entities (deserializeState (serializeState sampleSnapshot)))
  = List.map es_id (JsMap.values (ss_entities sampleSnapshot)) /\
  (forall e : EntityState float,
     List.In e (JsMap.values (ss_entities sampleSnapshot)) ->
     exists e' : EntityState float,
       JsMap.get (ss_entities (deserializeState (serializeState sampleSnapshot))) (es_id e)
         = Some e' /\
       es_id e' = es_id e /\
       position (es_transform e') = position (es_transform e) /\
       es_velocity e' = es_velocity e /\
       es_status e' = es_status e) /\
  (forall (i : EntityId) (e' : EntityState float),
     JsMap.get (ss_entities (deserializeState (serializeState sampleSnapshot))) i = Some e' ->
     exists e : EntityState float,
       List.In e (JsMap.values (ss_entities sampleSnapshot)) /\
       es_id e = i /\
       position (es_transform e') = position (es_transform e) /\
       es_velocity e' = es_velocity e /\
       es_status e' = es_status e).
Proof.
  assert (Hs : distinctIds sampleSnapshot)
    by (repeat constructor; cbn; intuition discriminate).
  split; [exact Hs | exact (serialize_roundtrip sampleSnapshot Hs)].
Defined.

(** C9, the counterexample.  The compact form is a list of entities, each
    with its [id], and [deserializeState] keys the [Map] it builds by these
    ids.  A snapshot that holds two entities with the same [id] comes back
    with one: the entity stored under [left], idle at x = 0, is in no
    entry of the result. *)
Lemma roundtrip_twin_counterexample :
  List.NoDup (JsMap.keys (ss_entities twinSnapshot)) /\
  JsMap.get (ss_entities twinSnapshot) "left"
    = Some (sampleEntity "twin" 0%float 0%float "idle") /\
  JsMap.keys (ss_entities (deserializeState (serializeState twinSnapshot)))
    = ["twin"%string] /\
  forall (i : EntityId) (e' : EntityState float),
    JsMap.get (ss_entities (deserializeState (serializeState twinSnapshot))) i = Some e' ->
    Vector3.x (position (es_transform e')) = 3%float /\
    es_status e' = "moving"%string /\
    position (es_transform e')
      <> position (es_transform (sampleEntity "twin" 0%float 0%float "idle")) /\
    es_status e' <> es_status (sampleEntity "twin" 0%float 0%float "idle").
Proof.
  split; [repeat constructor; cbn; intuition discriminate |].
  split; [reflexivity |]. split; [vm_compute; reflexivity |].
  intros i e'.
  replace (ss_entities (deserializeState (serializeState twinSnapshot)))
    with [("twin"%string,
           deserializeEntity (serializeEntity (sampleEntity "twin" 3%float (-1.5)%float "moving")))]
    by (vm_compute; reflexivity).
  cbn [JsMap.get]. destruct (String.eqb "twin" i); [| discriminate].
  intros Hget. injection Hget as <-.
  split; [reflexivity |]. split; [reflexivity |]. split.
  - intros Heq. apply (f_equal Vector3.x) in Heq.
    apply (f_equal (fun x => PrimFloat.eqb x 0%float)) in Heq.
    vm_compute in Heq. discriminate Heq.
  - cbn. discriminate.
Qed.

(** The bounds of the sample snapshot are lost on the way. *)
Lemma roundtrip_loses_bounds :
  ws_bounds (ss_worldState sampleSnapshot)
  <> ws_bounds (ss_worldState (deserializeState (serializeState sampleSnapshot))).
Proof. vm_compute. intros Heq. discriminate Heq. Qed.

(** ** Broadphase *)

Section PairFacts.
Context {A : Type}.

Lemma orderedPairs_In (l : list A) (a b : A) :
  List.In (a, b) (orderedPairs l) -> List.In a l /\ List.In b l.
Proof.
  induction l as [| c l IH]; cbn; [tauto |].
  intros Hin. apply in_app_or in Hin. destruct Hin as [Hin | Hin].
  - apply in_map_iff in Hin. destruct Hin as (b' & Heq & Hb).
    inversion Heq; subst. auto.
  - apply IH in Hin. tauto.
Qed.

Lemma orderedPairs_distinct (l : list A) (a b : A) :
  List.NoDup l -> List.In (a, b) (orderedPairs l) -> a <> b.
Proof.
  induction l as [| c l IH]; cbn; [tauto |].
  intros Hnd Hin. inversion Hnd as [| c' l' Hc Hl]; subst.
  apply in_app_or in Hin. destruct Hin as [Hin | Hin].
  - apply in_map_iff in Hin. destruct Hin as (b' & Heq & Hb).
    inversion Heq; subst. intros ->. contradiction.
  - now apply IH.
Qed.

Lemma orderedPairs_total (l : list A) (a b : A) :
  List.In a l -> List.In b l -> a <> b ->
  List.In (a, b) (orderedPairs l) \/ List.In (b, a) (orderedPairs l).
Proof.
  induction l as [| c l IH]; cbn; [tauto |].
  intros [Ha | Ha] [Hb | Hb] Hne; subst.
  - contradiction.
  - left. apply in_or_app. left. now apply in_map.
  - right. apply in_or_app. left. now apply in_map.
  - destruct (IH Ha Hb Hne); [left | right]; apply in_or_app; now right.
Qed.

End PairFacts.

Section IdOrder.

Lemma ltb_asym (a b : string) : String.ltb a b = true -> String.ltb b a = false.
Proof.
  unfold String.ltb. rewrite (String.compare_antisym b a).
  destruct (String.compare a b); cbn; congruence.
Qed.

Lemma ltb_irrefl (a : string) : String.ltb a a = false.
Proof.
  destruct (String.ltb a a) eqn:E; [| reflexivity].
  pose proof (ltb_asym a a E). congruence.
Qed.

Lemma ltb_connected (a b : string) :
  a <> b -> String.ltb a b = false -> String.ltb b a = true.
Proof.
  unfold String.ltb. intros Hne. rewrite (String.compare_antisym b a).
  destruct (String.compare a b) eqn:E; cbn; try congruence.
  apply String.compare_eq_iff in E. contradiction.
Qed.

Lemma canonicalPair_sym (a b : EntityId) : canonicalPair a b = canonicalPair b a.
Proof.
  unfold canonicalPair.
  destruct (String.ltb a b) eqn:Eab.
  - rewrite (ltb_asym a b Eab). reflexivity.
  - destruct (String.eqb_spec a b) as [-> | Hne].
    + rewrite Eab. reflexivity.
    + rewrite (ltb_connected a b Hne Eab). reflexivity.
Qed.

Lemma canonical_pair (a b : EntityId) :
  canonical {| entityA := a; entityB := b |} = canonicalPair a b.
Proof.
  unfold canonical, canonicalPair. cbn.
  destruct (String.ltb a b); reflexivity.
Qed.

Lemma canonical_canonicalPair (a b : EntityId) :
  canonical (canonicalPair a b) = canonicalPair a b.
Proof.
  unfold canonicalPair.
  destruct (String.ltb a b) eqn:Eab; rewrite canonical_pair.
  - unfold canonicalPair. rewrite Eab. reflexivity.
  - rewrite canonicalPair_sym. unfold canonicalPair. rewrite Eab. reflexivity.
Qed.

Lemma canonicalPair_strict (a b : EntityId) :
  a <> b -> isCanonical (canonicalPair a b) = true.
Proof.
  intros Hne. unfold isCanonical, canonicalPair.
  destruct (String.ltb a b) eqn:Eab; cbn.
  - exact Eab.
  - now apply ltb_connected.
Qed.

End IdOrder.

Section IntersectFacts.
Context {num : Type} `{Number num}.

Lemma intersects_sym (a b : AABB num) :
  AABBOps.intersects a b = AABBOps.intersects b a.
Proof.
  unfold AABBOps.intersects.
  repeat match goal with |- context [nleb ?u ?v] => generalize (nleb u v); intro end.
  repeat match goal with b : bool |- _ => destruct b end; reflexivity.
Qed.

End IntersectFacts.

Section SimpleFacts.
Context {num : Type} `{Number num}.

Lemma checked_pairs (acc : BroadphaseResult) (hit : bool) (p : CollisionPair) :
  pairs (checked acc hit p) = pairs acc ++ (if hit then [p] else []).
Proof. destruct hit; cbn; [reflexivity | now rewrite app_nil_r]. Qed.

Lemma simple_inner_pairs (a : EntityId * AABB num) (rest : list (EntityId * AABB num)) :
  forall acc : BroadphaseResult,
  pairs (SimpleBroadphase.queryPairs_inner a rest acc)
  = pairs acc ++ List.map pairOf (List.filter overlaps (List.map (pair a) rest)).
Proof.
  induction rest as [| b rest IH]; intros acc; cbn.
  - now rewrite app_nil_r.
  - rewrite IH, checked_pairs. unfold overlaps at 2. cbn.
    destruct (AABBOps.intersects (snd a) (snd b)); cbn.
    + now rewrite <- app_assoc.
    + now rewrite app_nil_r.
Qed.

Lemma simple_outer_pairs (entries : list (EntityId * AABB num)) :
  forall acc : BroadphaseResult,
  pairs (SimpleBroadphase.queryPairs_outer entries acc)
  = pairs acc ++ List.map pairOf (List.filter overlaps (orderedPairs entries)).
Proof.
  induction entries as [| a rest IH]; intros acc; cbn.
  - now rewrite app_nil_r.
  - rewrite IH, simple_inner_pairs.
    rewrite List.filter_app, List.map_app. now rewrite app_assoc.
Qed.

Lemma simple_inner_checks (a : EntityId * AABB num) (rest : list (EntityId * AABB num)) :
  forall acc : BroadphaseResult,
  checksPerformed (SimpleBroadphase.queryPairs_inner a rest acc)
  = (checksPerformed acc + Z.of_nat (List.length rest))%Z.
Proof.
  induction rest as [| b rest IH]; intros acc; cbn [SimpleBroadphase.queryPairs_inner List.length].
  - cbn. lia.
  - rewrite IH. cbn [checked checksPerformed]. lia.
Qed.

Lemma simple_outer_checks (entries : list (EntityId * AABB num)) :
  forall acc : BroadphaseResult,
  checksPerformed (SimpleBroadphase.queryPairs_outer entries acc)
  = (checksPerformed acc + Z.of_nat (List.length (orderedPairs entries)))%Z.
Proof.
  induction entries as [| a rest IH]; intros acc;
    cbn [SimpleBroadphase.queryPairs_outer orderedPairs].
  - cbn. lia.
  - rewrite IH, simple_inner_checks. rewrite List.length_app, List.length_map. lia.
Qed.

Lemma insertAll_simple_fold (es : list (EntityId * AABB num)) :
  forall b : SimpleBroadphase.t num,
  SimpleBroadphase.entities
    (List.fold_left (fun b e => SimpleBroadphase.insert b (fst e) (snd e)) es b)
  = List.fold_left (fun m e => JsMap.set m (fst e) (snd e)) es (SimpleBroadphase.entities b).
Proof.
  induction es as [| e es IH]; intros b; cbn; [reflexivity |].
  rewrite IH. reflexivity.
Qed.

Lemma insertAll_simple_entities (es : list (EntityId * AABB num)) :
  List.NoDup (List.map fst es) ->
  SimpleBroadphase.entities (insertAll_simple es) = es.
Proof.
  intros Hnd. unfold insertAll_simple. rewrite insertAll_simple_fold.
  rewrite (JsMap_fold_set_fresh fst snd).
  - cbn. rewrite <- (List.map_id es) at 2. apply List.map_ext. now intros [k v].
  - exact Hnd.
Qed.

(** The brute force tests every pair of entries once and reports those
    whose boxes intersect, in insertion order. *)
Lemma simple_queryPairs_spec (es : list (EntityId * AABB num)) :
  List.NoDup (List.map fst es) ->
  pairs (SimpleBroadphase.queryPairs (insertAll_simple es))
    = List.map pairOf (List.filter overlaps (orderedPairs es)) /\
  checksPerformed (SimpleBroadphase.queryPairs (insertAll_simple es))
    = Z.of_nat (List.length (orderedPairs es)).
Proof.
  intros Hnd. unfold SimpleBroadphase.queryPairs, JsMap.entries.
  rewrite (insertAll_simple_entities es Hnd).
  rewrite simple_outer_pairs, simple_outer_checks. cbn. split; [reflexivity | lia].
Qed.

End SimpleFacts.

Section SortFacts.
Context {num : Type} `{Number num} {A : Type} (compare : A -> A -> num).

Lemma sort_insert_perm (x : A) (l : list A) :
  Permutation (sort_insert compare x l) (x :: l).
Proof.
  induction l as [| y l IH]; cbn; [reflexivity |].
  destruct (nltb (compare x y) (nofZ 0)); [reflexivity |].
  rewrite IH. apply perm_swap.
Qed.

Lemma js_sort_fold_perm (l : list A) :
  forall acc : list A,
  Permutation (List.fold_left (fun sorted x => sort_insert compare x sorted) l acc) (acc ++ l).
Proof.
  induction l as [| x l IH]; intros acc; cbn.
  - now rewrite app_nil_r.
  - rewrite IH. rewrite sort_insert_perm. cbn. apply Permutation_middle.
Qed.

End SortFacts.

Section SweepFacts.
Import SweepAndPruneBroadphase.

Lemma sap_inner_pairs (entryA : SAPEntry Q) (rest : list (SAPEntry Q)) :
  forall acc : BroadphaseResult,
  pairs (queryPairs_inner entryA rest acc)
  = pairs acc
    ++ List.map sapPairOf (List.filter sapOverlaps (List.map (pair entryA) (beforeBreak entryA rest))).
Proof.
  induction rest as [| entryB rest IH]; intros acc; cbn [queryPairs_inner beforeBreak].
  - cbn. now rewrite app_nil_r.
  - destruct (nltb (maxX entryA) (minX entryB)).
    + cbn. now rewrite app_nil_r.
    + rewrite IH, checked_pairs. cbn [List.map List.filter].
      unfold sapOverlaps at 2. cbn [fst snd].
      destruct (AABBOps.intersects (bounds entryA) (bounds entryB)); cbn [List.map].
      * now rewrite <- app_assoc.
      * now rewrite app_nil_r.
Qed.

Lemma sap_outer_pairs (es : list (SAPEntry Q)) :
  forall acc : BroadphaseResult,
  pairs (queryPairs_outer es acc)
  = pairs acc ++ List.map sapPairOf (List.filter sapOverlaps (sweptPairs es)).
Proof.
  induction es as [| entryA rest IH]; intros acc; cbn [queryPairs_outer sweptPairs].
  - cbn. now rewrite app_nil_r.
  - rewrite IH, sap_inner_pairs.
    rewrite List.filter_app, List.map_app. now rewrite app_assoc.
Qed.

Lemma sapEntry_inserted (p : EntityId * AABB Q) : inserted (sapEntry p).
Proof. split; reflexivity. Qed.

(** Past the [break] nothing intersects: the list is sorted by [minX]. *)
Lemma beyond_break (entryA entryB entryC : SAPEntry Q) :
  inserted entryA -> inserted entryC ->
  nltb (maxX entryA) (minX entryB) = true ->
  leMinX entryB entryC ->
  sapOverlaps (entryA, entryC) = false.
Proof.
  intros [_ HA] [HC _] Hbreak Hle.
  unfold sapOverlaps, AABBOps.intersects. cbn [fst snd].
  rewrite <- HA, <- HC.
  cbn [nltb nleb Number_Q] in *.
  apply negb_true_iff, Qleb_false in Hbreak.
  unfold leMinX in Hle.
  replace (Qle_bool (minX entryC) (maxX entryA)) with false.
  - now rewrite andb_false_r.
  - symmetry. apply Qleb_false. lra.
Qed.

Lemma filter_none {A : Type} (f : A -> bool) (l : list A) :
  (forall a, List.In a l -> f a = false) -> List.filter f l = [].
Proof.
  induction l as [| a l IH]; intros Hf; cbn; [reflexivity |].
  rewrite (Hf a (or_introl eq_refl)). apply IH. intros b Hb. apply Hf. now right.
Qed.

Lemma filter_beforeBreak (entryA : SAPEntry Q) (rest : list (SAPEntry Q)) :
  inserted entryA -> List.Forall inserted rest -> StronglySorted leMinX rest ->
  List.filter sapOverlaps (List.map (pair entryA) (beforeBreak entryA rest))
  = List.filter sapOverlaps (List.map (pair entryA) rest).
Proof.
  intros HA. induction rest as [| entryB rest IH]; intros Hins Hsorted; [reflexivity |].
  inversion Hins as [| ? ? HB Hrest]; subst.
  inversion Hsorted as [| ? ? Hsorted' Hall]; subst.
  cbn [beforeBreak].
  destruct (nltb (maxX entryA) (minX entryB)) eqn:Hbreak.
  - symmetry. apply filter_none. intros [a c] Hin.
    apply in_map_iff in Hin. destruct Hin as (c' & Heq & Hc). inversion Heq; subst.
    destruct Hc as [<- | Hc].
    + apply (beyond_break a entryB entryB); auto. unfold leMinX. lra.
    + rewrite List.Forall_forall in Hall, Hrest.
      apply (beyond_break a entryB c); auto.
  - cbn [List.map List.filter]. rewrite (IH Hrest Hsorted'). reflexivity.
Qed.

Lemma filter_sweptPairs (es : list (SAPEntry Q)) :
  List.Forall inserted es -> StronglySorted leMinX es ->
  List.filter sapOverlaps (sweptPairs es) = List.filter sapOverlaps (orderedPairs es).
Proof.
  induction es as [| entryA rest IH]; intros Hins Hsorted; [reflexivity |].
  inversion Hins as [| ? ? HA Hrest]; subst.
  inversion Hsorted as [| ? ? Hsorted' Hall]; subst.
  cbn [sweptPairs orderedPairs]. rewrite !List.filter_app.
  rewrite (filter_beforeBreak entryA rest HA Hrest Hsorted'), (IH Hrest Hsorted').
  reflexivity.
Qed.

(** The comparator [a.minX - b.minX] is negative exactly when [a] starts
    before [b]. *)
Lemma compareMinX_neg (a b : SAPEntry Q) :
  nltb (compareMinX a b) (nofZ 0) = true <-> minX a < minX b.
Proof.
  unfold compareMinX. cbn [nltb nsub nofZ Number_Q]. change (inject_Z 0) with 0.
  rewrite negb_true_iff, Qleb_false. split; intros; lra.
Qed.

Lemma sort_insert_sorted (x : SAPEntry Q) (l : list (SAPEntry Q)) :
  StronglySorted leMinX l -> StronglySorted leMinX (sort_insert compareMinX x l).
Proof.
  induction l as [| y l IH]; intros Hsorted; cbn [sort_insert].
  - constructor; constructor.
  - inversion Hsorted as [| ? ? Hsorted' Hall]; subst.
    destruct (nltb (compareMinX x y) (nofZ 0)) eqn:Hcmp.
    + apply compareMinX_neg in Hcmp.
      constructor; [exact Hsorted |].
      constructor; [unfold leMinX; lra |].
      rewrite List.Forall_forall in *. intros z Hz. specialize (Hall z Hz).
      unfold leMinX in *. lra.
    + assert (Hyx : leMinX y x).
      { unfold leMinX. destruct (Qlt_le_dec (minX x) (minX y)) as [Hlt | Hle]; [| exact Hle].
        apply compareMinX_neg in Hlt. congruence. }
      constructor; [now apply IH |].
      rewrite List.Forall_forall in *. intros z Hz.
      apply (Permutation_in _ (sort_insert_perm compareMinX x l)) in Hz.
      destruct Hz as [<- | Hz]; [exact Hyx | now apply Hall].
Qed.

Lemma js_sort_fold_sorted (l : list (SAPEntry Q)) :
  forall acc : list (SAPEntry Q),
  StronglySorted leMinX acc ->
  StronglySorted leMinX
    (List.fold_left (fun sorted x => sort_insert compareMinX x sorted) l acc).
Proof.
  induction l as [| x l IH]; intros acc Hacc; cbn; [exact Hacc |].
  apply IH. now apply sort_insert_sorted.
Qed.

Lemma insertAll_sap_fold (es : list (EntityId * AABB Q)) :
  forall b : SweepAndPruneBroadphase.t Q,
  entries (List.fold_left (fun b e => insert b (fst e) (snd e)) es b)
  = entries b ++ List.map sapEntry es.
Proof.
  induction es as [| e es IH]; intros b; cbn [List.fold_left List.map].
  - now rewrite app_nil_r.
  - rewrite IH. cbn [insert entries]. now rewrite <- app_assoc.
Qed.

(** The sweep sorts its entries by [minX] and, as the list is sorted, its
    early exit skips only pairs that do not intersect: it reports the
    intersecting pairs of the sorted list. *)
Lemma sap_queryPairs_spec (es : list (EntityId * AABB Q)) :
  exists sorted : list (SAPEntry Q),
    Permutation sorted (List.map sapEntry es) /\
    StronglySorted leMinX sorted /\
    entries (snd (queryPairs (insertAll_sweepAndPrune es))) = sorted /\
    pairs (fst (queryPairs (insertAll_sweepAndPrune es)))
    = List.map sapPairOf (List.filter sapOverlaps (orderedPairs sorted)).
Proof.
  exists (js_sort compareMinX (List.map sapEntry es)).
  assert (Hperm : Permutation (js_sort compareMinX (List.map sapEntry es))
                              (List.map sapEntry es)).
  { unfold js_sort. apply (js_sort_fold_perm compareMinX (List.map sapEntry es) []). }
  assert (Hsorted : StronglySorted leMinX (js_sort compareMinX (List.map sapEntry es))).
  { unfold js_sort. apply js_sort_fold_sorted. constructor. }
  assert (Hentries : entries (insertAll_sweepAndPrune es) = List.map sapEntry es).
  { unfold insertAll_sweepAndPrune. rewrite insertAll_sap_fold. reflexivity. }
  split; [exact Hperm | split; [exact Hsorted |]].
  unfold queryPairs. cbn [fst snd entries]. rewrite Hentries.
  fold (@compareMinX Q _). split; [reflexivity |].
  rewrite sap_outer_pairs. cbn [pairs app].
  rewrite filter_sweptPairs; [reflexivity | | exact Hsorted].
  rewrite List.Forall_forall. intros e He.
  apply (Permutation_in _ Hperm) in He. apply in_map_iff in He.
  destruct He as (p & <- & _). apply sapEntry_inserted.
Qed.

End SweepFacts.

Section SimpleVsSweep.
Import SweepAndPruneBroadphase.

Lemma sapEntry_inj (p q : EntityId * AABB Q) : sapEntry p = sapEntry q -> p = q.
Proof.
  destruct p as [i b], q as [j c]. unfold sapEntry. cbn.
  intros Heq. inversion Heq. reflexivity.
Qed.

Lemma NoDup_entries (es : list (EntityId * AABB Q)) :
  List.NoDup (List.map fst es) -> List.NoDup es.
Proof. apply NoDup_map_inv. Qed.

Lemma same_id_same_entry (es : list (EntityId * AABB Q)) (a b : EntityId * AABB Q) :
  List.NoDup (List.map fst es) -> List.In a es -> List.In b es -> fst a = fst b -> a = b.
Proof.
  induction es as [| e es IH]; cbn; [tauto |].
  intros Hnd Ha Hb Heq. inversion Hnd as [| ? ? Hnotin Hnd']; subst.
  destruct Ha as [-> | Ha], Hb as [-> | Hb].
  - reflexivity.
  - exfalso. apply Hnotin. rewrite Heq. now apply in_map.
  - exfalso. apply Hnotin. rewrite <- Heq. now apply in_map.
  - now apply IH.
Qed.

Lemma simple_expected (es : list (EntityId * AABB Q)) (p : CollisionPair) :
  List.NoDup (List.map fst es) ->
  List.In p (List.map canonical (simplePairs es)) <-> expected es p.
Proof.
  intros Hnd. unfold simplePairs.
  rewrite (proj1 (simple_queryPairs_spec es Hnd)). rewrite List.map_map.
  rewrite in_map_iff. split.
  - intros ([a b] & <- & Hin). apply List.filter_In in Hin. destruct Hin as [Hin Hov].
    pose proof (orderedPairs_In es a b Hin) as [Ha Hb].
    pose proof (orderedPairs_distinct es a b (NoDup_entries es Hnd) Hin) as Hne.
    exists a, b. repeat split; auto.
    + intros Heq. apply Hne. now apply (same_id_same_entry es).
    + unfold pairOf. cbn. apply canonical_pair.
  - intros (a & b & Ha & Hb & Hne & Hov & ->).
    assert (Hab : a <> b) by (intros ->; now apply Hne).
    destruct (orderedPairs_total es a b Ha Hb Hab) as [Hin | Hin].
    + exists (a, b). split.
      * unfold pairOf. cbn. apply canonical_pair.
      * apply List.filter_In. split; [exact Hin | exact Hov].
    + exists (b, a). split.
      * unfold pairOf. cbn. rewrite canonical_pair. apply canonicalPair_sym.
      * apply List.filter_In. split; [exact Hin |].
        unfold overlaps. cbn. now rewrite intersects_sym.
Qed.

Lemma sweep_expected (es : list (EntityId * AABB Q)) (p : CollisionPair) :
  List.NoDup (List.map fst es) ->
  List.In p (sweepAndPrunePairs es) <-> expected es p.
Proof.
  intros Hnd. unfold sweepAndPrunePairs.
  destruct (sap_queryPairs_spec es) as (sorted & Hperm & _ & _ & ->).
  assert (Hnds : List.NoDup sorted).
  { apply (Permutation_NoDup (Permutation_sym Hperm)).
    apply (NoDup_map_inv SweepAndPruneBroadphase.id). rewrite List.map_map.
    exact Hnd. }
  assert (Hmem : forall e, List.In e sorted <-> exists a, List.In a es /\ e = sapEntry a).
  { intros e. split.
    - intros He. apply (Permutation_in _ Hperm) in He. apply in_map_iff in He.
      destruct He as (a & <- & Ha). now exists a.
    - intros (a & Ha & ->). apply (Permutation_in _ (Permutation_sym Hperm)).
      now apply in_map. }
  rewrite in_map_iff. split.
  - intros ([ea eb] & <- & Hin). apply List.filter_In in Hin. destruct Hin as [Hin Hov].
    pose proof (orderedPairs_In sorted ea eb Hin) as [Ha Hb].
    pose proof (orderedPairs_distinct sorted ea eb Hnds Hin) as Hne.
    apply Hmem in Ha, Hb. destruct Ha as (a & Ha & ->), Hb as (b & Hb & ->).
    exists a, b. repeat split; auto.
    intros Heq. apply Hne. f_equal. now apply (same_id_same_entry es).
  - intros (a & b & Ha & Hb & Hne & Hov & ->).
    assert (Hab : sapEntry a <> sapEntry b).
    { intros Heq. apply sapEntry_inj in Heq. subst. now apply Hne. }
    assert (Hsa : List.In (sapEntry a) sorted) by (apply Hmem; now exists a).
    assert (Hsb : List.In (sapEntry b) sorted) by (apply Hmem; now exists b).
    destruct (orderedPairs_total sorted _ _ Hsa Hsb Hab) as [Hin | Hin].
    + exists (sapEntry a, sapEntry b). split; [reflexivity |].
      apply List.filter_In. split; [exact Hin | exact Hov].
    + exists (sapEntry b, sapEntry a). split.
      * unfold sapPairOf. cbn. apply canonicalPair_sym.
      * apply List.filter_In. split; [exact Hin |].
        unfold sapOverlaps. cbn. now rewrite intersects_sym.
Qed.

Lemma expected_canonical (es : list (EntityId * AABB Q)) (p : CollisionPair) :
  expected es p -> canonical p = p /\ isCanonical p = true.
Proof.
  intros (a & b & _ & _ & Hne & _ & ->). split.
  - apply canonical_canonicalPair.
  - now apply canonicalPair_strict.
Qed.

(** The brute force and the sweep report the same set of canonical pairs,
    for entities with distinct ids and any boxes. *)
Lemma simple_sweep_same_pairs (es : list (EntityId * AABB Q)) (p : CollisionPair) :
  List.NoDup (List.map fst es) ->
  List.In p (List.map canonical (simplePairs es))
  <-> List.In p (List.map canonical (sweepAndPrunePairs es)).
Proof.
  intros Hnd. rewrite (simple_expected es p Hnd). split.
  - intros Hexp. apply in_map_iff. exists p. split.
    + apply (expected_canonical es p Hexp).
    + now apply sweep_expected.
  - intros Hin. apply in_map_iff in Hin. destruct Hin as (q & <- & Hq).
    apply (sweep_expected es q Hnd) in Hq.
    rewrite (proj1 (expected_canonical es q Hq)). exact Hq.
Qed.

(** X4. Every pair the sweep emits has its smaller id first. *)
Lemma sweep_pairs_canonical (es : list (EntityId * AABB Q)) :
  List.NoDup (List.map fst es) ->
  List.forallb isCanonical (sweepAndPrunePairs es) = true.
Proof.
  intros Hnd. apply List.forallb_forall. intros p Hp.
  apply (sweep_expected es p Hnd) in Hp. apply (expected_canonical es p Hp).
Qed.

End SimpleVsSweep.

Section MoreMapFacts.
Context {V : Type}.

Lemma JsMap_get_set_same (m : JsMap.t V) (k : string) (v : V) :
  JsMap.get (JsMap.set m k v) k = Some v.
Proof.
  induction m as [| [k' v'] m IH]; cbn.
  - now rewrite String.eqb_refl.
  - destruct (String.eqb k' k) eqn:E; cbn; rewrite E; [reflexivity | exact IH].
Qed.

Lemma JsMap_get_set_other (m : JsMap.t V) (k k' : string) (v : V) :
  k <> k' -> JsMap.get (JsMap.set m k v) k' = JsMap.get m k'.
Proof.
  intros Hne. induction m as [| [k0 v0] m IH]; cbn.
  - destruct (String.eqb_spec k k'); [contradiction | reflexivity].
  - destruct (String.eqb_spec k0 k) as [-> | Hk]; cbn.
    + destruct (String.eqb_spec k k'); [contradiction | reflexivity].
    + destruct (String.eqb k0 k'); [reflexivity | exact IH].
Qed.

Lemma JsMap_get_In (m : JsMap.t V) (k : string) (v : V) :
  JsMap.get m k = Some v -> List.In (k, v) m.
Proof.
  induction m as [| [k' v'] m IH]; cbn; [discriminate |].
  destruct (String.eqb_spec k' k) as [-> | Hne].
  - intros [= ->]. now left.
  - intros Hget. right. now apply IH.
Qed.

Lemma JsMap_In_set (m : JsMap.t V) (k0 k : string) (v0 v : V) :
  List.In (k, v) (JsMap.set m k0 v0) -> (k = k0 /\ v = v0) \/ List.In (k, v) m.
Proof.
  induction m as [| [k' v'] m IH]; cbn.
  - intros [[= <- <-] | []]. now left.
  - destruct (String.eqb_spec k' k0) as [-> | Hne]; cbn.
    + intros [[= <- <-] | Hin]; [now left | right; now right].
    + intros [Heq | Hin]; [right; now left |].
      destruct (IH Hin) as [Hnew | Hold]; [now left | right; now right].
Qed.

Lemma JsMap_In_get (m : JsMap.t V) (k : string) (v : V) :
  List.NoDup (JsMap.keys m) -> List.In (k, v) m -> JsMap.get m k = Some v.
Proof.
  induction m as [| [k' v'] m IH]; cbn; [tauto |].
  intros Hnd Hin. inversion Hnd as [| ? ? Hnotin Hnd']; subst.
  destruct Hin as [[= -> ->] | Hin].
  - now rewrite String.eqb_refl.
  - destruct (String.eqb_spec k' k) as [-> | Hne].
    + exfalso. apply Hnotin. change k with (fst (k, v)). now apply in_map.
    + now apply IH.
Qed.

Lemma JsMap_has_true (m : JsMap.t V) (k : string) :
  JsMap.has m k = true <-> exists v, JsMap.get m k = Some v.
Proof.
  unfold JsMap.has. destruct (JsMap.get m k) as [v |].
  - split; [intros _; now exists v | reflexivity].
  - split; [discriminate | intros (v & Hv); discriminate].
Qed.

End MoreMapFacts.

Section SetFacts.

Lemma existsb_eqb_In (id : EntityId) (s : list EntityId) :
  List.existsb (String.eqb id) s = true <-> List.In id s.
Proof.
  rewrite List.existsb_exists. split.
  - intros (x & Hx & Heq). apply String.eqb_eq in Heq. now subst.
  - intros Hin. exists id. split; [exact Hin | apply String.eqb_refl].
Qed.

Lemma set_add_In (s : list EntityId) (id : EntityId) : List.In id (set_add s id).
Proof.
  unfold set_add. destruct (List.existsb (String.eqb id) s) eqn:E.
  - now apply existsb_eqb_In.
  - apply in_or_app. right. now left.
Qed.

Lemma set_add_incl (s : list EntityId) (id i : EntityId) :
  List.In i s -> List.In i (set_add s id).
Proof.
  unfold set_add. destruct (List.existsb (String.eqb id) s); [auto |].
  intros Hin. apply in_or_app. now left.
Qed.

Lemma set_add_inv (s : list EntityId) (id i : EntityId) :
  List.In i (set_add s id) -> i = id \/ List.In i s.
Proof.
  unfold set_add. destruct (List.existsb (String.eqb id) s); [auto |].
  intros Hin. apply in_app_or in Hin. destruct Hin as [Hin | [<- | []]]; auto.
Qed.

Lemma set_add_NoDup (s : list EntityId) (id : EntityId) :
  List.NoDup s -> List.NoDup (set_add s id).
Proof.
  unfold set_add. destruct (List.existsb (String.eqb id) s) eqn:E; [auto |].
  intros Hnd. apply NoDup_app; [exact Hnd | repeat constructor; intros [] |].
  intros x Hx [<- | []].
  apply existsb_eqb_In in Hx. congruence.
Qed.

End SetFacts.

Section GridFacts.
Import SpatialHashBroadphase.

Lemma addToCells_cons (m : JsMap.t (list EntityId)) (k : string) (keys : list string)
  (id : EntityId) :
  addToCells m (k :: keys) id = addToCells (addToCell m k id) keys id.
Proof. reflexivity. Qed.

Lemma addToCell_get_same (m : JsMap.t (list EntityId)) (cell : string) (id : EntityId) :
  exists ids, JsMap.get (addToCell m cell id) cell = Some ids /\ List.In id ids.
Proof.
  unfold addToCell. eexists. split; [apply JsMap_get_set_same | apply set_add_In].
Qed.

Lemma addToCell_grows (m : JsMap.t (list EntityId)) (cell : string) (id : EntityId)
  (k : string) (ids : list EntityId) :
  JsMap.get m k = Some ids ->
  exists ids', JsMap.get (addToCell m cell id) k = Some ids' /\ List.incl ids ids'.
Proof.
  intros Hget. unfold addToCell. destruct (String.eqb_spec cell k) as [-> | Hne].
  - rewrite JsMap_get_set_same, Hget. cbn. eexists. split; [reflexivity |].
    intros i Hi. now apply set_add_incl.
  - rewrite JsMap_get_set_other by exact Hne. exists ids. split; [exact Hget | apply incl_refl].
Qed.

Lemma addToCell_In (m : JsMap.t (list EntityId)) (cell : string) (id : EntityId)
  (k : string) (ids' : list EntityId) (i : EntityId) :
  List.In (k, ids') (addToCell m cell id) -> List.In i ids' ->
  i = id \/ exists ids, List.In (k, ids) m /\ List.In i ids.
Proof.
  unfold addToCell. intros Hin Hi. apply JsMap_In_set in Hin.
  destruct Hin as [[-> ->] | Hin].
  - apply set_add_inv in Hi. destruct Hi as [-> | Hi]; [now left | right].
    destruct (JsMap.get m cell) as [ids |] eqn:Hget; cbn in Hi; [| contradiction].
    exists ids. split; [now apply JsMap_get_In | exact Hi].
  - right. now exists ids'.
Qed.

Lemma addToCell_NoDup (m : JsMap.t (list EntityId)) (cell : string) (id : EntityId) :
  (forall k ids, List.In (k, ids) m -> List.NoDup ids) ->
  forall k ids, List.In (k, ids) (addToCell m cell id) -> List.NoDup ids.
Proof.
  unfold addToCell. intros Hm k ids Hin. apply JsMap_In_set in Hin.
  destruct Hin as [[-> ->] | Hin]; [| now apply (Hm k)].
  apply set_add_NoDup.
  destruct (JsMap.get m cell) as [ids |] eqn:Hget; cbn.
  - apply (Hm cell). now apply JsMap_get_In.
  - constructor.
Qed.

Lemma addToCells_grows (keys : list string) (id : EntityId) :
  forall (m : JsMap.t (list EntityId)) (k : string) (ids : list EntityId),
  JsMap.get m k = Some ids ->
  exists ids', JsMap.get (addToCells m keys id) k = Some ids' /\ List.incl ids ids'.
Proof.
  induction keys as [| cell keys IH]; intros m k ids Hget.
  - exists ids. split; [exact Hget | apply incl_refl].
  - rewrite addToCells_cons.
    destruct (addToCell_grows m cell id k ids Hget) as (ids1 & Hget1 & Hincl1).
    destruct (IH _ k ids1 Hget1) as (ids' & Hget' & Hincl').
    exists ids'. split; [exact Hget' | now apply (incl_tran Hincl1)].
Qed.

Lemma addToCells_covers (keys : list string) (id : EntityId) :
  forall (m : JsMap.t (list EntityId)) (k : string),
  List.In k keys ->
  exists ids, JsMap.get (addToCells m keys id) k = Some ids /\ List.In id ids.
Proof.
  induction keys as [| cell keys IH]; intros m k Hk; [contradiction |].
  rewrite addToCells_cons. destruct Hk as [-> | Hk].
  - destruct (addToCell_get_same m k id) as (ids1 & Hget1 & Hin1).
    destruct (addToCells_grows keys id _ k ids1 Hget1) as (ids' & Hget' & Hincl).
    exists ids'. split; [exact Hget' | now apply Hincl].
  - now apply IH.
Qed.

Lemma addToCells_In (keys : list string) (id : EntityId) :
  forall (m : JsMap.t (list EntityId)) (k : string) (ids' : list EntityId) (i : EntityId),
  List.In (k, ids') (addToCells m keys id) -> List.In i ids' ->
  i = id \/ exists ids, List.In (k, ids) m /\ List.In i ids.
Proof.
  induction keys as [| cell keys IH]; intros m k ids' i Hin Hi.
  - right. now exists ids'.
  - rewrite addToCells_cons in Hin.
    destruct (IH _ k ids' i Hin Hi) as [-> | (ids1 & Hin1 & Hi1)]; [now left |].
    now apply (addToCell_In m cell id k ids1 i).
Qed.

Lemma addToCells_NoDup (keys : list string) (id : EntityId) :
  forall m : JsMap.t (list EntityId),
  (forall k ids, List.In (k, ids) m -> List.NoDup ids) ->
  forall k ids, List.In (k, ids) (addToCells m keys id) -> List.NoDup ids.
Proof.
  induction keys as [| cell keys IH]; intros m Hm k ids Hin.
  - now apply (Hm k).
  - rewrite addToCells_cons in Hin.
    apply (IH (addToCell m cell id)) with (k := k); [| exact Hin].
    now apply addToCell_NoDup.
Qed.

Lemma getCellsForBounds_cellsOf (self : SpatialHashBroadphase.t Q) (box : AABB Q) :
  getCellsForBounds self box = cellsOf (cellSize self) box.
Proof. reflexivity. Qed.

(** What [insert] keeps true. *)
Lemma insert_cells (self : SpatialHashBroadphase.t Q) (done : list (EntityId * AABB Q))
  (i : EntityId) (box : AABB Q) :
  cellsCover (cellSize self) done (cells self) ->
  cellsKnown done (cells self) ->
  cellsCover (cellSize self) (done ++ [(i, box)]) (cells (insert self i box)) /\
  cellsKnown (done ++ [(i, box)]) (cells (insert self i box)).
Proof.
  intros Hcover Hknown. cbn [insert cells]. rewrite getCellsForBounds_cellsOf. split.
  - intros e k He Hk. apply in_app_or in He. destruct He as [He | [<- | []]].
    + destruct (Hcover e k He Hk) as (ids & Hget & Hin).
      destruct (addToCells_grows (cellsOf (cellSize self) box) i _ k ids Hget)
        as (ids' & Hget' & Hincl).
      exists ids'. split; [exact Hget' | now apply Hincl].
    + cbn [fst snd] in *. now apply addToCells_covers.
  - intros k ids Hin. split.
    + apply (addToCells_NoDup (cellsOf (cellSize self) box) i (cells self)) with (k := k);
        [| exact Hin].
      intros k0 ids0 H0. apply (Hknown k0 ids0 H0).
    + intros j Hj. rewrite List.map_app. apply in_or_app.
      destruct (addToCells_In _ i _ k ids j Hin Hj) as [-> | (ids0 & Hin0 & Hj0)].
      * right. now left.
      * left. apply (Hknown k ids0 Hin0). exact Hj0.
Qed.

(** The state of the spatial hash after a run of insertions with distinct
    ids. *)
Lemma insertAll_spatialHash_fold (es : list (EntityId * AABB Q)) :
  forall (self : SpatialHashBroadphase.t Q) (done : list (EntityId * AABB Q)),
  List.NoDup (List.map fst (done ++ es)) ->
  entityBounds self = done ->
  cellsCover (cellSize self) done (cells self) ->
  cellsKnown done (cells self) ->
  let self' := List.fold_left (fun b e => insert b (fst e) (snd e)) es self in
  cellSize self' = cellSize self /\
  entityBounds self' = done ++ es /\
  cellsCover (cellSize self) (done ++ es) (cells self') /\
  cellsKnown (done ++ es) (cells self').
Proof.
  induction es as [| [i box] es IH]; intros self done Hnd Hbounds Hcover Hknown; cbn zeta.
  - cbn [List.fold_left]. rewrite app_nil_r. auto.
  - cbn [List.fold_left fst snd].
    destruct (insert_cells self done i box Hcover Hknown) as [Hcover1 Hknown1].
    assert (Hnd1 : List.NoDup (List.map fst ((done ++ [(i, box)]) ++ es)))
      by now rewrite <- app_assoc.
    assert (Hbounds1 : entityBounds (insert self i box) = done ++ [(i, box)]).
    { cbn [insert entityBounds]. rewrite Hbounds. apply JsMap_set_fresh.
      rewrite List.map_app in Hnd. apply NoDup_remove_2 in Hnd.
      intros Hin. apply Hnd. apply in_or_app. now left. }
    destruct (IH (insert self i box) (done ++ [(i, box)]) Hnd1 Hbounds1 Hcover1 Hknown1)
      as (Hsize & Hb & Hc & Hk).
    rewrite <- app_assoc in Hb, Hc, Hk. cbn [app] in Hb, Hc, Hk.
    change (cellSize (insert self i box)) with (cellSize self) in Hsize, Hc.
    split; [exact Hsize | split; [exact Hb | split; [exact Hc | exact Hk]]].
Qed.

Lemma insertAll_spatialHash_spec (cs : option Q) (es : list (EntityId * AABB Q)) :
  List.NoDup (List.map fst es) ->
  cellSize (insertAll_spatialHash cs es) = orElse cs 10 /\
  entityBounds (insertAll_spatialHash cs es) = es /\
  cellsCover (orElse cs 10) es (cells (insertAll_spatialHash cs es)) /\
  cellsKnown es (cells (insertAll_spatialHash cs es)).
Proof.
  intros Hnd. unfold insertAll_spatialHash.
  assert (Hcover : cellsCover (cellSize (SpatialHashBroadphase.new cs)) []
                              (cells (SpatialHashBroadphase.new cs))) by (intros e k []).
  assert (Hknown : cellsKnown [] (cells (SpatialHashBroadphase.new cs))) by (intros k ids []).
  exact (insertAll_spatialHash_fold es (SpatialHashBroadphase.new cs) [] Hnd eq_refl
           Hcover Hknown).
Qed.

End GridFacts.

Section QueryFacts.
Import SpatialHashBroadphase.

Variable es : list (EntityId * AABB Q).
Variable self : SpatialHashBroadphase.t Q.
Hypothesis Hnd : List.NoDup (List.map fst es).
Hypothesis Hbounds : entityBounds self = es.

Lemma bounds_get (i : EntityId) (box : AABB Q) :
  List.In (i, box) es -> JsMap.get (entityBounds self) i = Some box.
Proof. rewrite Hbounds. now apply JsMap_In_get. Qed.

Lemma inserted_box (i : EntityId) :
  List.In i (List.map fst es) -> exists box, List.In (i, box) es.
Proof.
  intros Hin. apply in_map_iff in Hin. destruct Hin as ([j box] & <- & Hin). now exists box.
Qed.

Lemma pairKey_sym (a b : EntityId) : pairKey a b = pairKey b a.
Proof.
  unfold pairKey. destruct (String.ltb a b) eqn:Eab.
  - now rewrite (ltb_asym a b Eab).
  - destruct (String.eqb_spec a b) as [-> | Hne].
    + now rewrite Eab.
    + now rewrite (ltb_connected a b Hne Eab).
Qed.

Lemma checkPair_ok (idA idB : EntityId) (found : JsMap.t CollisionPair) (n : Z) :
  foundOk es found ->
  List.In idA (List.map fst es) -> List.In idB (List.map fst es) -> idA <> idB ->
  foundOk es (fst (checkPair self idA idB (found, n))).
Proof.
  intros Hok HA HB Hne. unfold checkPair.
  destruct (JsMap.has found (pairKey idA idB)); [exact Hok |].
  destruct (inserted_box idA HA) as (boxA & HinA).
  destruct (inserted_box idB HB) as (boxB & HinB).
  rewrite (bounds_get idA boxA HinA), (bounds_get idB boxB HinB).
  destruct (AABBOps.intersects boxA boxB) eqn:Hov; [| exact Hok].
  cbn [fst]. intros k p Hin. apply JsMap_In_set in Hin.
  destruct Hin as [[-> ->] | Hin]; [| now apply Hok].
  exists (idA, boxA), (idB, boxB). cbn [fst snd]. repeat split; auto.
Qed.

Lemma checkPair_keeps (idA idB : EntityId) (found : JsMap.t CollisionPair) (n : Z)
  (k : string) (p : CollisionPair) :
  JsMap.get found k = Some p ->
  JsMap.get (fst (checkPair self idA idB (found, n))) k = Some p.
Proof.
  intros Hget. unfold checkPair.
  destruct (JsMap.has found (pairKey idA idB)) eqn:Hhas; [exact Hget |].
  destruct (JsMap.get (entityBounds self) idA) as [boxA |]; [| exact Hget].
  destruct (JsMap.get (entityBounds self) idB) as [boxB |]; [| exact Hget].
  destruct (AABBOps.intersects boxA boxB); [| exact Hget].
  cbn [fst]. rewrite JsMap_get_set_other; [exact Hget |].
  intros <-. unfold JsMap.has in Hhas. rewrite Hget in Hhas. discriminate.
Qed.

Lemma checkPair_finds (idA idB : EntityId) (found : JsMap.t CollisionPair) (n : Z) :
  hitting es idA idB ->
  JsMap.has (fst (checkPair self idA idB (found, n))) (pairKey idA idB) = true.
Proof.
  intros (boxA & boxB & HinA & HinB & Hov). unfold checkPair.
  destruct (JsMap.has found (pairKey idA idB)) eqn:Hhas; [exact Hhas |].
  rewrite (bounds_get idA boxA HinA), (bounds_get idB boxB HinB), Hov.
  cbn [fst]. unfold JsMap.has. now rewrite JsMap_get_set_same.
Qed.

Lemma has_keeps (f : Found -> Found) (acc : Found) (k : string) :
  (forall found n p, JsMap.get found k = Some p -> JsMap.get (fst (f (found, n))) k = Some p) ->
  JsMap.has (fst acc) k = true -> JsMap.has (fst (f acc)) k = true.
Proof.
  intros Hf Hhas. destruct acc as [found n]. cbn [fst] in Hhas.
  apply JsMap_has_true in Hhas. destruct Hhas as (p & Hp).
  apply JsMap_has_true. exists p. now apply Hf.
Qed.

(** The inner loop. *)
Lemma inner_ok (idA : EntityId) (rest : list EntityId) :
  forall acc : Found,
  foundOk es (fst acc) ->
  List.In idA (List.map fst es) ->
  (forall b, List.In b rest -> List.In b (List.map fst es) /\ idA <> b) ->
  foundOk es (fst (queryPairs_inner self idA rest acc)).
Proof.
  induction rest as [| idB rest IH]; intros [found n] Hok HA Hrest; [exact Hok |].
  cbn [queryPairs_inner]. apply IH; [| exact HA | intros b Hb; apply Hrest; now right].
  destruct (Hrest idB (or_introl eq_refl)) as [HB Hne].
  now apply checkPair_ok.
Qed.

Lemma inner_keeps (idA : EntityId) (rest : list EntityId) (k : string) (p : CollisionPair) :
  forall (found : JsMap.t CollisionPair) (n : Z),
  JsMap.get found k = Some p ->
  JsMap.get (fst (queryPairs_inner self idA rest (found, n))) k = Some p.
Proof.
  induction rest as [| idB rest IH]; intros found n Hget; [exact Hget |].
  cbn [queryPairs_inner].
  pose proof (checkPair_keeps idA idB found n k p Hget) as Hkeep.
  destruct (checkPair self idA idB (found, n)) as [found1 n1]. now apply IH.
Qed.

Lemma inner_finds (idA : EntityId) (rest : list EntityId) :
  forall (acc : Found) (idB : EntityId),
  List.In idB rest -> hitting es idA idB ->
  JsMap.has (fst (queryPairs_inner self idA rest acc)) (pairKey idA idB) = true.
Proof.
  induction rest as [| b rest IH]; intros [found n] idB Hin Hhit; [contradiction |].
  cbn [queryPairs_inner]. destruct Hin as [-> | Hin].
  - apply (has_keeps (queryPairs_inner self idA rest)).
    + intros f m p. apply inner_keeps.
    + now apply checkPair_finds.
  - now apply IH.
Qed.

(** The loops over one cell. *)
Lemma cell_ok (ids : list EntityId) :
  forall acc : Found,
  foundOk es (fst acc) -> List.NoDup ids ->
  (forall i, List.In i ids -> List.In i (List.map fst es)) ->
  foundOk es (fst (queryPairs_cell self ids acc)).
Proof.
  induction ids as [| idA rest IH]; intros acc Hok Hnodup Hknown; [exact Hok |].
  cbn [queryPairs_cell]. apply NoDup_cons_iff in Hnodup. destruct Hnodup as [Hnotin Hnodup'].
  apply IH; [| exact Hnodup' | intros i Hi; apply Hknown; now right].
  apply inner_ok; [exact Hok | apply Hknown; now left |].
  intros b Hb. split; [apply Hknown; now right | intros ->; contradiction].
Qed.

Lemma cell_keeps (ids : list EntityId) (k : string) (p : CollisionPair) :
  forall (found : JsMap.t CollisionPair) (n : Z),
  JsMap.get found k = Some p ->
  JsMap.get (fst (queryPairs_cell self ids (found, n))) k = Some p.
Proof.
  induction ids as [| idA rest IH]; intros found n Hget; [exact Hget |].
  cbn [queryPairs_cell].
  pose proof (inner_keeps idA rest k p found n Hget) as Hkeep.
  destruct (queryPairs_inner self idA rest (found, n)) as [found1 n1]. now apply IH.
Qed.

Lemma cell_finds (ids : list EntityId) :
  forall (acc : Found) (a b : EntityId),
  List.In (a, b) (orderedPairs ids) -> hitting es a b ->
  JsMap.has (fst (queryPairs_cell self ids acc)) (pairKey a b) = true.
Proof.
  induction ids as [| idA rest IH]; intros acc a b Hin Hhit; [contradiction |].
  cbn [queryPairs_cell orderedPairs] in *. apply in_app_or in Hin.
  destruct Hin as [Hin | Hin].
  - apply in_map_iff in Hin. destruct Hin as (b' & [= <- <-] & Hb).
    apply (has_keeps (queryPairs_cell self rest)).
    + intros f m p. apply cell_keeps.
    + now apply inner_finds.
  - now apply IH.
Qed.

(** The loop over the cells. *)
Lemma cells_ok (cs : list (string * list EntityId)) :
  forall acc : Found,
  foundOk es (fst acc) -> cellsKnown es cs ->
  foundOk es (fst (List.fold_left (fun acc cell => queryPairs_cell self (snd cell) acc) cs acc)).
Proof.
  induction cs as [| [k ids] cs IH]; intros acc Hok Hknown; [exact Hok |].
  cbn [List.fold_left snd]. apply IH.
  - destruct (Hknown k ids (or_introl eq_refl)) as [Hnodup Hin]. now apply cell_ok.
  - intros k' ids' Hin. apply (Hknown k' ids'). now right.
Qed.

Lemma cells_keeps (cs : list (string * list EntityId)) (k : string) (p : CollisionPair) :
  forall (found : JsMap.t CollisionPair) (n : Z),
  JsMap.get found k = Some p ->
  JsMap.get
    (fst (List.fold_left (fun acc cell => queryPairs_cell self (snd cell) acc) cs (found, n))) k
  = Some p.
Proof.
  induction cs as [| [k0 ids] cs IH]; intros found n Hget; [exact Hget |].
  cbn [List.fold_left snd].
  pose proof (cell_keeps ids k p found n Hget) as Hkeep.
  destruct (queryPairs_cell self ids (found, n)) as [found1 n1]. now apply IH.
Qed.

Lemma cells_finds (cs : list (string * list EntityId)) :
  forall (acc : Found) (k : string) (ids : list EntityId) (a b : EntityId),
  List.In (k, ids) cs -> List.In (a, b) (orderedPairs ids) -> hitting es a b ->
  JsMap.has
    (fst (List.fold_left (fun acc cell => queryPairs_cell self (snd cell) acc) cs acc))
    (pairKey a b) = true.
Proof.
  induction cs as [| [k0 ids0] cs IH]; intros acc k ids a b Hin Hpair Hhit; [contradiction |].
  cbn [List.fold_left snd]. destruct Hin as [[= -> ->] | Hin].
  - apply (has_keeps
             (fun acc => List.fold_left (fun acc cell => queryPairs_cell self (snd cell) acc)
                                        cs acc)).
    + intros f m p. apply cells_keeps.
    + now apply cell_finds.
  - now apply (IH _ k ids).
Qed.

End QueryFacts.

Section GeometryFacts.

Lemma zrange_In (lo hi i : Z) : List.In i (zrange lo hi) <-> (lo <= i <= hi)%Z.
Proof.
  unfold zrange. rewrite in_map_iff. split.
  - intros (n & <- & Hn). apply in_seq in Hn. lia.
  - intros Hi. exists (Z.to_nat (i - lo)). split; [lia |]. apply in_seq. lia.
Qed.

Lemma floor_div_le (c a b : Q) : 0 < c -> a <= b -> (Qfloor (a / c) <= Qfloor (b / c))%Z.
Proof.
  intros Hc Hab. apply Qfloor_resp_le. unfold Qdiv.
  apply Qmult_le_compat_r; [exact Hab |].
  apply Qlt_le_weak. now apply Qinv_lt_0_compat.
Qed.

(** Two intervals that meet share a grid coordinate. *)
Lemma axis_cell (c a0 a1 b0 b1 : Q) :
  0 < c -> a0 <= a1 -> b0 <= b1 -> a0 <= b1 -> b0 <= a1 ->
  exists i : Z,
    List.In i (zrange (Qfloor (a0 / c)) (Qfloor (a1 / c))) /\
    List.In i (zrange (Qfloor (b0 / c)) (Qfloor (b1 / c))).
Proof.
  intros Hc Ha Hb Hab Hba.
  destruct (Qlt_le_dec a0 b0) as [Hlt | Hle].
  - exists (Qfloor (b0 / c)). rewrite !zrange_In.
    repeat split; try apply floor_div_le; auto; try lra.
  - exists (Qfloor (a0 / c)). rewrite !zrange_In.
    repeat split; try apply floor_div_le; auto; try lra.
Qed.

Lemma cellsOf_In (c : Q) (box : AABB Q) (cx cy cz : Z) :
  List.In cx (zrange (Qfloor (Vector3.x (AABB.min box) / c))
                     (Qfloor (Vector3.x (AABB.max box) / c))) ->
  List.In cy (zrange (Qfloor (Vector3.y (AABB.min box) / c))
                     (Qfloor (Vector3.y (AABB.max box) / c))) ->
  List.In cz (zrange (Qfloor (Vector3.z (AABB.min box) / c))
                     (Qfloor (Vector3.z (AABB.max box) / c))) ->
  List.In (SpatialHashBroadphase.cellKey cx cy cz) (cellsOf c box).
Proof.
  intros Hx Hy Hz. unfold cellsOf, SpatialHashBroadphase.getCellsForBounds.
  cbn [SpatialHashBroadphase.cellSize ndiv nfloor Number_Q Floor_Q].
  apply in_flat_map. exists cx. split; [exact Hx |].
  apply in_flat_map. exists cy. split; [exact Hy |].
  apply in_map_iff. exists cz. split; [reflexivity | exact Hz].
Qed.

Lemma intersects_Q (a b : AABB Q) :
  AABBOps.intersects a b = true ->
  (Vector3.x (AABB.min a) <= Vector3.x (AABB.max b) /\
   Vector3.x (AABB.min b) <= Vector3.x (AABB.max a)) /\
  (Vector3.y (AABB.min a) <= Vector3.y (AABB.max b) /\
   Vector3.y (AABB.min b) <= Vector3.y (AABB.max a)) /\
  (Vector3.z (AABB.min a) <= Vector3.z (AABB.max b) /\
   Vector3.z (AABB.min b) <= Vector3.z (AABB.max a)).
Proof.
  unfold AABBOps.intersects. cbn [nleb Number_Q].
  rewrite !andb_true_iff, !Qleb_true. tauto.
Qed.

(** Two valid boxes that intersect lie in a common cell of the grid. *)
Lemma common_cell (c : Q) (a b : AABB Q) :
  0 < c -> validBox a -> validBox b -> AABBOps.intersects a b = true ->
  exists k : string, List.In k (cellsOf c a) /\ List.In k (cellsOf c b).
Proof.
  intros Hc (Hax & Hay & Haz) (Hbx & Hby & Hbz) Hov.
  apply intersects_Q in Hov. destruct Hov as ((Hx1 & Hx2) & (Hy1 & Hy2) & (Hz1 & Hz2)).
  destruct (axis_cell c _ _ _ _ Hc Hax Hbx Hx1 Hx2) as (cx & Hcxa & Hcxb).
  destruct (axis_cell c _ _ _ _ Hc Hay Hby Hy1 Hy2) as (cy & Hcya & Hcyb).
  destruct (axis_cell c _ _ _ _ Hc Haz Hbz Hz1 Hz2) as (cz & Hcza & Hczb).
  exists (SpatialHashBroadphase.cellKey cx cy cz).
  split; now apply cellsOf_In.
Qed.

End GeometryFacts.

Section HashVsSimple.
Import SpatialHashBroadphase.

Lemma values_In {V : Type} (m : JsMap.t V) (v : V) :
  List.In v (JsMap.values m) <-> exists k, List.In (k, v) m.
Proof.
  unfold JsMap.values. rewrite in_map_iff. split.
  - intros ([k v'] & Heq & Hin). cbn in Heq. subst. now exists k.
  - intros (k & Hin). now exists (k, v).
Qed.

Lemma queryPairs_fold (self : SpatialHashBroadphase.t Q) :
  pairs (queryPairs self)
  = JsMap.values
      (fst (List.fold_left (fun acc cell => queryPairs_cell self (snd cell) acc)
                           (JsMap.entries (cells self)) (JsMap.empty, 0%Z))).
Proof.
  unfold queryPairs.
  destruct (List.fold_left _ _ _) as [found checks]. reflexivity.
Qed.

(** The spatial hash reports only canonical pairs of entities that
    intersect; and it reports all of them when the boxes are valid, the
    cell size is positive and the dedup keys tell the pairs apart. *)
Lemma spatialHash_expected (cs : option Q) (es : list (EntityId * AABB Q)) (p : CollisionPair) :
  List.NoDup (List.map fst es) ->
  (List.In p (spatialHashPairsWith cs es) -> expected es p) /\
  (0 < orElse cs 10 ->
   List.Forall (fun e => validBox (snd e)) es ->
   keysSeparate (List.map fst es) ->
   expected es p -> List.In p (spatialHashPairsWith cs es)).
Proof.
  intros Hnd.
  destruct (insertAll_spatialHash_spec cs es Hnd) as (Hsize & Hbounds & Hcover & Hknown).
  unfold spatialHashPairsWith. rewrite queryPairs_fold.
  set (self := insertAll_spatialHash cs es) in *.
  set (final := fst (List.fold_left (fun acc cell => queryPairs_cell self (snd cell) acc)
                                    (JsMap.entries (cells self)) (JsMap.empty, 0%Z))).
  assert (Hok : foundOk es final).
  { apply (cells_ok es self Hnd Hbounds); [intros k q [] | exact Hknown]. }
  split.
  - intros Hin. apply values_In in Hin. destruct Hin as (k & Hin).
    destruct (Hok k p Hin) as (a & b & Ha & Hb & Hne & Hov & Hp & _).
    now exists a, b.
  - intros Hc Hvalid Hkeys (a & b & Ha & Hb & Hne & Hov & ->).
    rewrite List.Forall_forall in Hvalid.
    destruct (common_cell (orElse cs 10) (snd a) (snd b) Hc (Hvalid a Ha) (Hvalid b Hb) Hov)
      as (k & Hka & Hkb).
    destruct (Hcover a k Ha Hka) as (ids & Hget & Hia).
    destruct (Hcover b k Hb Hkb) as (ids' & Hget' & Hib).
    rewrite Hget in Hget'. injection Hget' as <-.
    assert (Hhit : hitting es (fst a) (fst b)).
    { exists (snd a), (snd b). destruct a, b. now repeat split. }
    assert (Hhit' : hitting es (fst b) (fst a)).
    { exists (snd b), (snd a). destruct a, b. repeat split; auto.
      now rewrite intersects_sym. }
    assert (Hhas : JsMap.has final (pairKey (fst a) (fst b)) = true).
    { destruct (orderedPairs_total ids (fst a) (fst b) Hia Hib Hne) as [Hin | Hin].
      - apply (cells_finds es self Hnd Hbounds _ _ k ids); auto.
        now apply JsMap_get_In.
      - rewrite pairKey_sym.
        apply (cells_finds es self Hnd Hbounds _ _ k ids); auto.
        now apply JsMap_get_In. }
    apply JsMap_has_true in Hhas. destruct Hhas as (q & Hq).
    apply JsMap_get_In in Hq. apply values_In. exists (pairKey (fst a) (fst b)).
    destruct (Hok _ q Hq) as (a' & b' & Ha' & Hb' & _ & _ & Hq' & Hkey).
    replace (canonicalPair (fst a) (fst b)) with q; [exact Hq |].
    rewrite Hq'. symmetry. apply Hkeys; auto using in_map.
Qed.

(** The brute force and the spatial hash report the same set of canonical
    pairs when the ids are distinct, the boxes valid, the cell size positive
    and no two pairs share a dedup key. *)
Lemma simple_spatialHash_same_pairs
  (cs : option Q) (es : list (EntityId * AABB Q)) (p : CollisionPair) :
  List.NoDup (List.map fst es) ->
  0 < orElse cs 10 ->
  List.Forall (fun e => validBox (snd e)) es ->
  keysSeparate (List.map fst es) ->
  List.In p (List.map canonical (simplePairs es))
  <-> List.In p (List.map canonical (spatialHashPairsWith cs es)).
Proof.
  intros Hnd Hc Hvalid Hkeys. rewrite (simple_expected es p Hnd).
  destruct (spatialHash_expected cs es p Hnd) as [_ Hcomplete].
  split.
  - intros Hexp. apply in_map_iff. exists p. split.
    + apply (expected_canonical es p Hexp).
    + now apply Hcomplete.
  - intros Hin. apply in_map_iff in Hin. destruct Hin as (q & <- & Hq).
    apply (spatialHash_expected cs es q Hnd) in Hq.
    rewrite (proj1 (expected_canonical es q Hq)). exact Hq.
Qed.

(** X3. Every pair the spatial hash emits has its smaller id first. *)
Lemma spatialHash_pairs_canonical (cs : option Q) (es : list (EntityId * AABB Q)) :
  List.NoDup (List.map fst es) ->
  List.forallb isCanonical (spatialHashPairsWith cs es) = true.
Proof.
  intros Hnd. apply List.forallb_forall. intros p Hp.
  apply (spatialHash_expected cs es p Hnd) in Hp. apply (expected_canonical es p Hp).
Qed.

End HashVsSimple.

Section KeyFacts.
Import SpatialHashBroadphase.

(** A string up to its first colon determines the rest. *)
Lemma colon_split (x x' y y' : string) :
  colonFree x -> colonFree x' ->
  (x ++ ":" ++ y)%string = (x' ++ ":" ++ y')%string -> x = x' /\ y = y'.
Proof.
  revert x'. induction x as [| c x IH]; intros x' Hx Hx' Heq.
  - destruct x' as [| c' x']; cbn in Heq.
    + injection Heq as ->. now split.
    + injection Heq as <- _. exfalso. apply Hx'. cbn. now left.
  - destruct x' as [| c' x']; cbn in Heq.
    + injection Heq as -> _. exfalso. apply Hx. cbn. now left.
    + injection Heq as <- Heq.
      destruct (IH x') as [-> ->]; auto.
      * intros Hin. apply Hx. cbn. now right.
      * intros Hin. apply Hx'. cbn. now right.
Qed.

Lemma pairKey_canonicalPair (a b : EntityId) :
  pairKey a b = (entityA (canonicalPair a b) ++ ":" ++ entityB (canonicalPair a b))%string.
Proof. unfold pairKey, canonicalPair. cbn. destruct (String.ltb a b); reflexivity. Qed.

(** Ids without a colon have keys that tell their pairs apart. *)
Lemma colonFree_keysSeparate (ids : list EntityId) :
  List.Forall colonFree ids -> keysSeparate ids.
Proof.
  intros Hfree a b a' b' Ha Hb Ha' Hb' Hkey.
  rewrite List.Forall_forall in Hfree.
  rewrite !pairKey_canonicalPair in Hkey.
  assert (HA : colonFree (entityA (canonicalPair a b))).
  { unfold canonicalPair. cbn. destruct (String.ltb a b); auto. }
  assert (HA' : colonFree (entityA (canonicalPair a' b'))).
  { unfold canonicalPair. cbn. destruct (String.ltb a' b'); auto. }
  destruct (colon_split _ _ _ _ HA HA' Hkey) as [H1 H2].
  destruct (canonicalPair a b), (canonicalPair a' b'). cbn in *. now subst.
Qed.

End KeyFacts.

(** X2 (C2, delimited).  For entities with distinct colon-free ids and valid
    boxes, and a positive cell size, the three backends report the same set
    of canonical pairs. *)
Lemma backends_same_pairs (cs : option Q) (es : list (EntityId * AABB Q)) (p : CollisionPair) :
  List.NoDup (List.map fst es) ->
  List.Forall colonFree (List.map fst es) ->
  List.Forall (fun e => validBox (snd e)) es ->
  0 < orElse cs 10 ->
  (List.In p (List.map canonical (simplePairs es))
   <-> List.In p (List.map canonical (spatialHashPairsWith cs es))) /\
  (List.In p (List.map canonical (simplePairs es))
   <-> List.In p (List.map canonical (sweepAndPrunePairs es))).
Proof.
  intros Hnd Hfree Hvalid Hc. split.
  - apply simple_spatialHash_same_pairs; auto. now apply colonFree_keysSeparate.
  - now apply simple_sweep_same_pairs.
Qed.

(** ** The step hash and the order of the registry *)

Section StringOrder.

Lemma ascii_compare_lt_trans (a b c : ascii) :
  Ascii.compare a b = Lt -> Ascii.compare b c = Lt -> Ascii.compare a c = Lt.
Proof.
  unfold Ascii.compare. rewrite !N.compare_lt_iff. apply N.lt_trans.
Qed.

Lemma string_compare_lt_trans (a : string) :
  forall b c : string,
  String.compare a b = Lt -> String.compare b c = Lt -> String.compare a c = Lt.
Proof.
  induction a as [| x a IH]; intros [| y b] [| z c]; cbn; try congruence.
  destruct (Ascii.compare x y) eqn:Exy; try congruence;
    destruct (Ascii.compare y z) eqn:Eyz; try congruence.
  - apply Ascii.compare_eq_iff in Exy, Eyz. subst.
    replace (Ascii.compare z z) with Eq; [apply IH |].
    symmetry. unfold Ascii.compare. apply N.compare_refl.
  - apply Ascii.compare_eq_iff in Exy. subst. now rewrite Eyz.
  - apply Ascii.compare_eq_iff in Eyz. subst. now rewrite Exy.
  - now rewrite (ascii_compare_lt_trans x y z Exy Eyz).
Qed.

Lemma ltb_trans (a b c : string) :
  String.ltb a b = true -> String.ltb b c = true -> String.ltb a c = true.
Proof.
  unfold String.ltb. intros Hab Hbc.
  destruct (String.compare a b) eqn:Eab; try discriminate.
  destruct (String.compare b c) eqn:Ebc; try discriminate.
  now rewrite (string_compare_lt_trans a b c Eab Ebc).
Qed.

(** The comparator of the sort is negative exactly on [Lt]. *)
Lemma defaultCompare_neg (a b : string) :
  nltb (defaultCompare a b) (nofZ 0) = String.ltb a b.
Proof.
  unfold defaultCompare, String.ltb.
  destruct (String.compare a b); reflexivity.
Qed.

End StringOrder.

Section KeyedSort.
Context {V : Type}.

Lemma keyed_insert_sorted (x : string * V) (l : list (string * V)) :
  StronglySorted keyBefore l ->
  ~ List.In (fst x) (List.map fst l) ->
  StronglySorted keyBefore (sort_insert compareKeys x l).
Proof.
  induction l as [| y l IH]; intros Hsorted Hfresh; cbn [sort_insert].
  - constructor; constructor.
  - inversion Hsorted as [| ? ? Hsorted' Hall]; subst.
    unfold compareKeys at 1. rewrite defaultCompare_neg.
    destruct (String.ltb (fst x) (fst y)) eqn:Hxy.
    + constructor; [exact Hsorted |].
      constructor; [exact Hxy |].
      rewrite List.Forall_forall in *. intros z Hz.
      unfold keyBefore in *. now apply (ltb_trans _ (fst y)); [| apply Hall].
    + assert (Hyx : keyBefore y x).
      { unfold keyBefore. apply ltb_connected; [| exact Hxy].
        intros Heq. apply Hfresh. cbn. now left. }
      constructor.
      * apply IH; [exact Hsorted' |]. intros Hin. apply Hfresh. cbn. now right.
      * rewrite List.Forall_forall in *. intros z Hz.
        apply (Permutation_in _ (sort_insert_perm compareKeys x l)) in Hz.
        destruct Hz as [<- | Hz]; [exact Hyx | now apply Hall].
Qed.

Lemma keyed_fold_sorted (l : list (string * V)) :
  forall acc : list (string * V),
  StronglySorted keyBefore acc ->
  List.NoDup (List.map fst acc ++ List.map fst l) ->
  StronglySorted keyBefore
    (List.fold_left (fun sorted x => sort_insert compareKeys x sorted) l acc).
Proof.
  induction l as [| x l IH]; intros acc Hsorted Hnd; cbn [List.fold_left]; [exact Hsorted |].
  cbn [List.map] in Hnd. apply IH.
  - apply keyed_insert_sorted; [exact Hsorted |].
    apply NoDup_remove_2 in Hnd. intros Hin. apply Hnd. apply in_or_app. now left.
  - apply (Permutation_NoDup (l := List.map fst acc ++ fst x :: List.map fst l)); [| exact Hnd].
    rewrite (Permutation_map fst (sort_insert_perm compareKeys x acc)). cbn [List.map].
    symmetry. apply Permutation_middle.
Qed.

Lemma keyed_sort_sorted (l : list (string * V)) :
  List.NoDup (List.map fst l) -> StronglySorted keyBefore (js_sort compareKeys l).
Proof.
  intros Hnd. unfold js_sort. apply keyed_fold_sorted; [constructor | exact Hnd].
Qed.

(** Two sorted lists with the same elements are the same list. *)
Lemma keyed_sorted_unique (l1 : list (string * V)) :
  forall l2 : list (string * V),
  StronglySorted keyBefore l1 -> StronglySorted keyBefore l2 ->
  Permutation l1 l2 -> l1 = l2.
Proof.
  induction l1 as [| a l1 IH]; intros l2 H1 H2 Hperm.
  - apply Permutation_nil in Hperm. now subst.
  - destruct l2 as [| b l2].
    + apply Permutation_sym, Permutation_nil in Hperm. discriminate.
    + inversion H1 as [| ? ? H1' Hall1]; subst.
      inversion H2 as [| ? ? H2' Hall2]; subst.
      rewrite List.Forall_forall in Hall1, Hall2.
      assert (Ha : List.In a (b :: l2))
        by (apply (Permutation_in _ Hperm); now left).
      assert (Hb : List.In b (a :: l1))
        by (apply (Permutation_in _ (Permutation_sym Hperm)); now left).
      assert (Heq : a = b).
      { destruct Ha as [-> | Ha]; [reflexivity |].
        destruct Hb as [-> | Hb]; [reflexivity |].
        pose proof (Hall2 a Ha) as Hba. pose proof (Hall1 b Hb) as Hab.
        unfold keyBefore in *. rewrite (ltb_asym _ _ Hab) in Hba. discriminate. }
      subst b. f_equal. apply IH; auto.
      now apply Permutation_cons_inv in Hperm.
Qed.

(** The sort by key does not depend on the order of its input. *)
Lemma keyed_sort_perm (l1 l2 : list (string * V)) :
  Permutation l1 l2 -> List.NoDup (List.map fst l1) ->
  js_sort compareKeys l1 = js_sort compareKeys l2.
Proof.
  intros Hperm Hnd.
  assert (Hnd2 : List.NoDup (List.map fst l2))
    by (apply (Permutation_NoDup (Permutation_map fst Hperm)); exact Hnd).
  apply keyed_sorted_unique; try now apply keyed_sort_sorted.
  unfold js_sort.
  rewrite (js_sort_fold_perm compareKeys l1 []), (js_sort_fold_perm compareKeys l2 []).
  exact Hperm.
Qed.

End KeyedSort.

Section CollatedSort.
Context `{Collation} {V : Type}.
Variable ids : list string.
Hypothesis Hstrict : ordersStrictly ids.

Lemma collated_insert_sorted (x : string * V) (l : list (string * V)) :
  List.In (fst x) ids -> List.Forall (fun e => List.In (fst e) ids) l ->
  StronglySorted idBefore l ->
  ~ List.In (fst x) (List.map fst l) ->
  StronglySorted idBefore (sort_insert compareIds x l).
Proof.
  destruct Hstrict as [Hasym Htrans]. intros Hx.
  induction l as [| y l IH]; intros Hl Hsorted Hfresh; cbn [sort_insert].
  - constructor; constructor.
  - inversion Hsorted as [| ? ? Hsorted' Hall]; subst.
    apply List.Forall_cons_iff in Hl. destruct Hl as [Hy Hl].
    change (nltb (compareIds x y) (nofZ 0)) with (sortsBefore (fst x) (fst y)).
    destruct (sortsBefore (fst x) (fst y)) eqn:Hxy.
    + constructor; [exact Hsorted |].
      constructor; [exact Hxy |].
      rewrite List.Forall_forall in *. intros z Hz.
      unfold idBefore in *. apply (Htrans _ (fst y)); auto.
    + assert (Hyx : idBefore y x).
      { unfold idBefore.
        assert (Hne : fst x <> fst y) by (intros Heq; apply Hfresh; cbn; now left).
        pose proof (Hasym _ _ Hx Hy Hne) as Ha. rewrite Hxy in Ha.
        destruct (sortsBefore (fst y) (fst x)); [reflexivity | discriminate]. }
      constructor.
      * apply IH; [exact Hl | exact Hsorted' |]. intros Hin. apply Hfresh. cbn. now right.
      * rewrite List.Forall_forall in *. intros z Hz.
        apply (Permutation_in _ (sort_insert_perm compareIds x l)) in Hz.
        destruct Hz as [<- | Hz]; [exact Hyx | now apply Hall].
Qed.

Lemma collated_fold_sorted (l : list (string * V)) :
  forall acc : list (string * V),
  List.Forall (fun e => List.In (fst e) ids) acc ->
  List.Forall (fun e => List.In (fst e) ids) l ->
  StronglySorted idBefore acc ->
  List.NoDup (List.map fst acc ++ List.map fst l) ->
  StronglySorted idBefore
    (List.fold_left (fun sorted x => sort_insert compareIds x sorted) l acc).
Proof.
  induction l as [| x l IH]; intros acc Hacc Hl Hsorted Hnd; cbn [List.fold_left];
    [exact Hsorted |].
  apply List.Forall_cons_iff in Hl. destruct Hl as [Hx Hl].
  cbn [List.map] in Hnd. apply IH.
  - rewrite List.Forall_forall in *. intros z Hz.
    apply (Permutation_in _ (sort_insert_perm compareIds x acc)) in Hz.
    destruct Hz as [<- | Hz]; [exact Hx | now apply Hacc].
  - exact Hl.
  - apply collated_insert_sorted; [exact Hx | exact Hacc | exact Hsorted |].
    apply NoDup_remove_2 in Hnd. intros Hin. apply Hnd. apply in_or_app. now left.
  - apply (Permutation_NoDup (l := List.map fst acc ++ fst x :: List.map fst l)); [| exact Hnd].
    rewrite (Permutation_map fst (sort_insert_perm compareIds x acc)). cbn [List.map].
    symmetry. apply Permutation_middle.
Qed.

Lemma collated_sort_sorted (l : list (string * V)) :
  List.Forall (fun e => List.In (fst e) ids) l -> List.NoDup (List.map fst l) ->
  StronglySorted idBefore (js_sort compareIds l).
Proof.
  intros Hl Hnd. unfold js_sort.
  apply collated_fold_sorted; [constructor | exact Hl | constructor | exact Hnd].
Qed.

(** Two sorted lists with the same elements are the same list. *)
Lemma collated_sorted_unique (l1 : list (string * V)) :
  forall l2 : list (string * V),
  List.Forall (fun e => List.In (fst e) ids) l1 -> List.NoDup (List.map fst l1) ->
  StronglySorted idBefore l1 -> StronglySorted idBefore l2 ->
  Permutation l1 l2 -> l1 = l2.
Proof.
  destruct Hstrict as [Hasym _].
  induction l1 as [| a l1 IH]; intros l2 Hin Hnd H1 H2 Hperm.
  - apply Permutation_nil in Hperm. now subst.
  - destruct l2 as [| b l2].
    + apply Permutation_sym, Permutation_nil in Hperm. discriminate.
    + inversion H1 as [| ? ? H1' Hall1]; subst.
      inversion H2 as [| ? ? H2' Hall2]; subst.
      apply List.Forall_cons_iff in Hin. destruct Hin as [Hina Hin].
      cbn [List.map] in Hnd. apply NoDup_cons_iff in Hnd. destruct Hnd as [Hfresh Hnd].
      assert (Ha : List.In a (b :: l2))
        by (apply (Permutation_in _ Hperm); now left).
      assert (Hb : List.In b (a :: l1))
        by (apply (Permutation_in _ (Permutation_sym Hperm)); now left).
      assert (Heq : a = b).
      { destruct Ha as [-> | Ha]; [reflexivity |].
        destruct Hb as [-> | Hb]; [reflexivity |].
        rewrite List.Forall_forall in Hall1, Hall2, Hin.
        pose proof (Hall2 a Ha) as Hba. pose proof (Hall1 b Hb) as Hab.
        unfold idBefore in *.
        assert (Hne : fst a <> fst b)
          by (intros Heq; apply Hfresh; rewrite Heq; now apply in_map).
        pose proof (Hasym _ _ Hina (Hin b Hb) Hne) as Hs.
        rewrite Hab, Hba in Hs. discriminate. }
      subst b. f_equal. apply IH; auto.
      now apply Permutation_cons_inv in Hperm.
Qed.

(** The sort by id does not depend on the order of its input. *)
Lemma collated_sort_perm (l1 l2 : list (string * V)) :
  Permutation l1 l2 ->
  List.Forall (fun e => List.In (fst e) ids) l1 -> List.NoDup (List.map fst l1) ->
  js_sort compareIds l1 = js_sort compareIds l2.
Proof.
  intros Hperm Hin Hnd.
  assert (Hnd2 : List.NoDup (List.map fst l2))
    by (apply (Permutation_NoDup (Permutation_map fst Hperm)); exact Hnd).
  assert (Hin2 : List.Forall (fun e => List.In (fst e) ids) l2).
  { rewrite List.Forall_forall in *. intros e He. apply Hin.
    now apply (Permutation_in _ (Permutation_sym Hperm)). }
  assert (Hp1 : Permutation (js_sort compareIds l1) l1)
    by (unfold js_sort; apply (js_sort_fold_perm compareIds l1 [])).
  apply collated_sorted_unique.
  - rewrite List.Forall_forall in *. intros e He. apply Hin.
    now apply (Permutation_in _ Hp1).
  - apply (Permutation_NoDup (Permutation_map fst (Permutation_sym Hp1))). exact Hnd.
  - now apply collated_sort_sorted.
  - now apply collated_sort_sorted.
  - unfold js_sort.
    rewrite (js_sort_fold_perm compareIds l1 []), (js_sort_fold_perm compareIds l2 []).
    exact Hperm.
Qed.

End CollatedSort.

(** The order by code units is a strict total order on any ids. *)
Lemma codeUnit_ordersStrictly (ids : list string) : @ordersStrictly codeUnitCollation ids.
Proof.
  assert (Hb : forall a b, @sortsBefore codeUnitCollation a b = String.ltb a b)
    by (intros a b; apply defaultCompare_neg).
  split.
  - intros a b _ _ Hne. rewrite !Hb.
    destruct (String.ltb a b) eqn:Eab.
    + now rewrite (ltb_asym a b Eab).
    + now rewrite (ltb_connected a b Hne Eab).
  - intros a b c _ _ _. rewrite !Hb. apply ltb_trans.
Qed.

(** X1. The step hash does not depend on the order of the registry: the
    entities are sorted by id before they are hashed, and the sort has one
    result whenever the collation of the host is a strict total order on
    the ids of the registry. *)
Lemma computeStepHash_order_independent `{Collation} (s1 s2 : SimulationRuntime.t) :
  sameRegistry (SimulationRuntime.entities s1) (SimulationRuntime.entities s2) ->
  ordersStrictly (JsMap.keys (SimulationRuntime.entities s1)) ->
  SimulationRuntime.currentStep s1 = SimulationRuntime.currentStep s2 ->
  SimulationRuntime.computeStepHash s1 = SimulationRuntime.computeStepHash s2.
Proof.
  intros [Hperm Hnd] Hstrict Hstep. unfold SimulationRuntime.computeStepHash, JsMap.entries.
  fold (@compareIds _ Entity.t).
  rewrite (collated_sort_perm _ Hstrict _ _ Hperm), Hstep; [reflexivity | | exact Hnd].
  rewrite List.Forall_forall. intros e He. unfold JsMap.keys. now apply in_map.
Qed.

(** ** Where the code departs from the specification *)

(** C10, the counterexample.  On binary64 the stages of RK4 round: from
    rest, with the acceleration [(0.3, 0, 0)] and [dt = 1], the velocity it
    returns is 0.29999999999999993 and not the double [v + a dt = 0.3], and
    the position is 0.14999999999999997 and not [0.15]. *)
Lemma rk4_binary64_rounding :
  Vector3.x (ir_velocity (RK4Integrator.integrate restState 1%float))
    = 0.29999999999999993%float /\
  Vector3.x (Vec3.add (is_velocity restState) (Vec3.mul (is_acceleration restState) 1%float))
    = 0.3%float /\
  Vector3.x (ir_position (RK4Integrator.integrate restState 1%float))
    = 0.14999999999999997%float /\
  Vector3.x (Vec3.add (Vec3.add (is_position restState)
                                (Vec3.mul (is_velocity restState) 1%float))
                      (Vec3.mul (is_acceleration restState) (0.5 * (1 * 1))%float))
    = 0.15%float /\
  PrimFloat.eqb (Vector3.x (ir_velocity (RK4Integrator.integrate restState 1%float)))
                0.3%float = false.
Proof. repeat split; vm_compute; reflexivity. Qed.

(** C2. The spatial hash deduplicates on the key [idA:idB], and two
    different pairs can share a key when ids hold a colon: ["a" , "b:c"] and
    ["a:b" , "c"] both give [a:b:c].  With four overlapping boxes the brute
    force and the sweep report six pairs, the same six; the spatial hash
    reports five and misses ["a:b" , "c"]. *)
Theorem spatial_hash_drops_pair :
  List.length (simplePairs colonEntities) = 6%nat /\
  List.length (sweepAndPrunePairs colonEntities) = 6%nat /\
  List.length (spatialHashPairs colonEntities) = 5%nat /\
  same_pair_set (simplePairs colonEntities) (sweepAndPrunePairs colonEntities) = true /\
  same_pair_set (simplePairs colonEntities) (spatialHashPairs colonEntities) = false /\
  has_pair (simplePairs colonEntities) {| entityA := "a:b"; entityB := "c" |} = true /\
  has_pair (spatialHashPairs colonEntities) {| entityA := "a:b"; entityB := "c" |} = false /\
  SpatialHashBroadphase.pairKey "a" "b:c" = SpatialHashBroadphase.pairKey "a:b" "c".
Proof. repeat split; vm_compute; reflexivity. Qed.

(** C6. The brute force emits a pair in the order its two entities were
    inserted: with ["b"] inserted before ["a"] it returns [(b, a)], which is
    not canonical.  The spatial hash and the sweep return [(a, b)]. *)
Theorem simple_pairs_not_canonical :
  simplePairs reversedEntities = [{| entityA := "b"; entityB := "a" |}] /\
  List.forallb isCanonical (simplePairs reversedEntities) = false /\
  spatialHashPairs reversedEntities = [{| entityA := "a"; entityB := "b" |}] /\
  sweepAndPrunePairs reversedEntities = [{| entityA := "a"; entityB := "b" |}].
Proof. repeat split; vm_compute; reflexivity. Qed.

(** C8. A ray along the face [x = 0] of the unit box has a zero [x]
    direction and starts at [x = 0]: [(min.x - origin.x) * Infinity] is
    [0 * Infinity = NaN], the comparisons that would reject it are all
    false, and the result is a hit at distance [NaN].  A ray that starts
    inside a box is reported at its exit distance, 10, although
    [maxDistance] is 5. *)
Theorem raycastAabb_NaN_hit :
  hit grazingRay = true /\
  option_map JsMath.isNaN (distance grazingRay) = Some true /\
  result_has_NaN grazingRay = true /\
  hit insideRay = true /\
  distance insideRay = Some 10%float /\
  PrimFloat.ltb 5%float 10%float = true.
Proof. repeat split; vm_compute; reflexivity. Qed.

(* ================================================================== *)
(** * Further properties: transforms and boxes *)
(* ================================================================== *)

Section TransformFacts.
Local Open Scope Q_scope.

Ltac q_unfold :=
  unfold V3eq, quatLenSq, Vec3.reflect, Quat.rotateVector, Quat.inverse, Quat.multiply,
    Quat.conjugate, Vec3.lengthSq, Vec3.cross, Vec3.add, Vec3.sub, Vec3.mul, Vec3.dot;
  cbv zeta;
  cbn [Vector3.x Vector3.y Vector3.z Quaternion.x Quaternion.y Quaternion.z Quaternion.w
       nadd nsub nmul ndiv nopp nofZ Number_Q];
  change (inject_Z 0) with 0; change (inject_Z 1) with 1; change (inject_Z 2) with 2.

Lemma V3eq_sym (a b : Vector3 Q) : V3eq a b -> V3eq b a.
Proof. intros (Hx & Hy & Hz). repeat split; symmetry; assumption. Qed.

Lemma V3eq_trans (a b c : Vector3 Q) : V3eq a b -> V3eq b c -> V3eq a c.
Proof.
  intros (Hx & Hy & Hz) (Hx' & Hy' & Hz').
  repeat split; etransitivity; eassumption.
Qed.

(** [rotateVector] on equal points. *)
Lemma rotateVector_V3eq (q : Quaternion Q) (u v : Vector3 Q) :
  V3eq u v -> V3eq (Quat.rotateVector q u) (Quat.rotateVector q v).
Proof.
  destruct q as [qx qy qz qw], u as [ux uy uz], v as [vx vy vz].
  unfold V3eq at 1. cbn [Vector3.x Vector3.y Vector3.z]. intros (Hx & Hy & Hz).
  q_unfold. rewrite Hx, Hy, Hz. repeat split; reflexivity.
Qed.

(** Rotating by a quaternion and then by its inverse gives the point back. *)
Lemma rotateVector_inverse (q : Quaternion Q) (v : Vector3 Q) :
  ~ quatLenSq q == 0 ->
  V3eq (Quat.rotateVector (Quat.inverse q) (Quat.rotateVector q v)) v.
Proof.
  destruct q as [qx qy qz qw], v as [x y z]. intros Hq.
  assert (Hrot : V3eq (Quat.rotateVector (Quaternion.mk qx qy qz qw) (Vector3.mk x y z))
            (Vector3.mk
               ((qw * qw + qx * qx - qy * qy - qz * qz) * x
                + 2 * (qx * qy - qw * qz) * y + 2 * (qx * qz + qw * qy) * z)
               (2 * (qx * qy + qw * qz) * x
                + (qw * qw - qx * qx + qy * qy - qz * qz) * y + 2 * (qy * qz - qw * qx) * z)
               (2 * (qx * qz - qw * qy) * x
                + 2 * (qy * qz + qw * qx) * y + (qw * qw - qx * qx - qy * qy + qz * qz) * z)))
    by (q_unfold; repeat split; ring).
  apply (V3eq_trans _ _ _ (rotateVector_V3eq _ _ _ Hrot)).
  revert Hq. q_unfold. intros Hq. unfold Qdiv.
  set (n := qx * qx + qy * qy + qz * qz + qw * qw) in *.
  assert (Hi : n * / n == 1) by (field; exact Hq).
  generalize dependent (/ n). intros i Hi. subst n.
  repeat split.
  - transitivity (x * ((qx * qx + qy * qy + qz * qz + qw * qw) * i)
                    * ((qx * qx + qy * qy + qz * qz + qw * qw) * i));
      [ring | rewrite Hi; ring].
  - transitivity (y * ((qx * qx + qy * qy + qz * qz + qw * qw) * i)
                    * ((qx * qx + qy * qy + qz * qz + qw * qw) * i));
      [ring | rewrite Hi; ring].
  - transitivity (z * ((qx * qx + qy * qy + qz * qz + qw * qw) * i)
                    * ((qx * qx + qy * qy + qz * qz + qw * qw) * i));
      [ring | rewrite Hi; ring].
Qed.

(** X9. [inverseTransformPoint] undoes [transformPoint] for every rotation
    quaternion that is not zero, of unit length or not, and every scale
    with no zero component. *)
Theorem inverseTransformPoint_transformPoint (t : Transform Q) (p : Vector3 Q) :
  ~ quatLenSq (rotation t) == 0 ->
  ~ Vector3.x (scale t) == 0 -> ~ Vector3.y (scale t) == 0 -> ~ Vector3.z (scale t) == 0 ->
  V3eq (TransformOps.inverseTransformPoint t (TransformOps.transformPoint t p)) p.
Proof.
  destruct t as [pos q [sx sy sz]], p as [x y z].
  cbn [rotation scale Vector3.x Vector3.y Vector3.z]. intros Hq Hx Hy Hz.
  unfold TransformOps.inverseTransformPoint, TransformOps.transformPoint.
  cbn [position rotation scale Vector3.x Vector3.y Vector3.z nmul ndiv Number_Q].
  set (scaled := Vector3.mk (x * sx) (y * sy) (z * sz)).
  assert (Hback : V3eq (Quat.rotateVector (Quat.inverse q)
                          (Vec3.sub (Vec3.add (Quat.rotateVector q scaled) pos) pos))
                       scaled).
  { apply V3eq_trans with (b := Quat.rotateVector (Quat.inverse q) (Quat.rotateVector q scaled));
      [| apply rotateVector_inverse; exact Hq].
    apply rotateVector_V3eq.
    destruct (Quat.rotateVector q scaled) as [rx ry rz], pos as [px py pz].
    q_unfold. repeat split; ring. }
  destruct (Quat.rotateVector (Quat.inverse q)
              (Vec3.sub (Vec3.add (Quat.rotateVector q scaled) pos) pos)) as [bx b_y bz].
  destruct Hback as (Hbx & Hby & Hbz). cbn [Vector3.x Vector3.y Vector3.z scaled] in *.
  unfold V3eq. cbn [Vector3.x Vector3.y Vector3.z].
  rewrite Hbx, Hby, Hbz. repeat split; field; assumption.
Qed.

(** X10. Rotating by a quaternion scales squared lengths by the square of the
    quaternion's squared norm: a unit quaternion keeps lengths. *)
Theorem rotateVector_lengthSq (q : Quaternion Q) (v : Vector3 Q) :
  Vec3.lengthSq (Quat.rotateVector q v) == quatLenSq q * quatLenSq q * Vec3.lengthSq v.
Proof.
  destruct q as [qx qy qz qw], v as [x y z]. q_unfold. ring.
Qed.

(** The cross product is orthogonal to both of its arguments. *)
Theorem cross_orthogonal (a b : Vector3 Q) :
  Vec3.dot (Vec3.cross a b) a == 0 /\ Vec3.dot (Vec3.cross a b) b == 0.
Proof.
  destruct a as [ax ay az], b as [bx b_y bz]. q_unfold. split; ring.
Qed.

(** Reflection in a plane with a unit normal keeps the length and undoes
    itself. *)
Theorem reflect_unit_normal (v n : Vector3 Q) :
  Vec3.dot n n == 1 ->
  Vec3.lengthSq (Vec3.reflect v n) == Vec3.lengthSq v /\
  V3eq (Vec3.reflect (Vec3.reflect v n) n) v.
Proof.
  destruct v as [x y z], n as [nx ny nz]. q_unfold. intros Hn.
  split.
  - transitivity (x * x + y * y + z * z
                  + 4 * (x * nx + y * ny + z * nz) * (x * nx + y * ny + z * nz)
                    * (nx * nx + ny * ny + nz * nz - 1));
      [ring | rewrite Hn; ring].
  - repeat split.
    + transitivity (x + 4 * nx * (x * nx + y * ny + z * nz) * (nx * nx + ny * ny + nz * nz - 1));
        [ring | rewrite Hn; ring].
    + transitivity (y + 4 * ny * (x * nx + y * ny + z * nz) * (nx * nx + ny * ny + nz * nz - 1));
        [ring | rewrite Hn; ring].
    + transitivity (z + 4 * nz * (x * nx + y * ny + z * nz) * (nx * nx + ny * ny + nz * nz - 1));
        [ring | rewrite Hn; ring].
Qed.

End TransformFacts.

Section BoxFacts.
Local Open Scope Q_scope.

Lemma Qltb_true (a b : Q) : negb (Qle_bool b a) = true <-> a < b.
Proof.
  rewrite negb_true_iff. split.
  - intros Hf. apply Qnot_le_lt. intros Hle. apply Qle_bool_iff in Hle. congruence.
  - intros Hlt. destruct (Qle_bool b a) eqn:E; [| reflexivity].
    apply Qle_bool_iff in E. lra.
Qed.

Lemma Qltb_false (a b : Q) : negb (Qle_bool b a) = false <-> b <= a.
Proof. rewrite negb_false_iff. apply Qle_bool_iff. Qed.

Lemma Qmin_spec_le (a b : Q) : Qmin a b <= a /\ Qmin a b <= b /\ (Qmin a b == a \/ Qmin a b == b).
Proof.
  destruct (Q.min_spec a b) as [[Hlt Heq] | [Hle Heq]]; rewrite Heq; repeat split; lra.
Qed.

Lemma Qmax_spec_le (a b : Q) : a <= Qmax a b /\ b <= Qmax a b /\ (Qmax a b == a \/ Qmax a b == b).
Proof.
  destruct (Q.max_spec a b) as [[Hlt Heq] | [Hle Heq]]; rewrite Heq; repeat split; lra.
Qed.

Lemma contains_within (box : AABB Q) (p : Vector3 Q) :
  AABBOps.contains box p = true <-> withinCorners (AABB.min box) (AABB.max box) p.
Proof.
  unfold AABBOps.contains, withinCorners. cbn [nleb Number_Q].
  rewrite !andb_true_iff, !Qleb_true. tauto.
Qed.

(** [Vec3.clamp] lands withinCorners the two corners when they are ordered, and
    leaves alone a point that is already withinCorners them. *)
Theorem clamp_within (v lo hi : Vector3 Q) :
  Vector3.x lo <= Vector3.x hi -> Vector3.y lo <= Vector3.y hi -> Vector3.z lo <= Vector3.z hi ->
  withinCorners lo hi (Vec3.clamp v lo hi) /\
  (withinCorners lo hi v -> V3eq (Vec3.clamp v lo hi) v).
Proof.
  destruct v as [x y z], lo as [lx ly lz], hi as [hx hy hz].
  unfold withinCorners, V3eq, Vec3.clamp.
  cbn [Vector3.x Vector3.y Vector3.z nmin nmax Number_Q]. intros Hx Hy Hz.
  pose proof (Qmin_spec_le hx x) as (? & ? & ?).
  pose proof (Qmin_spec_le hy y) as (? & ? & ?).
  pose proof (Qmin_spec_le hz z) as (? & ? & ?).
  pose proof (Qmax_spec_le lx (Qmin hx x)) as (? & ? & ?).
  pose proof (Qmax_spec_le ly (Qmin hy y)) as (? & ? & ?).
  pose proof (Qmax_spec_le lz (Qmin hz z)) as (? & ? & ?).
  split.
  - repeat split;
      repeat match goal with H : _ \/ _ |- _ => destruct H end; lra.
  - intros [[? ?] [[? ?] [? ?]]].
    repeat split;
      repeat match goal with H : _ \/ _ |- _ => destruct H end; lra.
Qed.

(** X11. [AABBOps.intersects] is exact on boxes with [min <= max]: it answers
    [true] exactly when the two boxes have a point in common. *)
Theorem intersects_iff_common_point (a b : AABB Q) :
  validBox a -> validBox b ->
  (AABBOps.intersects a b = true <->
   exists p : Vector3 Q, AABBOps.contains a p = true /\ AABBOps.contains b p = true).
Proof.
  intros (Hax & Hay & Haz) (Hbx & Hby & Hbz). split.
  - intros Hi. apply intersects_Q in Hi. destruct Hi as ((? & ?) & (? & ?) & (? & ?)).
    exists (Vec3.max (AABB.min a) (AABB.min b)).
    rewrite !contains_within. unfold withinCorners, Vec3.max.
    cbn [Vector3.x Vector3.y Vector3.z nmax Number_Q].
    pose proof (Qmax_spec_le (Vector3.x (AABB.min a)) (Vector3.x (AABB.min b))) as (? & ? & ?).
    pose proof (Qmax_spec_le (Vector3.y (AABB.min a)) (Vector3.y (AABB.min b))) as (? & ? & ?).
    pose proof (Qmax_spec_le (Vector3.z (AABB.min a)) (Vector3.z (AABB.min b))) as (? & ? & ?).
    repeat split;
      repeat match goal with H : _ \/ _ |- _ => destruct H end; lra.
  - intros (p & Ha & Hb). apply contains_within in Ha, Hb.
    destruct Ha as ((? & ?) & (? & ?) & (? & ?)), Hb as ((? & ?) & (? & ?) & (? & ?)).
    unfold AABBOps.intersects. cbn [nleb Number_Q].
    rewrite !andb_true_iff, !Qleb_true. repeat split; lra.
Qed.

(** The merged box contains every point of either box. *)
Theorem merge_contains (a b : AABB Q) (p : Vector3 Q) :
  AABBOps.contains a p = true \/ AABBOps.contains b p = true ->
  AABBOps.contains (AABBOps.merge a b) p = true.
Proof.
  rewrite !contains_within. unfold withinCorners, AABBOps.merge, Vec3.min, Vec3.max.
  cbn [AABB.min AABB.max Vector3.x Vector3.y Vector3.z nmin nmax Number_Q].
  pose proof (Qmin_spec_le (Vector3.x (AABB.min a)) (Vector3.x (AABB.min b))) as (? & ? & _).
  pose proof (Qmin_spec_le (Vector3.y (AABB.min a)) (Vector3.y (AABB.min b))) as (? & ? & _).
  pose proof (Qmin_spec_le (Vector3.z (AABB.min a)) (Vector3.z (AABB.min b))) as (? & ? & _).
  pose proof (Qmax_spec_le (Vector3.x (AABB.max a)) (Vector3.x (AABB.max b))) as (? & ? & _).
  pose proof (Qmax_spec_le (Vector3.y (AABB.max a)) (Vector3.y (AABB.max b))) as (? & ? & _).
  pose proof (Qmax_spec_le (Vector3.z (AABB.max a)) (Vector3.z (AABB.max b))) as (? & ? & _).
  intros [((? & ?) & (? & ?) & (? & ?)) | ((? & ?) & (? & ?) & (? & ?))];
    repeat split; lra.
Qed.

(** A box is given back by its center and extents. *)
Theorem fromCenterExtents_center_extents (box : AABB Q) :
  V3eq (AABB.min (AABBOps.fromCenterExtents (AABBOps.center box) (AABBOps.extents box)))
       (AABB.min box) /\
  V3eq (AABB.max (AABBOps.fromCenterExtents (AABBOps.center box) (AABBOps.extents box)))
       (AABB.max box).
Proof.
  destruct box as [[lx ly lz] [hx hy hz]].
  unfold V3eq, AABBOps.fromCenterExtents, AABBOps.center, AABBOps.extents,
    Vec3.add, Vec3.sub, Vec3.mul, dec.
  cbn [AABB.min AABB.max Vector3.x Vector3.y Vector3.z nadd nsub nmul ndiv nofZ Number_Q].
  repeat split; field.
Qed.

End BoxFacts.

Section NarrowphaseFacts.
Local Open Scope Q_scope.

(** On one axis: the middle of the overlap of two intervals lies in both. *)
Lemma overlap_middle (al ah bl bh : Q) :
  al <= ah -> bl <= bh -> bl <= ah -> al <= bh ->
  (al <= (Qmax al bl + Qmin ah bh) / 2 <= ah) /\
  (bl <= (Qmax al bl + Qmin ah bh) / 2 <= bh).
Proof.
  intros Ha Hb Hba Hab.
  pose proof (Qmax_spec_le al bl) as (? & ? & [Hm | Hm]);
    pose proof (Qmin_spec_le ah bh) as (? & ? & [Hn | Hn]);
    rewrite Hm, Hn;
    repeat split;
    first [apply Qle_shift_div_l; [reflexivity |] | apply Qle_shift_div_r; [reflexivity |]];
    lra.
Qed.

Lemma overlap_nonneg (al ah bl bh : Q) :
  bl <= ah -> al <= bh -> 0 <= Qmin (ah - bl) (bh - al).
Proof.
  intros Hba Hab.
  pose proof (Qmin_spec_le (ah - bl) (bh - al)) as (_ & _ & [Hm | Hm]); rewrite Hm; lra.
Qed.

Lemma axis_sign (c : bool) :
  (if c then inject_Z (-1) else inject_Z 1) * (if c then inject_Z (-1) else inject_Z 1) == 1.
Proof. destruct c; reflexivity. Qed.


End NarrowphaseFacts.

(* ================================================================== *)
(** * Further properties: contacts *)
(* ================================================================== *)

Section ResolveFacts.
Local Open Scope Q_scope.

Lemma Qeqb_false (a b : Q) : Qeq_bool a b = false -> ~ a == b.
Proof. intros Hf Heq. apply Qeq_bool_iff in Heq. congruence. Qed.

(** What [resolveContact] returns when it applies an impulse. *)
Lemma resolveContact_impulse (bodyA bodyB : PhysicsBody Q) (contact : ContactPoint Q) :
  pb_isStatic bodyA && pb_isStatic bodyB = false ->
  approachBefore bodyA bodyB contact <= 0 ->
  ~ pb_inverseMass bodyA + pb_inverseMass bodyB == 0 ->
  let j := - (1 + Qmin (pb_restitution bodyA) (pb_restitution bodyB))
           * approachBefore bodyA bodyB contact
           / (pb_inverseMass bodyA + pb_inverseMass bodyB) in
  crr_impulse (resolveContact bodyA bodyB contact) = j /\
  bu_velocity (crr_bodyA (resolveContact bodyA bodyB contact))
  = Vec3.sub (pb_velocity bodyA) (Vec3.mul (Vec3.mul (cp_normal contact) j) (pb_inverseMass bodyA)) /\
  bu_velocity (crr_bodyB (resolveContact bodyA bodyB contact))
  = Vec3.add (pb_velocity bodyB) (Vec3.mul (Vec3.mul (cp_normal contact) j) (pb_inverseMass bodyB)).
Proof.
  intros Hstatic Hvn Hims. unfold resolveContact, approachBefore in *. rewrite Hstatic.
  cbn [nltb nleb neqb nadd nsub nmul ndiv nopp nmin nofZ Number_Q].
  change (inject_Z 0) with 0. change (inject_Z 1) with 1.
  apply Qleb_true in Hvn. rewrite Hvn. cbn [negb].
  destruct (Qeq_bool (pb_inverseMass bodyA + pb_inverseMass bodyB) 0) eqn:E.
  - apply Qeq_bool_iff in E. contradiction.
  - cbn zeta. repeat split; reflexivity.
Qed.

(** X13. After an impulse the bodies separate along a unit normal with [e]
    times the speed they approached with, [e] being the smaller
    restitution: for [e >= 0] they no longer approach. *)
Theorem resolveContact_restitution (bodyA bodyB : PhysicsBody Q) (contact : ContactPoint Q) :
  pb_isStatic bodyA && pb_isStatic bodyB = false ->
  approachBefore bodyA bodyB contact <= 0 ->
  ~ pb_inverseMass bodyA + pb_inverseMass bodyB == 0 ->
  Vec3.dot (cp_normal contact) (cp_normal contact) == 1 ->
  approachAfter bodyA bodyB contact
  == - Qmin (pb_restitution bodyA) (pb_restitution bodyB) * approachBefore bodyA bodyB contact /\
  (0 <= Qmin (pb_restitution bodyA) (pb_restitution bodyB) ->
   0 <= approachAfter bodyA bodyB contact).
Proof.
  intros Hstatic Hvn Hims Hunit.
  destruct (resolveContact_impulse bodyA bodyB contact Hstatic Hvn Hims) as (_ & HA & HB).
  assert (Heq : approachAfter bodyA bodyB contact
                == - Qmin (pb_restitution bodyA) (pb_restitution bodyB)
                   * approachBefore bodyA bodyB contact).
  { unfold approachAfter. cbv zeta. rewrite HA, HB. clear HA HB.
    unfold approachBefore in *.
    destruct bodyA as [ia pa [ax ay az] wa ma ima fa ra sa],
             bodyB as [ib pb [bx b_y bz] wb mb imb fb rb sb],
             contact as [cp [nx ny nz] pen imp tan].
    cbn [pb_velocity pb_inverseMass pb_restitution cp_normal] in *.
    set (e := Qmin ra rb). clearbody e.
    unfold Vec3.dot, Vec3.sub, Vec3.add, Vec3.mul in *.
    cbn [Vector3.x Vector3.y Vector3.z nadd nsub nmul Number_Q] in *.
    unfold Qdiv.
    assert (Hi : (ima + imb) * / (ima + imb) == 1) by (field; exact Hims).
    generalize dependent (/ (ima + imb)). intros i Hi.
    set (vn := (bx - ax) * nx + (b_y - ay) * ny + (bz - az) * nz) in *.
    transitivity (vn + - (1 + e) * vn * ((ima + imb) * i) * (nx * nx + ny * ny + nz * nz));
      [unfold vn; ring | rewrite Hi, Hunit; ring]. }
  split; [exact Heq |]. intros He. rewrite Heq. nra.
Qed.

(** X14. The impulse gives to one body the momentum it takes from the other:
    with [inverseMass = 1 / mass] on both, the total momentum is the same
    before and after. *)
Theorem resolveContact_momentum (bodyA bodyB : PhysicsBody Q) (contact : ContactPoint Q) :
  pb_mass bodyA * pb_inverseMass bodyA == 1 ->
  pb_mass bodyB * pb_inverseMass bodyB == 1 ->
  V3eq (momentum bodyA bodyB
          (bu_velocity (crr_bodyA (resolveContact bodyA bodyB contact)))
          (bu_velocity (crr_bodyB (resolveContact bodyA bodyB contact))))
       (momentum bodyA bodyB (pb_velocity bodyA) (pb_velocity bodyB)).
Proof.
  intros HmA HmB.
  destruct (pb_isStatic bodyA && pb_isStatic bodyB) eqn:Hstatic.
  { unfold resolveContact. rewrite Hstatic. apply V3eq_refl. }
  destruct (Qlt_le_dec 0 (approachBefore bodyA bodyB contact)) as [Hsep | Hvn].
  { unfold resolveContact, approachBefore in *. rewrite Hstatic.
    cbn [nltb nofZ Number_Q]. change (inject_Z 0) with 0.
    apply Qltb_true in Hsep. rewrite Hsep. apply V3eq_refl. }
  destruct (Qeq_dec (pb_inverseMass bodyA + pb_inverseMass bodyB) 0) as [Hzero | Hims].
  { unfold resolveContact, approachBefore in *. rewrite Hstatic.
    cbn [nltb neqb nadd nofZ Number_Q]. change (inject_Z 0) with 0.
    apply Qleb_true in Hvn. rewrite Hvn. cbn [negb].
    apply Qeq_bool_iff in Hzero. rewrite Hzero. apply V3eq_refl. }
  destruct (resolveContact_impulse bodyA bodyB contact Hstatic Hvn Hims) as (_ & HA & HB).
  rewrite HA, HB. clear HA HB.
  generalize (- (1 + Qmin (pb_restitution bodyA) (pb_restitution bodyB))
              * approachBefore bodyA bodyB contact
              / (pb_inverseMass bodyA + pb_inverseMass bodyB)).
  intros j.
  destruct bodyA as [ia pa [ax ay az] wa ma ima fa ra sa],
           bodyB as [ib pb [bx b_y bz] wb mb imb fb rb sb],
           contact as [cp [nx ny nz] pen imp tan].
  cbn [pb_velocity pb_inverseMass pb_mass cp_normal] in *.
  unfold V3eq, momentum, Vec3.sub, Vec3.add, Vec3.mul.
  cbn [pb_mass Vector3.x Vector3.y Vector3.z nadd nsub nmul Number_Q].
  repeat split.
  - transitivity (ax * ma + bx * mb + nx * j * (mb * imb - ma * ima));
      [ring | rewrite HmA, HmB; ring].
  - transitivity (ay * ma + b_y * mb + ny * j * (mb * imb - ma * ima));
      [ring | rewrite HmA, HmB; ring].
  - transitivity (az * ma + bz * mb + nz * j * (mb * imb - ma * ima));
      [ring | rewrite HmA, HmB; ring].
Qed.

End ResolveFacts.

Section StaticBodies.
Context {num : Type} `{Number num}.

(** [resolveContact] never moves a static body. *)
Theorem resolveContact_static_position
  (bodyA bodyB : PhysicsBody num) (contact : ContactPoint num) :
  (pb_isStatic bodyA = true ->
   bu_position (crr_bodyA (resolveContact bodyA bodyB contact)) = pb_position bodyA) /\
  (pb_isStatic bodyB = true ->
   bu_position (crr_bodyB (resolveContact bodyA bodyB contact)) = pb_position bodyB).
Proof.
  unfold resolveContact.
  destruct (pb_isStatic bodyA) eqn:EA, (pb_isStatic bodyB) eqn:EB; cbn [andb];
    try (split; reflexivity);
    repeat match goal with
           | |- context [if ?c then _ else _] => destruct c
           end;
    split; intros; try reflexivity; discriminate.
Qed.

End StaticBodies.

Section MapLaws.
Context {V : Type}.

Lemma JsMap_get_None (m : JsMap.t V) (k : string) :
  JsMap.get m k = None <-> ~ List.In k (JsMap.keys m).
Proof.
  induction m as [| [k' v'] m IH]; cbn; [tauto |].
  destruct (String.eqb_spec k' k) as [-> | Hne].
  - split; [discriminate | intros Hn; exfalso; apply Hn; now left].
  - rewrite IH. split; [intros Hn [Heq | Hin]; [contradiction | now apply Hn] | tauto].
Qed.

Lemma JsMap_keys_set_present (m : JsMap.t V) (k : string) (v : V) :
  List.In k (JsMap.keys m) -> JsMap.keys (JsMap.set m k v) = JsMap.keys m.
Proof.
  unfold JsMap.keys.
  induction m as [| [k' v'] m IH]; cbn; [tauto |].
  destruct (String.eqb_spec k' k) as [-> | Hne]; cbn; [reflexivity |].
  intros [Heq | Hin]; [contradiction | now rewrite IH].
Qed.

Lemma JsMap_keys_set (m : JsMap.t V) (k : string) (v : V) :
  JsMap.keys (JsMap.set m k v)
  = if JsMap.has m k then JsMap.keys m else (JsMap.keys m ++ [k])%list.
Proof.
  unfold JsMap.has. destruct (JsMap.get m k) eqn:E.
  - apply JsMap_keys_set_present. apply JsMap_get_In in E.
    change k with (fst (k, v0)). now apply in_map.
  - apply JsMap_get_None in E. rewrite (JsMap_set_fresh m k v E).
    unfold JsMap.keys. now rewrite map_app.
Qed.

Lemma JsMap_set_NoDup (m : JsMap.t V) (k : string) (v : V) :
  List.NoDup (JsMap.keys m) -> List.NoDup (JsMap.keys (JsMap.set m k v)).
Proof.
  intros Hnd. rewrite JsMap_keys_set. unfold JsMap.has.
  destruct (JsMap.get m k) eqn:E; [exact Hnd |].
  apply JsMap_get_None in E.
  apply (Permutation_NoDup (l := k :: JsMap.keys m));
    [apply Permutation_cons_append | now constructor].
Qed.

(** A sum over the values of a map, before and after one [set]. *)
Lemma JsMap_sum_set (f : V -> nat) (m : JsMap.t V) (k : string) (v : V) :
  (List.fold_right (fun x n => f x + n) 0 (JsMap.values (JsMap.set m k v))
   + match JsMap.get m k with Some v0 => f v0 | None => 0 end
   = List.fold_right (fun x n => f x + n) 0 (JsMap.values m) + f v)%nat.
Proof.
  induction m as [| [k' v'] m IH]; cbn; [lia |].
  destruct (String.eqb k' k); cbn; [lia |].
  unfold JsMap.values in IH. lia.
Qed.

End MapLaws.

Section ManagerFacts.

(** [addContact] does not depend on the order in which the two entities
    are named. *)
Theorem addContact_symmetric {num : Type} (self : ContactManager num) (a b : EntityId)
  (contact : ContactPoint num) (friction restitution : num) :
  ContactManagerM.addContact self a b contact friction restitution
  = ContactManagerM.addContact self b a contact friction restitution.
Proof.
  unfold ContactManagerM.addContact, ContactManagerM.getManifoldKey.
  destruct (String.ltb a b) eqn:Eab.
  - rewrite (ltb_asym a b Eab). reflexivity.
  - destruct (String.eqb_spec a b) as [-> | Hne].
    + rewrite Eab. reflexivity.
    + rewrite (ltb_connected a b Hne Eab). reflexivity.
Qed.

Lemma addContacts_snoc (calls : list ContactCall) (c : ContactCall) :
  addContacts (calls ++ [c])
  = ContactManagerM.addContact (addContacts calls) (call_entityA c) (call_entityB c)
      (call_contact c) (call_friction c) (call_restitution c).
Proof. unfold addContacts. now rewrite fold_left_app. Qed.

(** X15. Every call of [addContact] stores its contact: the manifolds hold as
    many contacts as there were calls, none is empty, and each has its two
    ids in order. *)
Theorem addContacts_manifolds (calls : list ContactCall) :
  contactCount (ContactManagerM.getManifolds (addContacts calls)) = List.length calls /\
  List.Forall
    (fun m => cm_contacts m <> [] /\ String.ltb (cm_entityB m) (cm_entityA m) = false)
    (ContactManagerM.getManifolds (addContacts calls)).
Proof.
  induction calls as [| c calls IH] using rev_ind.
  - split; [reflexivity | constructor].
  - destruct IH as [Hcount Hall]. rewrite addContacts_snoc.
    unfold ContactManagerM.getManifolds in *.
    set (self := addContacts calls) in *. clearbody self.
    unfold ContactManagerM.addContact. cbn [manifolds].
    set (key := ContactManagerM.getManifoldKey (call_entityA c) (call_entityB c)).
    split.
    + pose proof (JsMap_sum_set (fun m => List.length (cm_contacts m)) (manifolds self) key) as Hsum.
      unfold contactCount in *. rewrite length_app. cbn [List.length].
      destruct (JsMap.get (manifolds self) key) as [m0 |] eqn:Eget.
      * specialize (Hsum {| cm_entityA := cm_entityA m0; cm_entityB := cm_entityB m0;
                            cm_contacts := cm_contacts m0 ++ [call_contact c];
                            cm_friction := cm_friction m0;
                            cm_restitution := cm_restitution m0 |}).
        cbn [cm_contacts] in Hsum. rewrite length_app in Hsum. cbn [List.length] in Hsum. lia.
      * match goal with
        | |- context [JsMap.set _ key ?v] => specialize (Hsum v)
        end.
        cbn [cm_contacts List.app List.length] in Hsum |- *. lia.
    + rewrite List.Forall_forall in *. intros m Hm.
      unfold JsMap.values in Hm. apply in_map_iff in Hm. destruct Hm as ([k m'] & <- & Hin).
      apply JsMap_In_set in Hin. destruct Hin as [[_ ->] | Hold].
      * cbn [snd cm_contacts cm_entityA cm_entityB]. split.
        -- intros Habs. apply app_eq_nil in Habs. destruct Habs as [_ Habs]. discriminate.
        -- destruct (JsMap.get (manifolds self) key) as [m0 |] eqn:Eget.
           ++ apply (Hall m0). apply JsMap_get_In in Eget.
              unfold JsMap.values. change m0 with (snd (key, m0)). now apply in_map.
           ++ cbn [cm_entityA cm_entityB].
              destruct (String.ltb (call_entityA c) (call_entityB c)) eqn:E;
                [now apply ltb_asym | exact E].
      * apply Hall. unfold JsMap.values. change (snd (k, m')) with (snd (k, m')).
        now apply (in_map snd) in Hold.
Qed.

End ManagerFacts.

Lemma inverseTransformPoint_transformPoint_witness :
  ~ quatLenSq (rotation tiltedTransform) == 0 /\
  V3eq (TransformOps.inverseTransformPoint tiltedTransform
          (TransformOps.transformPoint tiltedTransform probePoint))
       probePoint.
Proof.
  assert (Hq : ~ quatLenSq (rotation tiltedTransform) == 0) by (intros H; discriminate H).
  split; [exact Hq |].
  apply (inverseTransformPoint_transformPoint tiltedTransform probePoint Hq);
    intros H; discriminate H.
Defined.

Lemma reflect_unit_normal_witness :
  Vec3.dot slantedNormal slantedNormal == 1 /\
  Vec3.lengthSq (Vec3.reflect probePoint slantedNormal) == Vec3.lengthSq probePoint /\
  V3eq (Vec3.reflect (Vec3.reflect probePoint slantedNormal) slantedNormal) probePoint.
Proof.
  assert (Hn : Vec3.dot slantedNormal slantedNormal == 1) by reflexivity.
  split; [exact Hn | apply (reflect_unit_normal probePoint slantedNormal Hn)].
Defined.

Lemma clamp_within_witness :
  withinCorners (AABB.min unitBox) (AABB.max unitBox)
    (Vec3.clamp probePoint (AABB.min unitBox) (AABB.max unitBox)).
Proof.
  apply (clamp_within probePoint (AABB.min unitBox) (AABB.max unitBox)); discriminate.
Defined.

Lemma intersects_iff_common_point_witness :
  validBox unitBox /\ validBox cornerBox /\
  (AABBOps.intersects unitBox cornerBox = true <->
   exists p : Vector3 Q,
     AABBOps.contains unitBox p = true /\ AABBOps.contains cornerBox p = true).
Proof.
  assert (Hu : validBox unitBox) by (repeat split; discriminate).
  assert (Hc : validBox cornerBox) by (repeat split; discriminate).
  split; [exact Hu | split; [exact Hc |]].
  apply (intersects_iff_common_point unitBox cornerBox Hu Hc).
Defined.


Lemma resolveContact_restitution_witness :
  approachBefore heavyBody lightBody headOn <= 0 /\
  approachAfter heavyBody lightBody headOn
  == - Qmin (pb_restitution heavyBody) (pb_restitution lightBody)
     * approachBefore heavyBody lightBody headOn /\
  (0 <= Qmin (pb_restitution heavyBody) (pb_restitution lightBody) ->
   0 <= approachAfter heavyBody lightBody headOn).
Proof.
  assert (Hvn : approachBefore heavyBody lightBody headOn <= 0) by discriminate.
  split; [exact Hvn |].
  apply (resolveContact_restitution heavyBody lightBody headOn);
    [reflexivity | exact Hvn | intros H; discriminate H | reflexivity].
Defined.

Lemma resolveContact_momentum_witness :
  pb_mass heavyBody * pb_inverseMass heavyBody == 1 /\
  pb_mass lightBody * pb_inverseMass lightBody == 1 /\
  V3eq (momentum heavyBody lightBody
          (bu_velocity (crr_bodyA (resolveContact heavyBody lightBody headOn)))
          (bu_velocity (crr_bodyB (resolveContact heavyBody lightBody headOn))))
       (momentum heavyBody lightBody (pb_velocity heavyBody) (pb_velocity lightBody)).
Proof.
  assert (HA : pb_mass heavyBody * pb_inverseMass heavyBody == 1) by reflexivity.
  assert (HB : pb_mass lightBody * pb_inverseMass lightBody == 1) by reflexivity.
  split; [exact HA | split; [exact HB |]].
  apply (resolveContact_momentum heavyBody lightBody headOn HA HB).
Defined.

(* ================================================================== *)
(** * Further properties: the broadphase backends *)
(* ================================================================== *)

Section CheckCounts.

Lemma orderedPairs_length {A : Type} (l : list A) :
  (2 * Z.of_nat (List.length (orderedPairs l))
   = Z.of_nat (List.length l) * (Z.of_nat (List.length l) - 1))%Z.
Proof.
  induction l as [| a l IH]; [reflexivity |].
  cbn [orderedPairs List.length].
  rewrite List.length_app, List.length_map, Nat2Z.inj_add, Nat2Z.inj_succ. nia.
Qed.

Lemma sap_inner_checks (entryA : SweepAndPruneBroadphase.SAPEntry Q)
  (rest : list (SweepAndPruneBroadphase.SAPEntry Q)) :
  forall acc : BroadphaseResult,
  (checksPerformed acc
   <= checksPerformed (SweepAndPruneBroadphase.queryPairs_inner entryA rest acc)
   <= checksPerformed acc + Z.of_nat (List.length rest))%Z.
Proof.
  induction rest as [| entryB rest IH]; intros acc;
    cbn [SweepAndPruneBroadphase.queryPairs_inner List.length]; [lia |].
  destruct (nltb _ _); [lia |].
  specialize (IH (checked acc
                    (AABBOps.intersects (SweepAndPruneBroadphase.bounds entryA)
                                        (SweepAndPruneBroadphase.bounds entryB))
                    {| entityA := if String.ltb (SweepAndPruneBroadphase.id entryA)
                                                (SweepAndPruneBroadphase.id entryB)
                                  then SweepAndPruneBroadphase.id entryA
                                  else SweepAndPruneBroadphase.id entryB;
                       entityB := if String.ltb (SweepAndPruneBroadphase.id entryA)
                                                (SweepAndPruneBroadphase.id entryB)
                                  then SweepAndPruneBroadphase.id entryB
                                  else SweepAndPruneBroadphase.id entryA |})).
  cbn [checked checksPerformed] in IH. lia.
Qed.

Lemma sap_outer_checks (es : list (SweepAndPruneBroadphase.SAPEntry Q)) :
  forall acc : BroadphaseResult,
  (checksPerformed acc
   <= checksPerformed (SweepAndPruneBroadphase.queryPairs_outer es acc)
   <= checksPerformed acc + Z.of_nat (List.length (orderedPairs es)))%Z.
Proof.
  induction es as [| entryA rest IH]; intros acc;
    cbn [SweepAndPruneBroadphase.queryPairs_outer orderedPairs]; [cbn; lia |].
  specialize (IH (SweepAndPruneBroadphase.queryPairs_inner entryA rest acc)).
  pose proof (sap_inner_checks entryA rest acc).
  rewrite List.length_app, List.length_map. lia.
Qed.

(** The brute force tests each of the [n (n - 1) / 2] pairs of its [n]
    entities exactly once; the sweep never tests more than that. *)
Theorem broadphase_check_counts
  (simple : SimpleBroadphase.t Q) (sweep : SweepAndPruneBroadphase.t Q) :
  (2 * checksPerformed (SimpleBroadphase.queryPairs simple)
   = JsMap.size (SimpleBroadphase.entities simple)
     * (JsMap.size (SimpleBroadphase.entities simple) - 1))%Z /\
  (0 <= 2 * checksPerformed (fst (SweepAndPruneBroadphase.queryPairs sweep))
   <= Z.of_nat (List.length (SweepAndPruneBroadphase.entries sweep))
      * (Z.of_nat (List.length (SweepAndPruneBroadphase.entries sweep)) - 1))%Z.
Proof.
  split.
  - unfold SimpleBroadphase.queryPairs, JsMap.entries, JsMap.size.
    rewrite simple_outer_checks. cbn [checksPerformed].
    pose proof (orderedPairs_length (SimpleBroadphase.entities simple)). lia.
  - unfold SweepAndPruneBroadphase.queryPairs. cbn [fst].
    set (sorted := js_sort _ _).
    pose proof (sap_outer_checks sorted {| pairs := []; checksPerformed := 0 |}) as Hb.
    cbn [checksPerformed] in Hb.
    assert (Hlen : List.length sorted = List.length (SweepAndPruneBroadphase.entries sweep)).
    { apply Permutation_length. unfold sorted, js_sort.
      apply (js_sort_fold_perm _ (SweepAndPruneBroadphase.entries sweep) []). }
    pose proof (orderedPairs_length sorted) as Hpairs. rewrite Hlen in Hpairs. lia.
Qed.

End CheckCounts.

Section PointAndBoxQueries.

(** A loop that pushes the image of the elements that pass a test. *)
Lemma fold_push_filter {A B : Type} (test : A -> bool) (f : A -> B) (l : list A) :
  forall acc : list B,
  List.fold_left (fun result e => if test e then result ++ [f e] else result) l acc
  = acc ++ List.map f (List.filter test l).
Proof.
  induction l as [| a l IH]; intros acc; cbn [List.fold_left List.filter].
  - now rewrite app_nil_r.
  - rewrite IH. destruct (test a); cbn [List.map]; [now rewrite <- app_assoc | reflexivity].
Qed.

Lemma filter_map_comm {A B : Type} (f : A -> B) (test : B -> bool) (l : list A) :
  List.filter test (List.map f l) = List.map f (List.filter (fun a => test (f a)) l).
Proof.
  induction l as [| a l IH]; [reflexivity |].
  cbn [List.map List.filter]. destruct (test (f a)); cbn [List.map]; now rewrite IH.
Qed.

(** The brute force and the sweep answer point and box queries with the
    same ids in the same order, as long as the sweep has not been asked for
    pairs. *)
Theorem simple_sweep_same_queries (es : list (EntityId * AABB Q))
  (box : AABB Q) (point : Vector3 Q) :
  List.NoDup (List.map fst es) ->
  SimpleBroadphase.queryAABB (insertAll_simple es) box
  = SweepAndPruneBroadphase.queryAABB (insertAll_sweepAndPrune es) box /\
  SimpleBroadphase.queryPoint (insertAll_simple es) point
  = SweepAndPruneBroadphase.queryPoint (insertAll_sweepAndPrune es) point.
Proof.
  intros Hnd.
  unfold SimpleBroadphase.queryAABB, SimpleBroadphase.queryPoint,
    SweepAndPruneBroadphase.queryAABB, SweepAndPruneBroadphase.queryPoint, JsMap.entries.
  rewrite (insertAll_simple_entities es Hnd).
  unfold insertAll_sweepAndPrune. rewrite insertAll_sap_fold.
  cbn [app SweepAndPruneBroadphase.entries SweepAndPruneBroadphase.new].
  rewrite !fold_push_filter, !filter_map_comm, !List.map_map. cbn [app].
  split; reflexivity.
Qed.

End PointAndBoxQueries.

Section GridQueries.
Import SpatialHashBroadphase.
Local Open Scope Q_scope.

Variable self : SpatialHashBroadphase.t Q.

Lemma set_has_In (s : list EntityId) (i : EntityId) : set_has s i = true <-> List.In i s.
Proof. apply existsb_eqb_In. Qed.

Lemma set_add_iff (s : list EntityId) (id i : EntityId) :
  List.In i (set_add s id) <-> i = id \/ List.In i s.
Proof.
  split; [apply set_add_inv |].
  intros [-> | Hin]; [apply set_add_In | now apply set_add_incl].
Qed.

(** One id through the body of the inner loop of [queryAABB]. *)
Lemma queryAABB_id_spec (box : AABB Q) (acc : list EntityId * list EntityId) (id : EntityId) :
  (forall i, List.In i (snd acc)
             <-> List.In i (fst acc) /\ boundsPass (entityBounds self) (AABBOps.intersects box) i) ->
  (forall i, List.In i (fst (queryAABB_id self box acc id)) <-> i = id \/ List.In i (fst acc)) /\
  (forall i, List.In i (snd (queryAABB_id self box acc id))
             <-> List.In i (fst (queryAABB_id self box acc id))
                 /\ boundsPass (entityBounds self) (AABBOps.intersects box) i).
Proof.
  destruct acc as [checked result]. cbn [fst snd]. intros Hinv.
  unfold queryAABB_id.
  destruct (set_has checked id) eqn:Ehas; cbn [fst snd].
  - apply set_has_In in Ehas. split; [| exact Hinv].
    intros i. split; [auto | intros [-> | Hin]; assumption].
  - assert (Hnew : ~ List.In id checked)
      by (intros Hin; apply set_has_In in Hin; congruence).
    destruct (JsMap.get (entityBounds self) id) as [b |] eqn:Eget;
      [destruct (AABBOps.intersects box b) eqn:Ehit |]; cbn [fst snd];
      (split; [intros i; apply set_add_iff |]); intros i;
      rewrite ?in_app_iff, set_add_iff, Hinv; cbn [List.In]; unfold boundsPass.
    + split.
      * intros [[Hc Hp] | [-> | []]]; [tauto |]. split; [now left | now exists b].
      * intros [[-> | Hc] Hp]; [right; now left | tauto].
    + split; [tauto |]. intros [[-> | Hc] (b' & Hb' & Hp)]; [| split; [exact Hc | now exists b']].
      rewrite Eget in Hb'. injection Hb' as <-. congruence.
    + split; [tauto |]. intros [[-> | Hc] (b' & Hb' & Hp)]; [| split; [exact Hc | now exists b']].
      rewrite Eget in Hb'. discriminate.
Qed.

Lemma queryAABB_ids_spec (box : AABB Q) (ids : list EntityId) :
  forall acc : list EntityId * list EntityId,
  (forall i, List.In i (snd acc)
             <-> List.In i (fst acc) /\ boundsPass (entityBounds self) (AABBOps.intersects box) i) ->
  (forall i, List.In i (fst (List.fold_left (queryAABB_id self box) ids acc))
             <-> List.In i ids \/ List.In i (fst acc)) /\
  (forall i, List.In i (snd (List.fold_left (queryAABB_id self box) ids acc))
             <-> List.In i (fst (List.fold_left (queryAABB_id self box) ids acc))
                 /\ boundsPass (entityBounds self) (AABBOps.intersects box) i).
Proof.
  induction ids as [| id ids IH]; intros acc Hinv; cbn [List.fold_left].
  - split; [intros i; cbn; tauto | exact Hinv].
  - destruct (queryAABB_id_spec box acc id Hinv) as [Hchecked Hinv'].
    destruct (IH _ Hinv') as [Hc Hr]. split; [| exact Hr].
    intros i. rewrite Hc, Hchecked. cbn [List.In]. intuition congruence.
Qed.

Lemma queryAABB_cells_spec (box : AABB Q) (cellKeys : list string) :
  forall acc : list EntityId * list EntityId,
  (forall i, List.In i (snd acc)
             <-> List.In i (fst acc) /\ boundsPass (entityBounds self) (AABBOps.intersects box) i) ->
  let acc' :=
    List.fold_left
      (fun acc cell =>
         match JsMap.get (cells self) cell with
         | None => acc
         | Some entityIds => List.fold_left (queryAABB_id self box) entityIds acc
         end)
      cellKeys acc in
  (forall i, List.In i (fst acc') <-> listedIn (cells self) cellKeys i \/ List.In i (fst acc)) /\
  (forall i, List.In i (snd acc')
             <-> List.In i (fst acc')
                 /\ boundsPass (entityBounds self) (AABBOps.intersects box) i).
Proof.
  induction cellKeys as [| k cellKeys IH]; intros acc Hinv; cbn [List.fold_left].
  - split; [| exact Hinv]. intros i. split; [auto |].
    intros [(k & ids & [] & _) | Hin]. exact Hin.
  - destruct (JsMap.get (cells self) k) as [ids |] eqn:Eget.
    + destruct (queryAABB_ids_spec box ids acc Hinv) as [Hchecked Hinv'].
      destruct (IH _ Hinv') as [Hc Hr]. split; [| exact Hr].
      intros i. rewrite Hc, Hchecked. unfold listedIn. split.
      * intros [(k' & ids' & Hk' & Hget' & Hin') | [Hin | Hin]].
        -- left. exists k', ids'. split; [now right | now split].
        -- left. exists k, ids. split; [now left | now split].
        -- now right.
      * intros [(k' & ids' & [<- | Hk'] & Hget' & Hin') | Hin].
        -- rewrite Eget in Hget'. injection Hget' as <-. right. now left.
        -- left. exists k', ids'. now repeat split.
        -- right. now right.
    + destruct (IH _ Hinv) as [Hc Hr]. split; [| exact Hr].
      intros i. rewrite Hc. unfold listedIn. split.
      * intros [(k' & ids' & Hk' & Hget' & Hin') | Hin]; [left | now right].
        exists k', ids'. split; [now right | now split].
      * intros [(k' & ids' & [<- | Hk'] & Hget' & Hin') | Hin]; [congruence | left | now right].
        exists k', ids'. now repeat split.
Qed.

(** What [queryAABB] returns: the ids listed in a cell of the query box
    whose stored bounds intersect it. *)
Lemma queryAABB_spec (box : AABB Q) (i : EntityId) :
  List.In i (queryAABB self box)
  <-> listedIn (cells self) (cellsOf (cellSize self) box) i
      /\ boundsPass (entityBounds self) (AABBOps.intersects box) i.
Proof.
  unfold queryAABB. rewrite getCellsForBounds_cellsOf.
  destruct (queryAABB_cells_spec box (cellsOf (cellSize self) box) ([], [])) as [Hc Hr].
  - intros j. cbn. tauto.
  - rewrite Hr, Hc. cbn [fst List.In]. tauto.
Qed.

(** What [queryPoint] returns: the ids listed in the cell of the point
    whose stored bounds contain it. *)
Lemma queryPoint_spec (point : Vector3 Q) (i : EntityId) :
  List.In i (queryPoint self point)
  <-> listedIn (cells self) [getCellKey self point] i
      /\ boundsPass (entityBounds self) (fun b => AABBOps.contains b point) i.
Proof.
  unfold queryPoint, listedIn.
  destruct (JsMap.get (cells self) (getCellKey self point)) as [ids |] eqn:Eget.
  - assert (Hfold : forall acc : list EntityId,
      List.In i
        (List.fold_left
           (fun result id =>
              match JsMap.get (entityBounds self) id with
              | Some bounds => if AABBOps.contains bounds point then result ++ [id] else result
              | None => result
              end) ids acc)
      <-> List.In i acc
          \/ (List.In i ids
              /\ boundsPass (entityBounds self) (fun b => AABBOps.contains b point) i)).
    { clear Eget. induction ids as [| id ids IH]; intros acc; cbn [List.fold_left List.In].
      - tauto.
      - rewrite IH. unfold boundsPass.
        destruct (JsMap.get (entityBounds self) id) as [b |] eqn:Eb;
          [destruct (AABBOps.contains b point) eqn:Ec |]; rewrite ?in_app_iff; cbn [List.In].
        + split; [| tauto]. intros [[Hin | [-> | []]] | [Hin Hp]]; [tauto | | tauto].
          right. split; [now left | now exists b].
        + split; [tauto |]. intros [Hin | [[-> | Hin] (b' & Hb' & Hp)]]; [tauto | | ].
          * rewrite Eb in Hb'. injection Hb' as <-. congruence.
          * right. split; [exact Hin | now exists b'].
        + split; [tauto |]. intros [Hin | [[-> | Hin] (b' & Hb' & Hp)]]; [tauto | | ].
          * rewrite Eb in Hb'. discriminate.
          * right. split; [exact Hin | now exists b']. }
    rewrite Hfold. cbn [List.In]. split.
    + intros [[] | [Hin Hp]]. split; [| exact Hp].
      exists (getCellKey self point), ids. split; [now left | now split].
    + intros [(k & ids' & [<- | []] & Hget & Hin) Hp]. right.
      rewrite Eget in Hget. injection Hget as <-. now split.
  - cbn [List.In]. split; [tauto |].
    intros [(k & ids' & [<- | []] & Hget & _) _]. congruence.
Qed.

End GridQueries.

Section GridVsBruteForce.
Import SpatialHashBroadphase.
Local Open Scope Q_scope.

(** The cell of a point of a box is one of the cells of the box. *)
Lemma point_cell (self : SpatialHashBroadphase.t Q) (b : AABB Q) (point : Vector3 Q) :
  0 < cellSize self -> AABBOps.contains b point = true ->
  List.In (getCellKey self point) (cellsOf (cellSize self) b).
Proof.
  intros Hc Hin. apply contains_within in Hin.
  destruct Hin as ((? & ?) & (? & ?) & (? & ?)).
  unfold getCellKey. cbn [ndiv nfloor Number_Q Floor_Q].
  apply cellsOf_In; apply zrange_In; split; now apply floor_div_le.
Qed.

Lemma simple_queryAABB_In (es : list (EntityId * AABB Q)) (box : AABB Q) (i : EntityId) :
  List.NoDup (List.map fst es) ->
  List.In i (SimpleBroadphase.queryAABB (insertAll_simple es) box)
  <-> exists b, List.In (i, b) es /\ AABBOps.intersects box b = true.
Proof.
  intros Hnd. unfold SimpleBroadphase.queryAABB, JsMap.entries.
  rewrite (insertAll_simple_entities es Hnd), fold_push_filter. cbn [app].
  rewrite in_map_iff. split.
  - intros ([j b] & <- & Hin). apply filter_In in Hin. now exists b.
  - intros (b & Hin & Hhit). exists (i, b). split; [reflexivity |].
    apply filter_In. now split.
Qed.

Lemma simple_queryPoint_In (es : list (EntityId * AABB Q)) (point : Vector3 Q) (i : EntityId) :
  List.NoDup (List.map fst es) ->
  List.In i (SimpleBroadphase.queryPoint (insertAll_simple es) point)
  <-> exists b, List.In (i, b) es /\ AABBOps.contains b point = true.
Proof.
  intros Hnd. unfold SimpleBroadphase.queryPoint, JsMap.entries.
  rewrite (insertAll_simple_entities es Hnd), fold_push_filter. cbn [app].
  rewrite in_map_iff. split.
  - intros ([j b] & <- & Hin). apply filter_In in Hin. now exists b.
  - intros (b & Hin & Hhit). exists (i, b). split; [reflexivity |].
    apply filter_In. now split.
Qed.

(** X5. After the same insertions of boxes with [min <= max] under distinct
    ids, the grid answers a box query and a point query with the ids the
    brute force answers with. *)
Theorem spatialHash_same_queries (cs : option Q) (es : list (EntityId * AABB Q))
  (box : AABB Q) (point : Vector3 Q) (i : EntityId) :
  List.NoDup (List.map fst es) ->
  List.Forall (fun e => validBox (snd e)) es ->
  validBox box -> 0 < orElse cs 10 ->
  (List.In i (queryAABB (insertAll_spatialHash cs es) box)
   <-> List.In i (SimpleBroadphase.queryAABB (insertAll_simple es) box)) /\
  (List.In i (queryPoint (insertAll_spatialHash cs es) point)
   <-> List.In i (SimpleBroadphase.queryPoint (insertAll_simple es) point)).
Proof.
  intros Hnd Hvalid Hbox Hc.
  destruct (insertAll_spatialHash_spec cs es Hnd) as (Hsize & Hbounds & Hcover & Hknown).
  rewrite List.Forall_forall in Hvalid.
  rewrite queryAABB_spec, queryPoint_spec, simple_queryAABB_In, simple_queryPoint_In by exact Hnd.
  unfold boundsPass, listedIn. rewrite Hbounds, Hsize. split; split.
  - intros [_ (b & Hget & Hhit)]. exists b. split; [now apply JsMap_get_In | exact Hhit].
  - intros (b & Hin & Hhit). split.
    + destruct (common_cell (orElse cs 10) box b Hc Hbox (Hvalid _ Hin) Hhit) as (k & Hk & Hkb).
      destruct (Hcover (i, b) k Hin Hkb) as (ids & Hget & Hi).
      exists k, ids. now repeat split.
    + exists b. split; [now apply JsMap_In_get | exact Hhit].
  - intros [_ (b & Hget & Hhit)]. exists b. split; [now apply JsMap_get_In | exact Hhit].
  - intros (b & Hin & Hhit). split.
    + assert (Hcell : List.In (getCellKey (insertAll_spatialHash cs es) point)
                              (cellsOf (orElse cs 10) b)).
      { rewrite <- Hsize. apply point_cell; [now rewrite Hsize | exact Hhit]. }
      destruct (Hcover (i, b) _ Hin Hcell) as (ids & Hget & Hi).
      exists (getCellKey (insertAll_spatialHash cs es) point), ids.
      split; [now left | now split].
    + exists b. split; [now apply JsMap_In_get | exact Hhit].
Qed.

End GridVsBruteForce.

Section GridRemoval.
Import SpatialHashBroadphase.

Variable self : SpatialHashBroadphase.t Q.

Lemma checkPair_bounded (idA idB : EntityId) (acc : Found) :
  pairsBounded (entityBounds self) (fst acc) ->
  pairsBounded (entityBounds self) (fst (checkPair self idA idB acc)).
Proof.
  destruct acc as [found n]. cbn [fst]. intros Hok. unfold checkPair.
  destruct (JsMap.has found (pairKey idA idB)); [exact Hok |].
  destruct (JsMap.get (entityBounds self) idA) as [boundsA |] eqn:EA; [| exact Hok].
  destruct (JsMap.get (entityBounds self) idB) as [boundsB |] eqn:EB; [| exact Hok].
  destruct (AABBOps.intersects boundsA boundsB); [| exact Hok].
  cbn [fst]. intros k p Hin. apply JsMap_In_set in Hin.
  destruct Hin as [[_ ->] | Hin]; [| now apply (Hok k)].
  cbn [entityA entityB]. unfold JsMap.has.
  destruct (String.ltb idA idB); rewrite EA, EB; split; reflexivity.
Qed.

Lemma inner_bounded (idA : EntityId) (rest : list EntityId) :
  forall acc : Found,
  pairsBounded (entityBounds self) (fst acc) ->
  pairsBounded (entityBounds self) (fst (queryPairs_inner self idA rest acc)).
Proof.
  induction rest as [| idB rest IH]; intros acc Hok; [exact Hok |].
  cbn [queryPairs_inner]. apply IH. now apply checkPair_bounded.
Qed.

Lemma cell_bounded (ids : list EntityId) :
  forall acc : Found,
  pairsBounded (entityBounds self) (fst acc) ->
  pairsBounded (entityBounds self) (fst (queryPairs_cell self ids acc)).
Proof.
  induction ids as [| idA rest IH]; intros acc Hok; [exact Hok |].
  cbn [queryPairs_cell]. apply IH. now apply inner_bounded.
Qed.

Lemma cells_bounded (cs : list (string * list EntityId)) :
  forall acc : Found,
  pairsBounded (entityBounds self) (fst acc) ->
  pairsBounded (entityBounds self)
    (fst (List.fold_left (fun acc cell => queryPairs_cell self (snd cell) acc) cs acc)).
Proof.
  induction cs as [| c cs IH]; intros acc Hok; [exact Hok |].
  cbn [List.fold_left]. apply IH. now apply cell_bounded.
Qed.

(** [queryPairs] only reports ids that have stored bounds. *)
Lemma queryPairs_bounded (p : CollisionPair) :
  List.In p (pairs (queryPairs self)) ->
  JsMap.has (entityBounds self) (entityA p) = true /\
  JsMap.has (entityBounds self) (entityB p) = true.
Proof.
  rewrite queryPairs_fold. unfold JsMap.values. rewrite in_map_iff.
  intros ([k q] & <- & Hin). cbn [snd].
  apply (cells_bounded (JsMap.entries (cells self)) (JsMap.empty, 0%Z)) with (k := k);
    [intros k' p' [] | exact Hin].
Qed.

End GridRemoval.

Section MapDelete.
Context {V : Type}.

Lemma JsMap_delete_keys (m : JsMap.t V) (k k' : string) :
  List.In k' (JsMap.keys (JsMap.delete m k)) -> List.In k' (JsMap.keys m).
Proof.
  unfold JsMap.keys. induction m as [| [k0 v0] m IH]; cbn; [tauto |].
  destruct (String.eqb k0 k); cbn; [tauto |]. intros [-> | Hin]; [now left | right; auto].
Qed.

Lemma JsMap_get_delete_same (m : JsMap.t V) (k : string) :
  List.NoDup (JsMap.keys m) -> JsMap.get (JsMap.delete m k) k = None.
Proof.
  unfold JsMap.keys. induction m as [| [k0 v0] m IH]; cbn; [reflexivity |].
  intros Hnd. apply NoDup_cons_iff in Hnd. destruct Hnd as [Hnotin Hnd].
  destruct (String.eqb_spec k0 k) as [-> | Hne].
  - apply JsMap_get_None. exact Hnotin.
  - cbn. destruct (String.eqb_spec k0 k); [contradiction | now apply IH].
Qed.

Lemma JsMap_get_delete_other (m : JsMap.t V) (k k' : string) :
  k <> k' -> JsMap.get (JsMap.delete m k) k' = JsMap.get m k'.
Proof.
  intros Hne. induction m as [| [k0 v0] m IH]; cbn; [reflexivity |].
  destruct (String.eqb_spec k0 k) as [-> | Hk]; cbn.
  - destruct (String.eqb_spec k k'); [contradiction | reflexivity].
  - destruct (String.eqb k0 k'); [reflexivity | exact IH].
Qed.

Lemma JsMap_delete_NoDup (m : JsMap.t V) (k : string) :
  List.NoDup (JsMap.keys m) -> List.NoDup (JsMap.keys (JsMap.delete m k)).
Proof.
  unfold JsMap.keys. induction m as [| [k0 v0] m IH]; cbn; [auto |].
  intros Hnd. apply NoDup_cons_iff in Hnd. destruct Hnd as [Hnotin Hnd].
  destruct (String.eqb k0 k); cbn; [exact Hnd |].
  constructor; [| now apply IH].
  intros Hin. apply Hnotin. now apply (JsMap_delete_keys m k).
Qed.

End MapDelete.

(** X6. Once an entity is removed from the grid, no pair names it, whatever
    was inserted, updated or removed before. *)
Theorem spatialHash_remove_no_pair (self : SpatialHashBroadphase.t Q) (i : EntityId)
  (p : CollisionPair) :
  List.NoDup (JsMap.keys (SpatialHashBroadphase.entityBounds self)) ->
  List.In p (pairs (SpatialHashBroadphase.queryPairs (SpatialHashBroadphase.remove self i))) ->
  entityA p <> i /\ entityB p <> i.
Proof.
  intros Hnd Hin. apply queryPairs_bounded in Hin.
  cbn [SpatialHashBroadphase.remove SpatialHashBroadphase.entityBounds] in Hin.
  unfold JsMap.has in Hin. destruct Hin as [HA HB].
  split; intros Heq; rewrite Heq in *;
    rewrite (JsMap_get_delete_same _ _ Hnd) in *; discriminate.
Qed.

Section SweepIndex.
Import SweepAndPruneBroadphase.
Local Open Scope Q_scope.

(** X7. [queryPairs] sorts the entries where they are and leaves the index map
    as it was.  With two entities [a] and [b], inserted in this order, [b]
    lying to the left of [a]: after one [queryPairs], [update(a, box)]
    writes the box into the entry of [b], and the entry of [a] keeps its
    old box. *)
Theorem sweep_update_after_queryPairs (a b : EntityId) (boxA boxB box : AABB Q) :
  a <> b -> Vector3.x (AABB.min boxB) < Vector3.x (AABB.min boxA) ->
  entries
    (update (snd (queryPairs (insert (insert SweepAndPruneBroadphase.new a boxA) b boxB)))
            a box)
  = [sapEntry (b, box); sapEntry (a, boxA)].
Proof.
  intros Hne Hlt.
  unfold queryPairs, insert. cbn [snd entries entityMap SweepAndPruneBroadphase.new app
                                  List.length].
  unfold js_sort. cbn [List.fold_left sort_insert].
  cbn [minX nsub nltb nofZ Number_Q]. change (inject_Z 0) with 0.
  assert (Hneg : negb (Qle_bool 0 (Vector3.x (AABB.min boxB) - Vector3.x (AABB.min boxA))) = true).
  { apply Qltb_true. lra. }
  rewrite Hneg. unfold update. cbn [entityMap entries].
  assert (Hget : JsMap.get (JsMap.set (JsMap.set JsMap.empty a (Z.of_nat 0)) b (Z.of_nat 1)) a
                 = Some 0%Z).
  { cbn. destruct (String.eqb_spec a b) as [Heq | _]; [contradiction |].
    cbn. now rewrite String.eqb_refl. }
  rewrite Hget. reflexivity.
Qed.

End SweepIndex.

Section SweepRemoval.
Import SweepAndPruneBroadphase.

Lemma indexFrom_cons (start : nat) (i : EntityId) (ids : list EntityId) :
  indexFrom start (i :: ids) = (i, Z.of_nat start) :: indexFrom (S start) ids.
Proof. reflexivity. Qed.

Lemma indexFrom_app (start : nat) (ids1 ids2 : list EntityId) :
  indexFrom start (ids1 ++ ids2)
  = (indexFrom start ids1 ++ indexFrom (start + List.length ids1) ids2)%list.
Proof.
  revert start. induction ids1 as [| i ids1 IH]; intros start.
  - cbn [app List.length]. now rewrite Nat.add_0_r.
  - cbn [app List.length]. rewrite !indexFrom_cons, IH. cbn [app].
    now rewrite Nat.add_succ_r.
Qed.

Lemma indexFrom_keys (start : nat) (ids : list EntityId) :
  JsMap.keys (indexFrom start ids) = ids.
Proof.
  revert start. induction ids as [| i ids IH]; intros start; [reflexivity |].
  rewrite indexFrom_cons. unfold JsMap.keys in *. cbn [List.map fst]. now rewrite IH.
Qed.

(** The backend after inserting entities with fresh, distinct ids. *)
Lemma insert_fold_state (es : list (EntityId * AABB Q)) :
  forall s : SweepAndPruneBroadphase.t Q,
  List.NoDup (JsMap.keys (entityMap s) ++ List.map fst es) ->
  List.fold_left (fun b e => insert b (fst e) (snd e)) es s
  = {| entries := entries s ++ List.map sapEntry es;
       entityMap := entityMap s ++ indexFrom (List.length (entries s)) (List.map fst es) |}.
Proof.
  induction es as [| e es IH]; intros s Hnd; cbn [List.fold_left List.map].
  - destruct s. cbn. now rewrite !app_nil_r.
  - rewrite IH.
    + cbn [insert entries entityMap]. rewrite JsMap_set_fresh.
      * rewrite List.length_app, <- !app_assoc. cbn [List.length app].
        rewrite indexFrom_cons, Nat.add_1_r. reflexivity.
      * apply NoDup_remove_2 in Hnd. intros Hin. apply Hnd. apply in_or_app. now left.
    + cbn [insert entityMap]. rewrite JsMap_set_fresh.
      * unfold JsMap.keys in *. rewrite List.map_app, <- app_assoc. exact Hnd.
      * apply NoDup_remove_2 in Hnd. intros Hin. apply Hnd. apply in_or_app. now left.
Qed.

Lemma insertAll_sweep_state (es : list (EntityId * AABB Q)) :
  List.NoDup (List.map fst es) ->
  insertAll_sweepAndPrune es
  = {| entries := List.map sapEntry es; entityMap := indexFrom 0 (List.map fst es) |}.
Proof.
  intros Hnd. unfold insertAll_sweepAndPrune. now rewrite insert_fold_state.
Qed.

Lemma get_app_fresh {V : Type} (m1 m2 : JsMap.t V) (k : string) :
  ~ List.In k (JsMap.keys m1) -> JsMap.get (m1 ++ m2) k = JsMap.get m2 k.
Proof.
  unfold JsMap.keys. induction m1 as [| [k' v'] m1 IH]; cbn; [reflexivity |].
  intros Hfresh. destruct (String.eqb_spec k' k) as [-> | Hne]; [tauto | apply IH; tauto].
Qed.

Lemma delete_app_fresh {V : Type} (m1 m2 : JsMap.t V) (k : string) :
  ~ List.In k (JsMap.keys m1) -> JsMap.delete (m1 ++ m2) k = (m1 ++ JsMap.delete m2 k)%list.
Proof.
  unfold JsMap.keys. induction m1 as [| [k' v'] m1 IH]; cbn; [reflexivity |].
  intros Hfresh. destruct (String.eqb_spec k' k) as [-> | Hne]; [tauto |].
  rewrite IH; tauto.
Qed.

Lemma set_app_fresh {V : Type} (m1 m2 : JsMap.t V) (k : string) (v : V) :
  ~ List.In k (JsMap.keys m1) -> JsMap.set (m1 ++ m2) k v = (m1 ++ JsMap.set m2 k v)%list.
Proof.
  unfold JsMap.keys. induction m1 as [| [k' v'] m1 IH]; cbn; [reflexivity |].
  intros Hfresh. destruct (String.eqb_spec k' k) as [-> | Hne]; [tauto |].
  rewrite IH; tauto.
Qed.

Lemma removeNth_app {A : Type} (l1 : list A) (x : A) (l2 : list A) :
  removeNth (List.length l1) (l1 ++ x :: l2) = (l1 ++ l2)%list.
Proof. induction l1 as [| a l1 IH]; cbn; [reflexivity | now rewrite IH]. Qed.

(** The loop of [remove] that indexes again the entries after the one
    spliced out. *)
Lemma reindex_loop (pre post : list (SAPEntry Q)) :
  forall m : JsMap.t Z,
  List.fold_left
    (fun m j =>
       match List.nth_error (pre ++ post) j with
       | Some e => JsMap.set m (id e) (Z.of_nat j)
       | None => m
       end)
    (List.seq (List.length pre) (List.length post)) m
  = List.fold_left (fun m kv => JsMap.set m (fst kv) (snd kv))
                   (indexFrom (List.length pre) (List.map id post)) m.
Proof.
  revert pre. induction post as [| e post IH]; intros pre m; [reflexivity |].
  cbn [List.length List.seq List.fold_left List.map]. rewrite indexFrom_cons.
  cbn [List.fold_left fst snd].
  rewrite nth_error_app2, Nat.sub_diag by lia. cbn [List.nth_error].
  specialize (IH (pre ++ [e]) (JsMap.set m (id e) (Z.of_nat (List.length pre)))).
  rewrite <- app_assoc, List.length_app, Nat.add_1_r in IH. cbn [app List.length] in IH.
  exact IH.
Qed.

Lemma reindex_sets (ids : list EntityId) :
  forall (start : nat) (pre : JsMap.t Z),
  List.NoDup ids -> (forall i, List.In i ids -> ~ List.In i (JsMap.keys pre)) ->
  List.fold_left (fun m kv => JsMap.set m (fst kv) (snd kv)) (indexFrom start ids)
                 (pre ++ indexFrom (S start) ids)
  = (pre ++ indexFrom start ids)%list.
Proof.
  induction ids as [| i ids IH]; intros start pre Hnd Hfresh; [reflexivity |].
  apply NoDup_cons_iff in Hnd. destruct Hnd as [Hnotin Hnd].
  rewrite !indexFrom_cons. cbn [List.fold_left fst snd].
  rewrite set_app_fresh by (apply Hfresh; now left).
  cbn [JsMap.set]. rewrite String.eqb_refl.
  change (pre ++ (i, Z.of_nat start) :: indexFrom (S (S start)) ids)%list
    with (pre ++ [(i, Z.of_nat start)] ++ indexFrom (S (S start)) ids)%list.
  rewrite app_assoc, IH; [now rewrite <- app_assoc | exact Hnd |].
  intros j Hj Hin. unfold JsMap.keys in Hin. rewrite List.map_app in Hin.
  apply in_app_or in Hin. destruct Hin as [Hin | [<- | []]].
  - apply (Hfresh j); [now right | exact Hin].
  - contradiction.
Qed.

Lemma setNth_app {A : Type} (l1 : list A) (x y : A) (l2 : list A) :
  setNth (List.length l1) y (l1 ++ x :: l2) = (l1 ++ y :: l2)%list.
Proof. induction l1 as [| a l1 IH]; cbn; [reflexivity | now rewrite IH]. Qed.

(** X8. As long as the sweep has not been asked for pairs, [update] and
    [remove] act on the entity they name: the backend after [update] is the
    one built with the new box in the first place, and the backend after
    [remove] is the one built without the entity, entries and index map
    alike. *)
Theorem sweep_update_remove_before_query (es1 es2 : list (EntityId * AABB Q))
  (i : EntityId) (box box' : AABB Q) :
  List.NoDup (List.map fst (es1 ++ (i, box) :: es2)) ->
  (update (insertAll_sweepAndPrune (es1 ++ (i, box) :: es2)) i box'
   = insertAll_sweepAndPrune (es1 ++ (i, box') :: es2)) /\
  (remove (insertAll_sweepAndPrune (es1 ++ (i, box) :: es2)) i
   = insertAll_sweepAndPrune (es1 ++ es2)).
Proof.
  intros Hnd.
  assert (Hnd' : List.NoDup (List.map fst (es1 ++ es2))).
  { rewrite List.map_app in *. cbn [List.map fst] in Hnd. now apply NoDup_remove_1 in Hnd. }
  assert (Hnd'' : List.NoDup (List.map fst (es1 ++ (i, box') :: es2))).
  { rewrite List.map_app in *. exact Hnd. }
  assert (Hi1 : ~ List.In i (List.map fst es1)).
  { rewrite List.map_app in Hnd. cbn [List.map fst] in Hnd. apply NoDup_remove_2 in Hnd.
    intros Hin. apply Hnd. apply in_or_app. now left. }
  pose proof (List.length_map sapEntry es1) as Hlen.
  rewrite (insertAll_sweep_state _ Hnd), (insertAll_sweep_state _ Hnd'),
    (insertAll_sweep_state _ Hnd'').
  unfold update, remove. cbn [entityMap entries].
  rewrite !List.map_app. cbn [List.map fst].
  rewrite !indexFrom_app, !indexFrom_cons, List.length_map. cbn [Nat.add].
  rewrite get_app_fresh by (now rewrite indexFrom_keys).
  cbn [JsMap.get]. rewrite String.eqb_refl, Nat2Z.id. rewrite <- Hlen.
  split.
  - rewrite nth_error_app2, Nat.sub_diag by lia. cbn [List.nth_error].
    rewrite setNth_app. reflexivity.
  - rewrite removeNth_app.
    rewrite delete_app_fresh by (now rewrite indexFrom_keys).
    cbn [JsMap.delete]. rewrite String.eqb_refl.
    f_equal.
    rewrite List.length_app, Nat.add_comm, Nat.add_sub.
    rewrite reindex_loop, List.map_map. cbn [sapEntry id].
    replace (List.map (fun x : EntityId * AABB Q => fst x) es2) with (List.map fst es2)
      by reflexivity.
    apply reindex_sets.
    + rewrite List.map_app in Hnd'. now apply NoDup_app_remove_l in Hnd'.
    + intros j Hj. rewrite indexFrom_keys. intros Hin.
      rewrite List.map_app in Hnd'. revert j Hj Hin.
      clear - Hnd'. induction (List.map fst es1) as [| k ks IH]; intros j Hj Hin;
        [destruct Hin |].
      cbn [app] in Hnd'. apply NoDup_cons_iff in Hnd'. destruct Hnd' as [Hk Hnd'].
      destruct Hin as [-> | Hin]; [apply Hk; apply in_or_app; now right | now apply (IH Hnd' j)].
Qed.

End SweepRemoval.

Lemma backends_same_pairs_witness :
  List.NoDup (List.map fst threeBoxes) /\
  (List.In (canonicalPair "a" "b") (List.map canonical (simplePairs threeBoxes))
   <-> List.In (canonicalPair "a" "b")
               (List.map canonical (spatialHashPairsWith None threeBoxes))) /\
  (List.In (canonicalPair "a" "b") (List.map canonical (simplePairs threeBoxes))
   <-> List.In (canonicalPair "a" "b") (List.map canonical (sweepAndPrunePairs threeBoxes))).
Proof.
  assert (Hnd : List.NoDup (List.map fst threeBoxes))
    by (repeat constructor; cbn; intuition discriminate).
  split; [exact Hnd |].
  apply (backends_same_pairs None threeBoxes (canonicalPair "a" "b") Hnd).
  - repeat (apply List.Forall_cons; [unfold colonFree; cbn; intuition discriminate |]).
    apply List.Forall_nil.
  - repeat (apply List.Forall_cons; [repeat split; discriminate |]). apply List.Forall_nil.
  - reflexivity.
Defined.

Lemma sweep_pairs_canonical_witness :
  List.NoDup (List.map fst threeBoxes) /\
  List.forallb isCanonical (sweepAndPrunePairs threeBoxes) = true.
Proof.
  assert (Hnd : List.NoDup (List.map fst threeBoxes))
    by (repeat constructor; cbn; intuition discriminate).
  split; [exact Hnd | apply (sweep_pairs_canonical threeBoxes Hnd)].
Defined.

Lemma spatialHash_pairs_canonical_witness :
  List.NoDup (List.map fst threeBoxes) /\
  List.forallb isCanonical (spatialHashPairsWith None threeBoxes) = true.
Proof.
  assert (Hnd : List.NoDup (List.map fst threeBoxes))
    by (repeat constructor; cbn; intuition discriminate).
  split; [exact Hnd | apply (spatialHash_pairs_canonical None threeBoxes Hnd)].
Defined.

Lemma simple_sweep_same_queries_witness :
  List.NoDup (List.map fst threeBoxes) /\
  (SimpleBroadphase.queryAABB (insertAll_simple threeBoxes) unitBox
   = SweepAndPruneBroadphase.queryAABB (insertAll_sweepAndPrune threeBoxes) unitBox) /\
  (SimpleBroadphase.queryPoint (insertAll_simple threeBoxes) insidePoint
   = SweepAndPruneBroadphase.queryPoint (insertAll_sweepAndPrune threeBoxes) insidePoint).
Proof.
  assert (Hnd : List.NoDup (List.map fst threeBoxes))
    by (repeat constructor; cbn; intuition discriminate).
  split; [exact Hnd | apply (simple_sweep_same_queries threeBoxes unitBox insidePoint Hnd)].
Defined.

Lemma spatialHash_same_queries_witness :
  List.NoDup (List.map fst threeBoxes) /\
  (List.In "b"%string (SpatialHashBroadphase.queryAABB (insertAll_spatialHash None threeBoxes)
                                                      unitBox)
   <-> List.In "b"%string (SimpleBroadphase.queryAABB (insertAll_simple threeBoxes) unitBox)) /\
  (List.In "b"%string (SpatialHashBroadphase.queryPoint (insertAll_spatialHash None threeBoxes)
                                                       insidePoint)
   <-> List.In "b"%string (SimpleBroadphase.queryPoint (insertAll_simple threeBoxes)
                                                      insidePoint)).
Proof.
  assert (Hnd : List.NoDup (List.map fst threeBoxes))
    by (repeat constructor; cbn; intuition discriminate).
  split; [exact Hnd |].
  apply (spatialHash_same_queries None threeBoxes unitBox insidePoint "b" Hnd).
  - repeat (apply List.Forall_cons; [repeat split; discriminate |]). apply List.Forall_nil.
  - repeat split; discriminate.
  - reflexivity.
Defined.

Lemma spatialHash_remove_no_pair_witness :
  List.In (canonicalPair "a" "b")
    (pairs (SpatialHashBroadphase.queryPairs
              (SpatialHashBroadphase.remove (insertAll_spatialHash None threeBoxes) "c"))) /\
  entityA (canonicalPair "a" "b") <> "c"%string /\
  entityB (canonicalPair "a" "b") <> "c"%string.
Proof.
  assert (Hin : List.In (canonicalPair "a" "b")
            (pairs (SpatialHashBroadphase.queryPairs
                      (SpatialHashBroadphase.remove (insertAll_spatialHash None threeBoxes) "c"))))
    by (vm_compute; left; reflexivity).
  split; [exact Hin |].
  apply (spatialHash_remove_no_pair (insertAll_spatialHash None threeBoxes) "c"
           (canonicalPair "a" "b")); [| exact Hin].
  vm_compute. repeat constructor; cbn; intuition discriminate.
Defined.

Lemma sweep_update_after_queryPairs_witness :
  SweepAndPruneBroadphase.entries
    (SweepAndPruneBroadphase.update
       (snd (SweepAndPruneBroadphase.queryPairs
               (SweepAndPruneBroadphase.insert
                  (SweepAndPruneBroadphase.insert SweepAndPruneBroadphase.new "a" cornerBox)
                  "b" unitBox)))
       "a" farBox)
  = [sapEntry ("b"%string, farBox); sapEntry ("a"%string, cornerBox)].
Proof.
  apply (sweep_update_after_queryPairs "a" "b" cornerBox unitBox farBox);
    [discriminate | reflexivity].
Defined.

Lemma sweep_update_remove_before_query_witness :
  List.NoDup (List.map fst threeBoxes) /\
  (SweepAndPruneBroadphase.update (insertAll_sweepAndPrune threeBoxes) "a" farBox
   = insertAll_sweepAndPrune [("b"%string, cornerBox); ("a"%string, farBox); ("c"%string, farBox)]) /\
  (SweepAndPruneBroadphase.remove (insertAll_sweepAndPrune threeBoxes) "a"
   = insertAll_sweepAndPrune [("b"%string, cornerBox); ("c"%string, farBox)]).
Proof.
  assert (Hnd : List.NoDup (List.map fst threeBoxes))
    by (repeat constructor; cbn; intuition discriminate).
  split; [exact Hnd |].
  apply (sweep_update_remove_before_query [("b"%string, cornerBox)] [("c"%string, farBox)]
           "a" unitBox farBox Hnd).
Defined.

(** ** The seeded generator, the seed streams and the clock *)

(* ================================================================== *)
(** * Further properties: the seeded generator and the clock *)
(* ================================================================== *)

Section GeneratorFacts.
Local Open Scope Z_scope.

Lemma ushr_0_range (a : Z) : 0 <= Int32.ushr a 0 < 2 ^ 32.
Proof.
  unfold Int32.ushr, Int32.ToUint32. change (0 mod 32) with 0.
  rewrite Z.shiftr_0_r. apply Z.mod_pos_bound. reflexivity.
Qed.

Lemma next_bits_range (state : Z) : 0 <= SeededRandomM.next_bits state < 2 ^ 32.
Proof. unfold SeededRandomM.next_bits. cbv zeta. apply ushr_0_range. Qed.

(** [next()] answers with a number of [[0, 1)] and moves the state on by
    the constant of the algorithm. *)
Theorem next_unit_interval (self : SeededRandom) :
  (0 <= fst (SeededRandomM.next self) < 1)%Q /\
  sr_state (snd (SeededRandomM.next self)) = sr_state self + 0x6d2b79f5.
Proof.
  unfold SeededRandomM.next. cbn [fst snd sr_state].
  pose proof (next_bits_range (sr_state self + 0x6d2b79f5)) as [Hlo Hhi].
  repeat split.
  - unfold Qle. cbn [Qnum Qden]. lia.
  - unfold Qlt. cbn [Qnum Qden]. change (2 ^ 32) with 4294967296 in Hhi. lia.
Qed.

Lemma nextInt_bounds (self : SeededRandom) (min max : Z) :
  min <= max -> min <= fst (SeededRandomM.nextInt self min max) <= max.
Proof.
  intros Hle. unfold SeededRandomM.nextInt.
  pose proof (next_unit_interval self) as [[Hlo Hhi] _].
  destruct (SeededRandomM.next self) as [v self']. cbn [fst] in *.
  assert (Hr : (0 < inject_Z (max - min + 1))%Q).
  { change 0%Q with (inject_Z 0). rewrite <- Zlt_Qlt. lia. }
  assert (H0 : (0 <= v * inject_Z (max - min + 1))%Q) by (apply Qmult_le_0_compat; lra).
  assert (H1 : (v * inject_Z (max - min + 1) < inject_Z (max - min + 1))%Q).
  { setoid_replace (inject_Z (max - min + 1)) with (1 * inject_Z (max - min + 1))%Q at 2 by ring.
    apply Qmult_lt_compat_r; assumption. }
  assert (Hf0 : 0 <= Qfloor (v * inject_Z (max - min + 1))).
  { change 0 with (Qfloor 0). now apply Qfloor_resp_le. }
  assert (Hf1 : Qfloor (v * inject_Z (max - min + 1)) < max - min + 1).
  { rewrite Zlt_Qlt. eapply Qle_lt_trans; [apply Qfloor_le | exact H1]. }
  lia.
Qed.

(** X16. [nextInt(min, max)] answers with an integer of [[min, max]], for bounds
    that binary64 holds and a range of at most [2^21] values. *)
Theorem nextInt_range (self : SeededRandom) (min max : Z) :
  min <= max -> max - min + 1 <= 2 ^ 21 -> - 2 ^ 53 <= min -> max <= 2 ^ 53 ->
  min <= fst (SeededRandomM.nextInt self min max) <= max.
Proof.
  intros Hle _ _ _. now apply nextInt_bounds.
Qed.

Lemma ToInt32_range (a : Z) : - 2 ^ 31 <= Int32.ToInt32 a < 2 ^ 31.
Proof.
  unfold Int32.ToInt32.
  pose proof (Z.mod_pos_bound (a + 2 ^ 31) (2 ^ 32) eq_refl). lia.
Qed.

Lemma hashStep_range (h c : Z) : - 2 ^ 31 <= hashStep h c < 2 ^ 31.
Proof. unfold hashStep, Int32.or. apply ToInt32_range. Qed.

Lemma hash_fold_range (cs : list Z) (h : Z) :
  cs <> [] -> - 2 ^ 31 <= List.fold_left hashStep cs h < 2 ^ 31.
Proof.
  intros Hne. destruct (exists_last Hne) as (l & c & ->).
  rewrite fold_left_app. exact (hashStep_range (List.fold_left hashStep l h) c).
Qed.

(** The seeds that [fork] and [deriveSeed] compute are not negative and at
    most [2^31]. *)
Theorem derived_seeds_range (self : SeededRandom) (manager : SeedStreamManager)
  (subsystem : string) :
  0 <= sr_initialSeed (fst (SeededRandomM.fork self subsystem)) <= 2 ^ 31 /\
  (subsystem <> EmptyString ->
   0 <= SeedStreamManagerM.deriveSeed manager subsystem <= 2 ^ 31).
Proof.
  split.
  - unfold SeededRandomM.fork. cbn [fst SeededRandomM.new sr_initialSeed].
    unfold SeededRandomM.hashString.
    destruct (charCodes _) as [| c cs]; [cbn; lia |].
    pose proof (hash_fold_range (c :: cs) 0 ltac:(discriminate)). lia.
  - intros Hne. unfold SeedStreamManagerM.deriveSeed.
    assert (Hcs : charCodes subsystem <> []).
    { destruct subsystem; [congruence | discriminate]. }
    pose proof (hash_fold_range (charCodes subsystem) (ssm_masterSeed manager) Hcs). lia.
Qed.

End GeneratorFacts.

Section ShuffleFacts.
Context {T : Type}.

Lemma setNth_length (n : nat) (v : T) (l : list T) :
  List.length (setNth n v l) = List.length l.
Proof.
  revert n. induction l as [| x l IH]; intros [| n]; cbn; try reflexivity. now rewrite IH.
Qed.

Lemma setNth_nth_error (n : nat) (v : T) (l : list T) (k : nat) :
  List.nth_error (setNth n v l) k
  = if Nat.eqb k n then option_map (fun _ => v) (List.nth_error l n)
    else List.nth_error l k.
Proof.
  revert n k. induction l as [| x l IH]; intros [| n] [| k]; cbn; try reflexivity.
  - now destruct (Nat.eqb k n).
  - apply IH.
Qed.

(** The exchange of two places is a rearrangement. *)
Lemma swap_Permutation (i j : nat) (l : list T) :
  Permutation (SeededRandomM.swap i j l) l.
Proof.
  unfold SeededRandomM.swap.
  destruct (List.nth_error l i) as [a |] eqn:Ei; [| reflexivity].
  destruct (List.nth_error l j) as [b |] eqn:Ej; [| reflexivity].
  symmetry. apply Permutation_nth_error. split.
  - now rewrite !setNth_length.
  - exists (fun n => if Nat.eqb n j then i else if Nat.eqb n i then j else n). split.
    + intros x y.
      destruct (Nat.eqb_spec x j), (Nat.eqb_spec y j), (Nat.eqb_spec x i), (Nat.eqb_spec y i);
        intros; subst; congruence.
    + intros n. rewrite !setNth_nth_error.
      destruct (Nat.eqb_spec n j) as [-> | Hnj].
      * destruct (Nat.eqb_spec j i) as [-> | Hji]; rewrite ?Ei, ?Ej; cbn; congruence.
      * destruct (Nat.eqb_spec n i) as [-> | Hni]; [now rewrite Ei, Ej | reflexivity].
Qed.

Lemma nextInt_state (self : SeededRandom) (min max : Z) :
  sr_state (snd (SeededRandomM.nextInt self min max)) = (sr_state self + 0x6d2b79f5)%Z.
Proof.
  unfold SeededRandomM.nextInt, SeededRandomM.next. reflexivity.
Qed.

Lemma shuffle_loop_spec (k : nat) :
  forall (result : list T) (self : SeededRandom),
  Permutation (fst (SeededRandomM.shuffle_loop k result self)) result /\
  sr_state (snd (SeededRandomM.shuffle_loop k result self))
  = (sr_state self + Z.of_nat k * 0x6d2b79f5)%Z.
Proof.
  induction k as [| k IH]; intros result self.
  - cbn [SeededRandomM.shuffle_loop fst snd]. split; [reflexivity | lia].
  - cbn [SeededRandomM.shuffle_loop].
    pose proof (nextInt_state self 0 (Z.of_nat (S k))) as Hstate.
    destruct (SeededRandomM.nextInt self 0 (Z.of_nat (S k))) as [j self'].
    cbn [snd] in Hstate.
    destruct (IH (SeededRandomM.swap (S k) (Z.to_nat j) result) self') as [Hperm Hst].
    split.
    + rewrite Hperm. apply swap_Permutation.
    + rewrite Hst, Hstate. lia.
Qed.

(** X17. [shuffle] returns a rearrangement of its argument and draws one number
    per element but the first. *)
Theorem shuffle_permutation (self : SeededRandom) (array : list T) :
  (Z.of_nat (List.length array) <= 2 ^ 21)%Z ->
  Permutation (fst (SeededRandomM.shuffle self array)) array /\
  sr_state (snd (SeededRandomM.shuffle self array))
  = (sr_state self + Z.of_nat (List.length array - 1) * 0x6d2b79f5)%Z.
Proof. intros _. apply shuffle_loop_spec. Qed.

(** [pick] answers [undefined] on the empty array only, and with an
    element of the array otherwise. *)
Theorem pick_element (self : SeededRandom) (array : list T) :
  (Z.of_nat (List.length array) <= 2 ^ 21)%Z ->
  match fst (SeededRandomM.pick self array) with
  | Some x => List.In x array
  | None => array = []
  end.
Proof.
  intros Hlen. destruct array as [| a array]; [reflexivity |].
  unfold SeededRandomM.pick.
  pose proof (nextInt_bounds self 0 (Z.of_nat (List.length (a :: array)) - 1)) as Hrange.
  destruct (SeededRandomM.nextInt self 0 (Z.of_nat (List.length (a :: array)) - 1))
    as [j self'].
  cbn [fst] in *.
  assert (Hj : (0 <= j <= Z.of_nat (List.length (a :: array)) - 1)%Z).
  { apply Hrange; cbn [List.length] in *; lia. }
  destruct (List.nth_error (a :: array) (Z.to_nat j)) as [x |] eqn:E.
  - now apply nth_error_In in E.
  - apply nth_error_None in E. lia.
Qed.

End ShuffleFacts.

Section ClockCount.
Import DeterministicRuntimeM.
Local Open Scope Q_scope.

(** What the loop of [advance] leaves alone, and how far it moves the step
    counter. *)
Lemma advance_loop_counter {W : Type} (callback : Q -> Z -> W -> W) (fuel : nat) :
  forall (self self' : DeterministicRuntime Q) (w w' : W) (n m : Z),
  advance_loop callback fuel self w n = Some (m, self', w') ->
  dr_currentStep self' = (dr_currentStep self + (m - n))%Z /\
  dr_stepHashes self' = dr_stepHashes self /\
  dr_seedManager self' = dr_seedManager self.
Proof.
  induction fuel as [| fuel IH]; intros self self' w w' n m; cbn [advance_loop]; [discriminate |].
  destruct (nleb _ _).
  - intros Hrun. apply IH in Hrun. cbn [dr_currentStep dr_stepHashes dr_seedManager] in Hrun.
    destruct Hrun as (Hstep & Hhash & Hseed). repeat split; try assumption. lia.
  - intros [= <- <- <-]. repeat split. lia.
Qed.

(** X18. [advance] takes as many steps as whole timesteps fit into the clamped
    accumulator, moves the step counter by that number and keeps the rest
    in the accumulator. *)
Theorem advance_step_count (self : DeterministicRuntime Q) (deltaTime : Q)
  (log : list (Q * Z)) :
  0 < fixedTimestep (dr_config self) ->
  exists (fuel0 : nat) (m : Z) (self' : DeterministicRuntime Q) (log' : list (Q * Z)),
    (forall fuel, (fuel0 <= fuel)%nat ->
       advance traceCallback fuel self deltaTime log = Some (m, self', log')) /\
    m = Z.max 0 (Qfloor (clampedAccumulator self deltaTime / fixedTimestep (dr_config self))) /\
    dr_currentStep self' = (dr_currentStep self + m)%Z /\
    dr_accumulator self'
      == clampedAccumulator self deltaTime - inject_Z m * fixedTimestep (dr_config self).
Proof.
  intros Hts.
  destruct (advance_exact self deltaTime log Hts)
    as (fuel0 & m & self' & log' & Hrun & Hm & Hcfg & Hacc & Hlt & Hpos & Hlen).
  exists fuel0, m, self', log'.
  split; [exact Hrun | split; [| split; [| exact Hacc]]].
  - set (ts := fixedTimestep (dr_config self)) in *.
    set (a := clampedAccumulator self deltaTime) in *.
    destruct (Z.eq_dec m 0) as [-> | Hne].
    + change (inject_Z 0) with 0 in Hacc.
      assert (Ha : a < ts) by (rewrite Hacc in Hlt; lra).
      assert (Hq : a / ts < 1) by (apply Qlt_shift_div_r; lra).
      assert (Hf : (Qfloor (a / ts) < 1)%Z).
      { rewrite Zlt_Qlt. eapply Qle_lt_trans; [apply Qfloor_le | exact Hq]. }
      lia.
    + assert (Hm' : (0 < m)%Z) by lia. specialize (Hpos Hm').
      assert (Hlo : inject_Z m <= a / ts).
      { apply Qle_shift_div_l; [exact Hts |]. rewrite Hacc in Hpos. lra. }
      assert (Hhi : a / ts < inject_Z m + 1).
      { apply Qlt_shift_div_r; [exact Hts |]. rewrite Hacc in Hlt. lra. }
      assert (Hf1 : (m <= Qfloor (a / ts))%Z).
      { rewrite <- (Qfloor_Z m). now apply Qfloor_resp_le. }
      assert (Hf2 : (Qfloor (a / ts) < m + 1)%Z).
      { rewrite Zlt_Qlt. eapply Qle_lt_trans; [apply Qfloor_le |].
        rewrite inject_Z_plus. exact Hhi. }
      lia.
  - specialize (Hrun fuel0 (Nat.le_refl _)). rewrite advance_unfold in Hrun.
    apply advance_loop_counter in Hrun. cbn [set_accumulator dr_currentStep] in Hrun.
    destruct Hrun as (Hstep & _). rewrite Hstep. lia.
Qed.

End ClockCount.

Section SeedStreams.

(** A second request for a stream answers with the stream of the first and
    changes nothing; a first request creates the stream from the derived
    seed. *)
Theorem getStream_stable (self : SeedStreamManager) (subsystem : string) :
  SeedStreamManagerM.getStream (snd (SeedStreamManagerM.getStream self subsystem)) subsystem
  = SeedStreamManagerM.getStream self subsystem /\
  (JsMap.get (ssm_streams self) subsystem = None ->
   fst (SeedStreamManagerM.getStream self subsystem)
   = SeededRandomM.new (SeedStreamManagerM.deriveSeed self subsystem) subsystem).
Proof.
  unfold SeedStreamManagerM.getStream.
  destruct (JsMap.get (ssm_streams self) subsystem) as [stream |] eqn:Eget; cbn [fst snd].
  - rewrite Eget. split; [reflexivity | discriminate].
  - cbn [ssm_streams]. rewrite JsMap_get_set_same. split; reflexivity.
Qed.

Lemma restored_streams (self : SeedStreamManager) (stream : SeedStream) :
  ssm_streams (SeedStreamManagerM.restoreFromStream self stream)
  = [("physics"%string, SeededRandomM.new (physics stream) "physics");
     ("collision"%string, SeededRandomM.new (collision stream) "collision");
     ("pathfinding"%string, SeededRandomM.new (pathfinding stream) "pathfinding");
     ("sensors"%string, SeededRandomM.new (sensors stream) "sensors");
     ("randomization"%string, SeededRandomM.new (randomization stream) "randomization")].
Proof. reflexivity. Qed.

(** X19. A manager restored from its own seed stream hands out, for every
    subsystem, the generator that a new manager with the same master seed
    hands out. *)
Theorem restoreFromStream_getSeedStream (self : SeedStreamManager) (subsystem : string) :
  fst (SeedStreamManagerM.getStream
         (SeedStreamManagerM.restoreFromStream self (SeedStreamManagerM.getSeedStream self))
         subsystem)
  = fst (SeedStreamManagerM.getStream
           (SeedStreamManagerM.new (Some (ssm_masterSeed self)) 0) subsystem).
Proof.
  assert (Hseed : forall s : string,
            SeedStreamManagerM.deriveSeed
              (SeedStreamManagerM.restoreFromStream self (SeedStreamManagerM.getSeedStream self)) s
            = SeedStreamManagerM.deriveSeed self s) by (intros s; reflexivity).
  assert (Hnew : forall s : string,
            SeedStreamManagerM.deriveSeed
              (SeedStreamManagerM.new (Some (ssm_masterSeed self)) 0) s
            = SeedStreamManagerM.deriveSeed self s) by (intros s; reflexivity).
  unfold SeedStreamManagerM.getStream. rewrite restored_streams, Hseed, Hnew.
  cbn [SeedStreamManagerM.new ssm_streams JsMap.get fst].
  cbn [SeedStreamManagerM.getSeedStream physics collision pathfinding sensors randomization].
  destruct (String.eqb_spec "physics" subsystem) as [<- | _]; [reflexivity |].
  destruct (String.eqb_spec "collision" subsystem) as [<- | _]; [reflexivity |].
  destruct (String.eqb_spec "pathfinding" subsystem) as [<- | _]; [reflexivity |].
  destruct (String.eqb_spec "sensors" subsystem) as [<- | _]; [reflexivity |].
  destruct (String.eqb_spec "randomization" subsystem) as [<- | _]; reflexivity.
Qed.

End SeedStreams.

Section SortedIteration.
Local Open Scope nat_scope.

Lemma sort_insert_map {A B : Type} (f : A -> B)
  (compareA : A -> A -> float) (compareB : B -> B -> float) (x : A) (l : list A) :
  (forall a b, compareB (f a) (f b) = compareA a b) ->
  List.map f (sort_insert compareA x l) = sort_insert compareB (f x) (List.map f l).
Proof.
  intros Hc. induction l as [| y l IH]; cbn [sort_insert List.map]; [reflexivity |].
  rewrite Hc. destruct (nltb _ _); cbn [List.map]; [reflexivity | now rewrite IH].
Qed.

Lemma js_sort_map {A B : Type} (f : A -> B)
  (compareA : A -> A -> float) (compareB : B -> B -> float) (l : list A) :
  (forall a b, compareB (f a) (f b) = compareA a b) ->
  List.map f (js_sort compareA l) = js_sort compareB (List.map f l).
Proof.
  intros Hc. unfold js_sort.
  assert (Hfold : forall acc,
    List.map f (List.fold_left (fun sorted x => sort_insert compareA x sorted) l acc)
    = List.fold_left (fun sorted x => sort_insert compareB x sorted) (List.map f l)
                     (List.map f acc)).
  { induction l as [| x l IH]; intros acc; cbn [List.fold_left List.map]; [reflexivity |].
    rewrite IH. now rewrite (sort_insert_map f compareA compareB x acc Hc). }
  apply (Hfold []).
Qed.

Lemma StronglySorted_map {A B : Type} (f : A -> B) (R : B -> B -> Prop) (l : list A) :
  StronglySorted (fun a b => R (f a) (f b)) l -> StronglySorted R (List.map f l).
Proof.
  induction 1 as [| a l Hs IH Hall]; cbn [List.map]; constructor; [exact IH |].
  rewrite List.Forall_forall in *. intros b Hb. apply in_map_iff in Hb.
  destruct Hb as (x & <- & Hx). now apply Hall.
Qed.

(** The keys in the order [sort()] leaves them in, through the sort of
    keyed entries. *)
Lemma sorted_keys_tagged (keys : list string) :
  js_sort defaultCompare keys
  = List.map fst (js_sort (@compareKeys unit) (List.map (fun k => (k, tt)) keys)).
Proof.
  rewrite <- (js_sort_map (fun k => (k, tt)) defaultCompare (@compareKeys unit)) by reflexivity.
  rewrite List.map_map. cbn [fst]. now rewrite List.map_id.
Qed.

Lemma sorted_keys_perm (keys1 keys2 : list string) :
  Permutation keys1 keys2 -> List.NoDup keys1 ->
  js_sort defaultCompare keys1 = js_sort defaultCompare keys2.
Proof.
  intros Hperm Hnd. rewrite !sorted_keys_tagged. f_equal.
  apply keyed_sort_perm; [now apply Permutation_map |].
  rewrite List.map_map. cbn [fst]. now rewrite List.map_id.
Qed.

Lemma sorted_keys_ascending (keys : list string) :
  List.NoDup keys ->
  ascending (js_sort defaultCompare keys) /\ Permutation (js_sort defaultCompare keys) keys.
Proof.
  intros Hnd. split.
  - rewrite sorted_keys_tagged. apply StronglySorted_map.
    apply (@keyed_sort_sorted unit). rewrite List.map_map. cbn [fst]. now rewrite List.map_id.
  - unfold js_sort. apply (js_sort_fold_perm defaultCompare keys []).
Qed.

Lemma JsMap_get_Permutation {V : Type} (m1 m2 : JsMap.t V) (k : string) :
  Permutation m1 m2 -> List.NoDup (JsMap.keys m1) -> JsMap.get m1 k = JsMap.get m2 k.
Proof.
  intros Hperm Hnd.
  assert (Hnd2 : List.NoDup (JsMap.keys m2))
    by (apply (Permutation_NoDup (Permutation_map fst Hperm)); exact Hnd).
  destruct (JsMap.get m1 k) as [v |] eqn:E1.
  - apply JsMap_get_In in E1. symmetry. apply JsMap_In_get; [exact Hnd2 |].
    now apply (Permutation_in _ Hperm).
  - destruct (JsMap.get m2 k) as [v |] eqn:E2; [| reflexivity].
    apply JsMap_get_In in E2. apply (Permutation_in _ (Permutation_sym Hperm)) in E2.
    apply (JsMap_In_get _ _ _ Hnd) in E2. congruence.
Qed.

(** X20. [deterministicMapIterate] calls back once per key, in ascending order
    of the keys, whatever the order in which the map was filled. *)
Theorem deterministicMapIterate_order {V W : Type} (m1 m2 : JsMap.t V)
  (callback : string -> V -> W -> W) (w : W) :
  Permutation m1 m2 -> List.NoDup (JsMap.keys m1) ->
  deterministicMapIterate m1 callback w = deterministicMapIterate m2 callback w /\
  ascending (deterministicMapIterate m1 visitKey []) /\
  Permutation (deterministicMapIterate m1 visitKey []) (JsMap.keys m1).
Proof.
  intros Hperm Hnd. unfold deterministicMapIterate. split.
  - rewrite (sorted_keys_perm (JsMap.keys m1) (JsMap.keys m2));
      [| now apply Permutation_map | exact Hnd].
    generalize (js_sort defaultCompare (JsMap.keys m2)). intros keys. revert w.
    induction keys as [| k keys IH]; intros w; cbn [List.fold_left]; [reflexivity |].
    rewrite (JsMap_get_Permutation m1 m2 k Hperm Hnd). apply IH.
  - destruct (sorted_keys_ascending (JsMap.keys m1) Hnd) as [Hasc Hp].
    assert (Hvisit : forall (keys acc : list string),
              (forall k, List.In k keys -> List.In k (JsMap.keys m1)) ->
              List.fold_left
                (fun w key =>
                   match JsMap.get m1 key with
                   | Some value => visitKey key value w
                   | None => w
                   end) keys acc
              = (acc ++ keys)%list).
    { induction keys as [| k keys IH]; intros acc Hin; cbn [List.fold_left].
      - now rewrite app_nil_r.
      - destruct (JsMap.get m1 k) as [v |] eqn:E.
        + unfold visitKey at 2. rewrite IH by (intros k' Hk'; apply Hin; now right).
          now rewrite <- app_assoc.
        + apply JsMap_get_None in E. exfalso. apply E. apply Hin. now left. }
    rewrite Hvisit; [cbn [app]; now split |].
    intros k Hk. now apply (Permutation_in _ Hp).
Qed.

(** [sortByEntityId] rearranges its argument, and on items with distinct
    ids that the collation of the host orders strictly its result does not
    depend on their order. *)
Theorem sortByEntityId_order `{Collation} {T : Type} (id : T -> string)
  (items1 items2 : list T) :
  Permutation items1 items2 -> List.NoDup (List.map id items1) ->
  ordersStrictly (List.map id items1) ->
  Permutation (sortByEntityId id items1) items1 /\
  sortByEntityId id items1 = sortByEntityId id items2.
Proof.
  intros Hperm Hnd Hstrict. unfold sortByEntityId. split.
  - unfold js_sort. apply (js_sort_fold_perm _ items1 []).
  - set (tag := fun a : T => (id a, a)).
    assert (Htag : forall l,
              List.map tag (js_sort (fun a b => localeCompare (id a) (id b)) l)
              = js_sort (@compareIds _ T) (List.map tag l))
      by (intros l; apply js_sort_map; reflexivity).
    assert (Heq : List.map tag (js_sort (fun a b => localeCompare (id a) (id b)) items1)
                  = List.map tag (js_sort (fun a b => localeCompare (id a) (id b)) items2)).
    { rewrite !Htag.
      apply (collated_sort_perm (List.map id items1) Hstrict);
        [now apply Permutation_map | |].
      - rewrite List.Forall_forall. intros e He. apply List.in_map_iff in He.
        destruct He as (a & <- & Ha). cbn [tag fst]. now apply List.in_map.
      - rewrite List.map_map. exact Hnd. }
    apply (f_equal (List.map snd)) in Heq. rewrite !List.map_map in Heq.
    cbn [tag snd] in Heq. now rewrite !List.map_id in Heq.
Qed.

End SortedIteration.

Section GeneratorSamples.
Local Open Scope Z_scope.

(** ** The properties at sample inputs *)

Lemma nextInt_range_witness :
  1 <= 6 /\ 6 - 1 + 1 <= 2 ^ 21 /\ - 2 ^ 53 <= 1 /\ 6 <= 2 ^ 53 /\
  1 <= fst (SeededRandomM.nextInt (SeededRandomM.new 42 "main") 1 6) <= 6.
Proof.
  assert (H1 : 1 <= 6) by lia.
  assert (H2 : 6 - 1 + 1 <= 2 ^ 21) by (vm_compute; discriminate).
  assert (H3 : - 2 ^ 53 <= 1) by (vm_compute; discriminate).
  assert (H4 : 6 <= 2 ^ 53) by (vm_compute; discriminate).
  split; [exact H1 |]. split; [exact H2 |]. split; [exact H3 |]. split; [exact H4 |].
  exact (nextInt_range (SeededRandomM.new 42 "main") 1 6 H1 H2 H3 H4).
Defined.

Lemma shuffle_permutation_witness :
  Z.of_nat (List.length ["a"; "b"; "c"; "d"]%string) <= 2 ^ 21 /\
  Permutation (fst (SeededRandomM.shuffle (SeededRandomM.new 42 "main") ["a"; "b"; "c"; "d"]%string))
              ["a"; "b"; "c"; "d"]%string /\
  sr_state (snd (SeededRandomM.shuffle (SeededRandomM.new 42 "main") ["a"; "b"; "c"; "d"]%string))
  = sr_state (SeededRandomM.new 42 "main")
    + Z.of_nat (List.length ["a"; "b"; "c"; "d"]%string - 1) * 0x6d2b79f5.
Proof.
  assert (H : Z.of_nat (List.length ["a"; "b"; "c"; "d"]%string) <= 2 ^ 21)
    by (vm_compute; discriminate).
  split; [exact H |].
  exact (shuffle_permutation (SeededRandomM.new 42 "main") ["a"; "b"; "c"; "d"]%string H).
Defined.

Lemma pick_element_witness :
  Z.of_nat (List.length ["a"; "b"; "c"]%string) <= 2 ^ 21 /\
  match fst (SeededRandomM.pick (SeededRandomM.new 42 "main") ["a"; "b"; "c"]%string) with
  | Some x => List.In x ["a"; "b"; "c"]%string
  | None => ["a"; "b"; "c"]%string = []
  end.
Proof.
  assert (H : Z.of_nat (List.length ["a"; "b"; "c"]%string) <= 2 ^ 21)
    by (vm_compute; discriminate).
  split; [exact H |].
  exact (pick_element (SeededRandomM.new 42 "main") ["a"; "b"; "c"]%string H).
Defined.

Lemma advance_step_count_witness :
  (0 < fixedTimestep (dr_config specClockQ))%Q /\
  exists (fuel0 : nat) (m : Z) (self' : DeterministicRuntime Q) (log' : list (Q * Z)),
    (forall fuel, (fuel0 <= fuel)%nat ->
       DeterministicRuntimeM.advance traceCallback fuel specClockQ (50 # 1000) []
       = Some (m, self', log')) /\
    m = Z.max 0 (Qfloor (clampedAccumulator specClockQ (50 # 1000)
                         / fixedTimestep (dr_config specClockQ))) /\
    dr_currentStep self' = dr_currentStep specClockQ + m /\
    (dr_accumulator self'
     == clampedAccumulator specClockQ (50 # 1000)
        - inject_Z m * fixedTimestep (dr_config specClockQ))%Q.
Proof.
  assert (H : (0 < fixedTimestep (dr_config specClockQ))%Q) by reflexivity.
  split; [exact H |].
  exact (advance_step_count specClockQ (50 # 1000) [] H).
Defined.

Lemma deterministicMapIterate_order_witness :
  Permutation threeBoxes [("a"%string, unitBox); ("c"%string, farBox); ("b"%string, cornerBox)] /\
  List.NoDup (JsMap.keys threeBoxes) /\
  deterministicMapIterate threeBoxes visitKey []
  = deterministicMapIterate [("a"%string, unitBox); ("c"%string, farBox); ("b"%string, cornerBox)]
                            visitKey [] /\
  ascending (deterministicMapIterate threeBoxes visitKey []) /\
  Permutation (deterministicMapIterate threeBoxes visitKey []) (JsMap.keys threeBoxes).
Proof.
  assert (Hperm : Permutation threeBoxes
                    [("a"%string, unitBox); ("c"%string, farBox); ("b"%string, cornerBox)]).
  { unfold threeBoxes.
    apply (perm_trans (perm_swap _ _ _)). apply perm_skip. apply perm_swap. }
  assert (Hnd : List.NoDup (JsMap.keys threeBoxes))
    by (repeat constructor; cbn; intuition discriminate).
  split; [exact Hperm |]. split; [exact Hnd |].
  exact (deterministicMapIterate_order threeBoxes _ visitKey [] Hperm Hnd).
Defined.

Lemma sortByEntityId_order_witness :
  Permutation threeBoxes [("a"%string, unitBox); ("c"%string, farBox); ("b"%string, cornerBox)] /\
  List.NoDup (List.map fst threeBoxes) /\
  @ordersStrictly codeUnitCollation (List.map fst threeBoxes) /\
  Permutation (@sortByEntityId codeUnitCollation _ fst threeBoxes) threeBoxes /\
  @sortByEntityId codeUnitCollation _ fst threeBoxes
  = @sortByEntityId codeUnitCollation _ fst
      [("a"%string, unitBox); ("c"%string, farBox); ("b"%string, cornerBox)].
Proof.
  assert (Hperm : Permutation threeBoxes
                    [("a"%string, unitBox); ("c"%string, farBox); ("b"%string, cornerBox)]).
  { unfold threeBoxes.
    apply (perm_trans (perm_swap _ _ _)). apply perm_skip. apply perm_swap. }
  assert (Hnd : List.NoDup (List.map fst threeBoxes))
    by (repeat constructor; cbn; intuition discriminate).
  assert (Hord : @ordersStrictly codeUnitCollation (List.map fst threeBoxes))
    by apply codeUnit_ordersStrictly.
  split; [exact Hperm |]. split; [exact Hnd |]. split; [exact Hord |].
  exact (@sortByEntityId_order codeUnitCollation _ fst threeBoxes _ Hperm Hnd Hord).
Defined.

Lemma computeStepHash_order_independent_witness :
  sameRegistry (SimulationRuntime.entities (session euler [drone1; robot1]))
               (SimulationRuntime.entities (session euler [robot1; drone1])) /\
  @ordersStrictly codeUnitCollation
    (JsMap.keys (SimulationRuntime.entities (session euler [drone1; robot1]))) /\
  SimulationRuntime.currentStep (session euler [drone1; robot1])
  = SimulationRuntime.currentStep (session euler [robot1; drone1]) /\
  @SimulationRuntime.computeStepHash codeUnitCollation (session euler [drone1; robot1])
  = @SimulationRuntime.computeStepHash codeUnitCollation (session euler [robot1; drone1]).
Proof.
  assert (Hreg : sameRegistry (SimulationRuntime.entities (session euler [drone1; robot1]))
                              (SimulationRuntime.entities (session euler [robot1; drone1]))).
  { split.
    - apply perm_swap.
    - repeat constructor; cbn; intuition discriminate. }
  assert (Hord : @ordersStrictly codeUnitCollation
                   (JsMap.keys (SimulationRuntime.entities (session euler [drone1; robot1]))))
    by apply codeUnit_ordersStrictly.
  assert (Hstep : SimulationRuntime.currentStep (session euler [drone1; robot1])
                  = SimulationRuntime.currentStep (session euler [robot1; drone1]))
    by reflexivity.
  split; [exact Hreg |]. split; [exact Hord |]. split; [exact Hstep |].
  exact (@computeStepHash_order_independent codeUnitCollation _ _ Hreg Hord Hstep).
Defined.

Lemma merge_contains_witness :
  (AABBOps.contains unitBox insidePoint = true \/ AABBOps.contains cornerBox insidePoint = true) /\
  AABBOps.contains (AABBOps.merge unitBox cornerBox) insidePoint = true.
Proof.
  assert (H : AABBOps.contains unitBox insidePoint = true
              \/ AABBOps.contains cornerBox insidePoint = true) by (left; reflexivity).
  split; [exact H |].
  exact (merge_contains unitBox cornerBox insidePoint H).
Defined.

End GeneratorSamples.

(** ** The simulation loop *)

Section RuntimeFacts.
Import SimulationRuntime.
Context `{Collation}.
Local Open Scope Z_scope.

Lemma processActions_frame (self : t) (actions : list Action) :
  config (processActions self actions) = config self /\
  integrator (processActions self actions) = integrator self /\
  deterministicRuntime (processActions self actions) = deterministicRuntime self /\
  initialized (processActions self actions) = initialized self /\
  currentStep (processActions self actions) = currentStep self /\
  simulationTime (processActions self actions) = simulationTime self /\
  totalCollisions (processActions self actions) = totalCollisions self /\
  JsMap.keys (entities (processActions self actions)) = JsMap.keys (entities self).
Proof.
  unfold processActions. revert self.
  induction actions as [| action actions IH]; intros self; cbn [List.fold_left].
  - repeat split.
  - destruct (JsMap.get (entities self) (a_entityId action)) as [entity |] eqn:Eget.
    + destruct (IH (with_entities self
                      (JsMap.set (entities self) (a_entityId action)
                                 (applyAction entity action))))
        as (H1 & H2 & H3 & H4 & H5 & H6 & H7 & H8).
      rewrite H1, H2, H3, H4, H5, H6, H7, H8. cbn [with_entities config integrator
        deterministicRuntime initialized currentStep simulationTime totalCollisions entities].
      repeat split. apply JsMap_keys_set_present.
      apply JsMap_get_In in Eget. change (a_entityId action) with (fst (a_entityId action, entity)).
      now apply in_map.
    + apply IH.
Qed.

Lemma physicsLoop_keys (gravity : Vector3 float) (dt : float) (integ : Integrator float)
  (es : list (string * Entity.t)) :
  JsMap.keys (fst (physicsLoop gravity dt integ es)) = JsMap.keys es.
Proof.
  unfold JsMap.keys. revert integ.
  induction es as [| [k entity] es IH]; intros integ; cbn [physicsLoop]; [reflexivity |].
  destruct (physicsEntity gravity dt integ entity) as [entity' integ1].
  specialize (IH integ1). destruct (physicsLoop gravity dt integ1 es) as [rest' integ2].
  cbn [fst List.map] in *. now rewrite IH.
Qed.

Lemma physicsStep_frame (self : t) (dt : float) :
  config (physicsStep self dt) = config self /\
  deterministicRuntime (physicsStep self dt) = deterministicRuntime self /\
  initialized (physicsStep self dt) = initialized self /\
  currentStep (physicsStep self dt) = currentStep self /\
  JsMap.keys (entities (physicsStep self dt)) = JsMap.keys (entities self).
Proof.
  unfold physicsStep.
  pose proof (physicsLoop_keys (wc_gravity (rc_worldConfig (config self))) dt
                (integrator self) (entities self)) as Hkeys.
  destruct (physicsLoop _ dt (integrator self) (entities self)) as [es integ].
  cbn [fst] in Hkeys. cbn [config deterministicRuntime initialized currentStep entities].
  repeat split. exact Hkeys.
Qed.

(** What one successful [step] does to the counters, the ids and the log of
    step hashes; and [step] fails in strict mode only. *)
Lemma step_outcome (self : t) (actions : list Action) :
  match step self actions with
  | inl self' =>
      currentStep self' = currentStep self + 1 /\
      JsMap.keys (entities self') = JsMap.keys (entities self) /\
      config self' = config self /\
      dr_config (deterministicRuntime self') = dr_config (deterministicRuntime self) /\
      DeterministicRuntimeM.getStepHashes (deterministicRuntime self')
      = (DeterministicRuntimeM.getStepHashes (deterministicRuntime self)
         ++ (if validateDeterminism (dr_config (deterministicRuntime self))
             then [computeStepHash self'] else []))%list
  | inr _ => orElse (rc_strictMode (config self)) false = true
  end.
Proof.
  unfold step. cbv zeta.
  set (s0 := {| config := config self; entities := entities self;
                integrator := integrator self;
                deterministicRuntime := deterministicRuntime self; initialized := true;
                currentStep := currentStep self; simulationTime := simulationTime self;
                totalCollisions := totalCollisions self |}).
  destruct (processActions_frame s0 actions) as (Hc & _ & Hd & _ & Hs & _ & _ & Hk).
  set (s1 := processActions s0 actions) in *.
  destruct (physicsStep_frame s1 (rc_timestep (config s1))) as (Hc2 & Hd2 & _ & Hs2 & Hk2).
  set (s2 := physicsStep s1 (rc_timestep (config s1))) in *.
  assert (Hcfg : config s2 = config self) by (rewrite Hc2, Hc; reflexivity).
  assert (Hdr : deterministicRuntime s2 = deterministicRuntime self)
    by (rewrite Hd2, Hd; reflexivity).
  assert (Hstep : currentStep s2 = currentStep self) by (rewrite Hs2, Hs; reflexivity).
  assert (Hkeys : JsMap.keys (entities s2) = JsMap.keys (entities self))
    by (rewrite Hk2, Hk; reflexivity).
  rewrite Hcfg.
  destruct (orElse (rc_strictMode (config self)) false) eqn:Estrict.
  - destruct (validateStability s2) as [err |]; [reflexivity |].
    cbn [currentStep entities config deterministicRuntime].
    rewrite ?Hstep, ?Hkeys, ?Hcfg, ?Hdr. unfold DeterministicRuntimeM.recordStepHash,
      DeterministicRuntimeM.getStepHashes.
    destruct (validateDeterminism (dr_config (deterministicRuntime self)));
      cbn [dr_config dr_stepHashes]; repeat split.
    now rewrite app_nil_r.
  - cbn [currentStep entities config deterministicRuntime].
    rewrite ?Hstep, ?Hkeys, ?Hcfg, ?Hdr. unfold DeterministicRuntimeM.recordStepHash,
      DeterministicRuntimeM.getStepHashes.
    destruct (validateDeterminism (dr_config (deterministicRuntime self)));
      cbn [dr_config dr_stepHashes]; repeat split.
    now rewrite app_nil_r.
Qed.

(** X21. A run of [n] ticks that does not throw advances the step counter by
    [n], keeps the ids and their order, and records [n] step hashes when the
    clock validates determinism and none otherwise; and a run throws in
    strict mode only. *)
Theorem run_outcome (self : t) (ticks : list (list Action)) :
  match run self ticks with
  | inl self' =>
      getCurrentStep self' = getCurrentStep self + Z.of_nat (List.length ticks) /\
      JsMap.keys (entities self') = JsMap.keys (entities self) /\
      List.length (DeterministicRuntimeM.getStepHashes (deterministicRuntime self'))
      = (List.length (DeterministicRuntimeM.getStepHashes (deterministicRuntime self))
         + (if validateDeterminism (dr_config (deterministicRuntime self))
            then List.length ticks else 0))%nat
  | inr _ => orElse (rc_strictMode (config self)) false = true
  end.
Proof.
  unfold getCurrentStep. revert self.
  induction ticks as [| actions ticks IH]; intros self; cbn [run].
  - cbn [List.length]. repeat split; [lia |].
    destruct (validateDeterminism _); lia.
  - pose proof (step_outcome self actions) as Hstep.
    destruct (step self actions) as [self1 | err]; [| exact Hstep].
    destruct Hstep as (Hs & Hk & Hc & Hd & Hh).
    specialize (IH self1). destruct (run self1 ticks) as [self' | err'].
    + destruct IH as (Hs' & Hk' & Hh'). rewrite Hs', Hk', Hh', Hs, Hk, Hd, Hh.
      rewrite List.length_app. cbn [List.length].
      repeat split; [lia |].
      destruct (validateDeterminism (dr_config (deterministicRuntime self)));
        cbn [List.length]; lia.
    + now rewrite <- Hc.
Qed.

End RuntimeFacts.

(** ** The collation of the host *)

(** A run reads the collation only where [computeStepHash] sorts the ids of
    the registry: two collations that order those ids alike give the same
    run. *)
Section HostOrder.
Import SimulationRuntime.

Lemma sort_insert_agree {A : Type} (compare1 compare2 : A -> A -> float) (x : A)
  (l : list A) :
  (forall y, List.In y l ->
     nltb (compare1 x y) (nofZ 0) = nltb (compare2 x y) (nofZ 0)) ->
  sort_insert compare1 x l = sort_insert compare2 x l.
Proof.
  induction l as [| y l IH]; intros Hagree; cbn [sort_insert]; [reflexivity |].
  rewrite (Hagree y) by now left.
  destruct (nltb (compare2 x y) (nofZ 0)); [reflexivity |].
  f_equal. apply IH. intros z Hz. apply Hagree. now right.
Qed.

Lemma js_sort_fold_agree {A : Type} (compare1 compare2 : A -> A -> float) (l : list A) :
  forall acc : list A,
  List.NoDup (acc ++ l) ->
  (forall x y, List.In x (acc ++ l) -> List.In y (acc ++ l) -> x <> y ->
     nltb (compare1 x y) (nofZ 0) = nltb (compare2 x y) (nofZ 0)) ->
  List.fold_left (fun sorted x => sort_insert compare1 x sorted) l acc
  = List.fold_left (fun sorted x => sort_insert compare2 x sorted) l acc.
Proof.
  induction l as [| x l IH]; intros acc Hnd Hagree; cbn [List.fold_left]; [reflexivity |].
  assert (Hstep : sort_insert compare1 x acc = sort_insert compare2 x acc).
  { apply sort_insert_agree. intros y Hy. apply Hagree.
    - apply in_or_app. right. now left.
    - apply in_or_app. now left.
    - intros <-. apply NoDup_remove_2 in Hnd. apply Hnd. apply in_or_app. now left. }
  rewrite <- Hstep.
  assert (Hperm : Permutation (sort_insert compare1 x acc ++ l) (acc ++ x :: l)).
  { rewrite (sort_insert_perm compare1 x acc). cbn [app]. apply Permutation_middle. }
  apply IH.
  - apply (Permutation_NoDup (Permutation_sym Hperm)). exact Hnd.
  - intros a b Ha Hb. apply Hagree; now apply (Permutation_in _ Hperm).
Qed.

Lemma NoDup_map_injective {A B : Type} (f : A -> B) (l : list A) (x y : A) :
  List.NoDup (List.map f l) -> List.In x l -> List.In y l -> f x = f y -> x = y.
Proof.
  induction l as [| a l IH]; cbn [List.map]; [intros _ [] |].
  intros Hnd Hx Hy Heq. apply NoDup_cons_iff in Hnd. destruct Hnd as [Hfresh Hnd].
  destruct Hx as [-> | Hx], Hy as [-> | Hy]; auto.
  - exfalso. apply Hfresh. rewrite Heq. now apply in_map.
  - exfalso. apply Hfresh. rewrite <- Heq. now apply in_map.
Qed.

Lemma computeStepHash_agree (host1 host2 : Collation) (self : t) :
  List.NoDup (JsMap.keys (entities self)) ->
  agreeOn host1 host2 (JsMap.keys (entities self)) ->
  @computeStepHash host1 self = @computeStepHash host2 self.
Proof.
  intros Hnd Hagree. unfold computeStepHash, JsMap.entries, js_sort.
  rewrite (js_sort_fold_agree
             (fun a b => @localeCompare host1 (fst a) (fst b))
             (fun a b => @localeCompare host2 (fst a) (fst b)) (entities self) []);
    [reflexivity | |].
  - cbn [app]. exact (NoDup_map_inv fst _ Hnd).
  - cbn [app]. intros x y Hx Hy Hne.
    apply (Hagree (fst x) (fst y)).
    + unfold JsMap.keys. now apply in_map.
    + unfold JsMap.keys. now apply in_map.
    + intros Heq. apply Hne. exact (NoDup_map_injective fst _ x y Hnd Hx Hy Heq).
Qed.

Lemma step_agree (host1 host2 : Collation) (self : t) (actions : list Action) :
  List.NoDup (JsMap.keys (entities self)) ->
  agreeOn host1 host2 (JsMap.keys (entities self)) ->
  @step host1 self actions = @step host2 self actions.
Proof.
  intros Hnd Hagree. unfold step. cbv zeta.
  set (s0 := {| config := config self; entities := entities self;
                integrator := integrator self;
                deterministicRuntime := deterministicRuntime self; initialized := true;
                currentStep := currentStep self; simulationTime := simulationTime self;
                totalCollisions := totalCollisions self |}).
  destruct (processActions_frame s0 actions) as (_ & _ & _ & _ & _ & _ & _ & Hk).
  set (s1 := processActions s0 actions) in *.
  destruct (physicsStep_frame s1 (rc_timestep (config s1))) as (_ & _ & _ & _ & Hk2).
  set (s2 := physicsStep s1 (rc_timestep (config s1))) in *.
  assert (Hkeys : JsMap.keys (entities s2) = JsMap.keys (entities self))
    by (rewrite Hk2, Hk; reflexivity).
  destruct (if orElse (rc_strictMode (config s2)) false then validateStability s2 else None);
    [reflexivity |].
  match goal with
  | |- context [@computeStepHash host1 ?s3] =>
      rewrite (computeStepHash_agree host1 host2 s3)
  end; [reflexivity | |]; cbn [entities]; rewrite Hkeys; assumption.
Qed.

Lemma run_agree (host1 host2 : Collation) (ticks : list (list Action)) :
  forall self : t,
  List.NoDup (JsMap.keys (entities self)) ->
  agreeOn host1 host2 (JsMap.keys (entities self)) ->
  @run host1 self ticks = @run host2 self ticks.
Proof.
  induction ticks as [| actions ticks IH]; intros self Hnd Hagree; cbn [run]; [reflexivity |].
  rewrite (step_agree host1 host2 self actions Hnd Hagree).
  pose proof (@step_outcome host2 self actions) as Hout.
  destruct (@step host2 self actions) as [self1 | err]; [| reflexivity].
  destruct Hout as (_ & Hk & _). apply IH; rewrite Hk; assumption.
Qed.

(** Every collation orders the two ids of the sample sessions as one of
    the four tabled collations does. *)
Lemma agreeOn_tabled `{Collation} (ids : list string) :
  (forall i, List.In i ids -> i = "drone-1"%string \/ i = "robot-1"%string) ->
  agreeOn _ (tabledCollation (sortsBefore "drone-1" "robot-1")
                             (sortsBefore "robot-1" "drone-1")) ids.
Proof.
  intros Hids a b Ha Hb Hne.
  destruct (Hids a Ha) as [-> | ->], (Hids b Hb) as [-> | ->];
    try contradiction; unfold sortsBefore at 2; cbn [localeCompare tabledCollation String.eqb Ascii.eqb Bool.eqb];
    match goal with |- ?x = _ => destruct x end; reflexivity.
Qed.

Lemma sample_sessions_tabled `{Collation} (integrator : IntegratorType)
  (ticks : list (list Action)) :
  run (session integrator [drone1; robot1]) ticks
  = @run (tabledCollation (sortsBefore "drone-1" "robot-1")
                          (sortsBefore "robot-1" "drone-1"))
         (session integrator [drone1; robot1]) ticks /\
  run (session integrator [robot1; drone1]) ticks
  = @run (tabledCollation (sortsBefore "drone-1" "robot-1")
                          (sortsBefore "robot-1" "drone-1"))
         (session integrator [robot1; drone1]) ticks.
Proof.
  split; apply run_agree.
  - repeat constructor; cbn; intuition discriminate.
  - apply agreeOn_tabled. cbn. intuition auto.
  - repeat constructor; cbn; intuition discriminate.
  - apply agreeOn_tabled. cbn. intuition auto.
Qed.

(** C1. With the Verlet integrator the insertion order of the entities
    reaches the hashes.  The integrator object is shared by all entities and
    keeps the last acceleration it saw, so the drone, which ignores gravity,
    inherits the robot's acceleration when it is integrated after it.  The
    two sessions differ only in the order of [addEntity]; after one tick
    their recorded step hashes and final hashes differ, whatever the
    collation of the host; the hashes are the ones below on a host that
    sorts [drone-1] before [robot-1]. *)
Theorem verlet_leaks_insertion_order `{Collation} :
  (sortsBefore "drone-1" "robot-1" = true -> sortsBefore "robot-1" "drone-1" = false ->
   recorded (SimulationRuntime.run (session verlet [drone1; robot1]) (emptyTicks 1))
     = Some ([1234959413%Z], "00000000499bfc35"%string) /\
   recorded (SimulationRuntime.run (session verlet [robot1; drone1]) (emptyTicks 1))
     = Some ([(-1621714389)%Z], "0000000060a965d5"%string)) /\
  recorded (SimulationRuntime.run (session verlet [drone1; robot1]) (emptyTicks 1))
    <> recorded (SimulationRuntime.run (session verlet [robot1; drone1]) (emptyTicks 1)).
Proof.
  destruct (sample_sessions_tabled verlet (emptyTicks 1)) as [HA HB].
  rewrite HA, HB. clear HA HB.
  split.
  - intros -> ->. split; vm_compute; reflexivity.
  - destruct (sortsBefore "drone-1" "robot-1"), (sortsBefore "robot-1" "drone-1");
      vm_compute; intros Heq; discriminate Heq.
Qed.

(** The other three integrators keep no state, and on the same two sessions
    they give the same hashes whatever the order, on a host that sorts one
    of the two ids before the other. *)
Lemma stateless_integrators_agree `{Collation} :
  sortsBefore "drone-1" "robot-1" = negb (sortsBefore "robot-1" "drone-1") ->
  List.Forall
    (fun integrator =>
       recorded (SimulationRuntime.run (session integrator [drone1; robot1]) (emptyTicks 3))
       = recorded (SimulationRuntime.run (session integrator [robot1; drone1]) (emptyTicks 3)))
    [euler; semi_implicit_euler; rk4].
Proof.
  intros Hsign.
  repeat (constructor;
          [match goal with
           | |- recorded (run (session ?i _) _) = _ =>
               destruct (sample_sessions_tabled i (emptyTicks 3)) as [HA HB];
               rewrite HA, HB; clear HA HB; rewrite Hsign;
               destruct (sortsBefore "robot-1" "drone-1"); vm_compute; reflexivity
           end |]).
  constructor.
Qed.

End HostOrder.

Lemma verlet_leaks_insertion_order_witness :
  @sortsBefore codeUnitCollation "drone-1" "robot-1" = true /\
  @sortsBefore codeUnitCollation "robot-1" "drone-1" = false /\
  recorded (@SimulationRuntime.run codeUnitCollation (session verlet [drone1; robot1])
                                   (emptyTicks 1))
    = Some ([1234959413%Z], "00000000499bfc35"%string) /\
  recorded (@SimulationRuntime.run codeUnitCollation (session verlet [robot1; drone1])
                                   (emptyTicks 1))
    = Some ([(-1621714389)%Z], "0000000060a965d5"%string) /\
  recorded (@SimulationRuntime.run codeUnitCollation (session verlet [drone1; robot1])
                                   (emptyTicks 1))
    <> recorded (@SimulationRuntime.run codeUnitCollation (session verlet [robot1; drone1])
                                        (emptyTicks 1)).
Proof.
  assert (H1 : @sortsBefore codeUnitCollation "drone-1" "robot-1" = true) by reflexivity.
  assert (H2 : @sortsBefore codeUnitCollation "robot-1" "drone-1" = false) by reflexivity.
  destruct (@verlet_leaks_insertion_order codeUnitCollation) as [Hvalues Hdiffer].
  destruct (Hvalues H1 H2) as [HA HB].
  split; [exact H1 |]. split; [exact H2 |]. split; [exact HA |]. split; [exact HB |].
  exact Hdiffer.
Defined.

Section RegistryFacts.
Import SimulationRuntime.
Context `{Collation}.
Local Open Scope Z_scope.

Lemma physicsEntity_skipped (gravity : Vector3 float) (dt : float) (integ : Integrator float)
  (entity : Entity.t) :
  skipped entity = true -> physicsEntity gravity dt integ entity = (entity, integ).
Proof.
  unfold skipped, physicsEntity. intros Hskip.
  destruct (String.eqb (Entity._status entity) "disabled"); [reflexivity |].
  cbn [orb] in Hskip. now rewrite Hskip.
Qed.

Lemma physicsEntity_id (gravity : Vector3 float) (dt : float) (integ : Integrator float)
  (entity : Entity.t) :
  Entity.id (fst (physicsEntity gravity dt integ entity)) = Entity.id entity.
Proof.
  unfold physicsEntity.
  destruct (String.eqb (Entity._status entity) "disabled"); [reflexivity |].
  destruct (String.eqb (Entity.type entity) "obstacle"); [reflexivity |].
  destruct (Integrator_integrate integ _ dt) as [result integ'].
  cbv zeta. cbn [fst].
  repeat match goal with |- context [if ?c then _ else _] => destruct c end; reflexivity.
Qed.

Lemma physicsLoop_get_skipped (gravity : Vector3 float) (dt : float)
  (integ : Integrator float) (es : list (string * Entity.t)) (i : EntityId) (e : Entity.t) :
  JsMap.get es i = Some e -> skipped e = true ->
  JsMap.get (fst (physicsLoop gravity dt integ es)) i = Some e.
Proof.
  revert integ. induction es as [| [k entity] es IH]; intros integ; cbn [JsMap.get physicsLoop];
    [discriminate |].
  intros Hget Hskip.
  destruct (String.eqb k i) eqn:Ek.
  - injection Hget as ->. rewrite (physicsEntity_skipped _ _ _ _ Hskip).
    destruct (physicsLoop gravity dt integ es) as [rest' integ2].
    cbn [fst JsMap.get]. now rewrite Ek.
  - destruct (physicsEntity gravity dt integ entity) as [entity' integ1].
    specialize (IH integ1 Hget Hskip).
    destruct (physicsLoop gravity dt integ1 es) as [rest' integ2].
    cbn [fst JsMap.get] in *. now rewrite Ek.
Qed.

Lemma processActions_get_other (self : t) (actions : list Action) (i : EntityId) :
  List.Forall (fun action => a_entityId action <> i) actions ->
  JsMap.get (entities (processActions self actions)) i = JsMap.get (entities self) i.
Proof.
  unfold processActions. revert self.
  induction actions as [| action actions IH]; intros self Hall; cbn [List.fold_left];
    [reflexivity |].
  apply List.Forall_cons_iff in Hall. destruct Hall as [Hne Hall].
  rewrite (IH _ Hall).
  destruct (JsMap.get (entities self) (a_entityId action)) as [entity |]; [| reflexivity].
  cbn [with_entities entities]. now apply JsMap_get_set_other.
Qed.

(** X22. A tick leaves alone the entities it passes over: an obstacle or a
    disabled entity that no action of the tick names is after the step what
    it was before; and a step throws in strict mode only. *)
Theorem step_keeps_skipped (self : t) (actions : list Action) (i : EntityId) (e : Entity.t) :
  getEntity self i = Some e -> skipped e = true ->
  List.Forall (fun action => a_entityId action <> i) actions ->
  match step self actions with
  | inl self' => getEntity self' i = Some e
  | inr _ => orElse (rc_strictMode (config self)) false = true
  end.
Proof.
  unfold getEntity. intros Hget Hskip Hall.
  pose proof (step_outcome self actions) as Hout.
  destruct (step self actions) as [self' | err] eqn:Estep; [| exact Hout].
  clear Hout. unfold step in Estep. cbv zeta in Estep.
  set (s0 := {| config := config self; entities := entities self;
                integrator := integrator self;
                deterministicRuntime := deterministicRuntime self; initialized := true;
                currentStep := currentStep self; simulationTime := simulationTime self;
                totalCollisions := totalCollisions self |}) in *.
  set (s1 := processActions s0 actions) in *.
  assert (H1 : JsMap.get (entities s1) i = Some e)
    by (unfold s1; rewrite (processActions_get_other s0 actions i Hall); exact Hget).
  assert (H2 : JsMap.get (entities (physicsStep s1 (rc_timestep (config s1)))) i = Some e).
  { unfold physicsStep.
    pose proof (physicsLoop_get_skipped (wc_gravity (rc_worldConfig (config s1)))
                  (rc_timestep (config s1)) (integrator s1) (entities s1) i e H1 Hskip) as Hl.
    destruct (physicsLoop _ _ (integrator s1) (entities s1)) as [es integ].
    exact Hl. }
  set (s2 := physicsStep s1 (rc_timestep (config s1))) in *.
  destruct (if orElse (rc_strictMode (config s2)) false then validateStability s2 else None);
    [discriminate |].
  injection Estep as <-. exact H2.
Qed.

(** X30. After [addEntities] an id answers with the entity built from the last
    descriptor that carries it, and an id no descriptor carries answers as
    before. *)
Theorem addEntities_getEntity (self : t) (descriptors : list EntityDescriptor) (i : EntityId) :
  getEntity (addEntities self descriptors) i
  = match lastWithId descriptors i with
    | Some d => Some (createEntity d)
    | None => getEntity self i
    end.
Proof.
  unfold getEntity, addEntities, lastWithId.
  induction descriptors as [| d ds IH] using List.rev_ind; [reflexivity |].
  rewrite List.fold_left_app, List.rev_app_distr. cbn [List.fold_left List.rev app List.find].
  unfold addEntity at 1. cbn [with_entities entities createEntity Entity.id].
  destruct (String.eqb_spec (ed_id d) i) as [-> | Hne].
  - apply JsMap_get_set_same.
  - rewrite (JsMap_get_set_other _ _ _ _ Hne). exact IH.
Qed.

Lemma JsMap_set_Forall {V : Type} (P : string * V -> Prop) (m : JsMap.t V) (k : string) (v : V) :
  List.Forall P m -> P (k, v) -> List.Forall P (JsMap.set m k v).
Proof.
  intros Hall Hp. induction m as [| [k' v'] m IH]; cbn [JsMap.set].
  - constructor; [exact Hp | constructor].
  - apply List.Forall_cons_iff in Hall. destruct Hall as [Hh Ht].
    destruct (String.eqb_spec k' k) as [-> | Hne].
    + constructor; [exact Hp | exact Ht].
    + constructor; [exact Hh | now apply IH].
Qed.

Lemma JsMap_size_delete {V : Type} (m : JsMap.t V) (k : string) :
  JsMap.size (JsMap.delete m k) = JsMap.size m - (if JsMap.has m k then 1 else 0).
Proof.
  unfold JsMap.size, JsMap.has.
  induction m as [| [k' v'] m IH]; cbn [JsMap.delete JsMap.get List.length]; [reflexivity |].
  destruct (String.eqb k' k); [lia |].
  cbn [List.length]. destruct (JsMap.get m k); lia.
Qed.

(** [removeEntity] answers whether the id was registered; afterwards the id
    is gone, the count is one lower if it was there, and every other id
    answers as before. *)
Theorem removeEntity_spec (self : t) (i j : EntityId) :
  registryKeyed self ->
  fst (removeEntity self i) = JsMap.has (entities self) i /\
  getEntity (snd (removeEntity self i)) i = None /\
  getEntityCount (snd (removeEntity self i))
  = getEntityCount self - (if fst (removeEntity self i) then 1 else 0) /\
  (i <> j -> getEntity (snd (removeEntity self i)) j = getEntity self j) /\
  registryKeyed (snd (removeEntity self i)).
Proof.
  intros [Hkey Hnd]. unfold removeEntity, getEntity, getEntityCount, registryKeyed.
  cbn [fst snd with_entities entities].
  split; [reflexivity |]. split; [now apply JsMap_get_delete_same |].
  split; [apply JsMap_size_delete |].
  split; [intros Hne; now apply JsMap_get_delete_other |].
  split; [| now apply JsMap_delete_NoDup].
  clear Hnd. induction (entities self) as [| [k v] m IH]; cbn [JsMap.delete]; [constructor |].
  apply List.Forall_cons_iff in Hkey. destruct Hkey as [Hh Ht].
  destruct (String.eqb k i); [exact Ht |]. constructor; [exact Hh | now apply IH].
Qed.

End RegistryFacts.

Section StabilityFacts.
Import SimulationRuntime.

Lemma checkStability_scan (states : list (IntegratorState float)) (acc : StabilityScan) :
  scanNaN (List.fold_left checkStability_step states acc)
  = scanNaN acc
    || List.existsb (fun s => Vec3.isNaN (is_position s) || Vec3.isNaN (is_velocity s)
                              || Vec3.isNaN (is_acceleration s)) states /\
  scanInfinity (List.fold_left checkStability_step states acc)
  = scanInfinity acc
    || List.existsb (fun s => negb (Vec3.isFinite (is_position s))
                              || negb (Vec3.isFinite (is_velocity s))
                              || negb (Vec3.isFinite (is_acceleration s))) states.
Proof.
  revert acc. induction states as [| s states IH]; intros acc; cbn [List.fold_left List.existsb].
  - now rewrite !orb_false_r.
  - destruct (IH (checkStability_step acc s)) as [Hn Hi]. rewrite Hn, Hi.
    unfold checkStability_step. cbn [scanNaN scanInfinity].
    split.
    + destruct (Vec3.isNaN (is_position s) || Vec3.isNaN (is_velocity s)
                || Vec3.isNaN (is_acceleration s)); cbn [orb];
        [now rewrite orb_true_r | reflexivity].
    + destruct (negb (Vec3.isFinite (is_position s)) || negb (Vec3.isFinite (is_velocity s))
                || negb (Vec3.isFinite (is_acceleration s))); cbn [orb];
        [now rewrite orb_true_r | reflexivity].
Qed.

Lemma existsb_filter_map {A B : Type} (f : A -> B) (keep : A -> bool) (p : B -> bool)
  (l : list A) :
  List.existsb p (List.map f (List.filter keep l))
  = List.existsb (fun a => keep a && p (f a)) l.
Proof.
  induction l as [| a l IH]; cbn [List.filter List.map List.existsb]; [reflexivity |].
  destruct (keep a); cbn [List.map List.existsb andb]; now rewrite IH.
Qed.

Lemma existsb_pointwise {A : Type} (p q : A -> bool) (l : list A) :
  (forall a, p a = q a) -> List.existsb p l = List.existsb q l.
Proof.
  intros Hpq. induction l as [| a l IH]; cbn [List.existsb]; [reflexivity |].
  now rewrite Hpq, IH.
Qed.

(** X23. Which error the stability check of strict mode throws: [NaN detected]
    exactly when an entity that is not disabled holds a [NaN] in its position
    or velocity, and [Infinity detected] exactly when none does but one holds
    a component that is not finite. *)
Theorem validateStability_errors (self : t) :
  (validateStability self = Some (NaNDetected (currentStep self))
   <-> List.existsb readsNaN (JsMap.values (entities self)) = true) /\
  (validateStability self = Some (InfinityDetected (currentStep self))
   <-> List.existsb readsNaN (JsMap.values (entities self)) = false /\
       List.existsb readsNonFinite (JsMap.values (entities self)) = true).
Proof.
  unfold validateStability, checkStability. cbv zeta.
  cbn [stable hasNaN hasInfinity divergenceDetected sr_maxVelocity sr_maxAcceleration].
  match goal with
  | |- context [List.fold_left checkStability_step ?states ?acc] =>
      destruct (checkStability_scan states acc) as [Hn Hi];
      set (scan := List.fold_left checkStability_step states acc) in *
  end.
  cbn [scanNaN scanInfinity orb] in Hn, Hi.
  rewrite existsb_filter_map in Hn, Hi.
  cbn [is_position is_velocity is_acceleration] in Hn, Hi.
  assert (HN : scanNaN scan = List.existsb readsNaN (JsMap.values (entities self))).
  { rewrite Hn. apply existsb_pointwise. intros e. unfold readsNaN.
    change (Vec3.isNaN (Vector3.mk 0%float 0%float 0%float)) with false.
    now rewrite orb_false_r. }
  assert (HI : scanInfinity scan = List.existsb readsNonFinite (JsMap.values (entities self))).
  { rewrite Hi. apply existsb_pointwise. intros e. unfold readsNonFinite.
    change (negb (Vec3.isFinite (Vector3.mk 0%float 0%float 0%float))) with false.
    now rewrite orb_false_r. }
  rewrite <- HN, <- HI. clear Hn Hi HN HI.
  destruct (scanNaN scan), (scanInfinity scan);
    rewrite ?andb_false_r; cbn [negb andb];
    repeat match goal with |- context [if ?c then _ else _] => destruct c end;
    (split; split; try discriminate; try tauto; try reflexivity;
     try (intros [? ?]; discriminate)).
Qed.

End StabilityFacts.

Section SnapshotOfRuntime.
Import SimulationRuntime.
Context `{Collation}.
Local Open Scope Z_scope.

Lemma map_pair_eta {A B : Type} (l : list (A * B)) :
  List.map (fun e => (fst e, snd e)) l = l.
Proof.
  induction l as [| [a b] l IH]; cbn [List.map fst snd]; [reflexivity | now rewrite IH].
Qed.

(** [new Map(entries)] of the entries of a map is that map. *)
Lemma JsMap_of_entries_id {V : Type} (m : JsMap.t V) :
  List.NoDup (JsMap.keys m) -> JsMap.of_entries (JsMap.entries m) = m.
Proof.
  intros Hnd. unfold JsMap.of_entries, JsMap.entries.
  rewrite (JsMap_fold_set_fresh fst snd); [apply map_pair_eta | exact Hnd].
Qed.

Lemma applyAction_id (entity : Entity.t) (action : Action) :
  Entity.id (applyAction entity action) = Entity.id entity.
Proof.
  unfold applyAction, handleMoveTo.
  repeat match goal with
         | |- context [if ?c then _ else _] => destruct c
         | |- context [match ?o with Some _ => _ | None => _ end] => destruct o
         end; reflexivity.
Qed.

Lemma registryKeyed_new (config : RuntimeConfig) (now : Z) : registryKeyed (new config now).
Proof. split; constructor. Qed.

Lemma registryKeyed_addEntity (self : t) (descriptor : EntityDescriptor) :
  registryKeyed self -> registryKeyed (addEntity self descriptor).
Proof.
  intros [Hkey Hnd]. unfold registryKeyed, addEntity. cbn [with_entities entities].
  split; [| now apply JsMap_set_NoDup].
  apply JsMap_set_Forall; [exact Hkey | reflexivity].
Qed.

Lemma registryKeyed_addEntities (self : t) (descriptors : list EntityDescriptor) :
  registryKeyed self -> registryKeyed (addEntities self descriptors).
Proof.
  unfold addEntities. revert self.
  induction descriptors as [| d ds IH]; intros self Hreg; cbn [List.fold_left]; [exact Hreg |].
  apply IH. now apply registryKeyed_addEntity.
Qed.

Lemma registryKeyed_processActions (self : t) (actions : list Action) :
  registryKeyed self -> registryKeyed (processActions self actions).
Proof.
  unfold processActions. revert self.
  induction actions as [| action actions IH]; intros self Hreg; cbn [List.fold_left];
    [exact Hreg |].
  apply IH. destruct (JsMap.get (entities self) (a_entityId action)) as [entity |] eqn:Eget;
    [| exact Hreg].
  destruct Hreg as [Hkey Hnd]. unfold registryKeyed. cbn [with_entities entities].
  split; [| now apply JsMap_set_NoDup].
  apply JsMap_set_Forall; [exact Hkey |]. cbn [fst snd]. rewrite applyAction_id.
  apply JsMap_get_In in Eget. rewrite List.Forall_forall in Hkey.
  exact (Hkey _ Eget).
Qed.

Lemma physicsLoop_keyed (gravity : Vector3 float) (dt : float) (integ : Integrator float)
  (es : list (string * Entity.t)) :
  List.Forall (fun kv => fst kv = Entity.id (snd kv)) es ->
  List.Forall (fun kv => fst kv = Entity.id (snd kv)) (fst (physicsLoop gravity dt integ es)).
Proof.
  revert integ. induction es as [| [k entity] es IH]; intros integ Hkey; cbn [physicsLoop];
    [constructor |].
  apply List.Forall_cons_iff in Hkey. destruct Hkey as [Hh Ht].
  pose proof (physicsEntity_id gravity dt integ entity) as Hid.
  destruct (physicsEntity gravity dt integ entity) as [entity' integ1].
  specialize (IH integ1 Ht). destruct (physicsLoop gravity dt integ1 es) as [rest' integ2].
  cbn [fst snd] in *. constructor; [cbn [fst snd]; congruence | exact IH].
Qed.

Lemma registryKeyed_physicsStep (self : t) (dt : float) :
  registryKeyed self -> registryKeyed (physicsStep self dt).
Proof.
  intros [Hkey Hnd]. unfold registryKeyed.
  destruct (physicsStep_frame self dt) as (_ & _ & _ & _ & Hk). rewrite Hk.
  split; [| exact Hnd]. unfold physicsStep.
  pose proof (physicsLoop_keyed (wc_gravity (rc_worldConfig (config self))) dt
                (integrator self) (entities self) Hkey) as Hl.
  destruct (physicsLoop _ dt (integrator self) (entities self)) as [es integ]. exact Hl.
Qed.

Lemma registryKeyed_step (self self' : t) (actions : list Action) :
  registryKeyed self -> step self actions = inl self' -> registryKeyed self'.
Proof.
  intros Hreg. unfold step. cbv zeta.
  set (s0 := {| config := config self; entities := entities self;
                integrator := integrator self;
                deterministicRuntime := deterministicRuntime self; initialized := true;
                currentStep := currentStep self; simulationTime := simulationTime self;
                totalCollisions := totalCollisions self |}).
  assert (H0 : registryKeyed s0) by exact Hreg.
  pose proof (registryKeyed_processActions s0 actions H0) as H1.
  set (s1 := processActions s0 actions) in *.
  pose proof (registryKeyed_physicsStep s1 (rc_timestep (config s1)) H1) as H2.
  set (s2 := physicsStep s1 (rc_timestep (config s1))) in *.
  destruct (if orElse (rc_strictMode (config s2)) false then validateStability s2 else None);
    [discriminate |].
  intros [= <-]. exact H2.
Qed.

Lemma addEntities_config (self : t) (descriptors : list EntityDescriptor) :
  SimulationRuntime.config (addEntities self descriptors) = SimulationRuntime.config self.
Proof.
  unfold addEntities. revert self.
  induction descriptors as [| d ds IH]; intros self; cbn [List.fold_left]; [reflexivity |].
  now rewrite IH.
Qed.

(** Every runtime the interface can reach keeps its registry keyed by id:
    after the constructor, [addEntities] and any run that does not throw. *)
Theorem registry_stays_keyed (config : RuntimeConfig) (now : Z)
  (descriptors : list EntityDescriptor) (ticks : list (list Action)) :
  registryKeyed (addEntities (new config now) descriptors) /\
  match run (addEntities (new config now) descriptors) ticks with
  | inl self' => registryKeyed self'
  | inr _ => orElse (rc_strictMode config) false = true
  end.
Proof.
  pose proof (registryKeyed_addEntities (new config now) descriptors
                (registryKeyed_new config now)) as Hreg.
  split; [exact Hreg |].
  assert (Hcfg : SimulationRuntime.config (addEntities (new config now) descriptors) = config)
    by (rewrite addEntities_config; reflexivity).
  revert Hreg Hcfg. generalize (addEntities (new config now) descriptors).
  induction ticks as [| actions ticks IH]; intros self Hreg Hcfg; cbn [run]; [exact Hreg |].
  pose proof (step_outcome self actions) as Hout.
  destruct (step self actions) as [self1 | err] eqn:Estep.
  - destruct Hout as (_ & _ & Hc & _). apply IH.
    + exact (registryKeyed_step self self1 actions Hreg Estep).
    + now rewrite Hc.
  - now rewrite <- Hcfg.
Qed.

(** X24. [getState()] of a runtime whose registry is keyed by id: the snapshot
    holds the state of every entity under its id, in the order of the
    registry; it carries the step counter, the time and the entity count. *)
Theorem getState_snapshot (numberToString : float -> string) (now : float) (self : t) :
  registryKeyed self ->
  keyedById (getState numberToString now self) /\
  ss_entities (getState numberToString now self)
  = List.map (fun kv => (fst kv, Entity.getState (snd kv))) (entities self) /\
  (forall i : EntityId,
     JsMap.get (ss_entities (getState numberToString now self)) i = getEntityState self i) /\
  ss_step (getState numberToString now self) = getCurrentStep self /\
  ws_time (ss_worldState (getState numberToString now self)) = getSimulationTime self /\
  ws_activeEntityCount (ss_worldState (getState numberToString now self))
  = getEntityCount self.
Proof.
  intros [Hkey Hnd].
  assert (Hents : sb_entities
                    (List.fold_left
                       (fun builder entity =>
                          StateBuilderM.addEntity builder (Entity.getState entity))
                       (JsMap.values (entities self))
                       (StateBuilderM.setWorldState
                          (StateBuilderM.setStep
                             (StateBuilderM.setTimestamp
                                (StateBuilderM.setVersion (StateBuilderM.new now) 3) now)
                             (currentStep self))
                          {| pw_time := Some (simulationTime self);
                             pw_gravity := Some (wc_gravity (rc_worldConfig (config self)));
                             pw_bounds := Some (wc_bounds (rc_worldConfig (config self)));
                             pw_activeEntityCount := Some (JsMap.size (entities self));
                             pw_totalCollisions := Some (totalCollisions self) |}))
                  = List.map (fun kv => (fst kv, Entity.getState (snd kv))) (entities self)
                  /\ forall b0 : StateBuilder float,
                     let b := List.fold_left
                                (fun builder entity =>
                                   StateBuilderM.addEntity builder (Entity.getState entity))
                                (JsMap.values (entities self)) b0 in
                     sb_step b = sb_step b0 /\ sb_worldState b = sb_worldState b0).
  { split.
    - match goal with
      | |- sb_entities (List.fold_left _ _ ?b0) = _ =>
          assert (Hgen : forall b : StateBuilder float,
                    sb_entities
                      (List.fold_left
                         (fun builder entity =>
                            StateBuilderM.addEntity builder (Entity.getState entity))
                         (JsMap.values (entities self)) b)
                    = List.fold_left
                        (fun m e => JsMap.set m (Entity.id e) (Entity.getState e))
                        (JsMap.values (entities self)) (sb_entities b))
      end.
      { generalize (JsMap.values (entities self)). intros l.
        induction l as [| e l IH]; intros b; cbn [List.fold_left]; [reflexivity |].
        rewrite IH. reflexivity. }
      rewrite Hgen. cbn [sb_entities StateBuilderM.setWorldState StateBuilderM.setStep
                          StateBuilderM.setTimestamp StateBuilderM.setVersion StateBuilderM.new].
      rewrite (JsMap_fold_set_fresh Entity.id Entity.getState).
      + cbn [JsMap.empty app]. unfold JsMap.values. rewrite List.map_map.
        apply List.map_ext_in. intros kv Hin. rewrite List.Forall_forall in Hkey.
        now rewrite (Hkey kv Hin).
      + cbn [JsMap.empty JsMap.keys List.map app]. unfold JsMap.values. rewrite List.map_map.
        replace (List.map (fun kv => Entity.id (snd kv)) (entities self))
          with (JsMap.keys (entities self)); [exact Hnd |].
        unfold JsMap.keys. apply List.map_ext_in. intros kv Hin.
        rewrite List.Forall_forall in Hkey. exact (Hkey kv Hin).
    - generalize (JsMap.values (entities self)). intros l.
      induction l as [| e l IH]; intros b0; cbn [List.fold_left]; [split; reflexivity |].
      destruct (IH (StateBuilderM.addEntity b0 (Entity.getState e))) as [H1 H2].
      cbv zeta in *. rewrite H1, H2. split; reflexivity. }
  destruct Hents as [Hents Hrest].
  assert (Hnd' : List.NoDup
                   (JsMap.keys (List.map (fun kv => (fst kv, Entity.getState (snd kv)))
                                         (entities self)))).
  { unfold JsMap.keys. rewrite List.map_map. cbn [fst]. exact Hnd. }
  assert (Hss : ss_entities (getState numberToString now self)
                = List.map (fun kv => (fst kv, Entity.getState (snd kv))) (entities self)).
  { unfold getState. cbv zeta. unfold StateBuilderM.build. cbn [ss_entities].
    rewrite Hents. now apply JsMap_of_entries_id. }
  split; [| split; [exact Hss | split; [| split; [| split]]]].
  - unfold keyedById. rewrite Hss. split; [| exact Hnd'].
    rewrite List.Forall_forall in *. intros kv Hin. apply in_map_iff in Hin.
    destruct Hin as (kv0 & <- & Hin0). cbn [fst snd Entity.getState es_id]. now apply Hkey.
  - intros i. rewrite Hss. unfold getEntityState.
    apply (JsMap_get_map Entity.getState).
  - unfold getState, getCurrentStep. cbv zeta. unfold StateBuilderM.build. cbn [ss_step].
    match goal with |- sb_step (List.fold_left _ _ ?b0) = _ => destruct (Hrest b0) as [H1 _] end.
    cbv zeta in H1. rewrite H1. reflexivity.
  - unfold getState, getSimulationTime. cbv zeta. unfold StateBuilderM.build.
    cbn [ss_worldState ws_time].
    match goal with |- ws_time (sb_worldState (List.fold_left _ _ ?b0)) = _ =>
      destruct (Hrest b0) as [_ H2] end.
    cbv zeta in H2. rewrite H2. reflexivity.
  - unfold getState, getEntityCount. cbv zeta. unfold StateBuilderM.build.
    cbn [ss_worldState ws_activeEntityCount]. rewrite Hents.
    unfold JsMap.size. now rewrite List.length_map.
Qed.

End SnapshotOfRuntime.

Section ResetFacts.
Import SimulationRuntime.
Context `{Collation}.
Local Open Scope Z_scope.

Lemma replays_processActions (s1 s2 : t) (actions : list Action) :
  replays s1 s2 -> replays (processActions s1 actions) (processActions s2 actions).
Proof.
  unfold processActions. revert s1 s2.
  induction actions as [| action actions IH]; intros s1 s2 Hrep; cbn [List.fold_left];
    [exact Hrep |].
  apply IH. destruct Hrep as (Hc & He & Hi & Hs & Ht & Hn & Hd & Hh).
  rewrite He. destruct (JsMap.get (entities s2) (a_entityId action)) as [entity |].
  - unfold replays. cbn [with_entities config entities integrator currentStep simulationTime
                         totalCollisions deterministicRuntime].
    repeat split; assumption.
  - unfold replays. rewrite He. repeat split; assumption.
Qed.

Lemma replays_physicsStep (s1 s2 : t) (dt : float) :
  replays s1 s2 -> replays (physicsStep s1 dt) (physicsStep s2 dt).
Proof.
  intros (Hc & He & Hi & Hs & Ht & Hn & Hd & Hh). unfold physicsStep.
  rewrite Hc, He, Hi.
  destruct (physicsLoop _ dt (integrator s2) (entities s2)) as [es integ].
  unfold replays. cbn [config entities integrator currentStep simulationTime
                       totalCollisions deterministicRuntime].
  repeat split; assumption.
Qed.

Lemma replays_validateStability (s1 s2 : t) :
  replays s1 s2 -> validateStability s1 = validateStability s2.
Proof.
  intros (Hc & He & Hi & Hs & Ht & Hn & Hd & Hh). unfold validateStability.
  now rewrite He, Hs.
Qed.

Lemma replays_step (s1 s2 : t) (actions : list Action) :
  replays s1 s2 ->
  match step s1 actions, step s2 actions with
  | inl s1', inl s2' => replays s1' s2'
  | inr e1, inr e2 => e1 = e2
  | _, _ => False
  end.
Proof.
  intros Hrep. unfold step. cbv zeta.
  set (a1 := {| config := config s1; entities := entities s1; integrator := integrator s1;
                deterministicRuntime := deterministicRuntime s1; initialized := true;
                currentStep := currentStep s1; simulationTime := simulationTime s1;
                totalCollisions := totalCollisions s1 |}).
  set (a2 := {| config := config s2; entities := entities s2; integrator := integrator s2;
                deterministicRuntime := deterministicRuntime s2; initialized := true;
                currentStep := currentStep s2; simulationTime := simulationTime s2;
                totalCollisions := totalCollisions s2 |}).
  assert (H0 : replays a1 a2) by exact Hrep.
  pose proof (replays_processActions a1 a2 actions H0) as H1.
  set (b1 := processActions a1 actions) in *. set (b2 := processActions a2 actions) in *.
  assert (Hcb : config b1 = config b2) by apply H1.
  rewrite Hcb.
  pose proof (replays_physicsStep b1 b2 (rc_timestep (config b2)) H1) as H2.
  set (c1 := physicsStep b1 (rc_timestep (config b2))) in *.
  set (c2 := physicsStep b2 (rc_timestep (config b2))) in *.
  rewrite (replays_validateStability c1 c2 H2).
  destruct H2 as (Hc & He & Hi & Hs & Ht & Hn & Hd & Hh). rewrite Hc.
  destruct (if orElse (rc_strictMode (config c2)) false then validateStability c2 else None);
    [reflexivity |].
  unfold replays, DeterministicRuntimeM.recordStepHash, computeStepHash.
  cbn [config entities integrator currentStep simulationTime totalCollisions
       deterministicRuntime].
  rewrite He, Hi, Hs, Ht, Hn, Hd.
  destruct (validateDeterminism (dr_config (deterministicRuntime c2)));
    cbn [dr_config dr_stepHashes]; rewrite ?Hh, ?Hd; repeat split.
Qed.

Lemma replays_run (s1 s2 : t) (ticks : list (list Action)) :
  replays s1 s2 -> recorded (run s1 ticks) = recorded (run s2 ticks).
Proof.
  revert s1 s2. induction ticks as [| actions ticks IH]; intros s1 s2 Hrep; cbn [run].
  - destruct Hrep as (_ & _ & _ & _ & _ & _ & _ & Hh).
    unfold recorded, getDeterministicHash, DeterministicRuntimeM.getStepHashes,
      DeterministicRuntimeM.computeFinalHash. now rewrite Hh.
  - pose proof (replays_step s1 s2 actions Hrep) as Hstep.
    destruct (step s1 actions) as [s1' | e1], (step s2 actions) as [s2' | e2];
      try contradiction.
    + now apply IH.
    + reflexivity.
Qed.

Lemma replays_addEntities (s1 s2 : t) (descriptors : list EntityDescriptor) :
  replays s1 s2 -> replays (addEntities s1 descriptors) (addEntities s2 descriptors).
Proof.
  unfold addEntities. revert s1 s2.
  induction descriptors as [| d ds IH]; intros s1 s2 Hrep; cbn [List.fold_left];
    [exact Hrep |].
  apply IH. destruct Hrep as (Hc & He & Hi & Hs & Ht & Hn & Hd & Hh).
  unfold replays, addEntity.
  cbn [with_entities config entities integrator currentStep simulationTime totalCollisions
       deterministicRuntime].
  rewrite He. repeat split; assumption.
Qed.

Lemma physicsLoop_stateless (gravity : Vector3 float) (dt : float) (integ : Integrator float)
  (es : list (string * Entity.t)) :
  integ_type integ <> verlet -> snd (physicsLoop gravity dt integ es) = integ.
Proof.
  intros Hty. induction es as [| [k entity] es IH]; cbn [physicsLoop]; [reflexivity |].
  assert (He : snd (physicsEntity gravity dt integ entity) = integ).
  { unfold physicsEntity.
    destruct (String.eqb (Entity._status entity) "disabled"); [reflexivity |].
    destruct (String.eqb (Entity.type entity) "obstacle"); [reflexivity |].
    unfold Integrator_integrate.
    destruct (integ_type integ); try contradiction; reflexivity. }
  destruct (physicsEntity gravity dt integ entity) as [entity' integ1].
  cbn [snd] in He. subst integ1.
  destruct (physicsLoop gravity dt integ es) as [rest' integ2]. exact IH.
Qed.

Lemma step_stateless (self self' : t) (actions : list Action) :
  integ_type (integrator self) <> verlet ->
  step self actions = inl self' -> integrator self' = integrator self.
Proof.
  intros Hty. unfold step. cbv zeta.
  set (s0 := {| config := config self; entities := entities self;
                integrator := integrator self;
                deterministicRuntime := deterministicRuntime self; initialized := true;
                currentStep := currentStep self; simulationTime := simulationTime self;
                totalCollisions := totalCollisions self |}).
  destruct (processActions_frame s0 actions) as (_ & Hi & _).
  set (s1 := processActions s0 actions) in *.
  assert (H2 : integrator (physicsStep s1 (rc_timestep (config s1))) = integrator self).
  { unfold physicsStep.
    pose proof (physicsLoop_stateless (wc_gravity (rc_worldConfig (config s1)))
                  (rc_timestep (config s1)) (integrator s1) (entities s1)) as Hl.
    destruct (physicsLoop _ _ (integrator s1) (entities s1)) as [es integ].
    cbn [integrator snd] in *. rewrite Hl; [exact Hi |]. rewrite Hi. exact Hty. }
  set (s2 := physicsStep s1 (rc_timestep (config s1))) in *.
  destruct (if orElse (rc_strictMode (config s2)) false then validateStability s2 else None);
    [discriminate |].
  intros [= <-]. exact H2.
Qed.

Lemma run_stateless (self self' : t) (ticks : list (list Action)) :
  integ_type (integrator self) <> verlet ->
  run self ticks = inl self' ->
  integrator self' = integrator self /\ config self' = config self /\
  dr_config (deterministicRuntime self') = dr_config (deterministicRuntime self).
Proof.
  revert self. induction ticks as [| actions ticks IH]; intros self Hty; cbn [run].
  - intros [= <-]. repeat split.
  - pose proof (step_outcome self actions) as Hout.
    destruct (step self actions) as [self1 | err] eqn:Estep; [| discriminate].
    destruct Hout as (_ & _ & Hc & Hd & _).
    pose proof (step_stateless self self1 actions Hty Estep) as Hi.
    intros Hrun. destruct (IH self1) as (Hi' & Hc' & Hd'); [now rewrite Hi | exact Hrun |].
    rewrite Hi', Hc', Hd'. repeat split; assumption.
Qed.

Lemma addEntities_frame (self : t) (descriptors : list EntityDescriptor) :
  integrator (addEntities self descriptors) = integrator self /\
  deterministicRuntime (addEntities self descriptors) = deterministicRuntime self.
Proof.
  unfold addEntities. revert self.
  induction descriptors as [| d ds IH]; intros self; cbn [List.fold_left]; [split; reflexivity |].
  destruct (IH (addEntity self d)) as [Hi Hd]. rewrite Hi, Hd. split; reflexivity.
Qed.

(** X25. [reset()] replays: with an integrator other than Verlet, a runtime that
    has run and is reset records, for the same entities and the same ticks,
    the step hashes and the final hash that a new runtime records. *)
Theorem reset_replays (config : RuntimeConfig) (now0 now1 : Z)
  (descriptors0 descriptors : list EntityDescriptor) (ticks0 ticks : list (list Action))
  (self : t) :
  orElse (rc_integrator config) semi_implicit_euler <> verlet ->
  run (addEntities (new config now0) descriptors0) ticks0 = inl self ->
  recorded (run (addEntities (reset self) descriptors) ticks)
  = recorded (run (addEntities (new config now1) descriptors) ticks).
Proof.
  intros Hty Hrun.
  apply replays_run, replays_addEntities.
  assert (H0 : integrator (addEntities (new config now0) descriptors0)
               = createIntegrator (orElse (rc_integrator config) semi_implicit_euler) /\
               dr_config (deterministicRuntime (addEntities (new config now0) descriptors0))
               = dr_config (deterministicRuntime (new config now1))).
  { destruct (addEntities_frame (new config now0) descriptors0) as [Hi Hd].
    rewrite Hi, Hd. split; reflexivity. }
  destruct H0 as [Hi0 Hd0].
  destruct (run_stateless _ _ _ ltac:(rewrite Hi0; exact Hty) Hrun) as (Hi & Hc & Hd).
  rewrite addEntities_config in Hc.
  unfold replays, reset.
  cbn [SimulationRuntime.config entities integrator currentStep simulationTime totalCollisions
       deterministicRuntime DeterministicRuntimeM.reset dr_config dr_stepHashes].
  rewrite Hi, Hi0, Hc, Hd, Hd0. repeat split.
Qed.

End ResetFacts.

(** ** Snapshots: the compact form, copies and differences *)

Section SnapshotUtilities.
Context {num : Type} `{Number num}.

Lemma serialize_deserialize_entity (e : SerializedEntity num) :
  serializeEntity (deserializeEntity e) = e.
Proof.
  destruct e as [i [[p0 p1] p2] [[[r0 r1] r2] r3] [[v0 v1] v2] st]. reflexivity.
Qed.

(** X26. The compact form comes back unchanged from [deserializeState] and
    [serializeState] when its entities have distinct ids. *)
Theorem deserialize_serialize (data : SerializedState num) :
  List.NoDup (List.map se_id (sd_entities data)) ->
  serializeState (deserializeState data) = data.
Proof.
  intros Hnd. destruct data as [v ts step ents [time [[g0 g1] g2] collisions] hash].
  cbn [sd_entities] in Hnd.
  unfold deserializeState, serializeState.
  cbn [sd_v sd_ts sd_step sd_entities sd_world sd_hash sw_gravity sw_time sw_collisions
       ss_version ss_timestamp ss_step ss_entities ss_worldState ss_hash
       ws_time ws_gravity ws_totalCollisions Vector3.x Vector3.y Vector3.z].
  rewrite (JsMap_fold_set_fresh se_id deserializeEntity) by exact Hnd.
  cbn [JsMap.empty app]. unfold JsMap.values. rewrite !List.map_map. cbn [snd].
  f_equal. rewrite <- (List.map_id ents) at 2. apply List.map_ext.
  intros e. apply serialize_deserialize_entity.
Qed.

Lemma diffStates_visit_fold (before : StateSnapshot num)
  (entries : list (EntityId * EntityState num)) (added0 modified0 : list EntityId) :
  List.fold_left (diffStates_visit before) entries (added0, modified0)
  = ((added0 ++ List.map fst
        (List.filter (fun e => negb (JsMap.has (ss_entities before) (fst e))) entries))%list,
     (modified0 ++ List.map fst
        (List.filter
           (fun e => match JsMap.get (ss_entities before) (fst e) with
                     | Some beforeEntity => negb (entityStatesEqual beforeEntity (snd e))
                     | None => false
                     end) entries))%list).
Proof.
  revert added0 modified0.
  induction entries as [| [id afterEntity] entries IH]; intros added0 modified0;
    cbn [List.fold_left List.filter List.map fst snd].
  - now rewrite !app_nil_r.
  - unfold diffStates_visit at 2. unfold JsMap.has.
    destruct (JsMap.get (ss_entities before) id) as [beforeEntity |]; cbn [negb].
    + destruct (entityStatesEqual beforeEntity afterEntity); cbn [negb List.map fst];
        rewrite IH; [reflexivity |]. now rewrite <- app_assoc.
    + rewrite IH. cbn [List.map fst]. now rewrite <- app_assoc.
Qed.

Lemma removed_fold (after : StateSnapshot num) (ids removed0 : list EntityId) :
  List.fold_left
    (fun removed id =>
       if negb (JsMap.has (ss_entities after) id) then (removed ++ [id])%list else removed)
    ids removed0
  = (removed0 ++ List.filter (fun id => negb (JsMap.has (ss_entities after) id)) ids)%list.
Proof.
  revert removed0. induction ids as [| id ids IH]; intros removed0;
    cbn [List.fold_left List.filter].
  - now rewrite app_nil_r.
  - destruct (negb (JsMap.has (ss_entities after) id)); rewrite IH; [| reflexivity].
    now rewrite <- app_assoc.
Qed.

Lemma diffStates_lists (before after : StateSnapshot num) :
  added (diffStates before after)
  = List.filter (fun id => negb (JsMap.has (ss_entities before) id))
                (JsMap.keys (ss_entities after)) /\
  removed (diffStates before after)
  = List.filter (fun id => negb (JsMap.has (ss_entities after) id))
                (JsMap.keys (ss_entities before)) /\
  modified (diffStates before after)
  = List.map fst
      (List.filter
         (fun e => match JsMap.get (ss_entities before) (fst e) with
                   | Some beforeEntity => negb (entityStatesEqual beforeEntity (snd e))
                   | None => false
                   end) (JsMap.entries (ss_entities after))).
Proof.
  unfold diffStates. rewrite diffStates_visit_fold, removed_fold.
  cbn [added removed modified app]. repeat split.
  unfold JsMap.keys, JsMap.entries.
  induction (ss_entities after) as [| [k v] m IH]; cbn [List.map List.filter fst];
    [reflexivity |].
  destruct (negb (JsMap.has (ss_entities before) k)); cbn [List.map fst]; now rewrite IH.
Qed.

(** X27. What [diffStates] lists: as added the ids of [after] that [before] does
    not hold, as removed the ids of [before] that [after] does not hold, as
    modified the ids whose two states differ in status, position or
    velocity; and what one direction adds the other removes. *)
Theorem diffStates_spec (before after : StateSnapshot num) (i : EntityId) :
  (List.In i (added (diffStates before after))
   <-> List.In i (JsMap.keys (ss_entities after)) /\ JsMap.get (ss_entities before) i = None) /\
  (List.In i (removed (diffStates before after))
   <-> List.In i (JsMap.keys (ss_entities before)) /\ JsMap.get (ss_entities after) i = None) /\
  (List.In i (modified (diffStates before after))
   <-> exists a b : EntityState num,
         List.In (i, b) (JsMap.entries (ss_entities after)) /\
         JsMap.get (ss_entities before) i = Some a /\
         entityStatesEqual a b = false) /\
  added (diffStates before after) = removed (diffStates after before) /\
  stepDelta (diffStates after before) = (- stepDelta (diffStates before after))%Z.
Proof.
  destruct (diffStates_lists before after) as (Ha & Hr & Hm).
  destruct (diffStates_lists after before) as (_ & Hr' & _).
  rewrite Ha, Hr, Hm, Hr'.
  split; [| split; [| split; [| split]]].
  - rewrite List.filter_In. unfold JsMap.has.
    destruct (JsMap.get (ss_entities before) i); cbn [negb]; intuition congruence.
  - rewrite List.filter_In. unfold JsMap.has.
    destruct (JsMap.get (ss_entities after) i); cbn [negb]; intuition congruence.
  - rewrite List.in_map_iff. split.
    + intros ([k b] & Hk & Hin). cbn [fst] in Hk. subst k.
      apply List.filter_In in Hin. destruct Hin as [Hin Htest]. cbn [fst snd] in Htest.
      destruct (JsMap.get (ss_entities before) i) as [a |]; [| discriminate].
      exists a, b. repeat split; [exact Hin |]. now apply negb_true_iff.
    + intros (a & b & Hin & Hget & Hne). exists (i, b). split; [reflexivity |].
      apply List.filter_In. split; [exact Hin |]. cbn [fst snd]. rewrite Hget.
      now apply negb_true_iff.
  - reflexivity.
  - unfold diffStates.
    destruct (List.fold_left (diffStates_visit after) _ _) as [a1 m1].
    destruct (List.fold_left (diffStates_visit before) _ _) as [a2 m2].
    cbn [stepDelta]. lia.
Qed.

End SnapshotUtilities.

Section SnapshotCopies.

Lemma float_eqb_refl (x : float) : (x =? x)%js = negb (JsMath.isNaN x).
Proof.
  unfold JsMath.isNaN, PrimFloat.is_nan. cbn [neqb Number_float]. now rewrite negb_involutive.
Qed.

Lemma entityStatesEqual_copy (e : EntityState float) :
  entityStatesEqual e (copyEntityState e) = negb (holdsNaN e).
Proof.
  unfold entityStatesEqual, copyEntityState, holdsNaN, Vec3.isNaN.
  cbn [es_status es_transform es_velocity]. rewrite String.eqb_refl. cbn [negb].
  rewrite !float_eqb_refl.
  destruct (JsMath.isNaN (Vector3.x (position (es_transform e)))),
           (JsMath.isNaN (Vector3.y (position (es_transform e)))),
           (JsMath.isNaN (Vector3.z (position (es_transform e)))),
           (JsMath.isNaN (Vector3.x (es_velocity e))),
           (JsMath.isNaN (Vector3.y (es_velocity e))),
           (JsMath.isNaN (Vector3.z (es_velocity e))); reflexivity.
Qed.

Lemma cloneState_entities (s : StateSnapshot float) :
  List.NoDup (JsMap.keys (ss_entities s)) ->
  ss_entities (cloneState s)
  = List.map (fun kv => (fst kv, copyEntityState (snd kv))) (ss_entities s).
Proof.
  intros Hnd. unfold cloneState. cbn [ss_entities]. unfold JsMap.entries.
  apply JsMap_of_entries_id. unfold JsMap.keys. rewrite List.map_map. exact Hnd.
Qed.

(** X28. A snapshot compared with its own copy: nothing is added or removed and
    the counters do not move, but every entity that holds a [NaN] in its
    position or velocity is listed as modified, and no other. *)
Theorem diffStates_cloneState (s : StateSnapshot float) (i : EntityId) :
  List.NoDup (JsMap.keys (ss_entities s)) ->
  added (diffStates s (cloneState s)) = [] /\
  removed (diffStates s (cloneState s)) = [] /\
  stepDelta (diffStates s (cloneState s)) = 0%Z /\
  collisionDelta (diffStates s (cloneState s)) = 0%Z /\
  (List.In i (modified (diffStates s (cloneState s)))
   <-> exists e : EntityState float,
         JsMap.get (ss_entities s) i = Some e /\ holdsNaN e = true).
Proof.
  intros Hnd.
  destruct (diffStates_lists s (cloneState s)) as (Ha & Hr & Hm).
  rewrite Ha, Hr, Hm. rewrite (cloneState_entities s Hnd).
  assert (Hhas : forall k, JsMap.has (List.map (fun kv => (fst kv, copyEntityState (snd kv)))
                                               (ss_entities s)) k
                           = JsMap.has (ss_entities s) k).
  { intros k. unfold JsMap.has. rewrite (JsMap_get_map copyEntityState).
    destruct (JsMap.get (ss_entities s) k); reflexivity. }
  split; [| split; [| split; [| split]]].
  - apply filter_none. intros k Hin. unfold JsMap.keys in Hin.
    rewrite List.map_map in Hin. cbn [fst] in Hin.
    unfold JsMap.has. destruct (JsMap.get (ss_entities s) k) eqn:E; [reflexivity |].
    apply JsMap_get_None in E. contradiction.
  - apply filter_none. intros k Hin. rewrite Hhas.
    unfold JsMap.has. destruct (JsMap.get (ss_entities s) k) eqn:E; [reflexivity |].
    apply JsMap_get_None in E. contradiction.
  - unfold diffStates.
    destruct (List.fold_left (diffStates_visit s) _ _) as [a1 m1].
    cbn [stepDelta cloneState ss_step]. lia.
  - unfold diffStates.
    destruct (List.fold_left (diffStates_visit s) _ _) as [a1 m1].
    cbn [collisionDelta cloneState ss_worldState ws_totalCollisions]. lia.
  - unfold JsMap.entries. rewrite List.in_map_iff. split.
    + intros ([k b] & Hk & Hin). cbn [fst] in Hk. subst k.
      apply List.filter_In in Hin. destruct Hin as [Hin Htest]. cbn [fst snd] in Htest.
      apply in_map_iff in Hin. destruct Hin as ([k e] & Heq & Hin). cbn [fst snd] in Heq.
      injection Heq as -> <-.
      rewrite (JsMap_In_get _ _ _ Hnd Hin) in Htest.
      exists e. split; [now apply JsMap_In_get |].
      rewrite entityStatesEqual_copy, negb_involutive in Htest. exact Htest.
    + intros (e & Hget & Hnan). exists (i, copyEntityState e). split; [reflexivity |].
      apply List.filter_In. split.
      * apply in_map_iff. exists (i, e). split; [reflexivity | now apply JsMap_get_In].
      * cbn [fst snd]. rewrite Hget, entityStatesEqual_copy, negb_involutive. exact Hnan.
Qed.

End SnapshotCopies.

(** ** The integrators under a constant acceleration *)

Section Trajectories.
Local Open Scope Q_scope.

Lemma steps_S (n : nat) : steps (S n) == steps n + 1.
Proof.
  unfold steps. rewrite Nat2Z.inj_succ. unfold Z.succ. now rewrite inject_Z_plus.
Qed.

Lemma euler_trajectory (n : nat) (p v a : Vector3 Q) (dt : Q) :
  V3eq (ir_velocity (fst (integrateN n (createIntegrator euler) p v a dt)))
       (Vec3.add v (Vec3.mul a (steps n * dt))) /\
  V3eq (ir_position (fst (integrateN n (createIntegrator euler) p v a dt)))
       (displaced p v a (steps n * dt) (steps n * (steps n - 1) / 2 * (dt * dt))).
Proof.
  revert p v. induction n as [| n IH]; intros p v.
  - destruct p, v, a. unfold V3eq, displaced, steps; cbn. repeat split; field.
  - destruct a as [ax ay az]. cbn [integrateN Integrator_integrate integ_type createIntegrator].
    match goal with
    | |- context [integrateN _ _ ?p1 ?v1 _ _] =>
        destruct (IH p1 v1) as ((Hvx & Hvy & Hvz) & (Hpx & Hpy & Hpz))
    end.
    pose proof (steps_S n) as HS.
    set (m := steps n) in *. clearbody m. set (sn := steps (S n)) in *. clearbody sn.
    unfold V3eq.
    repeat split;
      [ rewrite Hvx | rewrite Hvy | rewrite Hvz | rewrite Hpx | rewrite Hpy | rewrite Hpz ];
      cbn; unfold dec; cbn; rewrite HS; field.
Qed.

Lemma semi_implicit_trajectory (n : nat) (p v a : Vector3 Q) (dt : Q) :
  V3eq (ir_velocity (fst (integrateN n (createIntegrator semi_implicit_euler) p v a dt)))
       (Vec3.add v (Vec3.mul a (steps n * dt))) /\
  V3eq (ir_position (fst (integrateN n (createIntegrator semi_implicit_euler) p v a dt)))
       (displaced p v a (steps n * dt) (steps n * (steps n + 1) / 2 * (dt * dt))).
Proof.
  revert p v. induction n as [| n IH]; intros p v.
  - destruct p, v, a. unfold V3eq, displaced, steps; cbn. repeat split; field.
  - destruct a as [ax ay az]. cbn [integrateN Integrator_integrate integ_type createIntegrator].
    match goal with
    | |- context [integrateN _ _ ?p1 ?v1 _ _] =>
        destruct (IH p1 v1) as ((Hvx & Hvy & Hvz) & (Hpx & Hpy & Hpz))
    end.
    pose proof (steps_S n) as HS.
    set (m := steps n) in *. clearbody m. set (sn := steps (S n)) in *. clearbody sn.
    unfold V3eq.
    repeat split;
      [ rewrite Hvx | rewrite Hvy | rewrite Hvz | rewrite Hpx | rewrite Hpy | rewrite Hpz ];
      cbn; unfold dec; cbn; rewrite HS; field.
Qed.

Lemma rk4_trajectory (n : nat) (p v a : Vector3 Q) (dt : Q) :
  V3eq (ir_velocity (fst (integrateN n (createIntegrator rk4) p v a dt)))
       (Vec3.add v (Vec3.mul a (steps n * dt))) /\
  V3eq (ir_position (fst (integrateN n (createIntegrator rk4) p v a dt)))
       (displaced p v a (steps n * dt) (steps n * steps n / 2 * (dt * dt))).
Proof.
  revert p v. induction n as [| n IH]; intros p v.
  - destruct p, v, a. unfold V3eq, displaced, steps; cbn. repeat split; field.
  - destruct a as [ax ay az]. cbn [integrateN Integrator_integrate integ_type createIntegrator].
    match goal with
    | |- context [integrateN _ _ ?p1 ?v1 _ _] =>
        destruct (IH p1 v1) as ((Hvx & Hvy & Hvz) & (Hpx & Hpy & Hpz))
    end.
    pose proof (steps_S n) as HS.
    set (m := steps n) in *. clearbody m. set (sn := steps (S n)) in *. clearbody sn.
    unfold V3eq.
    repeat split;
      [ rewrite Hvx | rewrite Hvy | rewrite Hvz | rewrite Hpx | rewrite Hpy | rewrite Hpz ];
      cbn; unfold dec; cbn; rewrite HS; field.
Qed.

(** A Verlet integrator that has already seen the acceleration. *)
Lemma verlet_steady (n : nat) (p v : Vector3 Q) (ax ay az : Q) (dt : Q) :
  V3eq (ir_velocity (fst (integrateN n {| integ_type := verlet;
                                          prevAcceleration := Vector3.mk ax ay az |}
                                     p v (Vector3.mk ax ay az) dt)))
       (Vec3.add v (Vec3.mul (Vector3.mk ax ay az) (steps n * dt))) /\
  V3eq (ir_position (fst (integrateN n {| integ_type := verlet;
                                          prevAcceleration := Vector3.mk ax ay az |}
                                     p v (Vector3.mk ax ay az) dt)))
       (displaced p v (Vector3.mk ax ay az) (steps n * dt) (steps n * steps n / 2 * (dt * dt))).
Proof.
  revert p v. induction n as [| n IH]; intros p v.
  - destruct p, v. unfold V3eq, displaced, steps; cbn. repeat split; field.
  - cbn [integrateN Integrator_integrate integ_type prevAcceleration].
    unfold VerletIntegrator.integrate. cbv zeta.
    cbn [is_acceleration Vec3.clone Vector3.x Vector3.y Vector3.z].
    match goal with
    | |- context [integrateN _ _ ?p1 ?v1 _ _] =>
        destruct (IH p1 v1) as ((Hvx & Hvy & Hvz) & (Hpx & Hpy & Hpz))
    end.
    pose proof (steps_S n) as HS.
    set (m := steps n) in *. clearbody m. set (sn := steps (S n)) in *. clearbody sn.
    unfold V3eq.
    repeat split;
      [ rewrite Hvx | rewrite Hvy | rewrite Hvz | rewrite Hpx | rewrite Hpy | rewrite Hpz ];
      cbn; unfold dec; cbn; rewrite HS; field.
Qed.

(** X29. Where [n] steps under a constant acceleration [a] take a body, in
    exact arithmetic.  Every integrator but Verlet brings the velocity to
    [v + n a dt]; they differ in the share of [a dt^2] the position gets.  A
    fresh Verlet integrator averages the first acceleration with zero, and
    its velocity stays half a step behind for the rest of the run. *)
Theorem constant_acceleration_trajectories (n : nat) (p v a : Vector3 Q) (dt : Q) :
  V3eq (ir_velocity (trajectory euler n p v a dt)) (Vec3.add v (Vec3.mul a (steps n * dt))) /\
  V3eq (ir_position (trajectory euler n p v a dt))
       (displaced p v a (steps n * dt) (steps n * (steps n - 1) / 2 * (dt * dt))) /\
  V3eq (ir_velocity (trajectory semi_implicit_euler n p v a dt))
       (Vec3.add v (Vec3.mul a (steps n * dt))) /\
  V3eq (ir_position (trajectory semi_implicit_euler n p v a dt))
       (displaced p v a (steps n * dt) (steps n * (steps n + 1) / 2 * (dt * dt))) /\
  V3eq (ir_velocity (trajectory rk4 n p v a dt)) (Vec3.add v (Vec3.mul a (steps n * dt))) /\
  V3eq (ir_position (trajectory rk4 n p v a dt))
       (displaced p v a (steps n * dt) (steps n * steps n / 2 * (dt * dt))) /\
  V3eq (ir_velocity (trajectory verlet (S n) p v a dt))
       (Vec3.add v (Vec3.mul a ((steps n + (1 # 2)) * dt))) /\
  V3eq (ir_position (trajectory verlet (S n) p v a dt))
       (displaced p v a (steps (S n) * dt)
                  ((steps n * steps n + steps n + 1) / 2 * (dt * dt))).
Proof.
  unfold trajectory.
  destruct (euler_trajectory n p v a dt) as [He1 He2].
  destruct (semi_implicit_trajectory n p v a dt) as [Hs1 Hs2].
  destruct (rk4_trajectory n p v a dt) as [Hr1 Hr2].
  repeat (split; [assumption |]).
  destruct a as [ax ay az].
  cbn [integrateN Integrator_integrate integ_type createIntegrator prevAcceleration].
  unfold VerletIntegrator.integrate. cbv zeta.
  cbn [is_acceleration Vec3.clone Vector3.x Vector3.y Vector3.z].
  match goal with
  | |- context [integrateN _ _ ?p1 ?v1 _ _] =>
      destruct (verlet_steady n p1 v1 ax ay az dt) as ((Hvx & Hvy & Hvz) & (Hpx & Hpy & Hpz))
  end.
  pose proof (steps_S n) as HS.
  set (m := steps n) in *. clearbody m. set (sn := steps (S n)) in *. clearbody sn.
  destruct p as [px py pz], v as [vx vy vz].
  unfold V3eq.
  repeat split;
    [ rewrite Hvx | rewrite Hvy | rewrite Hvz | rewrite Hpx | rewrite Hpy | rewrite Hpz ];
    cbn; unfold dec; cbn; rewrite ?HS; field.
Qed.

End Trajectories.

(** ** The properties of the loop and of the snapshots at sample inputs *)

Section RuntimeSamples.
Import SimulationRuntime.
#[local] Existing Instance codeUnitCollation.
Local Open Scope Z_scope.

Lemma step_keeps_skipped_witness :
  getEntity (session euler [drone1; wall1]) "wall-1" = Some (createEntity wall1) /\
  skipped (createEntity wall1) = true /\
  List.Forall (fun action => a_entityId action <> "wall-1"%string) [stopDrone1] /\
  match step (session euler [drone1; wall1]) [stopDrone1] with
  | inl self' => getEntity self' "wall-1" = Some (createEntity wall1)
  | inr _ => orElse (rc_strictMode (config (session euler [drone1; wall1]))) false = true
  end.
Proof.
  assert (H1 : getEntity (session euler [drone1; wall1]) "wall-1" = Some (createEntity wall1))
    by reflexivity.
  assert (H2 : skipped (createEntity wall1) = true) by reflexivity.
  assert (H3 : List.Forall (fun action => a_entityId action <> "wall-1"%string) [stopDrone1])
    by (constructor; [discriminate | constructor]).
  split; [exact H1 |]. split; [exact H2 |]. split; [exact H3 |].
  exact (step_keeps_skipped (session euler [drone1; wall1]) [stopDrone1] "wall-1"
           (createEntity wall1) H1 H2 H3).
Defined.

Lemma registryKeyed_session : registryKeyed (session euler [drone1; robot1]).
Proof.
  split.
  - repeat constructor.
  - repeat constructor; cbn; intuition discriminate.
Qed.

Lemma removeEntity_spec_witness :
  registryKeyed (session euler [drone1; robot1]) /\
  fst (removeEntity (session euler [drone1; robot1]) "drone-1")
  = JsMap.has (entities (session euler [drone1; robot1])) "drone-1" /\
  getEntity (snd (removeEntity (session euler [drone1; robot1]) "drone-1")) "drone-1" = None /\
  getEntityCount (snd (removeEntity (session euler [drone1; robot1]) "drone-1"))
  = getEntityCount (session euler [drone1; robot1])
    - (if fst (removeEntity (session euler [drone1; robot1]) "drone-1") then 1 else 0) /\
  ("drone-1"%string <> "robot-1"%string ->
   getEntity (snd (removeEntity (session euler [drone1; robot1]) "drone-1")) "robot-1"
   = getEntity (session euler [drone1; robot1]) "robot-1") /\
  registryKeyed (snd (removeEntity (session euler [drone1; robot1]) "drone-1")).
Proof.
  split; [exact registryKeyed_session |].
  exact (removeEntity_spec (session euler [drone1; robot1]) "drone-1" "robot-1"
           registryKeyed_session).
Defined.

Lemma getState_snapshot_witness :
  registryKeyed (session euler [drone1; robot1]) /\
  keyedById (getState constantDigits 0%float (session euler [drone1; robot1])) /\
  ss_entities (getState constantDigits 0%float (session euler [drone1; robot1]))
  = List.map (fun kv => (fst kv, Entity.getState (snd kv)))
             (entities (session euler [drone1; robot1])) /\
  (forall i : EntityId,
     JsMap.get (ss_entities (getState constantDigits 0%float (session euler [drone1; robot1]))) i
     = getEntityState (session euler [drone1; robot1]) i) /\
  ss_step (getState constantDigits 0%float (session euler [drone1; robot1]))
  = getCurrentStep (session euler [drone1; robot1]) /\
  ws_time (ss_worldState (getState constantDigits 0%float (session euler [drone1; robot1])))
  = getSimulationTime (session euler [drone1; robot1]) /\
  ws_activeEntityCount
    (ss_worldState (getState constantDigits 0%float (session euler [drone1; robot1])))
  = getEntityCount (session euler [drone1; robot1]).
Proof.
  split; [exact registryKeyed_session |].
  exact (getState_snapshot constantDigits 0%float (session euler [drone1; robot1])
           registryKeyed_session).
Defined.

Lemma reset_replays_witness :
  orElse (rc_integrator (strictConfig euler)) semi_implicit_euler <> verlet /\
  run (addEntities (new (strictConfig euler) 0) [drone1]) (emptyTicks 2) = inl afterTwoTicks /\
  recorded (run (addEntities (reset afterTwoTicks) [robot1]) (emptyTicks 1))
  = recorded (run (addEntities (new (strictConfig euler) 5) [robot1]) (emptyTicks 1)).
Proof.
  assert (H1 : orElse (rc_integrator (strictConfig euler)) semi_implicit_euler <> verlet)
    by discriminate.
  assert (H2 : run (addEntities (new (strictConfig euler) 0) [drone1]) (emptyTicks 2)
               = inl afterTwoTicks) by (vm_compute; reflexivity).
  split; [exact H1 |]. split; [exact H2 |].
  exact (reset_replays (strictConfig euler) 0 5 [drone1] [robot1] (emptyTicks 2) (emptyTicks 1)
           afterTwoTicks H1 H2).
Defined.

Lemma deserialize_serialize_witness :
  List.NoDup (List.map se_id (sd_entities (serializeState sampleSnapshot))) /\
  serializeState (deserializeState (serializeState sampleSnapshot))
  = serializeState sampleSnapshot.
Proof.
  assert (H : List.NoDup (List.map se_id (sd_entities (serializeState sampleSnapshot))))
    by (repeat constructor; cbn; intuition discriminate).
  split; [exact H |].
  exact (deserialize_serialize (serializeState sampleSnapshot) H).
Defined.

Lemma diffStates_cloneState_witness :
  List.NoDup (JsMap.keys (ss_entities sampleSnapshot)) /\
  added (diffStates sampleSnapshot (cloneState sampleSnapshot)) = [] /\
  removed (diffStates sampleSnapshot (cloneState sampleSnapshot)) = [] /\
  stepDelta (diffStates sampleSnapshot (cloneState sampleSnapshot)) = 0 /\
  collisionDelta (diffStates sampleSnapshot (cloneState sampleSnapshot)) = 0 /\
  (List.In "drone-1"%string (modified (diffStates sampleSnapshot (cloneState sampleSnapshot)))
   <-> exists e : EntityState float,
         JsMap.get (ss_entities sampleSnapshot) "drone-1" = Some e /\ holdsNaN e = true).
Proof.
  assert (H : List.NoDup (JsMap.keys (ss_entities sampleSnapshot)))
    by (repeat constructor; cbn; intuition discriminate).
  split; [exact H |].
  exact (diffStates_cloneState sampleSnapshot "drone-1" H).
Defined.

End RuntimeSamples.
